(** * Graph-search engine of the graph visualiser: adjacency builder and
      the BFS, DFS, Dijkstra and A* runners

    Shallow embedding of [client/src/lib/algorithms.ts] (the two server
    storage classes carry the same four runners over an adjacency list built
    by the same helper).

    Conventions of the embedding.
    - A JavaScript [number] is an integer [Z] (weights, coordinates) or, for
      the distance and score tables, a [num]: [Fin z], [Infinity] or [NaN].
    - A [Record<string, T>] is a [gmap string T]; reading an absent key is
      [None], the JavaScript [undefined].  The table and the object agree
      on the keys that are [plain]: an object inherits the properties of
      [Object.prototype], so that reading [object["toString"]] finds a
      function where the table has nothing, and writing a number or [null]
      to [object["__proto__"]] creates no key.  The statements that depend
      on a table read or written at an id ask for plain ids.
    - The sums of the distance and score tables are exact, as the sums of
      the code are while they stay within the integers a double holds
      exactly; the statements that depend on a sum ask for weights
      ([exact_weights]) and coordinates ([exact_coordinates]) in that
      range.
    - A [Set<string>] is the list of its members in insertion order.
    - An optional field of a record is an [option].
    - A [throw], written or raised by the runtime on [undefined], is the
      [Throw] outcome.  The [while] loops are run on a fuel computed from the
      size of the input; [OutOfFuel] is shown never to be the outcome. *)

From Stdlib Require Import ZArith Lia.
From stdpp Require Import base option list strings gmap pretty.

(** ** Values of [shared/schema.ts] *)

Record Node := mkNode {
  node_id : string;
  node_label : string;
  node_x : option Z;
  node_y : option Z;
  node_color : option string
}.

Record Edge := mkEdge {
  edge_id : string;
  edge_source : string;
  edge_target : string;
  edge_weight : option Z;
  edge_label : option string
}.

(** Entries of the distance and score tables. *)
Inductive num := Fin (z : Z) | Infinity | NaN.

Global Instance num_eq_dec : EqDecision num.
Proof. solve_decision. Defined.

(** [a < b]; a comparison with [undefined] or [NaN] is false. *)
Definition num_lt (a b : option num) : bool :=
  match a, b with
  | Some (Fin x), Some (Fin y) => bool_decide (x < y)%Z
  | Some (Fin _), Some Infinity => true
  | _, _ => false
  end.

(** [a >= b]; a comparison with [undefined] or [NaN] is false. *)
Definition num_ge (a b : option num) : bool :=
  match a, b with
  | Some (Fin x), Some (Fin y) => bool_decide (y ≤ x)%Z
  | Some Infinity, Some (Fin _) => true
  | Some Infinity, Some Infinity => true
  | _, _ => false
  end.

(** [a + w] for a table entry [a] and a finite [w]; [undefined + w] is
    [NaN].  The sum is the exact one, which is the sum of the code while
    it stays within the integers a double holds exactly (see
    [exact_weights]). *)
Definition num_add (a : option num) (w : Z) : num :=
  match a with
  | Some (Fin x) => Fin (x + w)
  | Some Infinity => Infinity
  | _ => NaN
  end.

(** [`${a}`] *)
Definition show_num (a : option num) : string :=
  match a with
  | Some (Fin x) => pretty x
  | Some Infinity => "Infinity"
  | Some NaN => "NaN"
  | None => "undefined"
  end.

(** A number read in a boolean position: [undefined] and [0] are falsy. *)
Definition truthy_number (c : option Z) : option Z :=
  match c with
  | Some z => if bool_decide (z = 0%Z) then None else Some z
  | None => None
  end.

Record AlgorithmStep := mkStep {
  step : nat;
  visited : list string;
  current : option string;
  queue : option (list string);
  stack : option (list string);
  distances : option (gmap string num);
  path : option (list string);
  description : string
}.

Inductive Algorithm := bfs | dfs | dijkstra | astar.

Record AlgorithmResult := mkResult {
  algorithm : Algorithm;
  startNode : string;
  targetNode : option string;
  steps : list AlgorithmStep;
  executionTime : Z;
  timeComplexity : string;
  spaceComplexity : string
}.

(** ** Outcomes *)

(** The expression that dereferenced [undefined]. *)
Inductive access :=
  | AdjacencyPush (key : string)     (* adjacencyList[key].push(..) *)
  | AdjacencyIterate (key : string)  (* for (.. of adjacencyList[key]) *)
  | NodeCoordinate (key : string)    (* nodeMap[key].x *)
  | LastStep.                        (* steps[steps.length - 1].path *)

Inductive error :=
  | TypeError (at_ : access)
  | Error (message : string).

Inductive outcome (A : Type) :=
  | Return (a : A)
  | Throw (e : error)
  | OutOfFuel.
Arguments Return {A} a.
Arguments Throw {A} e.
Arguments OutOfFuel {A}.

Global Instance outcome_ret : MRet outcome := @Return.
Global Instance outcome_bind : MBind outcome := λ A B f m,
  match m with
  | Return a => f a
  | Throw e => Throw e
  | OutOfFuel => OutOfFuel
  end.

(** The names the specification gives to the two failures. *)
Definition UnknownNodeReference (e : error) : Prop :=
  ∃ key, e = TypeError (AdjacencyPush key).
Definition MissingTarget : error := Error "A* search requires a target node".

(** ** Sets of node ids, in insertion order *)

Definition set_has (x : string) (s : list string) : bool := bool_decide (x ∈ s).
Definition set_add (x : string) (s : list string) : list string :=
  if set_has x s then s else s ++ [x].
Definition set_delete (x : string) (s : list string) : list string :=
  filter (λ y, y ≠ x) s.

(** [targetNodeId && currentNode === targetNodeId]: the empty string is
    falsy, as is an absent target. *)
Definition truthy (t : option string) : bool :=
  match t with
  | Some s => negb (bool_decide (s = ""))
  | None => false
  end.
Definition is_target (t : option string) (currentNode : string) : bool :=
  truthy t && bool_decide (t = Some currentNode).

(** ** createAdjacencyList *)

Record Neighbor := mkNeighbor { nodeId : string; weight : Z }.

Abbreviation AdjacencyList := (gmap string (list Neighbor)).

(** [edge.weight || 1] *)
Definition effective_weight (edge : Edge) : Z :=
  default 1%Z (truthy_number (edge_weight edge)).

(** [adjacencyList[key].push(entry)] *)
Definition push_neighbor (adjacencyList : AdjacencyList) (key : string)
    (entry : Neighbor) : outcome AdjacencyList :=
  match adjacencyList !! key with
  | Some l => Return (<[key := l ++ [entry]]> adjacencyList)
  | None => Throw (TypeError (AdjacencyPush key))
  end.

Definition add_edge (adjacencyList : AdjacencyList) (edge : Edge)
    : outcome AdjacencyList :=
  let weight := effective_weight edge in
  adjacencyList ← push_neighbor adjacencyList (edge_source edge)
                    (mkNeighbor (edge_target edge) weight);
  push_neighbor adjacencyList (edge_target edge)
    (mkNeighbor (edge_source edge) weight).

Fixpoint add_edges (adjacencyList : AdjacencyList) (edges : list Edge)
    : outcome AdjacencyList :=
  match edges with
  | [] => Return adjacencyList
  | edge :: edges =>
      adjacencyList ← add_edge adjacencyList edge;
      add_edges adjacencyList edges
  end.

(** [nodes.forEach(node => { adjacencyList[node.id] = [] })]; the keys of
    the table are the keys of the object when the ids are [plain]. *)
Definition init_adjacency (nodes : list Node) : AdjacencyList :=
  foldl (λ adjacencyList node, <[node_id node := []]> adjacencyList) ∅ nodes.

Definition createAdjacencyList (nodes : list Node) (edges : list Edge)
    : outcome AdjacencyList :=
  add_edges (init_adjacency nodes) edges.

(** ** The trace under construction: [steps] and the counter [step] *)

Record Trace := mkTrace { tr_steps : list AlgorithmStep; tr_step : nat }.

(** [steps.push({ step: step++, visited, current, .. })] *)
Definition emit (tr : Trace) (visited : list string) (current : option string)
    (queue stack : option (list string)) (distances : option (gmap string num))
    (path : option (list string)) (description : string) : Trace :=
  mkTrace
    (tr_steps tr ++
      [mkStep (tr_step tr) visited current queue stack distances path description])
    (S (tr_step tr)).

Definition empty_trace : Trace := mkTrace [] 0.

(** ** executeBFS *)

Record BFSState := mkBFS {
  bfs_visited : list string;
  bfs_queue : list string;
  bfs_trace : Trace
}.

(** Body of [for (const { nodeId } of adjacencyList[currentNode])]. *)
Definition bfs_discover (currentNode : string) (st : BFSState) (nb : Neighbor)
    : BFSState :=
  if set_has (nodeId nb) (bfs_visited st) then st
  else
    let visited := set_add (nodeId nb) (bfs_visited st) in
    let queue := bfs_queue st ++ [nodeId nb] in
    mkBFS visited queue
      (emit (bfs_trace st) visited (Some currentNode) (Some queue) None None None
         ("Visiting node " +:+ currentNode +:+ ", discovered neighbor "
            +:+ nodeId nb)).

(** [if (queue.length > 0) steps.push(..)] at the end of an iteration. *)
Definition bfs_advance (st : BFSState) : BFSState :=
  match bfs_queue st with
  | [] => st
  | next :: _ =>
      mkBFS (bfs_visited st) (bfs_queue st)
        (emit (bfs_trace st) (bfs_visited st) (Some next) (Some (bfs_queue st))
           None None None ("Moving to next node in queue: " +:+ next))
  end.

Fixpoint bfs_loop (fuel : nat) (adjacencyList : AdjacencyList)
    (targetNodeId : option string) (st : BFSState) : outcome BFSState :=
  match bfs_queue st with
  | [] => Return st
  | currentNode :: queue =>
      match fuel with
      | O => OutOfFuel
      | S fuel =>
          if is_target targetNodeId currentNode then
            Return (mkBFS (bfs_visited st) queue
              (emit (bfs_trace st) (bfs_visited st) (Some currentNode)
                 (Some queue) None None None
                 ("Target node " +:+ currentNode +:+ " reached!")))
          else
            match adjacencyList !! currentNode with
            | None => Throw (TypeError (AdjacencyIterate currentNode))
            | Some neighbors =>
                let st := foldl (bfs_discover currentNode)
                            (mkBFS (bfs_visited st) queue (bfs_trace st))
                            neighbors in
                bfs_loop fuel adjacencyList targetNodeId (bfs_advance st)
            end
      end
  end.

Definition bfs_init (startNodeId : string) : BFSState :=
  let visited := set_add startNodeId [] in
  let queue := [startNodeId] in
  mkBFS visited queue
    (emit empty_trace visited (Some startNodeId) (Some queue) None None None
       ("Starting BFS from node " +:+ startNodeId)).

Definition bfs_run (nodes : list Node) (edges : list Edge)
    (startNodeId : string) (targetNodeId : option string) : outcome BFSState :=
  adjacencyList ← createAdjacencyList nodes edges;
  bfs_loop (S (length nodes)) adjacencyList targetNodeId (bfs_init startNodeId).

Definition executeBFS (nodes : list Node) (edges : list Edge)
    (startNodeId : string) (targetNodeId : option string)
    : outcome AlgorithmResult :=
  st ← bfs_run nodes edges startNodeId targetNodeId;
  mret (mkResult bfs startNodeId targetNodeId (tr_steps (bfs_trace st)) 0
          "O(V + E)" "O(V)").

(** ** executeDFS *)

(** The stack is kept with its top first; a step records it as the array
    the source holds, bottom first. *)
Record DFSState := mkDFS {
  dfs_visited : list string;
  dfs_stack : list string;
  dfs_trace : Trace
}.

(** Body of [for (const { nodeId } of neighbors)]. *)
Definition dfs_push (currentNode : string) (st : DFSState) (nb : Neighbor)
    : DFSState :=
  if set_has (nodeId nb) (dfs_visited st) then st
  else
    let stack := nodeId nb :: dfs_stack st in
    mkDFS (dfs_visited st) stack
      (emit (dfs_trace st) (dfs_visited st) (Some currentNode) None
         (Some (reverse stack)) None None
         ("Adding neighbor " +:+ nodeId nb +:+ " to stack")).

Fixpoint dfs_loop (fuel : nat) (adjacencyList : AdjacencyList)
    (targetNodeId : option string) (st : DFSState) : outcome DFSState :=
  match dfs_stack st with
  | [] => Return st
  | currentNode :: stack =>
      match fuel with
      | O => OutOfFuel
      | S fuel =>
          if set_has currentNode (dfs_visited st) then
            dfs_loop fuel adjacencyList targetNodeId
              (mkDFS (dfs_visited st) stack (dfs_trace st))
          else
            let visited := set_add currentNode (dfs_visited st) in
            let trace :=
              emit (dfs_trace st) visited (Some currentNode) None
                (Some (reverse stack)) None None
                ("Visiting node " +:+ currentNode) in
            if is_target targetNodeId currentNode then
              Return (mkDFS visited stack
                (emit trace visited (Some currentNode) None
                   (Some (reverse stack)) None None
                   ("Target node " +:+ currentNode +:+ " reached!")))
            else
              match adjacencyList !! currentNode with
              | None => Throw (TypeError (AdjacencyIterate currentNode))
              | Some neighbors =>
                  dfs_loop fuel adjacencyList targetNodeId
                    (foldl (dfs_push currentNode) (mkDFS visited stack trace)
                       (reverse neighbors))
              end
      end
  end.

Definition dfs_init (startNodeId : string) : DFSState :=
  let stack := [startNodeId] in
  mkDFS [] stack
    (emit empty_trace [] (Some startNodeId) None (Some (reverse stack)) None None
       ("Starting DFS from node " +:+ startNodeId)).

Definition dfs_run (nodes : list Node) (edges : list Edge)
    (startNodeId : string) (targetNodeId : option string) : outcome DFSState :=
  adjacencyList ← createAdjacencyList nodes edges;
  dfs_loop (length nodes + 2 * length edges + 2) adjacencyList targetNodeId
    (dfs_init startNodeId).

Definition executeDFS (nodes : list Node) (edges : list Edge)
    (startNodeId : string) (targetNodeId : option string)
    : outcome AlgorithmResult :=
  st ← dfs_run nodes edges startNodeId targetNodeId;
  mret (mkResult dfs startNodeId targetNodeId (tr_steps (dfs_trace st)) 0
          "O(V + E)" "O(V)").

(** ** Helpers shared by executeDijkstra and executeAStar *)

(** The selection scan
    [for (const nodeId of set) if (scores[nodeId] < best) { best = ..; node = nodeId }]
    started from [null] and [Infinity]. *)
Definition scan_step (scores : gmap string num) (acc : option string * num)
    (nodeId : string) : option string * num :=
  match scores !! nodeId with
  | Some d => if num_lt (Some d) (Some acc.2) then (Some nodeId, d) else acc
  | None => acc
  end.

Definition scan_min (scores : gmap string num) (set : list string)
    : option string * num :=
  foldl (scan_step scores) (None, Infinity) set.

(** [while (current !== null) { path.unshift(current); current = previous[current] }]
    [path] is the array built so far.  An [undefined] predecessor never
    compares equal to [null], so the source loop does not leave it: that
    run has no outcome but [OutOfFuel]. *)
Fixpoint reconstruct (fuel : nat) (previous : gmap string (option string))
    (current : option string) (path : list string) : outcome (list string) :=
  match current with
  | None => Return path
  | Some c =>
      match fuel with
      | O => OutOfFuel
      | S fuel =>
          match previous !! c with
          | Some next => reconstruct fuel previous next (c :: path)
          | None => OutOfFuel
          end
      end
  end.

(** [nodes.map(n => n.id).filter(id => !unvisited.has(id))] *)
Definition visited_of (nodes : list Node) (unvisited : list string)
    : list string :=
  filter (λ id, id ∉ unvisited) (node_id <$> nodes).

(** ** executeDijkstra *)

Record DijkstraState := mkDijkstra {
  dj_distances : gmap string num;
  dj_previous : gmap string (option string);
  dj_unvisited : list string;
  dj_trace : Trace
}.

(** Body of [for (const { nodeId, weight } of adjacencyList[currentNode])]. *)
Definition dj_relax (nodes : list Node) (currentNode : string)
    (st : DijkstraState) (nb : Neighbor) : DijkstraState :=
  if set_has (nodeId nb) (dj_unvisited st) then
    let newDistance := num_add (dj_distances st !! currentNode) (weight nb) in
    if num_lt (Some newDistance) (dj_distances st !! nodeId nb) then
      let distances := <[nodeId nb := newDistance]> (dj_distances st) in
      let previous := <[nodeId nb := Some currentNode]> (dj_previous st) in
      mkDijkstra distances previous (dj_unvisited st)
        (emit (dj_trace st) (visited_of nodes (dj_unvisited st))
           (Some currentNode) None None (Some distances) None
           ("Updated distance to node " +:+ nodeId nb +:+ " to "
              +:+ show_num (Some newDistance)))
    else st
  else st.

(** The scan for [nextNode] and [if (nextNode) steps.push(..)]. *)
Definition dj_advance (nodes : list Node) (st : DijkstraState)
    : DijkstraState :=
  match (scan_min (dj_distances st) (dj_unvisited st)).1 with
  | Some nextNode =>
      if bool_decide (nextNode = "") then st
      else
        mkDijkstra (dj_distances st) (dj_previous st) (dj_unvisited st)
          (emit (dj_trace st) (visited_of nodes (dj_unvisited st))
             (Some nextNode) None None (Some (dj_distances st)) None
             ("Moving to node " +:+ nextNode +:+ " with current distance "
                +:+ show_num (dj_distances st !! nextNode)))
  | None => st
  end.

Fixpoint dj_loop (fuel : nat) (nodes : list Node)
    (adjacencyList : AdjacencyList) (targetNodeId : option string)
    (st : DijkstraState) : outcome DijkstraState :=
  match dj_unvisited st with
  | [] => Return st
  | _ :: _ =>
      match fuel with
      | O => OutOfFuel
      | S fuel =>
          match scan_min (dj_distances st) (dj_unvisited st) with
          | (None, _) => Return st
          | (Some currentNode, shortestDistance) =>
              if bool_decide (currentNode = "")
                 || bool_decide (shortestDistance = Infinity)
              then Return st
              else if is_target targetNodeId currentNode then
                let unvisited := set_delete currentNode (dj_unvisited st) in
                route ← reconstruct (S (length nodes)) (dj_previous st)
                          (Some currentNode) [];
                Return (mkDijkstra (dj_distances st) (dj_previous st) unvisited
                  (emit (dj_trace st) (visited_of nodes unvisited)
                     (Some currentNode) None None (Some (dj_distances st))
                     (Some route)
                     ("Target node " +:+ currentNode
                        +:+ " reached with shortest distance "
                        +:+ show_num (dj_distances st !! currentNode))))
              else
                let unvisited := set_delete currentNode (dj_unvisited st) in
                match adjacencyList !! currentNode with
                | None => Throw (TypeError (AdjacencyIterate currentNode))
                | Some neighbors =>
                    let st := foldl (dj_relax nodes currentNode)
                                (mkDijkstra (dj_distances st) (dj_previous st)
                                   unvisited (dj_trace st))
                                neighbors in
                    dj_loop fuel nodes adjacencyList targetNodeId
                      (dj_advance nodes st)
                end
          end
      end
  end.

(** [nodes.forEach(node => { distances[node.id] = Infinity; previous[node.id] = null; unvisited.add(node.id) })]
    followed by [distances[startNodeId] = 0] and the initial step.  The
    tables are the objects of the code when the ids of the nodes and of the
    start node are [plain]. *)
Definition dj_init (nodes : list Node) (startNodeId : string)
    : DijkstraState :=
  let distances :=
    <[startNodeId := Fin 0]>
      (foldl (λ m node, <[node_id node := Infinity]> m) ∅ nodes) in
  let previous := foldl (λ m node, <[node_id node := None]> m) ∅ nodes in
  let unvisited := foldl (λ s node, set_add (node_id node) s) [] nodes in
  mkDijkstra distances previous unvisited
    (emit empty_trace [] (Some startNodeId) None None (Some distances) None
       ("Starting Dijkstra's algorithm from node " +:+ startNodeId)).

(** [path.join(' -> ')] *)
Fixpoint join_arrow (path : list string) : string :=
  match path with
  | [] => ""
  | [p] => p
  | p :: rest => p +:+ " -> " +:+ join_arrow rest
  end.

(** The block after the loop:
    [if (targetNodeId && previous[targetNodeId] !== undefined) { .. }].
    For a [plain] target the test reads the table as the code reads the
    object: [undefined] exactly for a target that is not listed. *)
Definition dj_final (nodes : list Node) (targetNodeId : option string)
    (st : DijkstraState) : outcome DijkstraState :=
  match targetNodeId with
  | Some t =>
      if truthy targetNodeId && bool_decide (is_Some (dj_previous st !! t)) then
        route ← reconstruct (S (length nodes)) (dj_previous st) (Some t) [];
        match last (tr_steps (dj_trace st)) with
        | None => Throw (TypeError LastStep)
        | Some s =>
            match path s with
            | Some _ => Return st
            | None =>
                Return (mkDijkstra (dj_distances st) (dj_previous st)
                  (dj_unvisited st)
                  (emit (dj_trace st) (visited_of nodes (dj_unvisited st))
                     (Some t) None None (Some (dj_distances st)) (Some route)
                     ("Final shortest path to " +:+ t +:+ ": "
                        +:+ join_arrow route)))
            end
        end
      else Return st
  | None => Return st
  end.

Definition dj_run (nodes : list Node) (edges : list Edge)
    (startNodeId : string) (targetNodeId : option string)
    : outcome DijkstraState :=
  adjacencyList ← createAdjacencyList nodes edges;
  st ← dj_loop (S (length nodes)) nodes adjacencyList targetNodeId
         (dj_init nodes startNodeId);
  dj_final nodes targetNodeId st.

(** The label of the time complexity is the string of the client file,
    which holds the two characters [Â²] where the server copies hold
    [²]. *)
Definition executeDijkstra (nodes : list Node) (edges : list Edge)
    (startNodeId : string) (targetNodeId : option string)
    : outcome AlgorithmResult :=
  st ← dj_run nodes edges startNodeId targetNodeId;
  mret (mkResult dijkstra startNodeId targetNodeId (tr_steps (dj_trace st)) 0
          "O(VÂ² + E)" "O(V)").

(** ** executeAStar *)

(** [getHeuristic]: the Manhattan distance to the target, or [1] as soon as
    one of the coordinates read is falsy.  The target is looked at only
    once both coordinates of the node passed the test. *)
Definition getHeuristic (nodeMap : gmap string Node) (targetNodeId : string)
    (nodeId : string) : outcome Z :=
  match nodeMap !! nodeId with
  | None => Throw (TypeError (NodeCoordinate nodeId))
  | Some node =>
      match truthy_number (node_x node), truthy_number (node_y node) with
      | Some nx, Some ny =>
          match nodeMap !! targetNodeId with
          | None => Throw (TypeError (NodeCoordinate targetNodeId))
          | Some target =>
              match truthy_number (node_x target),
                    truthy_number (node_y target) with
              | Some tx, Some ty => Return (Z.abs (nx - tx) + Z.abs (ny - ty))%Z
              | _, _ => Return 1%Z
              end
          end
      | _, _ => Return 1%Z
      end
  end.

Record AStarState := mkAStar {
  as_openSet : list string;
  as_closedSet : list string;
  as_gScore : gmap string num;
  as_fScore : gmap string num;
  as_previous : gmap string (option string);
  as_trace : Trace
}.

(** Body of [for (const { nodeId, weight } of adjacencyList[currentNode])]. *)
Definition as_relax (nodeMap : gmap string Node) (targetNodeId : string)
    (currentNode : string) (st : AStarState) (nb : Neighbor)
    : outcome AStarState :=
  if set_has (nodeId nb) (as_closedSet st) then Return st
  else
    let tentativeGScore := num_add (as_gScore st !! currentNode) (weight nb) in
    let isOpen := set_has (nodeId nb) (as_openSet st) in
    if isOpen && num_ge (Some tentativeGScore) (as_gScore st !! nodeId nb)
    then Return st
    else
      let openSet := set_add (nodeId nb) (as_openSet st) in
      let previous := <[nodeId nb := Some currentNode]> (as_previous st) in
      let gScore := <[nodeId nb := tentativeGScore]> (as_gScore st) in
      h ← getHeuristic nodeMap targetNodeId (nodeId nb);
      let f := num_add (gScore !! nodeId nb) h in
      let fScore := <[nodeId nb := f]> (as_fScore st) in
      Return (mkAStar openSet (as_closedSet st) gScore fScore previous
        (emit (as_trace st) (as_closedSet st) (Some currentNode) None None
           (Some gScore) None
           ("Updated node " +:+ nodeId nb +:+ " with g-score: "
              +:+ show_num (gScore !! nodeId nb) +:+ ", f-score: "
              +:+ show_num (fScore !! nodeId nb)))).

Fixpoint as_relax_all (nodeMap : gmap string Node) (targetNodeId : string)
    (currentNode : string) (st : AStarState) (neighbors : list Neighbor)
    : outcome AStarState :=
  match neighbors with
  | [] => Return st
  | nb :: neighbors =>
      st ← as_relax nodeMap targetNodeId currentNode st nb;
      as_relax_all nodeMap targetNodeId currentNode st neighbors
  end.

(** The scan for [nextNode] and [if (nextNode) steps.push(..)]. *)
Definition as_advance (st : AStarState) : AStarState :=
  match (scan_min (as_fScore st) (as_openSet st)).1 with
  | Some nextNode =>
      if bool_decide (nextNode = "") then st
      else
        mkAStar (as_openSet st) (as_closedSet st) (as_gScore st) (as_fScore st)
          (as_previous st)
          (emit (as_trace st) (as_closedSet st) (Some nextNode) None None
             (Some (as_gScore st)) None
             ("Moving to node " +:+ nextNode +:+ " with f-score "
                +:+ show_num (as_fScore st !! nextNode)))
  | None => st
  end.

Fixpoint as_loop (fuel : nat) (nodes : list Node)
    (adjacencyList : AdjacencyList) (nodeMap : gmap string Node)
    (targetNodeId : string) (st : AStarState) : outcome AStarState :=
  match as_openSet st with
  | [] => Return st
  | _ :: _ =>
      match fuel with
      | O => OutOfFuel
      | S fuel =>
          match (scan_min (as_fScore st) (as_openSet st)).1 with
          | None => Return st
          | Some currentNode =>
              if bool_decide (currentNode = "") then Return st
              else if bool_decide (currentNode = targetNodeId) then
                route ← reconstruct (S (length nodes)) (as_previous st)
                          (Some currentNode) [];
                Return (mkAStar (as_openSet st) (as_closedSet st)
                  (as_gScore st) (as_fScore st) (as_previous st)
                  (emit (as_trace st) (as_closedSet st) (Some currentNode)
                     None None (Some (as_gScore st)) (Some route)
                     ("Target node " +:+ targetNodeId
                        +:+ " reached! Path found with cost "
                        +:+ show_num (as_gScore st !! currentNode))))
              else
                let openSet := set_delete currentNode (as_openSet st) in
                let closedSet := set_add currentNode (as_closedSet st) in
                match adjacencyList !! currentNode with
                | None => Throw (TypeError (AdjacencyIterate currentNode))
                | Some neighbors =>
                    st ← as_relax_all nodeMap targetNodeId currentNode
                           (mkAStar openSet closedSet (as_gScore st)
                              (as_fScore st) (as_previous st) (as_trace st))
                           neighbors;
                    as_loop fuel nodes adjacencyList nodeMap targetNodeId
                      (as_advance st)
                end
          end
      end
  end.

(** [nodes.forEach(node => { nodeMap[node.id] = node })]; for [plain] ids
    the table is the object, [undefined] at every id that is not listed. *)
Definition node_map (nodes : list Node) : gmap string Node :=
  foldl (λ m node, <[node_id node := node]> m) ∅ nodes.

(** [if (!closedSet.has(targetNodeId)) steps.push(..)] after the loop. *)
Definition as_final (startNodeId targetNodeId : string) (st : AStarState)
    : AStarState :=
  if set_has targetNodeId (as_closedSet st) then st
  else
    mkAStar (as_openSet st) (as_closedSet st) (as_gScore st) (as_fScore st)
      (as_previous st)
      (emit (as_trace st) (as_closedSet st) None None None
         (Some (as_gScore st)) None
         ("No path found from " +:+ startNodeId +:+ " to " +:+ targetNodeId)).

(** The body of [executeAStar].  The score and predecessor tables are the
    objects of the code when the ids of the nodes and of the start node are
    [plain]; the sums are exact within [exact_weights] and
    [exact_coordinates]. *)
Definition as_run (nodes : list Node) (edges : list Edge)
    (startNodeId : string) (targetNodeId : option string)
    : outcome AStarState :=
  match targetNodeId with
  | Some t =>
      if truthy targetNodeId then
        adjacencyList ← createAdjacencyList nodes edges;
        let nodeMap := node_map nodes in
        let openSet := set_add startNodeId [] in
        let closedSet := [] in
        let gScore :=
          <[startNodeId := Fin 0]>
            (foldl (λ m node, <[node_id node := Infinity]> m) ∅ nodes) in
        let fScore := foldl (λ m node, <[node_id node := Infinity]> m) ∅ nodes in
        let previous := foldl (λ m node, <[node_id node := None]> m) ∅ nodes in
        h ← getHeuristic nodeMap t startNodeId;
        let fScore := <[startNodeId := Fin h]> fScore in
        let trace :=
          emit empty_trace closedSet (Some startNodeId) None None (Some gScore)
            None
            ("Starting A* search from node " +:+ startNodeId +:+ " to target "
               +:+ t) in
        st ← as_loop (S (length nodes)) nodes adjacencyList nodeMap t
               (mkAStar openSet closedSet gScore fScore previous trace);
        Return (as_final startNodeId t st)
      else Throw MissingTarget
  | None => Throw MissingTarget
  end.

Definition executeAStar (nodes : list Node) (edges : list Edge)
    (startNodeId : string) (targetNodeId : option string)
    : outcome AlgorithmResult :=
  st ← as_run nodes edges startNodeId targetNodeId;
  mret (mkResult astar startNodeId targetNodeId (tr_steps (as_trace st)) 0
          "O(E log V)" "O(V)").

(** ** Graph notions the properties are stated with *)

Definition node_ids (nodes : list Node) : list string := node_id <$> nodes.

(** Every edge names listed nodes only. *)
Definition wf_edges (nodes : list Node) (edges : list Edge) : Prop :=
  Forall (λ edge, edge_source edge ∈ node_ids nodes
                  ∧ edge_target edge ∈ node_ids nodes) edges.

Global Instance wf_edges_dec nodes edges : Decision (wf_edges nodes edges).
Proof. unfold wf_edges. apply _. Defined.

(** No edge has a negative effective weight. *)
Definition nonneg_weights (edges : list Edge) : Prop :=
  Forall (λ edge, (0 ≤ effective_weight edge)%Z) edges.

Global Instance nonneg_weights_dec edges : Decision (nonneg_weights edges).
Proof. unfold nonneg_weights. apply _. Defined.

(** The names every object inherits from [Object.prototype]. *)
Definition inherited_names : list string :=
  ["__proto__"; "constructor"; "hasOwnProperty"; "isPrototypeOf";
   "propertyIsEnumerable"; "toLocaleString"; "toString"; "valueOf";
   "__defineGetter__"; "__defineSetter__"; "__lookupGetter__";
   "__lookupSetter__"].

(** An id that is not such a name: as a key of an object of the code it
    behaves as a key of a table. *)
Definition plain (id : string) : Prop := id ∉ inherited_names.

Global Instance plain_dec id : Decision (plain id).
Proof. unfold plain. apply _. Defined.

(** The ids of the listed nodes are plain. *)
Definition plain_ids (nodes : list Node) : Prop :=
  Forall plain (node_ids nodes).

Global Instance plain_ids_dec nodes : Decision (plain_ids nodes).
Proof. unfold plain_ids. apply _. Defined.

(** The requested target, if there is one, is plain. *)
Definition plain_target (target : option string) : Prop :=
  ∀ t, target = Some t → plain t.

Global Instance plain_target_dec target : Decision (plain_target target).
Proof.
  destruct target as [t|].
  - destruct (decide (plain t)) as [H|H].
    + left. by intros ? [= <-].
    + right. intros H'. by apply H, H'.
  - left. by intros ?.
Defined.

(** The effective weights of all edges together, without their signs. *)
Definition total_weight (edges : list Edge) : Z :=
  foldr (λ edge sum, Z.abs (effective_weight edge) + sum)%Z 0%Z edges.

(** A distance or score that a runner computes is a sum of effective
    weights along a path that takes no edge twice, plus one more weight;
    under this bound all of them are integers of absolute value at most
    [2^53], which the [number]s of the code add without rounding. *)
Definition exact_weights (edges : list Edge) : Prop :=
  (2 * total_weight edges ≤ 2 ^ 53)%Z.

Global Instance exact_weights_dec edges : Decision (exact_weights edges).
Proof. unfold exact_weights. apply _. Defined.

(** The coordinates are small enough for the heuristic, and for its sum
    with a score under [exact_weights], to be exact as well. *)
Definition small_coordinate (c : option Z) : Prop :=
  match c with
  | Some c => (Z.abs c ≤ 2 ^ 50)%Z
  | None => True
  end.

Global Instance small_coordinate_dec c : Decision (small_coordinate c).
Proof. destruct c; simpl; apply _. Defined.

Definition exact_coordinates (nodes : list Node) : Prop :=
  Forall (λ node, small_coordinate (node_x node)
                  ∧ small_coordinate (node_y node)) nodes.

Global Instance exact_coordinates_dec nodes :
  Decision (exact_coordinates nodes).
Proof. unfold exact_coordinates. apply _. Defined.

(** [adjacency[a]] lists [b]. *)
Definition lists (adjacencyList : AdjacencyList) (a b : string) : Prop :=
  ∃ l, adjacencyList !! a = Some l ∧ b ∈ nodeId <$> l.

(** The entries the edges contribute to the list of [k], in edge order. *)
Fixpoint incident (k : string) (edges : list Edge) : list Neighbor :=
  match edges with
  | [] => []
  | edge :: edges =>
      (if decide (edge_source edge = k)
       then [mkNeighbor (edge_target edge) (effective_weight edge)] else [])
      ++ (if decide (edge_target edge = k)
          then [mkNeighbor (edge_source edge) (effective_weight edge)] else [])
      ++ incident k edges
  end.

(** The two ends of every edge, with repetitions. *)
Fixpoint endpoints (edges : list Edge) : list string :=
  match edges with
  | [] => []
  | edge :: edges => edge_source edge :: edge_target edge :: endpoints edges
  end.

(** An edge joins [a] and [b] with effective weight [w]. *)
Definition adjacent (edges : list Edge) (a b : string) (w : Z) : Prop :=
  ∃ edge, edge ∈ edges ∧ w = effective_weight edge
    ∧ ((edge_source edge = a ∧ edge_target edge = b)
       ∨ (edge_source edge = b ∧ edge_target edge = a)).

(** [b] is in the connected component of [a]. *)
Definition connected (edges : list Edge) : relation string :=
  rtc (λ a b, ∃ w, adjacent edges a b w).

(** [walk edges s v w]: some walk from [s] to [v] has weight sum [w]. *)
Inductive walk (edges : list Edge) (s : string) : string → Z → Prop :=
  | walk_here : walk edges s s 0
  | walk_step u v w c :
      walk edges s u w → adjacent edges u v c → walk edges s v (w + c).

(** [z] is the least weight sum of a walk from [start] to [v]. *)
Definition shortest (edges : list Edge) (start v : string) (z : Z) : Prop :=
  walk edges start v z ∧ ∀ w, walk edges start v w → (z ≤ w)%Z.

(** ** What the runs are shown to do *)

(** The counter is the length of the trace and the [i]-th step is numbered
    [i]. *)
Definition trace_ok (tr : Trace) : Prop :=
  tr_step tr = length (tr_steps tr)
  ∧ ∀ i s, tr_steps tr !! i = Some s → step s = i.

(** The visited set recorded by the last step of a returned trace is the
    connected component of [start]: it has no repetition, holds exactly the
    nodes connected to [start], and so has the size of any duplicate-free
    enumeration of that component. *)
Definition ends_on_component (edges : list Edge) (start : string)
    (result : outcome AlgorithmResult) : Prop :=
  ∃ r s, result = Return r ∧ last (steps r) = Some s
    ∧ NoDup (visited s)
    ∧ (∀ x, x ∈ visited s ↔ connected edges start x)
    ∧ ∀ component, NoDup component →
        (∀ x, x ∈ component ↔ connected edges start x) →
        length (visited s) = length component.

(** The distance table recorded by the last step of a returned trace gives
    every node connected to [start] its shortest-path weight. *)
Definition records_shortest (edges : list Edge) (start : string)
    (result : outcome AlgorithmResult) : Prop :=
  ∃ r s d, result = Return r ∧ last (steps r) = Some s
    ∧ distances s = Some d
    ∧ ∀ v, connected edges start v →
        ∃ z, d !! v = Some (Fin z) ∧ shortest edges start v z.

(** The test that leaves the Dijkstra loop without a target:
    [!currentNode || shortestDistance === Infinity]. *)
Definition dj_exhausted (st : DijkstraState) : Prop :=
  match scan_min (dj_distances st) (dj_unvisited st) with
  | (Some u, d) => u = "" ∨ d = Infinity
  | (None, _) => True
  end.

(** The descriptions of the BFS steps that report the target and a
    discovery. *)
Definition reached_description (t : string) : string :=
  "Target node " +:+ t +:+ " reached!".

Definition discovered_description (c n : string) : string :=
  "Visiting node " +:+ c +:+ ", discovered neighbor " +:+ n.

Definition is_discovery (s : AlgorithmStep) : Prop :=
  ∃ c n, description s = discovered_description c n.

(** What a returned BFS trace satisfies: a step that reports the target
    is the last one, its current node is the target, and the step before it
    shows the target at the head of the queue, with the same visited set;
    the last step is not a discovery. *)
Definition bfs_reports_on_dequeue (t : string) (L : list AlgorithmStep)
    : Prop :=
  (∀ i s, L !! i = Some s → description s = reached_description t →
     S i = length L ∧ current s = Some t
     ∧ ∃ j s' q, i = S j ∧ L !! j = Some s' ∧ queue s' = Some (t :: q)
         ∧ queue s = Some q ∧ visited s = visited s')
  ∧ ∀ s, last L = Some s → ¬ is_discovery s.

(** ** Measures and invariants of the loops *)

(** Number of listed ids not yet in [seen], the measure of the loops. *)
Definition unseen (ids seen : list string) : nat :=
  length (filter (λ id, id ∉ seen) ids).

(** The step that closes the trace records the set [v]. *)
Definition last_visited (tr : Trace) (v : list string) : Prop :=
  ∃ s, last (tr_steps tr) = Some s ∧ visited s = v.

(** The step that closes the trace records the table [d]. *)
Definition last_distances (tr : Trace) (d : gmap string num) : Prop :=
  ∃ s, last (tr_steps tr) = Some s ∧ distances s = Some d.

(** Invariant of the BFS loop on a well-formed graph: what is visited is
    in the component of the start node, what is pending is visited, and a
    visited node that is no longer pending has all its neighbours visited. *)
Definition bfs_inv (nodes : list Node) (edges : list Edge) (start : string)
    (st : BFSState) : Prop :=
  start ∈ bfs_visited st
  ∧ (∀ x, x ∈ bfs_visited st → connected edges start x)
  ∧ (∀ x, x ∈ bfs_queue st → x ∈ bfs_visited st ∧ x ∈ node_ids nodes)
  ∧ (∀ x, x ∈ bfs_visited st →
       x ∈ bfs_queue st ∨ ∀ y w, adjacent edges x y w → y ∈ bfs_visited st)
  ∧ NoDup (bfs_visited st)
  ∧ last_visited (bfs_trace st) (bfs_visited st).

Definition bfs_measure (nodes : list Node) (st : BFSState) : nat :=
  length (bfs_queue st) + unseen (node_ids nodes) (bfs_visited st).

(** Invariant of the BFS trace at the head of the loop: the last step is
    not a discovery and shows the queue and the visited set as they are, and
    no step reports the target. *)
Definition bfs_head (t : string) (st : BFSState) : Prop :=
  (∃ s, last (tr_steps (bfs_trace st)) = Some s ∧ ¬ is_discovery s
     ∧ (bfs_queue st ≠ [] →
        queue s = Some (bfs_queue st) ∧ visited s = bfs_visited st))
  ∧ ∀ s, s ∈ tr_steps (bfs_trace st) → description s ≠ reached_description t.

(** The same inside the loop over the neighbours: a discovery may be the
    last step, and then the queue is not empty. *)
Definition bfs_body (t : string) (st : BFSState) : Prop :=
  (∃ s, last (tr_steps (bfs_trace st)) = Some s
     ∧ (is_discovery s → bfs_queue st ≠ []))
  ∧ ∀ s, s ∈ tr_steps (bfs_trace st) → description s ≠ reached_description t.

(** Invariant of the DFS loop on a well-formed graph: what is visited or
    stacked is in the component of the start node, and every neighbour of a
    visited node is visited or stacked. *)
Definition dfs_inv (nodes : list Node) (edges : list Edge) (start : string)
    (st : DFSState) : Prop :=
  (start ∈ dfs_visited st ∨ start ∈ dfs_stack st)
  ∧ (∀ x, x ∈ dfs_visited st → connected edges start x)
  ∧ (∀ x, x ∈ dfs_stack st → connected edges start x ∧ x ∈ node_ids nodes)
  ∧ (∀ x, x ∈ dfs_visited st →
       ∀ y w, adjacent edges x y w → y ∈ dfs_visited st ∨ y ∈ dfs_stack st)
  ∧ NoDup (dfs_visited st)
  ∧ last_visited (dfs_trace st) (dfs_visited st).

Definition dfs_measure (nodes : list Node) (edges : list Edge)
    (st : DFSState) : nat :=
  length (dfs_stack st) + unseen (node_ids nodes) (dfs_visited st)
  + unseen (endpoints edges) (dfs_visited st).

(** Invariant of the Dijkstra loop on a well-formed graph with non-negative
    weights: every finite entry is the weight of a walk from the start node,
    every edge out of a visited node is relaxed, and no visited node is
    farther than an unvisited one. *)
Definition dj_inv (nodes : list Node) (edges : list Edge) (start : string)
    (st : DijkstraState) : Prop :=
  dj_distances st !! start = Some (Fin 0)
  ∧ (∀ k, k ∈ node_ids nodes →
       (∃ z, dj_distances st !! k = Some (Fin z))
       ∨ dj_distances st !! k = Some Infinity)
  ∧ (∀ k, k ∈ dj_unvisited st → k ∈ node_ids nodes)
  ∧ (∀ k z, dj_distances st !! k = Some (Fin z) →
       (0 ≤ z)%Z ∧ walk edges start k z)
  ∧ (∀ u, u ∈ node_ids nodes → u ∉ dj_unvisited st →
       ∃ du, dj_distances st !! u = Some (Fin du)
         ∧ (∀ v c, adjacent edges u v c →
              ∃ dv, dj_distances st !! v = Some (Fin dv) ∧ (dv ≤ du + c)%Z)
         ∧ (∀ v dv, v ∈ dj_unvisited st →
              dj_distances st !! v = Some (Fin dv) → (du ≤ dv)%Z))
  ∧ last_distances (dj_trace st) (dj_distances st).



(** Invariant behind the termination of the path reconstruction: the
    predecessor table has the listed ids as keys, every predecessor is a
    visited node, and along the visited nodes a predecessor was visited
    earlier ([rank] numbers the visits, [n] counts them). *)
Definition dj_chain (nodes : list Node) (st : DijkstraState) : Prop :=
  ∃ (rank : string → nat) (n : nat),
    n + length (dj_unvisited st) ≤ length nodes
    ∧ (∀ k, k ∈ dj_unvisited st → k ∈ node_ids nodes)
    ∧ (∀ k, is_Some (dj_previous st !! k) ↔ k ∈ node_ids nodes)
    ∧ (∀ x, x ∈ node_ids nodes → x ∉ dj_unvisited st → rank x < n)
    ∧ (∀ k p, dj_previous st !! k = Some (Some p) →
         p ∈ node_ids nodes ∧ (p ∉ dj_unvisited st)
         ∧ (k ∉ dj_unvisited st → rank p < rank k))
    ∧ is_Some (last (tr_steps (dj_trace st))).

(** What the Dijkstra loop has touched is connected to the start node, and
    the steps recorded so far carry no path. *)
Definition dj_reach (edges : list Edge) (start : string)
    (st : DijkstraState) : Prop :=
  (∀ k z, dj_distances st !! k = Some (Fin z) → connected edges start k)
  ∧ (∀ k p, dj_previous st !! k = Some (Some p) → connected edges start k)
  ∧ (∀ s, s ∈ tr_steps (dj_trace st) → path s = None).

(** Invariant behind the termination of the A* loop: an open node is
    listed and not closed, every predecessor is a closed node, and along the
    closed nodes a predecessor was closed earlier ([rank] numbers the
    closings, [n] counts them). *)
Definition as_inv_at (nodes : list Node) (rank : string → nat) (n : nat)
    (st : AStarState) : Prop :=
  n + unseen (node_ids nodes) (as_closedSet st) ≤ length nodes
  ∧ (∀ k, k ∈ as_openSet st → k ∈ node_ids nodes ∧ k ∉ as_closedSet st)
  ∧ (∀ x, x ∈ as_closedSet st → rank x < n)
  ∧ (∀ k, k ∈ node_ids nodes → is_Some (as_previous st !! k))
  ∧ (∀ k p, as_previous st !! k = Some (Some p) →
       p ∈ node_ids nodes ∧ p ∈ as_closedSet st
       ∧ (k ∈ as_closedSet st → rank p < rank k)).

Definition as_inv (nodes : list Node) (st : AStarState) : Prop :=
  ∃ rank n, as_inv_at nodes rank n st.

(** ** Sample graphs *)

Definition sample_node (name : string) : Node :=
  mkNode name name None None None.

Definition sample_edge (a b : string) (w : option Z) : Edge :=
  mkEdge (a +:+ "-" +:+ b) a b w None.

(** The cycle A-B-C-D-E-A with unit weights. *)
Definition cycle_nodes : list Node :=
  sample_node <$> ["A"; "B"; "C"; "D"; "E"].

Definition cycle_edges : list Edge :=
  [sample_edge "A" "B" None; sample_edge "B" "C" None;
   sample_edge "C" "D" None; sample_edge "D" "E" None;
   sample_edge "E" "A" None].

(** The path A-B-C with unit weights. *)
Definition path_nodes : list Node := sample_node <$> ["A"; "B"; "C"].

Definition path_edges : list Edge :=
  [sample_edge "A" "B" (Some 1%Z); sample_edge "B" "C" (Some 1%Z)].

(** Two nodes joined by an edge of declared weight 0. *)
Definition zero_nodes : list Node := sample_node <$> ["A"; "B"].

Definition zero_edges : list Edge := [sample_edge "A" "B" (Some 0%Z)].

(** The nodes A, B, C with the edge A-B declared at 0 and a lighter way
    from A to B through C. *)
Definition shortcut_edges : list Edge :=
  [sample_edge "A" "B" (Some 0%Z); sample_edge "A" "C" (Some (-1)%Z);
   sample_edge "C" "B" (Some 1%Z)].

(** Two nodes and no edge. *)
Definition apart_nodes : list Node := sample_node <$> ["A"; "B"].

(** An edge that names a node missing from the list. *)
Definition dangling_edges : list Edge := [sample_edge "A" "Z" None].

(** Nodes for the heuristic: P and the target T with both coordinates, Q
    with [x] only, O at the origin. *)
Definition placed_nodes : list Node :=
  [mkNode "P" "P" (Some 3%Z) (Some 4%Z) None;
   mkNode "Q" "Q" (Some 7%Z) None None;
   mkNode "O" "O" (Some 0%Z) (Some 0%Z) None;
   mkNode "T" "T" (Some 5%Z) (Some 1%Z) None].

(** * The rest of the code around the runners

    [createAdjacencyMatrix] of [client/src/lib/algorithms.ts], the graph
    helpers of [client/src/lib/graphUtils.ts] and the in-memory storage
    class [MemStorage] of [server/storage.ts], with the dispatch of
    [executeAlgorithm].

    Further conventions.
    - A [number[][]] is a [list (list Z)].
    - [generateId()] draws a fresh uuid; a function that draws ids is given
      the ids it will draw, [supply n] for its [n]-th call.
    - A [Map<number, V>] is the list of its entries in insertion order.
    - A [Partial<T>] is a record of options, [None] for a property that is
      not there.
    - The readings of the clock ([new Date()], [performance.now()]) are
      arguments. *)

(** ** createAdjacencyMatrix *)

(** The expression of the matrix code that dereferenced [undefined]. *)
Inductive matrix_access :=
  | MatrixRow (id : string)  (* matrix[nodeIdToIndex[id]][..] = weight *)
  | NodeAt (index : nat).    (* nodes[index].id *)

Inductive attempt (A : Type) :=
  | Done (a : A)
  | Fails (at_ : matrix_access).
Arguments Done {A} a.
Arguments Fails {A} at_.

Global Instance attempt_ret : MRet attempt := @Done.
Global Instance attempt_bind : MBind attempt := λ A B f m,
  match m with
  | Done a => f a
  | Fails e => Fails e
  end.

(** [nodes.forEach((node, index) => { nodeIdToIndex[node.id] = index })];
    the keys of the table are the keys of the object when the ids are
    [plain]. *)
Definition index_of_nodes (nodes : list Node) : gmap string nat :=
  foldl (λ nodeIdToIndex entry, <[node_id entry.2 := entry.1]> nodeIdToIndex)
    ∅ (imap pair nodes).

(** [Array(n).fill(0).map(() => Array(n).fill(0))] *)
Definition zero_matrix (n : nat) : list (list Z) :=
  (λ _, replicate n 0%Z) <$> replicate n 0%Z.

(** [matrix[rowIndex][columnIndex] = weight], where [rowIndex] was read at
    [id].  An [undefined] row index, or one past the last row, reads an
    [undefined] row and the assignment throws.  An [undefined] column
    index sets the property ["undefined"] of the row and changes no cell.
    A column index past the end of the row would extend the row; the rows
    are as long as the matrix, so the assignment to the mirrored cell then
    throws on its row and the extended row is never returned. *)
Definition write_cell (matrix : list (list Z)) (id : string)
    (rowIndex columnIndex : option nat) (weight : Z)
    : attempt (list (list Z)) :=
  match rowIndex with
  | None => Fails (MatrixRow id)
  | Some i =>
      match matrix !! i with
      | None => Fails (MatrixRow id)
      | Some row =>
          match columnIndex with
          | None => Done matrix
          | Some j => Done (<[i := <[j := weight]> row]> matrix)
          end
      end
  end.

Definition fill_edge (nodeIdToIndex : gmap string nat)
    (matrix : list (list Z)) (edge : Edge) : attempt (list (list Z)) :=
  let sourceIndex := nodeIdToIndex !! edge_source edge in
  let targetIndex := nodeIdToIndex !! edge_target edge in
  let weight := effective_weight edge in
  matrix ← write_cell matrix (edge_source edge) sourceIndex targetIndex weight;
  write_cell matrix (edge_target edge) targetIndex sourceIndex weight.

Fixpoint fill_edges (nodeIdToIndex : gmap string nat)
    (matrix : list (list Z)) (edges : list Edge) : attempt (list (list Z)) :=
  match edges with
  | [] => Done matrix
  | edge :: edges =>
      matrix ← fill_edge nodeIdToIndex matrix edge;
      fill_edges nodeIdToIndex matrix edges
  end.

Definition createAdjacencyMatrix (nodes : list Node) (edges : list Edge)
    : attempt (list (list Z)) :=
  fill_edges (index_of_nodes nodes) (zero_matrix (length nodes)) edges.

(** ** Graphs and their helpers ([graphUtils.ts]) *)

Inductive Representation := AsAdjacencyList | AsAdjacencyMatrix.

Record Graph := mkGraph {
  graph_id : string;
  graph_name : string;
  graph_description : option string;
  graph_nodes : list Node;
  graph_edges : list Edge;
  graph_representation : Representation
}.

(** [createEdge(sourceId, targetId, weight = 1)]; [id] is the value of
    [generateId()]. *)
Definition createEdge (id sourceId targetId : string) (weight : option Z)
    : Edge :=
  let weight := default 1%Z weight in
  mkEdge id sourceId targetId (Some weight)
    (if bool_decide (weight ≠ 1%Z) then Some (pretty weight) else None).

(** [createEmptyGraph(name, description)] *)
Definition createEmptyGraph (id name : string) (description : option string)
    : Graph :=
  mkGraph id name description [] [] AsAdjacencyList.

(** [adjacencyListToMatrix(graph)]: the rows are assigned one after the
    other to the end of the empty array. *)
Definition adjacencyListToMatrix (graph : Graph) : attempt (list (list Z)) :=
  let nodes := graph_nodes graph in
  let matrix :=
    foldl (λ matrix _, matrix ++ [replicate (length nodes) 0%Z]) []
      (seq 0 (length nodes)) in
  fill_edges (index_of_nodes nodes) matrix (graph_edges graph).

(** The cells of a matrix in the order of
    [for (i ..) for (j = 0; j < matrix[i].length; j++)]. *)
Definition matrix_cells (matrix : list (list Z)) : list (nat * nat * Z) :=
  mjoin (imap (λ i row, imap (λ j w, (i, j, w)) row) matrix).

(** The body of the two loops of [matrixToAdjacencyList], over the cells
    that are left; the ids drawn so far are as many as the edges pushed. *)
Fixpoint cells_to_edges (supply : nat → string) (nodes : list Node)
    (cells : list (nat * nat * Z)) (edges : list Edge)
    : attempt (list Edge) :=
  match cells with
  | [] => Done edges
  | (i, j, w) :: cells =>
      if bool_decide (0 < w)%Z && bool_decide (i < j) then
        match nodes !! i with
        | None => Fails (NodeAt i)
        | Some source =>
            match nodes !! j with
            | None => Fails (NodeAt j)
            | Some target =>
                cells_to_edges supply nodes cells
                  (edges ++ [createEdge (supply (length edges))
                               (node_id source) (node_id target) (Some w)])
            end
        end
      else cells_to_edges supply nodes cells edges
  end.

Definition matrixToAdjacencyList (supply : nat → string)
    (matrix : list (list Z)) (nodes : list Node) : attempt (list Edge) :=
  cells_to_edges supply nodes (matrix_cells matrix) [].

(** [(edge.source === sourceId && edge.target === targetId) ||
     (edge.source === targetId && edge.target === sourceId)] *)
Definition joins (sourceId targetId : string) (edge : Edge) : Prop :=
  (edge_source edge = sourceId ∧ edge_target edge = targetId)
  ∨ (edge_source edge = targetId ∧ edge_target edge = sourceId).

Global Instance joins_dec sourceId targetId edge :
  Decision (joins sourceId targetId edge).
Proof. unfold joins. apply _. Defined.

Definition getNodeById (graph : Graph) (nodeId : string) : option Node :=
  snd <$> list_find (λ node, node_id node = nodeId) (graph_nodes graph).

Definition getEdge (graph : Graph) (sourceId targetId : string)
    : option Edge :=
  snd <$> list_find (joins sourceId targetId) (graph_edges graph).

Definition hasEdge (graph : Graph) (sourceId targetId : string) : bool :=
  bool_decide (Exists (joins sourceId targetId) (graph_edges graph)).

Definition addNode (graph : Graph) (node : Node) : Graph :=
  mkGraph (graph_id graph) (graph_name graph) (graph_description graph)
    (graph_nodes graph ++ [node]) (graph_edges graph)
    (graph_representation graph).

Definition addEdge (graph : Graph) (edge : Edge) : Graph :=
  if hasEdge graph (edge_source edge) (edge_target edge) then graph
  else
    mkGraph (graph_id graph) (graph_name graph) (graph_description graph)
      (graph_nodes graph) (graph_edges graph ++ [edge])
      (graph_representation graph).

Definition removeNode (graph : Graph) (nodeId : string) : Graph :=
  let filteredNodes :=
    filter (λ node, node_id node ≠ nodeId) (graph_nodes graph) in
  let filteredEdges :=
    filter (λ edge, edge_source edge ≠ nodeId ∧ edge_target edge ≠ nodeId)
      (graph_edges graph) in
  mkGraph (graph_id graph) (graph_name graph) (graph_description graph)
    filteredNodes filteredEdges (graph_representation graph).

Definition removeEdge (graph : Graph) (edgeId : string) : Graph :=
  mkGraph (graph_id graph) (graph_name graph) (graph_description graph)
    (graph_nodes graph)
    (filter (λ edge, edge_id edge ≠ edgeId) (graph_edges graph))
    (graph_representation graph).

(** A [Partial<Node>]; for the optional fields of a node the property may
    be there and hold [undefined]. *)
Record NodeUpdates := mkNodeUpdates {
  new_node_id : option string;
  new_node_label : option string;
  new_node_x : option (option Z);
  new_node_y : option (option Z);
  new_node_color : option (option string)
}.

(** [{ ...node, ...updates }] *)
Definition merge_node (node : Node) (updates : NodeUpdates) : Node :=
  mkNode (default (node_id node) (new_node_id updates))
    (default (node_label node) (new_node_label updates))
    (default (node_x node) (new_node_x updates))
    (default (node_y node) (new_node_y updates))
    (default (node_color node) (new_node_color updates)).

Definition updateNode (graph : Graph) (nodeId : string)
    (updates : NodeUpdates) : Graph :=
  mkGraph (graph_id graph) (graph_name graph) (graph_description graph)
    ((λ node, if decide (node_id node = nodeId) then merge_node node updates
              else node) <$> graph_nodes graph)
    (graph_edges graph) (graph_representation graph).

(** A [Partial<Edge>]. *)
Record EdgeUpdates := mkEdgeUpdates {
  new_edge_id : option string;
  new_edge_source : option string;
  new_edge_target : option string;
  new_edge_weight : option (option Z);
  new_edge_label : option (option string)
}.

Definition merge_edge (edge : Edge) (updates : EdgeUpdates) : Edge :=
  mkEdge (default (edge_id edge) (new_edge_id updates))
    (default (edge_source edge) (new_edge_source updates))
    (default (edge_target edge) (new_edge_target updates))
    (default (edge_weight edge) (new_edge_weight updates))
    (default (edge_label edge) (new_edge_label updates)).

Definition updateEdge (graph : Graph) (edgeId : string)
    (updates : EdgeUpdates) : Graph :=
  mkGraph (graph_id graph) (graph_name graph) (graph_description graph)
    (graph_nodes graph)
    ((λ edge, if decide (edge_id edge = edgeId) then merge_edge edge updates
              else edge) <$> graph_edges graph)
    (graph_representation graph).

(** The body of [graph.edges.forEach(..)] in [getNeighbors]. *)
Definition neighbor_step (nodeId : string) (neighborIds : list string)
    (edge : Edge) : list string :=
  if decide (edge_source edge = nodeId) then
    set_add (edge_target edge) neighborIds
  else if decide (edge_target edge = nodeId) then
    set_add (edge_source edge) neighborIds
  else neighborIds.

Definition getNeighbors (graph : Graph) (nodeId : string) : list Node :=
  let neighborIds := foldl (neighbor_step nodeId) [] (graph_edges graph) in
  filter (λ node, set_has (node_id node) neighborIds = true)
    (graph_nodes graph).

Definition getConnectedEdges (graph : Graph) (nodeId : string) : list Edge :=
  filter (λ edge, edge_source edge = nodeId ∨ edge_target edge = nodeId)
    (graph_edges graph).

(** ** MemStorage ([server/storage.ts]) *)

Record User := mkUser {
  user_id : Z;
  username : string;
  password : string
}.

Record InsertUser := mkInsertUser {
  insert_username : string;
  insert_password : string
}.

Record GraphRecord := mkGraphRecord {
  record_id : Z;
  record_name : string;
  record_description : option string;
  record_data : Graph;
  record_userId : option string;
  record_createdAt : string
}.

Record InsertGraph := mkInsertGraph {
  insert_name : string;
  insert_description : option string;
  insert_data : Graph;
  insert_userId : option string;
  insert_createdAt : string
}.

(** A [Partial<InsertGraph>]. *)
Record GraphUpdates := mkGraphUpdates {
  new_name : option string;
  new_description : option (option string);
  new_data : option Graph;
  new_userId : option (option string);
  new_createdAt : option string
}.

(** [Map.prototype.get], [set] and [delete]: [set] on a key that is there
    replaces its value in place, on a new key it adds the entry last. *)
Fixpoint map_get {V} (key : Z) (entries : list (Z * V)) : option V :=
  match entries with
  | [] => None
  | (k, v) :: entries => if decide (k = key) then Some v else map_get key entries
  end.

Fixpoint map_set {V} (key : Z) (value : V) (entries : list (Z * V))
    : list (Z * V) :=
  match entries with
  | [] => [(key, value)]
  | (k, v) :: entries =>
      if decide (k = key) then (key, value) :: entries
      else (k, v) :: map_set key value entries
  end.

Definition map_delete {V} (key : Z) (entries : list (Z * V))
    : bool * list (Z * V) :=
  (bool_decide (is_Some (map_get key entries)),
   filter (λ entry, entry.1 ≠ key) entries).

Record MemStorage := mkMemStorage {
  users : list (Z * User);
  graphs : list (Z * GraphRecord);
  userIdCounter : Z;
  graphIdCounter : Z
}.

(** [new MemStorage()] *)
Definition newMemStorage : MemStorage := mkMemStorage [] [] 1 1.

Definition getUser (this : MemStorage) (id : Z) : option User :=
  map_get id (users this).

(** [Array.from(this.users.values()).find(user => user.username === username)] *)
Definition getUserByUsername (this : MemStorage) (name : string)
    : option User :=
  snd <$> list_find (λ user, username user = name) ((users this).*2).

Definition createUser (this : MemStorage) (insertUser : InsertUser)
    : User * MemStorage :=
  let id := userIdCounter this in
  let user :=
    mkUser id (insert_username insertUser) (insert_password insertUser) in
  (user,
   mkMemStorage (map_set id user (users this)) (graphs this)
     (userIdCounter this + 1) (graphIdCounter this)).

Definition getAllGraphs (this : MemStorage) : list GraphRecord :=
  (graphs this).*2.

Definition getGraph (this : MemStorage) (id : Z) : option GraphRecord :=
  map_get id (graphs this).

(** [createGraph(insertGraph)]; [now] is [new Date().toISOString()]. *)
Definition createGraph (this : MemStorage) (now : string)
    (insertGraph : InsertGraph) : GraphRecord * MemStorage :=
  let id := graphIdCounter this in
  let createdAt := now in
  let graph :=
    mkGraphRecord id (insert_name insertGraph)
      (insert_description insertGraph) (insert_data insertGraph)
      (insert_userId insertGraph) createdAt in
  (graph,
   mkMemStorage (users this) (map_set id graph (graphs this))
     (userIdCounter this) (graphIdCounter this + 1)).

(** [{ ...graph, ...updateData }] *)
Definition merge_record (graph : GraphRecord) (updateData : GraphUpdates)
    : GraphRecord :=
  mkGraphRecord (record_id graph)
    (default (record_name graph) (new_name updateData))
    (default (record_description graph) (new_description updateData))
    (default (record_data graph) (new_data updateData))
    (default (record_userId graph) (new_userId updateData))
    (default (record_createdAt graph) (new_createdAt updateData)).

Definition updateGraph (this : MemStorage) (id : Z)
    (updateData : GraphUpdates) : option GraphRecord * MemStorage :=
  match map_get id (graphs this) with
  | None => (None, this)
  | Some graph =>
      let updatedGraph := merge_record graph updateData in
      (Some updatedGraph,
       mkMemStorage (users this) (map_set id updatedGraph (graphs this))
         (userIdCounter this) (graphIdCounter this))
  end.

Definition deleteGraph (this : MemStorage) (id : Z) : bool * MemStorage :=
  let (existed, entries) := map_delete id (graphs this) in
  (existed,
   mkMemStorage (users this) entries (userIdCounter this)
     (graphIdCounter this)).

(** The private [executeAStar(adjacencyList, nodes, edges, startNodeId,
    targetNodeId)] of the storage classes: the body of the client runner
    after its test of the target, over an adjacency list built by the
    caller. *)
Definition as_search (nodes : list Node) (adjacencyList : AdjacencyList)
    (startNodeId : string) (targetNodeId : option string)
    : outcome AStarState :=
  match targetNodeId with
  | Some t =>
      if truthy targetNodeId then
        let nodeMap := node_map nodes in
        let openSet := set_add startNodeId [] in
        let closedSet := [] in
        let gScore :=
          <[startNodeId := Fin 0]>
            (foldl (λ m node, <[node_id node := Infinity]> m) ∅ nodes) in
        let fScore := foldl (λ m node, <[node_id node := Infinity]> m) ∅ nodes in
        let previous := foldl (λ m node, <[node_id node := None]> m) ∅ nodes in
        h ← getHeuristic nodeMap t startNodeId;
        let fScore := <[startNodeId := Fin h]> fScore in
        let trace :=
          emit empty_trace closedSet (Some startNodeId) None None (Some gScore)
            None
            ("Starting A* search from node " +:+ startNodeId +:+ " to target "
               +:+ t) in
        st ← as_loop (S (length nodes)) nodes adjacencyList nodeMap t
               (mkAStar openSet closedSet gScore fScore previous trace);
        Return (as_final startNodeId t st)
      else Throw MissingTarget
  | None => Throw MissingTarget
  end.

(** The [switch (algorithm)] of [executeAlgorithm], with the private
    runners in place: each is the loop of the client runner over the
    adjacency list it is handed.  The label of Dijkstra is the server's,
    [O(V² + E)]. *)
Definition run_selected (algorithm : string) (adjacencyList : AdjacencyList)
    (nodes : list Node) (edges : list Edge) (startNodeId : string)
    (targetNodeId : option string) : outcome AlgorithmResult :=
  if decide (algorithm = "bfs") then
    st ← bfs_loop (S (length nodes)) adjacencyList targetNodeId
           (bfs_init startNodeId);
    mret (mkResult bfs startNodeId targetNodeId (tr_steps (bfs_trace st)) 0
            "O(V + E)" "O(V)")
  else if decide (algorithm = "dfs") then
    st ← dfs_loop (length nodes + 2 * length edges + 2) adjacencyList
           targetNodeId (dfs_init startNodeId);
    mret (mkResult dfs startNodeId targetNodeId (tr_steps (dfs_trace st)) 0
            "O(V + E)" "O(V)")
  else if decide (algorithm = "dijkstra") then
    st ← dj_loop (S (length nodes)) nodes adjacencyList targetNodeId
           (dj_init nodes startNodeId);
    st ← dj_final nodes targetNodeId st;
    mret (mkResult dijkstra startNodeId targetNodeId (tr_steps (dj_trace st))
            0 "O(V² + E)" "O(V)")
  else if decide (algorithm = "astar") then
    st ← as_search nodes adjacencyList startNodeId targetNodeId;
    mret (mkResult astar startNodeId targetNodeId (tr_steps (as_trace st)) 0
            "O(E log V)" "O(V)")
  else Throw (Error ("Unsupported algorithm: " +:+ algorithm)).

(** [result.executionTime = endTime - startTime] *)
Definition timed (result : AlgorithmResult) (startTime endTime : Z)
    : AlgorithmResult :=
  mkResult (algorithm result) (startNode result) (targetNode result)
    (steps result) (endTime - startTime) (timeComplexity result)
    (spaceComplexity result).

(** [executeAlgorithm(graphId, algorithm, startNodeId, targetNodeId)];
    [startTime] and [endTime] are the two readings of [performance.now()]. *)
Definition executeAlgorithm (this : MemStorage) (startTime endTime : Z)
    (graphId : Z) (algorithm : string) (startNodeId : string)
    (targetNodeId : option string) : outcome AlgorithmResult :=
  match getGraph this graphId with
  | None => Throw (Error "Graph not found")
  | Some graphRecord =>
      let graphData := record_data graphRecord in
      let nodes := graph_nodes graphData in
      let edges := graph_edges graphData in
      adjacencyList ← createAdjacencyList nodes edges;
      result ← run_selected algorithm adjacencyList nodes edges startNodeId
                 targetNodeId;
      mret (timed result startTime endTime)
  end.

(** ** Further notions the properties are stated with *)

(** [routed edges route w]: every two consecutive nodes of [route] are
    joined by an edge, and the effective weights along it sum to [w]. *)
Inductive routed (edges : list Edge) : list string → Z → Prop :=
  | routed_one a : routed edges [a] 0
  | routed_cons a b rest c w :
      adjacent edges a b c → routed edges (b :: rest) w →
      routed edges (a :: b :: rest) (c + w).

(** No two edges of the list join the same two nodes. *)
Definition simple (edges : list Edge) : Prop :=
  ∀ i j e e', i ≠ j → edges !! i = Some e → edges !! j = Some e' →
    ¬ joins (edge_source e) (edge_target e) e'.

(** The matrix is square of dimension [n]. *)
Definition square (n : nat) (matrix : list (list Z)) : Prop :=
  length matrix = n ∧ Forall (λ row, length row = n) matrix.

(** [matrix[i][j]] *)
Definition cell (matrix : list (list Z)) (i j : nat) : option Z :=
  matrix !! i ≫= (.!! j).

(** Every storage operation keeps this: the keys of the graphs are
    different from one another and smaller than the counter, and a record
    carries its key as id. *)
Definition storage_ok (this : MemStorage) : Prop :=
  NoDup ((graphs this).*1)
  ∧ Forall (λ entry, (entry.1 < graphIdCounter this)%Z
                     ∧ record_id entry.2 = entry.1) (graphs this).

(** Along the trace no step loses a visited node: the visited list of a
    step is a sublist of that of the next step, and the last one is a
    sublist of [seen], the visited list as the running state has it. *)
Definition trace_grows (tr : Trace) (seen : list string) : Prop :=
  (∀ i s s', tr_steps tr !! i = Some s → tr_steps tr !! S i = Some s' →
     visited s `sublist_of` visited s')
  ∧ ∀ s, last (tr_steps tr) = Some s → visited s `sublist_of` seen.

(** Invariant behind the path that Dijkstra reports: a predecessor is a
    visited node, joined to its successor by an edge that accounts for the
    distance of the successor; a node with a finite distance and no
    predecessor is the start node. *)
Definition dj_tree (edges : list Edge) (start : string)
    (st : DijkstraState) : Prop :=
  (∀ k p, dj_previous st !! k = Some (Some p) →
     (p ∉ dj_unvisited st)
     ∧ ∃ dp c, dj_distances st !! p = Some (Fin dp) ∧ adjacent edges p k c
         ∧ dj_distances st !! k = Some (Fin (dp + c)))
  ∧ ∀ k z, dj_previous st !! k = Some None →
      dj_distances st !! k = Some (Fin z) → k = start.

(** Invariant behind the path that A* reports: the start node keeps the
    score 0; a predecessor is a closed node, joined to its successor by an
    edge that accounts for the score of the successor; a node with a finite
    score and no predecessor is the start node; open and closed nodes have
    finite scores. *)
Definition as_tree (edges : list Edge) (start : string)
    (st : AStarState) : Prop :=
  as_gScore st !! start = Some (Fin 0)
  ∧ (∀ k p, as_previous st !! k = Some (Some p) →
       p ∈ as_closedSet st
       ∧ ∃ gp c, as_gScore st !! p = Some (Fin gp) ∧ adjacent edges p k c
           ∧ as_gScore st !! k = Some (Fin (gp + c)))
  ∧ (∀ k z, as_previous st !! k = Some None →
       as_gScore st !! k = Some (Fin z) → k = start)
  ∧ (∀ k, k ∈ as_openSet st →
       ∃ z z', as_gScore st !! k = Some (Fin z)
         ∧ as_fScore st !! k = Some (Fin z'))
  ∧ ∀ k, k ∈ as_closedSet st → ∃ z, as_gScore st !! k = Some (Fin z).

(** Invariant behind the search of A*: the start node is closed, or alone
    in the open set; the target is not closed; every neighbour of a closed
    node is closed or open. *)
Definition as_frontier (edges : list Edge) (start t : string)
    (st : AStarState) : Prop :=
  (start ∈ as_closedSet st ∨ as_openSet st = [start])
  ∧ (t ∉ as_closedSet st)
  ∧ ∀ x y w, x ∈ as_closedSet st → adjacent edges x y w →
      y ∈ as_closedSet st ∨ y ∈ as_openSet st.

(** The number of entries of an adjacency list, all its lists together. *)
Definition entry_count (adjacencyList : AdjacencyList) : nat :=
  map_fold (λ _ l n, length l + n) 0 adjacencyList.

(** The weight the matrix is to hold for two nodes: the effective weight
    of the last edge of the list that joins them, [0] when none does. *)
Definition last_weight (edges : list Edge) (a b : string) : Z :=
  match last (filter (joins a b) edges) with
  | Some edge => effective_weight edge
  | None => 0
  end.

(** A graph the runners accept: its edges name listed nodes only, and no
    two of them join the same two nodes. *)
Definition graph_ok (graph : Graph) : Prop :=
  wf_edges (graph_nodes graph) (graph_edges graph)
  ∧ simple (graph_edges graph).

(** The calls that change a storage, to speak of any sequence of them. *)
Inductive StorageCall :=
  | CallCreateUser (insertUser : InsertUser)
  | CallCreateGraph (now : string) (insertGraph : InsertGraph)
  | CallUpdateGraph (id : Z) (updateData : GraphUpdates)
  | CallDeleteGraph (id : Z).

Definition after_call (this : MemStorage) (call : StorageCall) : MemStorage :=
  match call with
  | CallCreateUser insertUser => (createUser this insertUser).2
  | CallCreateGraph now insertGraph => (createGraph this now insertGraph).2
  | CallUpdateGraph id updateData => (updateGraph this id updateData).2
  | CallDeleteGraph id => (deleteGraph this id).2
  end.

(** The keys of the users are smaller than the counter. *)
Definition users_ok (this : MemStorage) : Prop :=
  Forall (λ entry, (entry.1 < userIdCounter this)%Z) (users this).

(** A run on the server agrees with a run on the client: both fail with
    the same error, or both return, with the same trace, the server with
    the time between the two readings of the clock. *)
Definition agrees (startTime endTime : Z)
    (server client : outcome AlgorithmResult) : Prop :=
  match server, client with
  | Return result, Return result' =>
      algorithm result = algorithm result'
      ∧ startNode result = startNode result'
      ∧ targetNode result = targetNode result'
      ∧ steps result = steps result'
      ∧ executionTime result = (endTime - startTime)%Z
  | Throw e, Throw e' => e = e'
  | OutOfFuel, OutOfFuel => True
  | _, _ => False
  end.

(** A storage that holds one graph, under the id 1. *)
Definition sample_storage (nodes : list Node) (edges : list Edge)
    : MemStorage :=
  (createGraph newMemStorage "2024-01-01T00:00:00.000Z"
     (mkInsertGraph "sample" None
        (mkGraph "g" "sample" None nodes edges AsAdjacencyList) None "")).2.

(** The path A-B-C as a graph of the editor. *)
Definition path_graph : Graph :=
  mkGraph "g" "path" None path_nodes path_edges AsAdjacencyList.

(** ** Levels of a breadth-first search *)

(** [hops edges n a b]: some walk of [n] edges leads from [a] to [b]. *)
Definition hops (edges : list Edge) (n : nat) : relation string :=
  nsteps (λ a b, ∃ w, adjacent edges a b w) n.

(** [n] is the least number of edges of a walk from [start] to [x]. *)
Definition level (edges : list Edge) (start x : string) (n : nat) : Prop :=
  hops edges n start x ∧ ∀ m, hops edges m start x → n ≤ m.

(** Every node of the list has a level, and no node comes before a node
    of a smaller level. *)
Definition level_ordered (edges : list Edge) (start : string)
    (l : list string) : Prop :=
  (∀ x, x ∈ l → ∃ n, level edges start x n)
  ∧ ∀ i j x y n m, i ≤ j → l !! i = Some x → l !! j = Some y →
      level edges start x n → level edges start y m → n ≤ m.

(** Invariant of the discovery of the neighbours of [c], a node of the
    level [n]: the visited list is in level order and ends at the level
    [n + 1] at most; it consists of the nodes [done_] that left the queue
    before, of [c] and of the queue; every neighbour of a node that left
    the queue is visited, and every node less than [n] edges away from the
    start node has left the queue.  The steps of the trace show prefixes of
    the visited list. *)
Definition bfs_levels_at (edges : list Edge) (start : string)
    (done_ : list string) (c : string) (n : nat) (st : BFSState) : Prop :=
  start ∈ bfs_visited st
  ∧ bfs_visited st = done_ ++ [c] ++ bfs_queue st
  ∧ level edges start c n
  ∧ level_ordered edges start (bfs_visited st)
  ∧ (∀ y m, y ∈ bfs_visited st → level edges start y m → m ≤ S n)
  ∧ (∀ x y w, x ∈ done_ → adjacent edges x y w → y ∈ bfs_visited st)
  ∧ (∀ z k, hops edges k start z → k < n → z ∈ done_)
  ∧ ∀ s, s ∈ tr_steps (bfs_trace st) → visited s `prefix_of` bfs_visited st.

(** Invariant of the BFS loop, at its head: as above, with the head of the
    queue in the place of [c]. *)
Definition bfs_levels (edges : list Edge) (start : string) (st : BFSState)
    : Prop :=
  ∃ done_,
    start ∈ bfs_visited st
    ∧ bfs_visited st = done_ ++ bfs_queue st
    ∧ level_ordered edges start (bfs_visited st)
    ∧ (∀ x n y m, head (bfs_queue st) = Some x → level edges start x n →
         y ∈ bfs_visited st → level edges start y m → m ≤ S n)
    ∧ (∀ x y w, x ∈ done_ → adjacent edges x y w → y ∈ bfs_visited st)
    ∧ (∀ x n z k, head (bfs_queue st) = Some x → level edges start x n →
         hops edges k start z → k < n → z ∈ done_)
    ∧ ∀ s, s ∈ tr_steps (bfs_trace st) → visited s `prefix_of` bfs_visited st.
(** * Properties *)

(** ** The adjacency builder *)

Lemma init_adjacency_lookup nodes k :
  init_adjacency nodes !! k
  = if decide (k ∈ node_ids nodes) then Some [] else None.
Proof.
  unfold init_adjacency, node_ids.
  induction nodes as [|n nodes IH] using rev_ind.
  - simpl. by rewrite lookup_empty.
  - rewrite foldl_app, fmap_app. simpl.
    destruct (decide (node_id n = k)) as [->|Hne].
    + rewrite lookup_insert_eq. rewrite decide_True; [done | set_solver].
    + rewrite lookup_insert_ne by done. rewrite IH.
      repeat case_decide; set_solver.
Qed.

Lemma add_edge_spec adj edge :
  match add_edge adj edge with
  | Return adj' =>
      is_Some (adj !! edge_source edge) ∧ is_Some (adj !! edge_target edge)
      ∧ ∀ k, adj' !! k = (λ l, l ++ incident k [edge]) <$> adj !! k
  | Throw e =>
      ∃ key, e = TypeError (AdjacencyPush key) ∧ adj !! key = None
        ∧ (key = edge_source edge ∨ key = edge_target edge)
  | OutOfFuel => False
  end.
Proof.
  unfold add_edge, push_neighbor; simpl.
  destruct (adj !! edge_source edge) as [ls|] eqn:Hs; simpl; [|by eauto].
  destruct (decide (edge_source edge = edge_target edge)) as [Heq|Hne].
  - rewrite <- Heq, lookup_insert_eq. rewrite Hs.
    split_and!; [by eauto..|]. intros k.
    destruct (decide (edge_source edge = k)) as [<-|Hk].
    + rewrite lookup_insert_eq, Hs. simpl. by rewrite <- app_assoc.
    + rewrite !lookup_insert_ne by done.
      destruct (adj !! k); simpl; by rewrite ?app_nil_r.
  - rewrite lookup_insert_ne by done.
    destruct (adj !! edge_target edge) as [lt|] eqn:Ht; [|by eauto 6].
    split_and!; [by eauto..|]. intros k.
    destruct (decide (edge_target edge = k)) as [<-|Hk].
    + rewrite decide_False by congruence.
      rewrite lookup_insert_eq, Ht. done.
    + rewrite lookup_insert_ne by done.
      destruct (decide (edge_source edge = k)) as [<-|Hk'].
      * rewrite lookup_insert_eq, Hs. done.
      * rewrite lookup_insert_ne by done.
        destruct (adj !! k); simpl; by rewrite ?app_nil_r.
Qed.

Lemma incident_cons k edge edges :
  incident k (edge :: edges) = incident k [edge] ++ incident k edges.
Proof. simpl. by rewrite app_nil_r, <- app_assoc. Qed.

Lemma add_edges_spec edges : ∀ adj,
  match add_edges adj edges with
  | Return adj' =>
      Forall (λ edge, is_Some (adj !! edge_source edge)
                      ∧ is_Some (adj !! edge_target edge)) edges
      ∧ ∀ k, adj' !! k = (λ l, l ++ incident k edges) <$> adj !! k
  | Throw e =>
      ∃ key, e = TypeError (AdjacencyPush key) ∧ adj !! key = None
        ∧ Exists (λ edge, key = edge_source edge ∨ key = edge_target edge) edges
  | OutOfFuel => False
  end.
Proof.
  induction edges as [|edge edges IH]; intros adj; cbn [add_edges].
  - split; [done|]. intros k. destruct (adj !! k); simpl; by rewrite ?app_nil_r.
  - pose proof (add_edge_spec adj edge) as H1.
    destruct (add_edge adj edge) as [adj1|e|]; cbn [mbind outcome_bind];
      [|naive_solver|done].
    destruct H1 as (Hs & Ht & H1). specialize (IH adj1).
    destruct (add_edges adj1 edges) as [adj2|e|]; [| |done].
    + destruct IH as [Hall IH]. split.
      * constructor; [done|]. eapply Forall_impl; [exact Hall|].
        intros e'. simpl. rewrite !H1, !fmap_is_Some. done.
      * intros k. rewrite IH, H1, (incident_cons k edge edges).
        destruct (adj !! k) as [l|]; [|done].
        cbn [fmap option_fmap option_map]. by rewrite app_assoc.
    + destruct IH as (key & -> & Hnone & Hex). exists key.
      split_and!; [done| |by right].
      rewrite H1 in Hnone. by destruct (adj !! key).
Qed.

Lemma createAdjacencyList_spec nodes edges :
  match createAdjacencyList nodes edges with
  | Return adj =>
      wf_edges nodes edges
      ∧ ∀ k, adj !! k
             = if decide (k ∈ node_ids nodes) then Some (incident k edges)
               else None
  | Throw e =>
      ∃ key, e = TypeError (AdjacencyPush key) ∧ (key ∉ node_ids nodes)
        ∧ Exists (λ edge, key = edge_source edge ∨ key = edge_target edge) edges
  | OutOfFuel => False
  end.
Proof.
  unfold createAdjacencyList.
  pose proof (add_edges_spec edges (init_adjacency nodes)) as H.
  destruct (add_edges (init_adjacency nodes) edges) as [adj|e|]; [| |done].
  - destruct H as [Hall H]. split.
    + eapply Forall_impl; [exact Hall|]. intros e. simpl.
      rewrite !init_adjacency_lookup.
      repeat case_decide; intros [[? ?] [? ?]]; done.
    + intros k. rewrite H, init_adjacency_lookup. by case_decide.
  - destruct H as (key & -> & Hnone & Hex). exists key. split_and!; [done| |done].
    rewrite init_adjacency_lookup in Hnone. by case_decide.
Qed.

Lemma createAdjacencyList_wf nodes edges :
  wf_edges nodes edges →
  ∃ adj, createAdjacencyList nodes edges = Return adj
    ∧ ∀ k, adj !! k
           = if decide (k ∈ node_ids nodes) then Some (incident k edges)
             else None.
Proof.
  intros Hwf. pose proof (createAdjacencyList_spec nodes edges) as H.
  destruct (createAdjacencyList nodes edges) as [adj|e|]; [| |done].
  - destruct H as [_ H]. eauto.
  - destruct H as (key & _ & Hkey & Hex). exfalso.
    apply Exists_exists in Hex as (edge & Hin & Hor).
    unfold wf_edges in Hwf. rewrite Forall_forall in Hwf.
    destruct (Hwf _ Hin) as [? ?]. destruct Hor; subst; done.
Qed.

Lemma elem_of_incident k edges nb :
  nb ∈ incident k edges ↔ adjacent edges k (nodeId nb) (weight nb).
Proof.
  unfold adjacent. induction edges as [|edge edges IH]; simpl.
  - split; [by intros ?%elem_of_nil | intros (e & ?%elem_of_nil & _); done].
  - rewrite !elem_of_app, IH. split.
    + intros [H|[H|(e & Hin & Hw & Hor)]].
      * case_decide; [|by apply elem_of_nil in H].
        apply list_elem_of_singleton in H as ->. simpl.
        exists edge. split_and!; [left|done|by left].
      * case_decide; [|by apply elem_of_nil in H].
        apply list_elem_of_singleton in H as ->. simpl.
        exists edge. split_and!; [left|done|by right].
      * exists e. split_and!; [by right|done..].
    + intros (e & Hin & Hw & Hor). apply elem_of_cons in Hin as [->|Hin].
      * destruct nb as [n w]; simpl in *. subst w.
        destruct Hor as [[<- <-]|[<- <-]].
        -- left. rewrite decide_True by done. left.
        -- right; left. rewrite decide_True by done. left.
      * right; right. eauto.
Qed.

(** ** Outcomes and traces *)

Lemma bind_Return {A B} (m : outcome A) (f : A → outcome B) b :
  m ≫= f = Return b → ∃ a, m = Return a ∧ f a = Return b.
Proof. destruct m as [a| |]; [|done..]. intros H. by exists a. Qed.

Lemma foldl_preserves {A B} (P : A → Prop) (f : A → B → A) l : ∀ a,
  (∀ a b, P a → P (f a b)) → P a → P (foldl f a l).
Proof. induction l as [|b l IH]; intros a Hf Ha; simpl; [done|]. auto. Qed.

Lemma trace_ok_empty : trace_ok empty_trace.
Proof. split; [done|]. intros i s H. by destruct i. Qed.

Lemma trace_ok_emit tr v c q st d p msg :
  trace_ok tr → trace_ok (emit tr v c q st d p msg).
Proof.
  intros [Hlen Hidx]. split; simpl.
  - rewrite length_app. simpl. lia.
  - intros i s Hi. apply lookup_app_Some in Hi as [Hi|[Hge Hi]]; [by eauto|].
    apply list_lookup_singleton_Some in Hi as [Hi <-]. simpl. lia.
Qed.

Arguments reconstruct : simpl never.

Lemma reconstruct_null fuel previous path :
  reconstruct fuel previous None path = Return path.
Proof. by destruct fuel. Qed.

Lemma reconstruct_S fuel previous c path :
  reconstruct (S fuel) previous (Some c) path
  = match previous !! c with
    | Some next => reconstruct fuel previous next (c :: path)
    | None => OutOfFuel
    end.
Proof. done. Qed.

(** ** Loop rules *)

(** Partial correctness of the BFS loop: [P] holds at the loop head, [Q]
    where the loop is left. *)
Lemma bfs_loop_inv adj target (P Q : BFSState → Prop) :
  (∀ st c q nbrs, P st → bfs_queue st = c :: q →
     is_target target c = false → adj !! c = Some nbrs →
     P (bfs_advance (foldl (bfs_discover c)
          (mkBFS (bfs_visited st) q (bfs_trace st)) nbrs))) →
  (∀ st c q, P st → bfs_queue st = c :: q → is_target target c = true →
     Q (mkBFS (bfs_visited st) q
          (emit (bfs_trace st) (bfs_visited st) (Some c) (Some q) None None None
             ("Target node " +:+ c +:+ " reached!")))) →
  (∀ st, P st → bfs_queue st = [] → Q st) →
  ∀ fuel st st', P st → bfs_loop fuel adj target st = Return st' → Q st'.
Proof.
  intros Hstep Hhit Hdone. induction fuel as [|fuel IH]; intros st st' HP; simpl.
  - destruct (bfs_queue st) eqn:Hq; [|done]. intros [= <-]. auto.
  - destruct (bfs_queue st) as [|c q] eqn:Hq; [intros [= <-]; auto|].
    destruct (is_target target c) eqn:Ht; [intros [= <-]; eauto|].
    destruct (adj !! c) as [nbrs|] eqn:Hc; [|done].
    apply IH. eauto.
Qed.

(** Total correctness of the BFS loop, on a measure that the fuel covers. *)
Lemma bfs_loop_total adj target (P Q : BFSState → Prop)
    (measure : BFSState → nat) :
  (∀ st, P st → bfs_queue st ≠ [] → 0 < measure st) →
  (∀ st c q, P st → bfs_queue st = c :: q → is_target target c = false →
     ∃ nbrs, adj !! c = Some nbrs ∧
       let st2 := bfs_advance (foldl (bfs_discover c)
                    (mkBFS (bfs_visited st) q (bfs_trace st)) nbrs) in
       P st2 ∧ measure st2 < measure st) →
  (∀ st c q, P st → bfs_queue st = c :: q → is_target target c = true →
     Q (mkBFS (bfs_visited st) q
          (emit (bfs_trace st) (bfs_visited st) (Some c) (Some q) None None None
             ("Target node " +:+ c +:+ " reached!")))) →
  (∀ st, P st → bfs_queue st = [] → Q st) →
  ∀ fuel st, P st → measure st ≤ fuel →
    ∃ st', bfs_loop fuel adj target st = Return st' ∧ Q st'.
Proof.
  intros Hpos Hstep Hhit Hdone.
  induction fuel as [|fuel IH]; intros st HP Hm; simpl.
  - destruct (bfs_queue st) as [|c q] eqn:Hq; [by eauto|].
    assert (0 < measure st) by (apply Hpos; [done|by rewrite Hq]). lia.
  - destruct (bfs_queue st) as [|c q] eqn:Hq; [by eauto|].
    destruct (is_target target c) eqn:Ht; [by eauto|].
    destruct (Hstep st c q HP Hq Ht) as (nbrs & -> & HP2 & Hlt).
    apply IH; [done|lia].
Qed.

(** Partial correctness of the DFS loop. *)
Lemma dfs_loop_inv adj target (P Q : DFSState → Prop) :
  (∀ st c stack, P st → dfs_stack st = c :: stack → c ∈ dfs_visited st →
     P (mkDFS (dfs_visited st) stack (dfs_trace st))) →
  (∀ st c stack nbrs, P st → dfs_stack st = c :: stack → c ∉ dfs_visited st →
     is_target target c = false → adj !! c = Some nbrs →
     let visited := set_add c (dfs_visited st) in
     P (foldl (dfs_push c)
          (mkDFS visited stack
             (emit (dfs_trace st) visited (Some c) None (Some (reverse stack))
                None None ("Visiting node " +:+ c)))
          (reverse nbrs))) →
  (∀ st c stack, P st → dfs_stack st = c :: stack → c ∉ dfs_visited st →
     is_target target c = true →
     let visited := set_add c (dfs_visited st) in
     Q (mkDFS visited stack
          (emit
             (emit (dfs_trace st) visited (Some c) None (Some (reverse stack))
                None None ("Visiting node " +:+ c))
             visited (Some c) None (Some (reverse stack)) None None
             ("Target node " +:+ c +:+ " reached!")))) →
  (∀ st, P st → dfs_stack st = [] → Q st) →
  ∀ fuel st st', P st → dfs_loop fuel adj target st = Return st' → Q st'.
Proof.
  intros Hpop Hstep Hhit Hdone.
  induction fuel as [|fuel IH]; intros st st' HP; simpl.
  - destruct (dfs_stack st) eqn:Hs; [|done]. intros [= <-]. auto.
  - destruct (dfs_stack st) as [|c stack] eqn:Hs; [intros [= <-]; auto|].
    unfold set_has. case_bool_decide as Hv; [apply IH; eauto|].
    destruct (is_target target c) eqn:Ht; [intros [= <-]; eauto|].
    destruct (adj !! c) as [nbrs|] eqn:Hc; [|done].
    apply IH. eauto.
Qed.

(** Total correctness of the DFS loop. *)
Lemma dfs_loop_total adj target (P Q : DFSState → Prop)
    (measure : DFSState → nat) :
  (∀ st, P st → dfs_stack st ≠ [] → 0 < measure st) →
  (∀ st c stack, P st → dfs_stack st = c :: stack → c ∈ dfs_visited st →
     let st2 := mkDFS (dfs_visited st) stack (dfs_trace st) in
     P st2 ∧ measure st2 < measure st) →
  (∀ st c stack, P st → dfs_stack st = c :: stack → c ∉ dfs_visited st →
     is_target target c = false →
     ∃ nbrs, adj !! c = Some nbrs ∧
       let visited := set_add c (dfs_visited st) in
       let st2 :=
         foldl (dfs_push c)
           (mkDFS visited stack
              (emit (dfs_trace st) visited (Some c) None (Some (reverse stack))
                 None None ("Visiting node " +:+ c)))
           (reverse nbrs) in
       P st2 ∧ measure st2 < measure st) →
  (∀ st c stack, P st → dfs_stack st = c :: stack → c ∉ dfs_visited st →
     is_target target c = true →
     let visited := set_add c (dfs_visited st) in
     Q (mkDFS visited stack
          (emit
             (emit (dfs_trace st) visited (Some c) None (Some (reverse stack))
                None None ("Visiting node " +:+ c))
             visited (Some c) None (Some (reverse stack)) None None
             ("Target node " +:+ c +:+ " reached!")))) →
  (∀ st, P st → dfs_stack st = [] → Q st) →
  ∀ fuel st, P st → measure st ≤ fuel →
    ∃ st', dfs_loop fuel adj target st = Return st' ∧ Q st'.
Proof.
  intros Hpos Hpop Hstep Hhit Hdone.
  induction fuel as [|fuel IH]; intros st HP Hm; simpl.
  - destruct (dfs_stack st) as [|c stack] eqn:Hs; [by eauto|].
    assert (0 < measure st) by (apply Hpos; [done|by rewrite Hs]). lia.
  - destruct (dfs_stack st) as [|c stack] eqn:Hs; [by eauto|].
    unfold set_has. case_bool_decide as Hv.
    + destruct (Hpop st c stack HP Hs Hv) as [HP2 Hlt]. apply IH; [done|lia].
    + destruct (is_target target c) eqn:Ht; [by eauto|].
      destruct (Hstep st c stack HP Hs Hv Ht) as (nbrs & -> & HP2 & Hlt).
      apply IH; [done|lia].
Qed.

(** Partial correctness of the Dijkstra loop.  [Q] also receives the three
    ways the loop is left without a target: nothing unvisited, nothing
    selected, or a selection that reads as false. *)
Lemma dj_loop_inv nodes adj target (P Q : DijkstraState → Prop) :
  (∀ st u d nbrs, P st →
     scan_min (dj_distances st) (dj_unvisited st) = (Some u, d) →
     u ≠ "" → d ≠ Infinity → is_target target u = false →
     adj !! u = Some nbrs →
     P (dj_advance nodes (foldl (dj_relax nodes u)
          (mkDijkstra (dj_distances st) (dj_previous st)
             (set_delete u (dj_unvisited st)) (dj_trace st)) nbrs))) →
  (∀ st u d route, P st →
     scan_min (dj_distances st) (dj_unvisited st) = (Some u, d) →
     u ≠ "" → d ≠ Infinity → is_target target u = true →
     reconstruct (S (length nodes)) (dj_previous st) (Some u) [] = Return route →
     let unvisited := set_delete u (dj_unvisited st) in
     Q (mkDijkstra (dj_distances st) (dj_previous st) unvisited
          (emit (dj_trace st) (visited_of nodes unvisited) (Some u) None None
             (Some (dj_distances st)) (Some route)
             ("Target node " +:+ u +:+ " reached with shortest distance "
                +:+ show_num (dj_distances st !! u))))) →
  (∀ st, P st →
     dj_unvisited st = []
     ∨ (∃ d, scan_min (dj_distances st) (dj_unvisited st) = (None, d))
     ∨ (∃ u d, scan_min (dj_distances st) (dj_unvisited st) = (Some u, d)
          ∧ (u = "" ∨ d = Infinity)) →
     Q st) →
  ∀ fuel st st', P st → dj_loop fuel nodes adj target st = Return st' → Q st'.
Proof.
  intros Hstep Hhit Hdone.
  induction fuel as [|fuel IH]; intros st st' HP; simpl.
  - destruct (dj_unvisited st) eqn:Hu; [|done]. intros [= <-]. auto.
  - destruct (dj_unvisited st) as [|x U] eqn:HU; [intros [= <-]; auto|].
    rewrite <- HU.
    destruct (scan_min (dj_distances st) (dj_unvisited st)) as [[u|] d] eqn:Hscan;
      [|intros [= <-]; apply Hdone; eauto].
    case_bool_decide as Hu; simpl;
      [intros [= <-]; apply Hdone; [done|]; right; right; eauto|].
    case_bool_decide as Hd; simpl;
      [intros [= <-]; apply Hdone; [done|]; right; right; eauto|].
    destruct (is_target target u) eqn:Ht.
    + intros (route & Hr & [= <-])%bind_Return. eapply Hhit; eauto.
    + destruct (adj !! u) as [nbrs|] eqn:Hc; [|done].
      apply IH. eauto.
Qed.

(** ** The selection scan *)

Lemma scan_min_snoc scores l x :
  scan_min scores (l ++ [x]) = scan_step scores (scan_min scores l) x.
Proof. unfold scan_min. by rewrite foldl_app. Qed.

Lemma scan_min_spec scores l :
  match scan_min scores l with
  | (None, best) =>
      best = Infinity ∧ ∀ k z, k ∈ l → scores !! k ≠ Some (Fin z)
  | (Some u, best) =>
      u ∈ l ∧ ∃ z, best = Fin z ∧ scores !! u = Some (Fin z)
        ∧ ∀ k z', k ∈ l → scores !! k = Some (Fin z') → (z ≤ z')%Z
  end.
Proof.
  induction l as [|x l IH] using rev_ind.
  - simpl. split; [done|]. intros k z H. by apply elem_of_nil in H.
  - rewrite scan_min_snoc. unfold scan_step.
    destruct (scan_min scores l) as [[u|] best]; simpl.
    + destruct IH as (Hu & z & -> & Hz & Hmin).
      destruct (scores !! x) as [[y| |]|] eqn:Hx; simpl.
      * case_bool_decide as Hlt.
        -- split; [set_solver|]. exists y. split_and!; [done..|].
           intros k z' [Hk|Hk%list_elem_of_singleton]%elem_of_app Hkz.
           ++ specialize (Hmin k z' Hk Hkz). lia.
           ++ subst k. rewrite Hx in Hkz. injection Hkz as ->. lia.
        -- split; [set_solver|]. exists z. split_and!; [done..|].
           intros k z' [Hk|Hk%list_elem_of_singleton]%elem_of_app Hkz.
           ++ eauto.
           ++ subst k. rewrite Hx in Hkz. injection Hkz as ->. lia.
      * split; [set_solver|]. exists z. split_and!; [done..|].
        intros k z' [Hk|Hk%list_elem_of_singleton]%elem_of_app Hkz; [eauto|].
        subst k. congruence.
      * split; [set_solver|]. exists z. split_and!; [done..|].
        intros k z' [Hk|Hk%list_elem_of_singleton]%elem_of_app Hkz; [eauto|].
        subst k. congruence.
      * split; [set_solver|]. exists z. split_and!; [done..|].
        intros k z' [Hk|Hk%list_elem_of_singleton]%elem_of_app Hkz; [eauto|].
        subst k. congruence.
    + destruct IH as [-> Hnone].
      destruct (scores !! x) as [[y| |]|] eqn:Hx; simpl.
      * split; [set_solver|]. exists y. split_and!; [done..|].
        intros k z' [Hk|Hk%list_elem_of_singleton]%elem_of_app Hkz.
        -- by destruct (Hnone k z' Hk).
        -- subst k. rewrite Hx in Hkz. injection Hkz as ->. lia.
      * split; [done|].
        intros k z [Hk|Hk%list_elem_of_singleton]%elem_of_app; [eauto|].
        subst k. congruence.
      * split; [done|].
        intros k z [Hk|Hk%list_elem_of_singleton]%elem_of_app; [eauto|].
        subst k. congruence.
      * split; [done|].
        intros k z [Hk|Hk%list_elem_of_singleton]%elem_of_app; [eauto|].
        subst k. congruence.
Qed.

Lemma scan_min_Some scores l u d :
  scan_min scores l = (Some u, d) →
  u ∈ l ∧ ∃ z, d = Fin z ∧ scores !! u = Some (Fin z)
    ∧ ∀ k z', k ∈ l → scores !! k = Some (Fin z') → (z ≤ z')%Z.
Proof. intros H. pose proof (scan_min_spec scores l) as Hs. by rewrite H in Hs. Qed.

Lemma scan_min_None scores l d :
  scan_min scores l = (None, d) →
  ∀ k z, k ∈ l → scores !! k ≠ Some (Fin z).
Proof.
  intros H. pose proof (scan_min_spec scores l) as Hs. rewrite H in Hs.
  by destruct Hs.
Qed.

(** ** Sets in insertion order *)

Lemma elem_of_set_add x y s : x ∈ set_add y s ↔ x = y ∨ x ∈ s.
Proof.
  unfold set_add, set_has. case_bool_decide; [set_solver|].
  rewrite elem_of_app, list_elem_of_singleton. tauto.
Qed.

Lemma elem_of_set_delete x y s : x ∈ set_delete y s ↔ x ≠ y ∧ x ∈ s.
Proof. unfold set_delete. by rewrite list_elem_of_filter. Qed.

Lemma set_add_NoDup y s : NoDup s → NoDup (set_add y s).
Proof.
  unfold set_add, set_has. case_bool_decide; [done|]. intros Hs.
  apply NoDup_app. split_and!; [done| |apply NoDup_singleton].
  intros x Hx ->%list_elem_of_singleton. done.
Qed.

Lemma set_delete_length x s :
  x ∈ s → length (set_delete x s) < length s.
Proof.
  unfold set_delete. induction s as [|y s IH]; [by intros ?%elem_of_nil|].
  intros Hx. rewrite filter_cons. case_decide as Hy.
  - simpl. apply elem_of_cons in Hx as [->|Hx]; [done|]. specialize (IH Hx). lia.
  - simpl. pose proof (length_filter (λ y, y ≠ x) s). lia.
Qed.

(** ** The unvisited set along a Dijkstra iteration *)

Lemma dj_relax_unvisited nodes c st nb :
  dj_unvisited (dj_relax nodes c st nb) = dj_unvisited st.
Proof. unfold dj_relax. by repeat case_match. Qed.

Lemma dj_relax_all_unvisited nodes c nbrs : ∀ st,
  dj_unvisited (foldl (dj_relax nodes c) st nbrs) = dj_unvisited st.
Proof.
  induction nbrs as [|nb nbrs IH]; intros st; simpl; [done|].
  by rewrite IH, dj_relax_unvisited.
Qed.

Lemma dj_advance_fields nodes st :
  dj_unvisited (dj_advance nodes st) = dj_unvisited st
  ∧ dj_distances (dj_advance nodes st) = dj_distances st
  ∧ dj_previous (dj_advance nodes st) = dj_previous st.
Proof. unfold dj_advance. by repeat case_match. Qed.

(** Total correctness of the Dijkstra loop; the fuel covers the unvisited
    set, which every iteration shrinks. *)
Lemma dj_loop_total nodes adj target (P Q : DijkstraState → Prop) :
  (∀ st u d, P st →
     scan_min (dj_distances st) (dj_unvisited st) = (Some u, d) →
     u ≠ "" → d ≠ Infinity → is_target target u = false →
     ∃ nbrs, adj !! u = Some nbrs ∧
       P (dj_advance nodes (foldl (dj_relax nodes u)
            (mkDijkstra (dj_distances st) (dj_previous st)
               (set_delete u (dj_unvisited st)) (dj_trace st)) nbrs))) →
  (∀ st u d, P st →
     scan_min (dj_distances st) (dj_unvisited st) = (Some u, d) →
     u ≠ "" → d ≠ Infinity → is_target target u = true →
     ∃ route,
       reconstruct (S (length nodes)) (dj_previous st) (Some u) [] = Return route
       ∧ let unvisited := set_delete u (dj_unvisited st) in
         Q (mkDijkstra (dj_distances st) (dj_previous st) unvisited
              (emit (dj_trace st) (visited_of nodes unvisited) (Some u) None
                 None (Some (dj_distances st)) (Some route)
                 ("Target node " +:+ u +:+ " reached with shortest distance "
                    +:+ show_num (dj_distances st !! u))))) →
  (∀ st, P st →
     dj_unvisited st = []
     ∨ (∃ d, scan_min (dj_distances st) (dj_unvisited st) = (None, d))
     ∨ (∃ u d, scan_min (dj_distances st) (dj_unvisited st) = (Some u, d)
          ∧ (u = "" ∨ d = Infinity)) →
     Q st) →
  ∀ fuel st, P st → length (dj_unvisited st) ≤ fuel →
    ∃ st', dj_loop fuel nodes adj target st = Return st' ∧ Q st'.
Proof.
  intros Hstep Hhit Hdone.
  induction fuel as [|fuel IH]; intros st HP Hm; simpl.
  - destruct (dj_unvisited st) as [|x U] eqn:HU; [by eauto|]. simpl in Hm. lia.
  - destruct (dj_unvisited st) as [|x U] eqn:HU; [by eauto|].
    rewrite <- HU.
    destruct (scan_min (dj_distances st) (dj_unvisited st)) as [[u|] d] eqn:Hscan;
      [|exists st; split; [done|]; apply Hdone; [done|]; right; left; eauto].
    case_bool_decide as Hu; simpl;
      [exists st; split; [done|]; apply Hdone; [done|]; right; right; eauto|].
    case_bool_decide as Hd; simpl;
      [exists st; split; [done|]; apply Hdone; [done|]; right; right; eauto|].
    destruct (is_target target u) eqn:Ht.
    + destruct (Hhit st u d HP Hscan Hu Hd Ht) as (route & -> & HQ). simpl. eauto.
    + destruct (Hstep st u d HP Hscan Hu Hd Ht) as (nbrs & -> & HP2).
      apply IH; [done|].
      destruct (dj_advance_fields nodes
        (foldl (dj_relax nodes u)
           (mkDijkstra (dj_distances st) (dj_previous st)
              (set_delete u (dj_unvisited st)) (dj_trace st)) nbrs)) as [-> _].
      rewrite dj_relax_all_unvisited. simpl.
      apply scan_min_Some in Hscan as [Hin _].
      pose proof (set_delete_length u _ Hin). rewrite HU in *. simpl in *. lia.
Qed.

(** ** Step numbering along the four loops *)

Lemma bfs_discover_trace_ok c st nb :
  trace_ok (bfs_trace st) → trace_ok (bfs_trace (bfs_discover c st nb)).
Proof. unfold bfs_discover. case_match; [done|]. apply trace_ok_emit. Qed.

Lemma bfs_advance_trace_ok st :
  trace_ok (bfs_trace st) → trace_ok (bfs_trace (bfs_advance st)).
Proof. unfold bfs_advance. case_match; [done|]. apply trace_ok_emit. Qed.

Lemma bfs_run_trace_ok nodes edges start target st :
  bfs_run nodes edges start target = Return st → trace_ok (bfs_trace st).
Proof.
  unfold bfs_run. intros (adj & _ & Hloop)%bind_Return. revert Hloop.
  apply (bfs_loop_inv adj target (λ st, trace_ok (bfs_trace st))
           (λ st, trace_ok (bfs_trace st))).
  - intros st0 c q nbrs H _ _ _. apply bfs_advance_trace_ok.
    apply (foldl_preserves (λ st, trace_ok (bfs_trace st))); [|done].
    intros. by apply bfs_discover_trace_ok.
  - intros st0 c q H _ _. by apply trace_ok_emit.
  - done.
  - apply trace_ok_emit, trace_ok_empty.
Qed.

Lemma dfs_push_trace_ok c st nb :
  trace_ok (dfs_trace st) → trace_ok (dfs_trace (dfs_push c st nb)).
Proof. unfold dfs_push. case_match; [done|]. apply trace_ok_emit. Qed.

Lemma dfs_run_trace_ok nodes edges start target st :
  dfs_run nodes edges start target = Return st → trace_ok (dfs_trace st).
Proof.
  unfold dfs_run. intros (adj & _ & Hloop)%bind_Return. revert Hloop.
  apply (dfs_loop_inv adj target (λ st, trace_ok (dfs_trace st))
           (λ st, trace_ok (dfs_trace st))).
  - done.
  - intros st0 c stack nbrs H _ _ _ _ visited.
    apply (foldl_preserves (λ st, trace_ok (dfs_trace st))).
    + intros. by apply dfs_push_trace_ok.
    + by apply trace_ok_emit.
  - intros st0 c stack H _ _ _ visited. by do 2 apply trace_ok_emit.
  - done.
  - apply trace_ok_emit, trace_ok_empty.
Qed.

Lemma dj_relax_trace_ok nodes c st nb :
  trace_ok (dj_trace st) → trace_ok (dj_trace (dj_relax nodes c st nb)).
Proof. unfold dj_relax. repeat case_match; try done. apply trace_ok_emit. Qed.

Lemma dj_advance_trace_ok nodes st :
  trace_ok (dj_trace st) → trace_ok (dj_trace (dj_advance nodes st)).
Proof. unfold dj_advance. repeat case_match; try done. apply trace_ok_emit. Qed.

Lemma dj_final_trace_ok nodes target st st' :
  dj_final nodes target st = Return st' →
  trace_ok (dj_trace st) → trace_ok (dj_trace st').
Proof.
  unfold dj_final. intros H Hok.
  destruct target as [t|]; [|by injection H as <-].
  destruct (truthy (Some t) && bool_decide (is_Some (dj_previous st !! t)));
    [|by injection H as <-].
  apply bind_Return in H as (route & _ & H).
  destruct (last (tr_steps (dj_trace st))) as [s|]; [|done].
  destruct (path s); injection H as <-; [done|]. by apply trace_ok_emit.
Qed.

Lemma dj_run_trace_ok nodes edges start target st :
  dj_run nodes edges start target = Return st → trace_ok (dj_trace st).
Proof.
  unfold dj_run. intros (adj & _ & (st1 & Hloop & Hfin)%bind_Return)%bind_Return.
  eapply dj_final_trace_ok; [done|]. revert Hloop.
  apply (dj_loop_inv nodes adj target (λ st, trace_ok (dj_trace st))
           (λ st, trace_ok (dj_trace st))).
  - intros st0 u d nbrs H _ _ _ _ _. apply dj_advance_trace_ok.
    apply (foldl_preserves (λ st, trace_ok (dj_trace st))); [|done].
    intros. by apply dj_relax_trace_ok.
  - intros st0 u d route H _ _ _ _ _ unvisited. by apply trace_ok_emit.
  - done.
  - apply trace_ok_emit, trace_ok_empty.
Qed.

Lemma as_relax_trace_ok nodeMap t c st nb st' :
  as_relax nodeMap t c st nb = Return st' →
  trace_ok (as_trace st) → trace_ok (as_trace st').
Proof.
  unfold as_relax. intros H Hok.
  destruct (set_has (nodeId nb) (as_closedSet st)); [by injection H as <-|].
  destruct (_ && _); [by injection H as <-|].
  apply bind_Return in H as (h & _ & [= <-]). by apply trace_ok_emit.
Qed.

Lemma as_relax_all_trace_ok nodeMap t c nbrs : ∀ st st',
  as_relax_all nodeMap t c st nbrs = Return st' →
  trace_ok (as_trace st) → trace_ok (as_trace st').
Proof.
  induction nbrs as [|nb nbrs IH]; intros st st'; simpl.
  - by intros [= <-].
  - intros (st1 & H1 & H2)%bind_Return Hok.
    eapply IH; [done|]. by eapply as_relax_trace_ok.
Qed.

Lemma as_advance_trace_ok st :
  trace_ok (as_trace st) → trace_ok (as_trace (as_advance st)).
Proof. unfold as_advance. repeat case_match; try done. apply trace_ok_emit. Qed.

Lemma as_loop_trace_ok nodes adj nodeMap t fuel : ∀ st st',
  as_loop fuel nodes adj nodeMap t st = Return st' →
  trace_ok (as_trace st) → trace_ok (as_trace st').
Proof.
  induction fuel as [|fuel IH]; intros st st'; simpl.
  - destruct (as_openSet st); [by intros [= <-]|done].
  - destruct (as_openSet st) as [|x O] eqn:HO; [by intros [= <-]|].
    rewrite <- HO.
    destruct (scan_min (as_fScore st) (as_openSet st)).1 as [c|];
      [|by intros [= <-]].
    case_bool_decide; [by intros [= <-]|].
    case_bool_decide.
    + intros (route & _ & [= <-])%bind_Return Hok. by apply trace_ok_emit.
    + destruct (adj !! c) as [nbrs|]; [|done].
      intros (st1 & H1 & H2)%bind_Return Hok.
      eapply IH; [done|]. apply as_advance_trace_ok.
      by eapply as_relax_all_trace_ok.
Qed.

Lemma as_run_trace_ok nodes edges start target st :
  as_run nodes edges start target = Return st → trace_ok (as_trace st).
Proof.
  unfold as_run. destruct target as [t|]; [|done].
  destruct (truthy (Some t)); [|done].
  intros (adj & _ & (h & _ & (st1 & Hloop & [= <-])%bind_Return)%bind_Return)
    %bind_Return.
  apply as_loop_trace_ok in Hloop; [|apply trace_ok_emit, trace_ok_empty].
  unfold as_final. case_match; [done|]. by apply trace_ok_emit.
Qed.

(** ** Edges and the adjacency list built from them *)

Lemma adjacent_sym edges a b w : adjacent edges a b w → adjacent edges b a w.
Proof. intros (e & ? & ? & ?). exists e. tauto. Qed.

Lemma adjacent_listed nodes edges a b w :
  wf_edges nodes edges → adjacent edges a b w →
  a ∈ node_ids nodes ∧ b ∈ node_ids nodes.
Proof.
  unfold wf_edges. rewrite Forall_forall.
  intros Hwf (e & Hin & _ & Hor). destruct (Hwf e Hin) as [? ?].
  destruct Hor as [[<- <-]|[<- <-]]; done.
Qed.

Lemma connected_sym edges a b : connected edges a b → connected edges b a.
Proof.
  unfold connected. induction 1 as [|a b c [w Hab] _ IH]; [done|].
  eapply rtc_r; [exact IH|]. exists w. by apply adjacent_sym.
Qed.

Lemma connected_step edges a b c w :
  connected edges a b → adjacent edges b c w → connected edges a c.
Proof. intros Hab Hbc. eapply rtc_r; [exact Hab|]. by exists w. Qed.

(** A set that holds [a] and is closed under adjacency holds the component
    of [a]. *)
Lemma connected_closed edges (S : string → Prop) a b :
  S a → (∀ x y w, S x → adjacent edges x y w → S y) →
  connected edges a b → S b.
Proof.
  intros Ha Hcl. induction 1 as [|a b c [w Hab] _ IH]; [done|].
  apply IH. eauto.
Qed.

Lemma walk_connected edges s v w : walk edges s v w → connected edges s v.
Proof.
  induction 1 as [|u v w c _ IH Hadj]; [done|]. by eapply connected_step.
Qed.

Lemma connected_walk edges s v :
  connected edges s v → ∃ w, walk edges s v w.
Proof.
  intros H. apply rtc_nsteps in H as [n H]. revert v H.
  induction n as [|n IH]; intros v H.
  - inversion H; subst. eexists. constructor.
  - apply nsteps_inv_r in H as (u & Hu & [c Hc]).
    destruct (IH u Hu) as [w Hw]. eexists. econstructor; eauto.
Qed.

(** ** The measure *)

Lemma unseen_le_length ids seen : unseen ids seen ≤ length ids.
Proof. apply length_filter. Qed.

Lemma unseen_app_le ids seen x : unseen ids (seen ++ [x]) ≤ unseen ids seen.
Proof.
  unfold unseen. induction ids as [|y ids IH]; [done|].
  rewrite !filter_cons. repeat case_decide; simpl; try lia.
  set_solver.
Qed.

Lemma unseen_app_lt ids seen x :
  x ∈ ids → x ∉ seen → unseen ids (seen ++ [x]) < unseen ids seen.
Proof.
  unfold unseen. induction ids as [|y ids IH]; [by intros ?%elem_of_nil|].
  intros Hx Hseen. rewrite !filter_cons.
  pose proof (unseen_app_le ids seen x) as Hle. unfold unseen in Hle.
  apply elem_of_cons in Hx as [<-|Hx].
  - rewrite decide_False by set_solver. rewrite decide_True by done.
    simpl. lia.
  - specialize (IH Hx Hseen). repeat case_decide; simpl; try lia. set_solver.
Qed.

Lemma unseen_set_add_lt ids seen x :
  x ∈ ids → x ∉ seen → unseen ids (set_add x seen) < unseen ids seen.
Proof.
  intros Hx Hs. unfold set_add, set_has. rewrite bool_decide_eq_false_2 by done.
  by apply unseen_app_lt.
Qed.

(** ** Traces *)

Lemma last_visited_emit tr v c q st d p msg :
  last_visited (emit tr v c q st d p msg) v.
Proof. eexists. split; [apply last_snoc|done]. Qed.

(** ** BFS: the visited set is the component of the start node *)

Lemma bfs_discover_all c l : ∀ st,
  let st1 := foldl (bfs_discover c) st l in
  (∀ y, y ∈ bfs_visited st1 ↔ y ∈ bfs_visited st ∨ y ∈ nodeId <$> l)
  ∧ (∀ y, y ∈ bfs_queue st1 ↔
       y ∈ bfs_queue st ∨ (y ∈ nodeId <$> l ∧ y ∉ bfs_visited st))
  ∧ (NoDup (bfs_visited st) → NoDup (bfs_visited st1))
  ∧ (last_visited (bfs_trace st) (bfs_visited st) →
     last_visited (bfs_trace st1) (bfs_visited st1)).
Proof.
  induction l as [|nb l IH]; intros st; simpl.
  - split_and!; [set_solver..|done|done].
  - destruct (IH (bfs_discover c st nb)) as (Hv & Hq & Hnd & Hlast).
    unfold bfs_discover in *. unfold set_has in *.
    case_bool_decide as Hseen.
    + split_and!; [set_solver|set_solver|done|done].
    + simpl in *. split_and!.
      * intros y. rewrite Hv, elem_of_set_add. set_solver.
      * intros y. rewrite Hq, elem_of_set_add, elem_of_app,
          list_elem_of_singleton.
        destruct (decide (y = nodeId nb)) as [->|Hne]; set_solver.
      * intros Hnd0. by apply Hnd, set_add_NoDup.
      * intros _. apply Hlast, last_visited_emit.
Qed.

Lemma bfs_discover_all_measure nodes c l : ∀ st,
  (∀ nb, nb ∈ l → nodeId nb ∈ node_ids nodes) →
  bfs_measure nodes (foldl (bfs_discover c) st l) ≤ bfs_measure nodes st.
Proof.
  induction l as [|nb l IH]; intros st Hl; simpl; [done|].
  etrans; [apply IH; set_solver|].
  unfold bfs_discover, set_has. case_bool_decide as Hseen; [done|].
  unfold bfs_measure; simpl. rewrite length_app. simpl.
  assert (nodeId nb ∈ node_ids nodes) as Hin by (apply Hl; left).
  pose proof (unseen_set_add_lt (node_ids nodes) (bfs_visited st) (nodeId nb)
                Hin Hseen).
  lia.
Qed.

Lemma bfs_advance_fields st :
  bfs_visited (bfs_advance st) = bfs_visited st
  ∧ bfs_queue (bfs_advance st) = bfs_queue st.
Proof. unfold bfs_advance. by case_match. Qed.

Lemma bfs_advance_last st :
  last_visited (bfs_trace st) (bfs_visited st) →
  last_visited (bfs_trace (bfs_advance st)) (bfs_visited (bfs_advance st)).
Proof.
  unfold bfs_advance. case_match; [done|]. intros _. apply last_visited_emit.
Qed.

Lemma adj_listed nodes edges (adj : AdjacencyList) k :
  (∀ k, adj !! k
        = if decide (k ∈ node_ids nodes) then Some (incident k edges)
          else None) →
  k ∈ node_ids nodes → adj !! k = Some (incident k edges).
Proof. intros Hadj H. rewrite Hadj. by rewrite decide_True. Qed.

Lemma incident_listed nodes edges k nb :
  wf_edges nodes edges →
  nb ∈ incident k edges → nodeId nb ∈ node_ids nodes.
Proof.
  intros Hwf H%elem_of_incident. by eapply adjacent_listed in H as [_ H].
Qed.

Lemma elem_of_incident_ids edges k y :
  y ∈ nodeId <$> incident k edges ↔ ∃ w, adjacent edges k y w.
Proof.
  rewrite list_elem_of_fmap. split.
  - intros (nb & -> & H). exists (weight nb). by apply elem_of_incident.
  - intros [w H]. exists (mkNeighbor y w). split; [done|].
    by apply elem_of_incident.
Qed.

Section bfs_component.
Context (nodes : list Node) (edges : list Edge) (adj : AdjacencyList).
Context (start : string).
Hypothesis Hwf : wf_edges nodes edges.
Hypothesis Hadj : ∀ k, adj !! k
  = if decide (k ∈ node_ids nodes) then Some (incident k edges) else None.

Lemma bfs_inv_init :
  start ∈ node_ids nodes → bfs_inv nodes edges start (bfs_init start).
Proof.
  intros Hs. unfold bfs_inv, bfs_init; simpl.
  split_and!; try (intros x ->%list_elem_of_singleton).
  - set_solver.
  - done.
  - split; [set_solver|done].
  - left. set_solver.
  - apply NoDup_singleton.
  - apply last_visited_emit.
Qed.

Lemma bfs_inv_step st c q :
  bfs_inv nodes edges start st → bfs_queue st = c :: q →
  let st2 := bfs_advance (foldl (bfs_discover c)
               (mkBFS (bfs_visited st) q (bfs_trace st))
               (incident c edges)) in
  bfs_inv nodes edges start st2 ∧ bfs_measure nodes st2 < bfs_measure nodes st.
Proof.
  intros (Hs & Hconn & Hq & Hcl & Hnd & Hlast) Hqueue st2.
  pose proof (bfs_discover_all c (incident c edges)
    (mkBFS (bfs_visited st) q (bfs_trace st))) as (Hv1 & Hq1 & Hnd1 & Hlast1).
  pose proof (bfs_discover_all_measure nodes c (incident c edges)
    (mkBFS (bfs_visited st) q (bfs_trace st))) as Hm.
  simpl in *.
  destruct (bfs_advance_fields (foldl (bfs_discover c)
    (mkBFS (bfs_visited st) q (bfs_trace st)) (incident c edges)))
    as [Hav Haq].
  fold st2 in Hav, Haq.
  assert (Hc : c ∈ bfs_visited st ∧ c ∈ node_ids nodes).
  { apply Hq. rewrite Hqueue. left. }
  split.
  - unfold bfs_inv. rewrite Hav, Haq. split_and!.
    + apply Hv1. by left.
    + intros x [Hx|Hx]%Hv1; [by auto|].
      apply elem_of_incident_ids in Hx as [w Hx].
      eapply connected_step; [apply Hconn, Hc|done].
    + intros x [Hx|[Hx Hnew]]%Hq1.
      * destruct (Hq x) as [? ?]; [rewrite Hqueue; by right|].
        split; [apply Hv1; by left|done].
      * split; [apply Hv1; by right|].
        apply list_elem_of_fmap in Hx as (nb & -> & Hnb).
        by eapply incident_listed.
    + intros x Hx. destruct (decide (x = c)) as [->|Hne].
      * right. intros y w Hy. apply Hv1. right.
        apply elem_of_incident_ids. eauto.
      * apply Hv1 in Hx as [Hx|Hx].
        -- destruct (Hcl x Hx) as [Hin|Hall].
           ++ left. apply Hq1. left. rewrite Hqueue in Hin.
              apply elem_of_cons in Hin as [?|?]; done.
           ++ right. intros y w Hy. apply Hv1. left. eauto.
        -- destruct (decide (x ∈ bfs_visited st)) as [Hold|Hnew].
           ++ destruct (Hcl x Hold) as [Hin|Hall].
              ** left. apply Hq1. left. rewrite Hqueue in Hin.
                 apply elem_of_cons in Hin as [?|?]; done.
              ** right. intros y w Hy. apply Hv1. left. eauto.
           ++ left. apply Hq1. by right.
    + by apply Hnd1.
    + rewrite <- Hav. apply bfs_advance_last. by apply Hlast1.
  - unfold bfs_measure in *. rewrite Hav, Haq. rewrite Hqueue. simpl in *.
    specialize (Hm (λ nb, incident_listed nodes edges c nb Hwf)). lia.
Qed.

(** Without a target the loop ends with an empty queue, and what it
    visited is the component of the start node. *)
Lemma bfs_loop_component :
  start ∈ node_ids nodes →
  ∃ st, bfs_loop (S (length nodes)) adj None (bfs_init start) = Return st
    ∧ bfs_queue st = []
    ∧ NoDup (bfs_visited st)
    ∧ (∀ x, x ∈ bfs_visited st ↔ connected edges start x)
    ∧ last_visited (bfs_trace st) (bfs_visited st).
Proof.
  intros Hs.
  apply (bfs_loop_total adj None (bfs_inv nodes edges start) _
           (bfs_measure nodes)).
  - intros st _ Hne. unfold bfs_measure.
    destruct (bfs_queue st); [done|simpl; lia].
  - intros st c q HI Hq _. exists (incident c edges). split.
    + eapply adj_listed; [done|]. destruct HI as (_ & _ & HI & _).
      apply HI. rewrite Hq. left.
    + by apply bfs_inv_step.
  - done.
  - intros st (H1 & Hconn & Hq & Hcl & Hnd & Hlast) Hempty.
    split_and!; [done..| |done].
    intros x. split; [by auto|].
    apply (connected_closed edges (λ x, x ∈ bfs_visited st)); [done|].
    intros a b w Ha Hab. destruct (Hcl a Ha) as [Hin|Hall]; [|by eauto].
    rewrite Hempty in Hin. by apply elem_of_nil in Hin.
  - by apply bfs_inv_init.
  - unfold bfs_measure, bfs_init; simpl.
    assert (start ∉ @nil string) as Hnil by (by intros ?%elem_of_nil).
    pose proof (unseen_set_add_lt (node_ids nodes) [] start Hs Hnil).
    pose proof (unseen_le_length (node_ids nodes) []).
    unfold node_ids in *. rewrite length_fmap in *. lia.
Qed.
End bfs_component.

(** ** DFS: the visited set is the component of the start node *)

Lemma incident_length c edges :
  length (incident c edges) = length (filter (λ y, y = c) (endpoints edges)).
Proof.
  induction edges as [|e edges IH]; [done|].
  cbn [incident endpoints]. rewrite !filter_cons, !length_app, IH.
  repeat case_decide; simpl; lia.
Qed.

Lemma unseen_split l seen c :
  c ∉ seen →
  unseen l (seen ++ [c]) + length (filter (λ y, y = c) l) = unseen l seen.
Proof.
  intros Hc. unfold unseen. induction l as [|y l IH]; [done|].
  rewrite !filter_cons.
  destruct (decide (y = c)) as [->|Hne].
  - rewrite decide_False by set_solver. rewrite decide_True by done.
    simpl. lia.
  - destruct (decide (y ∈ seen)) as [Hy|Hy].
    + rewrite !decide_False by set_solver. done.
    + rewrite !decide_True by set_solver. simpl. lia.
Qed.

Lemma endpoints_length edges : length (endpoints edges) = 2 * length edges.
Proof. induction edges as [|e edges IH]; simpl; lia. Qed.

Lemma dfs_push_all c l : ∀ st,
  let st1 := foldl (dfs_push c) st l in
  dfs_visited st1 = dfs_visited st
  ∧ (∀ y, y ∈ dfs_stack st1 ↔
       y ∈ dfs_stack st ∨ (y ∈ nodeId <$> l ∧ y ∉ dfs_visited st))
  ∧ length (dfs_stack st1) ≤ length (dfs_stack st) + length l
  ∧ (last_visited (dfs_trace st) (dfs_visited st) →
     last_visited (dfs_trace st1) (dfs_visited st1)).
Proof.
  induction l as [|nb l IH]; intros st; simpl.
  - split_and!; [done|set_solver|lia|done].
  - destruct (IH (dfs_push c st nb)) as (Hv & Hs & Hlen & Hlast).
    unfold dfs_push in *. unfold set_has in *.
    case_bool_decide as Hseen.
    + split_and!; [done|set_solver|lia|done].
    + simpl in *. split_and!; [done| |lia|].
      * intros y. rewrite Hs.
        destruct (decide (y = nodeId nb)) as [->|Hne]; set_solver.
      * intros _. apply Hlast, last_visited_emit.
Qed.

Section dfs_component.
Context (nodes : list Node) (edges : list Edge) (adj : AdjacencyList).
Context (start : string).
Hypothesis Hwf : wf_edges nodes edges.
Hypothesis Hadj : ∀ k, adj !! k
  = if decide (k ∈ node_ids nodes) then Some (incident k edges) else None.

Lemma dfs_inv_init :
  start ∈ node_ids nodes → dfs_inv nodes edges start (dfs_init start).
Proof.
  intros Hs. unfold dfs_inv, dfs_init; simpl. split_and!.
  - right. set_solver.
  - by intros x ?%elem_of_nil.
  - by intros x ->%list_elem_of_singleton.
  - by intros x ?%elem_of_nil.
  - apply NoDup_nil_2.
  - apply last_visited_emit.
Qed.

Lemma dfs_inv_pop st c stack :
  dfs_inv nodes edges start st → dfs_stack st = c :: stack →
  c ∈ dfs_visited st →
  let st2 := mkDFS (dfs_visited st) stack (dfs_trace st) in
  dfs_inv nodes edges start st2
  ∧ dfs_measure nodes edges st2 < dfs_measure nodes edges st.
Proof.
  intros (Hs & Hconn & Hst & Hcl & Hnd & Hlast) Hstack Hc st2. split.
  - unfold dfs_inv; simpl. rewrite Hstack in *. split_and!; try done.
    + destruct Hs as [?|[->|?]%elem_of_cons]; auto.
    + intros x Hx. apply Hst. by right.
    + intros x Hx y w Hy.
      destruct (Hcl x Hx y w Hy) as [?|[->|?]%elem_of_cons]; auto.
  - unfold dfs_measure; simpl. rewrite Hstack. simpl. lia.
Qed.

Lemma dfs_inv_visit st c stack :
  dfs_inv nodes edges start st → dfs_stack st = c :: stack →
  c ∉ dfs_visited st →
  let visited := set_add c (dfs_visited st) in
  let st2 :=
    foldl (dfs_push c)
      (mkDFS visited stack
         (emit (dfs_trace st) visited (Some c) None (Some (reverse stack))
            None None ("Visiting node " +:+ c)))
      (reverse (incident c edges)) in
  dfs_inv nodes edges start st2
  ∧ dfs_measure nodes edges st2 < dfs_measure nodes edges st.
Proof.
  intros (Hs & Hconn & Hst & Hcl & Hnd & Hlast) Hstack Hc visited st2.
  pose proof (dfs_push_all c (reverse (incident c edges))
    (mkDFS visited stack
       (emit (dfs_trace st) visited (Some c) None (Some (reverse stack))
          None None ("Visiting node " +:+ c)))) as (Hv1 & Hs1 & Hlen1 & Hlast1).
  fold st2 in Hv1, Hs1, Hlen1, Hlast1. simpl in *.
  rewrite Hstack in *.
  assert (Hcc : connected edges start c ∧ c ∈ node_ids nodes)
    by (apply Hst; left).
  assert (Hvis : ∀ x, x ∈ visited ↔ x = c ∨ x ∈ dfs_visited st)
    by (intros x; apply elem_of_set_add).
  assert (Hnb : ∀ y, y ∈ nodeId <$> reverse (incident c edges)
                     ↔ ∃ w, adjacent edges c y w).
  { intros y. rewrite fmap_reverse, elem_of_reverse.
    by apply elem_of_incident_ids. }
  split.
  - unfold dfs_inv. rewrite Hv1. split_and!.
    + destruct Hs as [?|[->|?]%elem_of_cons].
      * left. apply Hvis. by right.
      * left. apply Hvis. by left.
      * right. apply Hs1. by left.
    + intros x [->|Hx]%Hvis; [apply Hcc|by auto].
    + intros x [Hx|[Hx Hnew]]%Hs1.
      * apply Hst. by right.
      * apply Hnb in Hx as [w Hx]. split.
        -- eapply connected_step; [apply Hcc|done].
        -- by eapply adjacent_listed in Hx as [_ Hx].
    + intros x [->|Hx]%Hvis y w Hy.
      * destruct (decide (y ∈ visited)); [by left|].
        right. apply Hs1. right. split; [|done]. apply Hnb. eauto.
      * destruct (Hcl x Hx y w Hy) as [?|[->|?]%elem_of_cons].
        -- left. apply Hvis. by right.
        -- left. apply Hvis. by left.
        -- right. apply Hs1. by left.
    + by apply set_add_NoDup.
    + rewrite <- Hv1. apply Hlast1, last_visited_emit.
  - unfold dfs_measure. rewrite Hv1. simpl.
    rewrite length_reverse, incident_length in Hlen1.
    unfold visited, set_add, set_has. rewrite bool_decide_eq_false_2 by done.
    pose proof (unseen_app_lt (node_ids nodes) (dfs_visited st) c
                  (proj2 Hcc) Hc).
    pose proof (unseen_split (endpoints edges) (dfs_visited st) c Hc).
    rewrite Hstack. simpl. lia.
Qed.

(** Without a target the loop ends with an empty stack, and what it
    visited is the component of the start node. *)
Lemma dfs_loop_component :
  start ∈ node_ids nodes →
  ∃ st, dfs_loop (length nodes + 2 * length edges + 2) adj None
          (dfs_init start) = Return st
    ∧ dfs_stack st = []
    ∧ NoDup (dfs_visited st)
    ∧ (∀ x, x ∈ dfs_visited st ↔ connected edges start x)
    ∧ last_visited (dfs_trace st) (dfs_visited st).
Proof.
  intros Hs0.
  apply (dfs_loop_total adj None (dfs_inv nodes edges start) _
           (dfs_measure nodes edges)).
  - intros st _ Hne. unfold dfs_measure.
    destruct (dfs_stack st); [done|simpl; lia].
  - intros st c stack HI Hst Hc. by apply (dfs_inv_pop st c stack).
  - intros st c stack HI Hst Hc _. exists (incident c edges). split.
    + eapply adj_listed; [done|]. destruct HI as (_ & _ & HI & _).
      apply HI. rewrite Hst. left.
    + by apply (dfs_inv_visit st c stack).
  - done.
  - intros st (Hs & Hconn & Hst & Hcl & Hnd & Hlast) Hempty.
    split_and!; [done..| |done].
    rewrite Hempty in *.
    intros x. split; [by auto|].
    apply (connected_closed edges (λ x, x ∈ dfs_visited st)).
    + destruct Hs as [?|?%elem_of_nil]; done.
    + intros a b w Ha Hab.
      destruct (Hcl a Ha b w Hab) as [?|?%elem_of_nil]; done.
  - by apply dfs_inv_init.
  - unfold dfs_measure, dfs_init; simpl.
    pose proof (unseen_le_length (node_ids nodes) []).
    pose proof (unseen_le_length (endpoints edges) []).
    rewrite endpoints_length in *.
    unfold node_ids in *. rewrite length_fmap in *. lia.
Qed.
End dfs_component.

(** ** Dijkstra: the tables at the start *)

Lemma init_table_lookup {A} (v : A) nodes k :
  foldl (λ m node, <[node_id node := v]> m) (∅ : gmap string A) nodes !! k
  = if decide (k ∈ node_ids nodes) then Some v else None.
Proof.
  unfold node_ids. induction nodes as [|n nodes IH] using rev_ind.
  - simpl. by rewrite lookup_empty.
  - rewrite foldl_app, fmap_app. simpl.
    destruct (decide (node_id n = k)) as [<-|Hne].
    + rewrite lookup_insert_eq. rewrite decide_True; [done|set_solver].
    + rewrite lookup_insert_ne by done. rewrite IH.
      destruct (decide (k ∈ node_id <$> nodes)).
      * rewrite decide_True; [done|set_solver].
      * rewrite decide_False; [done|set_solver].
Qed.

Lemma elem_of_init_unvisited nodes k :
  k ∈ foldl (λ s node, set_add (node_id node) s) [] nodes ↔ k ∈ node_ids nodes.
Proof.
  unfold node_ids. induction nodes as [|n nodes IH] using rev_ind.
  - done.
  - rewrite foldl_app, fmap_app. simpl. rewrite elem_of_set_add, IH. set_solver.
Qed.

Lemma last_distances_emit tr v c q st d p msg :
  last_distances (emit tr v c q st (Some d) p msg) d.
Proof. eexists. split; [apply last_snoc|done]. Qed.

(** ** Dijkstra: one relaxation *)

Lemma num_lt_Fin_l x b :
  num_lt (Some (Fin x)) b = true ↔
  b = Some Infinity ∨ ∃ y, b = Some (Fin y) ∧ (x < y)%Z.
Proof.
  unfold num_lt. destruct b as [[y| |]|].
  - rewrite bool_decide_eq_true. naive_solver.
  - naive_solver.
  - naive_solver.
  - naive_solver.
Qed.

Lemma dj_relax_spec nodes u du st nb :
  dj_distances st !! u = Some (Fin du) →
  let st' := dj_relax nodes u st nb in
  dj_unvisited st' = dj_unvisited st
  ∧ (∀ k, k ∉ dj_unvisited st → dj_distances st' !! k = dj_distances st !! k)
  ∧ (∀ k z, dj_distances st !! k = Some (Fin z) →
       ∃ z1, dj_distances st' !! k = Some (Fin z1) ∧ (z1 ≤ z)%Z)
  ∧ (∀ k, dj_distances st !! k = Some Infinity →
       dj_distances st' !! k = Some Infinity
       ∨ ∃ z, dj_distances st' !! k = Some (Fin z))
  ∧ (∀ k z, dj_distances st' !! k = Some (Fin z) →
       dj_distances st !! k = Some (Fin z)
       ∨ (k = nodeId nb ∧ z = (du + weight nb)%Z ∧ k ∈ dj_unvisited st))
  ∧ (nodeId nb ∈ dj_unvisited st →
     (∃ z, dj_distances st !! nodeId nb = Some (Fin z))
     ∨ dj_distances st !! nodeId nb = Some Infinity →
     ∃ z1, dj_distances st' !! nodeId nb = Some (Fin z1)
       ∧ (z1 ≤ du + weight nb)%Z)
  ∧ (last_distances (dj_trace st) (dj_distances st) →
     last_distances (dj_trace st') (dj_distances st')).
Proof.
  intros Hu. unfold dj_relax, set_has. rewrite Hu. cbn [num_add].
  case_bool_decide as Hin.
  - destruct (num_lt (Some (Fin (du + weight nb)))
                (dj_distances st !! nodeId nb)) eqn:Hlt; cbn [dj_distances
                dj_unvisited dj_trace dj_previous].
    + apply num_lt_Fin_l in Hlt. split_and!.
      * done.
      * intros k Hk. rewrite lookup_insert_ne; [done|]. by intros <-.
      * intros k z Hk. destruct (decide (nodeId nb = k)) as [<-|Hne].
        -- rewrite lookup_insert_eq. eexists. split; [done|].
           destruct Hlt as [Hlt|(y & Hy & Hlt)]; [congruence|].
           rewrite Hk in Hy. injection Hy as <-. lia.
        -- rewrite lookup_insert_ne by done. eauto with lia.
      * intros k Hk. destruct (decide (nodeId nb = k)) as [<-|Hne].
        -- rewrite lookup_insert_eq. eauto.
        -- rewrite lookup_insert_ne by done. eauto.
      * intros k z. destruct (decide (nodeId nb = k)) as [<-|Hne].
        -- rewrite lookup_insert_eq. intros [= <-]. by right.
        -- rewrite lookup_insert_ne by done. eauto.
      * intros _ _. rewrite lookup_insert_eq. eexists. split; [done|lia].
      * intros _. apply last_distances_emit.
    + split_and!; try done.
      * eauto with lia.
      * eauto.
      * eauto.
      * intros _ [[z Hz]|Hinf]; rewrite ?Hz, ?Hinf in Hlt; unfold num_lt in Hlt.
        -- apply bool_decide_eq_false in Hlt. exists z. split; [done|lia].
        -- done.
  - split_and!; try done.
    + eauto with lia.
    + eauto.
    + eauto.
Qed.

(** ** Dijkstra: the relaxation of all edges out of the selected node *)

Lemma dj_relax_all_spec nodes edges start u du l : ∀ st0,
  u ∉ dj_unvisited st0 →
  dj_distances st0 !! u = Some (Fin du) →
  (∀ k, k ∈ node_ids nodes →
     (∃ z, dj_distances st0 !! k = Some (Fin z))
     ∨ dj_distances st0 !! k = Some Infinity) →
  (∀ k z, dj_distances st0 !! k = Some (Fin z) →
     (0 ≤ z)%Z ∧ walk edges start k z) →
  (∀ k z, k ∈ dj_unvisited st0 → dj_distances st0 !! k = Some (Fin z) →
     (du ≤ z)%Z) →
  (∀ nb, nb ∈ l →
     adjacent edges u (nodeId nb) (weight nb) ∧ nodeId nb ∈ node_ids nodes
     ∧ (0 ≤ weight nb)%Z) →
  last_distances (dj_trace st0) (dj_distances st0) →
  let st1 := foldl (dj_relax nodes u) st0 l in
  dj_unvisited st1 = dj_unvisited st0
  ∧ (∀ k, k ∉ dj_unvisited st0 → dj_distances st1 !! k = dj_distances st0 !! k)
  ∧ (∀ k, k ∈ node_ids nodes →
       (∃ z, dj_distances st1 !! k = Some (Fin z))
       ∨ dj_distances st1 !! k = Some Infinity)
  ∧ (∀ k z, dj_distances st1 !! k = Some (Fin z) →
       (0 ≤ z)%Z ∧ walk edges start k z)
  ∧ (∀ k z, k ∈ dj_unvisited st0 → dj_distances st1 !! k = Some (Fin z) →
       (du ≤ z)%Z)
  ∧ (∀ k z, dj_distances st0 !! k = Some (Fin z) →
       ∃ z1, dj_distances st1 !! k = Some (Fin z1) ∧ (z1 ≤ z)%Z)
  ∧ (∀ nb, nb ∈ l → nodeId nb ∈ dj_unvisited st0 →
       ∃ z1, dj_distances st1 !! nodeId nb = Some (Fin z1)
         ∧ (z1 ≤ du + weight nb)%Z)
  ∧ last_distances (dj_trace st1) (dj_distances st1).
Proof.
  intros st0 Hu Hdu HK HS HLB. induction l as [|nb l IH] using rev_ind.
  - intros _ Hlast. simpl. split_and!; try done.
    + eauto with lia.
    + by intros nb ?%elem_of_nil.
  - intros HL Hlast. rewrite foldl_app. cbn [foldl].
    destruct IH as (HU1 & Hsame1 & HK1 & HS1 & HLB1 & Hmono1 & Hrel1 & Hlast1);
      [intros nb' Hnb'; apply HL; set_solver|done|].
    set (st1 := foldl (dj_relax nodes u) st0 l) in *.
    assert (Hu1 : dj_distances st1 !! u = Some (Fin du))
      by (by rewrite Hsame1).
    destruct (dj_relax_spec nodes u du st1 nb Hu1)
      as (Ha & Hb & Hc & Hd & He & Hf & Hg).
    rewrite HU1 in Ha, Hb, He, Hf.
    destruct (HL nb) as (Hadj & Hids & Hw); [set_solver|].
    split_and!.
    + done.
    + intros k Hk. by rewrite Hb, Hsame1.
    + intros k Hk. destruct (HK1 k Hk) as [[z Hz]|Hinf].
      * destruct (Hc k z Hz) as (z1 & Hz1 & _). eauto.
      * destruct (Hd k Hinf) as [?|[z Hz]]; eauto.
    + intros k z Hz. destruct (He k z Hz) as [Hold|(-> & -> & Hin)]; [by eauto|].
      destruct (HS1 u du Hu1) as [Hdu0 Hwalk]. split; [lia|].
      by econstructor.
    + intros k z Hk Hz. destruct (He k z Hz) as [Hold|(-> & -> & Hin)];
        [by eauto|lia].
    + intros k z Hz. destruct (Hmono1 k z Hz) as (z1 & Hz1 & Hle1).
      destruct (Hc k z1 Hz1) as (z2 & Hz2 & Hle2). exists z2. split; [done|lia].
    + intros nb' [Hnb'|Hnb']%elem_of_app Hin;
        [|apply list_elem_of_singleton in Hnb' as ->].
      * destruct (Hrel1 nb' Hnb' Hin) as (z1 & Hz1 & Hle1).
        destruct (Hc _ z1 Hz1) as (z2 & Hz2 & Hle2).
        exists z2. split; [done|lia].
      * apply Hf; [done|]. by apply HK1.
    + by apply Hg.
Qed.

Lemma dj_advance_last nodes st :
  last_distances (dj_trace st) (dj_distances st) →
  last_distances (dj_trace (dj_advance nodes st))
    (dj_distances (dj_advance nodes st)).
Proof.
  unfold dj_advance. repeat case_match; try done.
  intros _. apply last_distances_emit.
Qed.

Lemma adjacent_nonneg edges a b w :
  nonneg_weights edges → adjacent edges a b w → (0 ≤ w)%Z.
Proof.
  unfold nonneg_weights. rewrite Forall_forall.
  intros Hnn (e & Hin & -> & _). by apply Hnn.
Qed.

Lemma set_add_length x s : length (set_add x s) ≤ S (length s).
Proof. unfold set_add. case_match; rewrite ?length_app; simpl; lia. Qed.

Lemma init_unvisited_length nodes :
  length (foldl (λ s node, set_add (node_id node) s) [] nodes) ≤ length nodes.
Proof.
  induction nodes as [|n l IH] using rev_ind; [done|].
  rewrite foldl_app, length_app. simpl.
  etrans; [apply set_add_length|]. lia.
Qed.

Section dijkstra_correct.
Context (nodes : list Node) (edges : list Edge) (adj : AdjacencyList).
Context (start : string).
Hypothesis Hwf : wf_edges nodes edges.
Hypothesis Hnn : nonneg_weights edges.
Hypothesis Hadj : ∀ k, adj !! k
  = if decide (k ∈ node_ids nodes) then Some (incident k edges) else None.

Lemma dj_inv_init : dj_inv nodes edges start (dj_init nodes start).
Proof.
  unfold dj_inv, dj_init; simpl. split_and!.
  - by rewrite lookup_insert_eq.
  - intros k Hk. destruct (decide (start = k)) as [<-|Hne].
    + left. rewrite lookup_insert_eq. eauto.
    + right. rewrite lookup_insert_ne by done.
      rewrite init_table_lookup. by rewrite decide_True.
  - intros k. by rewrite elem_of_init_unvisited.
  - intros k z. destruct (decide (start = k)) as [<-|Hne].
    + rewrite lookup_insert_eq. intros [= <-]. split; [done|constructor].
    + rewrite lookup_insert_ne by done. rewrite init_table_lookup.
      by case_decide.
  - intros u Hu Hnot. exfalso. apply Hnot. by apply elem_of_init_unvisited.
  - apply last_distances_emit.
Qed.

Lemma dj_inv_step st u d :
  dj_inv nodes edges start st →
  scan_min (dj_distances st) (dj_unvisited st) = (Some u, d) →
  dj_inv nodes edges start
    (dj_advance nodes (foldl (dj_relax nodes u)
       (mkDijkstra (dj_distances st) (dj_previous st)
          (set_delete u (dj_unvisited st)) (dj_trace st))
       (incident u edges))).
Proof.
  intros (H0 & HK & HU & HS & HV & Hlast) Hscan.
  apply scan_min_Some in Hscan as (HuU & du & -> & Hdu & Hmin).
  set (st0 := mkDijkstra (dj_distances st) (dj_previous st)
                (set_delete u (dj_unvisited st)) (dj_trace st)).
  assert (Hu' : u ∉ dj_unvisited st0).
  { simpl. rewrite elem_of_set_delete. tauto. }
  destruct (dj_relax_all_spec nodes edges start u du (incident u edges) st0)
    as (HU1 & Hsame1 & HK1 & HS1 & HLB1 & Hmono1 & Hrel1 & Hlast1);
    try done.
  { simpl. intros k z [_ Hk]%elem_of_set_delete Hz. eauto. }
  { intros nb Hnb. pose proof Hnb as Hnb'%elem_of_incident. split_and!.
    - done.
    - by eapply incident_listed.
    - by eapply adjacent_nonneg. }
  set (st1 := foldl (dj_relax nodes u) st0 (incident u edges)) in *.
  destruct (dj_advance_fields nodes st1) as (HaU & Had & _).
  unfold dj_inv. rewrite HaU, Had, HU1. simpl in *. split_and!.
  - destruct (Hmono1 start 0%Z H0) as (z1 & Hz1 & Hle).
    destruct (HS1 start z1 Hz1) as [Hge _]. rewrite Hz1.
    do 2 f_equal. lia.
  - done.
  - intros k [_ Hk]%elem_of_set_delete. auto.
  - done.
  - intros x Hx Hnot. destruct (decide (x = u)) as [->|Hne].
    + exists du. split_and!.
      * by rewrite Hsame1.
      * intros v c Hvc.
        destruct (decide (v ∈ set_delete u (dj_unvisited st))) as [Hv|Hv].
        -- apply (Hrel1 (mkNeighbor v c)); [|done]. by apply elem_of_incident.
        -- rewrite (Hsame1 v Hv).
           pose proof (adjacent_nonneg _ _ _ _ Hnn Hvc) as Hc.
           destruct (decide (v = u)) as [->|Hvu].
           ++ exists du. split; [done|lia].
           ++ assert (v ∉ dj_unvisited st) as Hv'.
              { intros Hin. apply Hv. by apply elem_of_set_delete. }
              destruct (adjacent_listed _ _ _ _ _ Hwf Hvc) as [_ Hvids].
              destruct (HV v Hvids Hv') as (dv & Hdv & _ & Hord).
              exists dv. split; [done|].
              specialize (Hord u du HuU Hdu). lia.
      * intros v dv Hv Hdv. eauto.
    + assert (x ∉ dj_unvisited st) as Hx'.
      { intros Hin. apply Hnot. by apply elem_of_set_delete. }
      destruct (HV x Hx Hx') as (dx & Hdx & Hrel & Hord).
      exists dx. split_and!.
      * by rewrite Hsame1.
      * intros v c Hvc. destruct (Hrel v c Hvc) as (dv & Hdv & Hle).
        destruct (Hmono1 v dv Hdv) as (dv1 & Hdv1 & Hle1).
        exists dv1. split; [done|lia].
      * intros v dv Hv Hdv. specialize (Hord u du HuU Hdu).
        specialize (HLB1 v dv Hv Hdv). lia.
  - rewrite <- Had. by apply dj_advance_last.
Qed.

(** Without a target, and when no listed id is the empty string, the
    loop ends with every unvisited node at [Infinity] and every finite
    entry equal to the least weight of a walk from the start node. *)
Lemma dj_loop_correct :
  "" ∉ node_ids nodes →
  ∃ st, dj_loop (S (length nodes)) nodes adj None (dj_init nodes start)
        = Return st
    ∧ last_distances (dj_trace st) (dj_distances st)
    ∧ ∀ v w, walk edges start v w →
        ∃ d, dj_distances st !! v = Some (Fin d) ∧ (d ≤ w)%Z
          ∧ walk edges start v d.
Proof.
  intros Hne.
  apply (dj_loop_total nodes adj None (dj_inv nodes edges start)).
  - intros st u d HI Hscan _ _ _. exists (incident u edges). split.
    + eapply adj_listed; [done|]. destruct HI as (_ & _ & HU & _).
      apply HU. by apply scan_min_Some in Hscan as [? _].
    + by apply (dj_inv_step st u d).
  - done.
  - intros st HI Hexit. pose proof HI as (H0 & HK & HU & HS & HV & Hlast).
    split; [done|].
    assert (Hinf : ∀ k z, k ∈ dj_unvisited st →
              dj_distances st !! k ≠ Some (Fin z)).
    { destruct Hexit as [Hnil|[[d Hnone]|(u & d & Hscan & Hor)]].
      - rewrite Hnil. by intros k z ?%elem_of_nil.
      - intros k z. by eapply scan_min_None.
      - apply scan_min_Some in Hscan as (HuU & z & -> & _).
        destruct Hor as [->|?]; [|done]. exfalso. apply Hne. by apply HU. }
    assert (Hle : ∀ v w, walk edges start v w →
              ∃ d, dj_distances st !! v = Some (Fin d) ∧ (d ≤ w)%Z).
    { induction 1 as [|u v w c Hwalk IH Hadjc].
      - exists 0%Z. split; [done|lia].
      - destruct IH as (du & Hdu & Hle).
        destruct (adjacent_listed _ _ _ _ _ Hwf Hadjc) as [Huids _].
        assert (u ∉ dj_unvisited st) as Hu by (intros Hin; by eapply Hinf).
        destruct (HV u Huids Hu) as (du' & Hdu' & Hrel & _).
        rewrite Hdu in Hdu'. injection Hdu' as <-.
        destruct (Hrel v c Hadjc) as (dv & Hdv & Hle').
        exists dv. split; [done|lia]. }
    intros v w Hwalk. destruct (Hle v w Hwalk) as (d & Hd & Hdw).
    exists d. split_and!; [done..|]. by apply HS.
  - apply dj_inv_init.
  - simpl. pose proof (init_unvisited_length nodes). lia.
Qed.
End dijkstra_correct.

(** ** Runs without a target *)

Lemma executeBFS_of_run nodes edges start target st :
  bfs_run nodes edges start target = Return st →
  executeBFS nodes edges start target
  = Return (mkResult bfs start target (tr_steps (bfs_trace st)) 0
              "O(V + E)" "O(V)").
Proof. unfold executeBFS. by intros ->. Qed.

Lemma executeDFS_of_run nodes edges start target st :
  dfs_run nodes edges start target = Return st →
  executeDFS nodes edges start target
  = Return (mkResult dfs start target (tr_steps (dfs_trace st)) 0
              "O(V + E)" "O(V)").
Proof. unfold executeDFS. by intros ->. Qed.

Lemma executeDijkstra_of_run nodes edges start target st :
  dj_run nodes edges start target = Return st →
  executeDijkstra nodes edges start target
  = Return (mkResult dijkstra start target (tr_steps (dj_trace st)) 0
              "O(VÂ² + E)" "O(V)").
Proof. unfold executeDijkstra. by intros ->. Qed.

Lemma is_target_None c : is_target None c = false.
Proof. done. Qed.

(** On a well-formed graph the Dijkstra loop without a target runs until
    its own test of exhaustion fires. *)
Lemma dj_loop_exhausts nodes edges adj start :
  wf_edges nodes edges →
  (∀ k, adj !! k
        = if decide (k ∈ node_ids nodes) then Some (incident k edges)
          else None) →
  ∃ st, dj_loop (S (length nodes)) nodes adj None (dj_init nodes start)
        = Return st
    ∧ dj_exhausted st.
Proof.
  intros Hwf Hadj.
  apply (dj_loop_total nodes adj None
           (λ st, ∀ k, k ∈ dj_unvisited st → k ∈ node_ids nodes)).
  - intros st u d HU Hscan _ _ _. exists (incident u edges). split.
    + eapply adj_listed; [done|]. apply HU.
      by apply scan_min_Some in Hscan as [? _].
    + intros k.
      destruct (dj_advance_fields nodes
        (foldl (dj_relax nodes u)
           (mkDijkstra (dj_distances st) (dj_previous st)
              (set_delete u (dj_unvisited st)) (dj_trace st))
           (incident u edges))) as [-> _].
      rewrite dj_relax_all_unvisited. simpl.
      intros [_ Hk]%elem_of_set_delete. auto.
  - done.
  - intros st _ Hexit. unfold dj_exhausted.
    destruct Hexit as [Hnil|[[d Hnone]|(u & d & Hscan & Hor)]].
    + by rewrite Hnil.
    + by rewrite Hnone.
    + by rewrite Hscan.
  - intros k. simpl. by rewrite elem_of_init_unvisited.
  - simpl. pose proof (init_unvisited_length nodes). lia.
Qed.

(** ** Errors the loops can raise *)






(** ** Dijkstra: predecessors and the reconstruction of paths *)

Lemma foldl_preserves_elem {A B} (P : A → Prop) (f : A → B → A) l : ∀ a,
  (∀ a b, b ∈ l → P a → P (f a b)) → P a → P (foldl f a l).
Proof.
  induction l as [|b l IH]; intros a Hf Ha; simpl; [done|].
  apply IH; [|apply Hf; [left|done]].
  intros a' b' Hb'. apply Hf. by right.
Qed.

Lemma elem_of_snoc {A} (l : list A) x y : x ∈ l ++ [y] ↔ x ∈ l ∨ x = y.
Proof. by rewrite elem_of_app, list_elem_of_singleton. Qed.

(** A relaxation leaves the state alone or rewrites the entries of one
    unvisited neighbour and records a step without a path. *)
Lemma dj_relax_cases nodes u st nb :
  dj_relax nodes u st nb = st
  ∨ nodeId nb ∈ dj_unvisited st
    ∧ ∃ d msg,
        num_lt (Some d) (dj_distances st !! nodeId nb) = true
        ∧ d = num_add (dj_distances st !! u) (weight nb)
        ∧ dj_relax nodes u st nb
          = mkDijkstra (<[nodeId nb := d]> (dj_distances st))
              (<[nodeId nb := Some u]> (dj_previous st)) (dj_unvisited st)
              (emit (dj_trace st) (visited_of nodes (dj_unvisited st))
                 (Some u) None None (Some (<[nodeId nb := d]> (dj_distances st)))
                 None msg).
Proof.
  unfold dj_relax, set_has. case_bool_decide as Hin; [|by left].
  destruct (num_lt _ _) eqn:Hlt; [|by left].
  right. split; [done|]. eauto.
Qed.

Lemma num_lt_finite a b : num_lt (Some a) b = true → ∃ z, a = Fin z.
Proof. unfold num_lt. destruct a; [eauto|done..]. Qed.

Lemma dj_relax_all_previous nodes u l : ∀ st,
  let st1 := foldl (dj_relax nodes u) st l in
  (∀ k, dj_previous st1 !! k = dj_previous st !! k
        ∨ (dj_previous st1 !! k = Some (Some u) ∧ k ∈ dj_unvisited st))
  ∧ (is_Some (last (tr_steps (dj_trace st))) →
     is_Some (last (tr_steps (dj_trace st1)))).
Proof.
  induction l as [|nb l IH]; intros st; simpl; [by auto|].
  destruct (IH (dj_relax nodes u st nb)) as [Hprev Hlast].
  rewrite dj_relax_unvisited in Hprev.
  destruct (dj_relax_cases nodes u st nb)
    as [Heq|(Hin & d & msg & _ & _ & Heq)]; rewrite Heq in *; [done|].
  simpl in *. split.
  - intros k. destruct (Hprev k) as [Hk|Hk]; [|by right].
    rewrite Hk. destruct (decide (nodeId nb = k)) as [<-|Hne].
    + rewrite lookup_insert_eq. by right.
    + rewrite lookup_insert_ne by done. by left.
  - intros _. apply Hlast. rewrite last_snoc. eauto.
Qed.

Lemma dj_advance_last_step nodes st :
  is_Some (last (tr_steps (dj_trace st))) →
  is_Some (last (tr_steps (dj_trace (dj_advance nodes st)))).
Proof.
  unfold dj_advance. repeat case_match; try done.
  intros _. simpl. rewrite last_snoc. eauto.
Qed.

Lemma reconstruct_ranked previous (rank : string → nat) (good : string → Prop) :
  (∀ k, good k → is_Some (previous !! k)) →
  (∀ k p, good k → previous !! k = Some (Some p) → good p ∧ rank p < rank k) →
  ∀ fuel k path, good k → rank k < fuel →
    ∃ r, reconstruct fuel previous (Some k) path = Return r.
Proof.
  intros Hkey Hdown. induction fuel as [|fuel IH]; intros k path Hk Hlt; [lia|].
  rewrite reconstruct_S. destruct (Hkey k Hk) as [[p|] Hp]; rewrite Hp.
  - destruct (Hdown k p Hk Hp) as [Hgood Hrank]. apply IH; [done|lia].
  - rewrite reconstruct_null. eauto.
Qed.

Lemma dj_chain_reconstruct nodes st t path :
  dj_chain nodes st → t ∈ node_ids nodes →
  ∃ r, reconstruct (S (length nodes)) (dj_previous st) (Some t) path = Return r.
Proof.
  intros (rank & n & Hn & HU & Hkeys & Hrank & Hprev & _) Ht.
  assert (Hgood : ∀ fuel k path, k ∈ node_ids nodes → k ∉ dj_unvisited st →
            rank k < fuel →
            ∃ r, reconstruct fuel (dj_previous st) (Some k) path = Return r).
  { intros fuel k path' Hk1 Hk2.
    apply (reconstruct_ranked (dj_previous st) rank
             (λ k, k ∈ node_ids nodes ∧ k ∉ dj_unvisited st)); [| |done].
    - intros k' [Hk' _]. by apply Hkeys.
    - intros k' p [Hk' Hk''] Hp. destruct (Hprev k' p Hp) as (? & ? & Hr).
      auto. }
  destruct (decide (t ∈ dj_unvisited st)) as [HtU|HtU].
  - rewrite reconstruct_S. destruct (proj2 (Hkeys t) Ht) as [[p|] Hp]; rewrite Hp.
    + destruct (Hprev t p Hp) as (Hp1 & Hp2 & _).
      apply Hgood; [done..|]. specialize (Hrank p Hp1 Hp2). lia.
    + rewrite reconstruct_null. eauto.
  - apply Hgood; [done..|]. specialize (Hrank t Ht HtU). lia.
Qed.

Lemma dj_chain_init nodes start : dj_chain nodes (dj_init nodes start).
Proof.
  exists (λ _, 0), 0. unfold dj_init; simpl. split_and!.
  - apply init_unvisited_length.
  - intros k. by rewrite elem_of_init_unvisited.
  - intros k. rewrite init_table_lookup. case_decide; split; done.
  - intros x Hx Hnot. exfalso. apply Hnot. by apply elem_of_init_unvisited.
  - intros k p. rewrite init_table_lookup. by case_decide.
  - eauto.
Qed.

Lemma dj_chain_step nodes u st d nbrs :
  dj_chain nodes st →
  scan_min (dj_distances st) (dj_unvisited st) = (Some u, d) →
  dj_chain nodes
    (dj_advance nodes (foldl (dj_relax nodes u)
       (mkDijkstra (dj_distances st) (dj_previous st)
          (set_delete u (dj_unvisited st)) (dj_trace st)) nbrs)).
Proof.
  intros (rank & n & Hn & HU & Hkeys & Hrank & Hprev & Hlast) Hscan.
  apply scan_min_Some in Hscan as (HuU & _).
  set (st0 := mkDijkstra (dj_distances st) (dj_previous st)
                (set_delete u (dj_unvisited st)) (dj_trace st)).
  destruct (dj_relax_all_previous nodes u nbrs st0) as [Hp1 Hl1].
  set (st1 := foldl (dj_relax nodes u) st0 nbrs) in *.
  destruct (dj_advance_fields nodes st1) as (HaU & _ & Hap).
  assert (HU1 : dj_unvisited st1 = set_delete u (dj_unvisited st))
    by apply dj_relax_all_unvisited.
  exists (λ x, if decide (x = u) then n else rank x), (S n).
  rewrite HaU, Hap, HU1. simpl in *. split_and!.
  - pose proof (set_delete_length u _ HuU). lia.
  - intros k [_ Hk]%elem_of_set_delete. auto.
  - intros k. destruct (Hp1 k) as [->|[-> [_ Hk]%elem_of_set_delete]]; [done|].
    split; [auto|eauto].
  - intros x Hx Hnot. case_decide as Hxu; [lia|].
    assert (x ∉ dj_unvisited st) as Hx'.
    { intros Hin. apply Hnot. by apply elem_of_set_delete. }
    specialize (Hrank x Hx Hx'). lia.
  - intros k p Hkp.
    destruct (Hp1 k) as [Hold|[Hnew [Hku Hk]%elem_of_set_delete]].
    + rewrite Hold in Hkp. destruct (Hprev k p Hkp) as (Hp & HpU & Hr).
      split_and!; [done| |].
      * rewrite elem_of_set_delete. tauto.
      * intros Hk. rewrite (decide_False (P := p = u)) by (by intros ->).
        case_decide as Hku; [by apply Hrank|].
        apply Hr. intros Hin. apply Hk. by apply elem_of_set_delete.
    + rewrite Hnew in Hkp. injection Hkp as <-. split_and!; [auto| |].
      * rewrite elem_of_set_delete. tauto.
      * intros Hnot. exfalso. apply Hnot. by apply elem_of_set_delete.
  - by apply dj_advance_last_step, Hl1.
Qed.

Lemma dj_final_total nodes target st :
  (∀ t path, is_Some (dj_previous st !! t) →
     ∃ r, reconstruct (S (length nodes)) (dj_previous st) (Some t) path
          = Return r) →
  is_Some (last (tr_steps (dj_trace st))) →
  ∃ st', dj_final nodes target st = Return st'.
Proof.
  intros Hrec [s Hs]. unfold dj_final. destruct target as [t|]; [|by eauto].
  destruct (truthy (Some t)); simpl; [|by eauto].
  case_bool_decide as Hk; [|by eauto].
  destruct (Hrec t [] Hk) as [route ->]. cbn [mbind outcome_bind].
  rewrite Hs. destruct (path s); eauto.
Qed.

(** On a graph whose edges name listed nodes the Dijkstra loop returns,
    whatever the target. *)
Lemma dj_loop_returns nodes edges adj start target :
  wf_edges nodes edges →
  (∀ k, adj !! k
        = if decide (k ∈ node_ids nodes) then Some (incident k edges)
          else None) →
  ∃ st, dj_loop (S (length nodes)) nodes adj target (dj_init nodes start)
        = Return st
    ∧ (∀ t path, is_Some (dj_previous st !! t) →
         ∃ r, reconstruct (S (length nodes)) (dj_previous st) (Some t) path
              = Return r)
    ∧ is_Some (last (tr_steps (dj_trace st))).
Proof.
  intros Hwf Hadj.
  assert (Hdone : ∀ st, dj_chain nodes st →
            (∀ t path, is_Some (dj_previous st !! t) →
               ∃ r, reconstruct (S (length nodes)) (dj_previous st) (Some t) path
                    = Return r)
            ∧ is_Some (last (tr_steps (dj_trace st)))).
  { intros st Hchain. pose proof Hchain as (rank & n & _ & _ & Hkeys & _ & _ & Hl).
    split; [|done]. intros t path Ht%Hkeys. by apply dj_chain_reconstruct. }
  apply (dj_loop_total nodes adj target (dj_chain nodes)).
  - intros st u d Hchain Hscan _ _ _. exists (incident u edges). split.
    + eapply adj_listed; [done|]. destruct Hchain as (? & ? & _ & HU & _).
      apply HU. by apply scan_min_Some in Hscan as [? _].
    + by eapply dj_chain_step.
  - intros st u d Hchain Hscan _ _ _.
    destruct (Hdone st Hchain) as [Hrec Hl].
    assert (u ∈ node_ids nodes) as Hu.
    { destruct Hchain as (? & ? & _ & HU & _).
      apply HU. by apply scan_min_Some in Hscan as [? _]. }
    destruct (dj_chain_reconstruct nodes st u [] Hchain Hu) as [route Hr].
    exists route. split; [done|]. simpl. split; [done|].
    rewrite last_snoc. eauto.
  - intros st Hchain _. by apply Hdone.
  - apply dj_chain_init.
  - simpl. pose proof (init_unvisited_length nodes). lia.
Qed.

Lemma executeDijkstra_returns nodes edges start target :
  wf_edges nodes edges →
  ∃ r, executeDijkstra nodes edges start target = Return r.
Proof.
  intros Hwf.
  destruct (createAdjacencyList_wf nodes edges Hwf) as (adj & Hc & Hadj).
  destruct (dj_loop_returns nodes edges adj start target Hwf Hadj)
    as (st & Hloop & Hrec & Hlast).
  destruct (dj_final_total nodes target st Hrec Hlast) as [st' Hfin].
  eexists. apply executeDijkstra_of_run. unfold dj_run. rewrite Hc.
  cbn [mbind outcome_bind]. rewrite Hloop. exact Hfin.
Qed.

(** ** Dijkstra: a target out of reach *)

Lemma dj_relax_reach nodes edges start u st nb :
  connected edges start u → adjacent edges u (nodeId nb) (weight nb) →
  dj_reach edges start st → dj_reach edges start (dj_relax nodes u st nb).
Proof.
  intros Hu Hnb (Hd & Hp & Hs).
  destruct (dj_relax_cases nodes u st nb)
    as [->|(Hin & d & msg & _ & _ & ->)]; [done|].
  assert (connected edges start (nodeId nb)) as Hc
    by (by eapply connected_step).
  unfold dj_reach; simpl. split_and!.
  - intros k z. destruct (decide (nodeId nb = k)) as [<-|Hne]; [done|].
    rewrite lookup_insert_ne by done. apply Hd.
  - intros k p. destruct (decide (nodeId nb = k)) as [<-|Hne]; [done|].
    rewrite lookup_insert_ne by done. apply Hp.
  - intros s0 [Hin'| ->]%elem_of_snoc; [auto|done].
Qed.

Lemma dj_advance_reach nodes edges start st :
  dj_reach edges start st → dj_reach edges start (dj_advance nodes st).
Proof.
  intros (Hd & Hp & Hs). unfold dj_advance. repeat case_match; try done.
  unfold dj_reach; simpl. split_and!; [done..|].
  intros s0 [Hin'| ->]%elem_of_snoc; [auto|done].
Qed.

Lemma dj_reach_init nodes edges start :
  dj_reach edges start (dj_init nodes start).
Proof.
  unfold dj_reach, dj_init; simpl. split_and!.
  - intros k z. destruct (decide (start = k)) as [<-|Hne]; [done|].
    rewrite lookup_insert_ne by done. rewrite init_table_lookup.
    by case_decide.
  - intros k p. rewrite init_table_lookup. by case_decide.
  - by intros s ->%list_elem_of_singleton.
Qed.

(** With a target that is not connected to the start node the loop never
    selects the target: it returns with the predecessor table free of any
    entry for a node out of reach and with no path in its trace. *)
Lemma dj_loop_unreachable nodes edges adj start t :
  wf_edges nodes edges →
  (∀ k, adj !! k
        = if decide (k ∈ node_ids nodes) then Some (incident k edges)
          else None) →
  ¬ connected edges start t →
  ∃ st, dj_loop (S (length nodes)) nodes adj (Some t) (dj_init nodes start)
        = Return st
    ∧ dj_chain nodes st ∧ dj_reach edges start st.
Proof.
  intros Hwf Hadj Hun.
  apply (dj_loop_total nodes adj (Some t)
           (λ st, dj_chain nodes st ∧ dj_reach edges start st)).
  - intros st u d [Hchain Hreach] Hscan _ _ _. exists (incident u edges).
    pose proof Hscan as (HuU & z & -> & Hz & _)%scan_min_Some.
    split_and!.
    + eapply adj_listed; [done|]. destruct Hchain as (? & ? & _ & HU & _).
      by apply HU.
    + by eapply dj_chain_step.
    + apply dj_advance_reach.
      apply (foldl_preserves_elem (dj_reach edges start)); [|done].
      intros st' nb Hnb Hst'. apply dj_relax_reach; [|by apply elem_of_incident|done].
      destruct Hreach as (Hd & _). by eapply Hd.
  - intros st u d [Hchain (Hd & _)] Hscan _ _ Ht. exfalso.
    apply scan_min_Some in Hscan as (_ & z & _ & Hz & _).
    unfold is_target in Ht. apply andb_prop in Ht as [_ Ht].
    apply bool_decide_eq_true in Ht. injection Ht as ->.
    apply Hun. by eapply Hd.
  - intros st HP _. exact HP.
  - split; [apply dj_chain_init|apply dj_reach_init].
  - simpl. pose proof (init_unvisited_length nodes). lia.
Qed.

(** ** BFS: where the trace reports the target *)

Lemma discovered_not_reached c n t :
  discovered_description c n ≠ reached_description t.
Proof. done. Qed.

Lemma moving_not_discovery next c n :
  "Moving to next node in queue: " +:+ next ≠ discovered_description c n.
Proof. done. Qed.

Lemma starting_not_discovery start c n :
  "Starting BFS from node " +:+ start ≠ discovered_description c n.
Proof. done. Qed.

Lemma reached_not_discovery t c n :
  reached_description t ≠ discovered_description c n.
Proof. done. Qed.

Lemma is_target_true t c : is_target (Some t) c = true → t ≠ "" ∧ c = t.
Proof.
  unfold is_target, truthy. intros [Ht Hc]%andb_prop.
  apply negb_true_iff, bool_decide_eq_false in Ht.
  apply bool_decide_eq_true in Hc. by injection Hc as ->.
Qed.

Lemma is_target_refl t : t ≠ "" → is_target (Some t) t = true.
Proof.
  intros Ht. unfold is_target, truthy.
  rewrite bool_decide_eq_false_2 by done. by rewrite bool_decide_eq_true_2.
Qed.

Lemma is_target_false t c : t ≠ "" → is_target (Some t) c = false → c ≠ t.
Proof. intros Ht Hf ->. by rewrite is_target_refl in Hf. Qed.

Lemma bfs_discover_body t c st nb :
  bfs_body t st → bfs_body t (bfs_discover c st nb).
Proof.
  intros [Hlast Hno]. unfold bfs_discover. case_match; [done|].
  split; simpl.
  - eexists. split; [apply last_snoc|]. intros _. by destruct (bfs_queue st).
  - intros s [Hs| ->]%elem_of_snoc; [auto|].
    apply discovered_not_reached.
Qed.

Lemma bfs_advance_head t st : bfs_body t st → bfs_head t (bfs_advance st).
Proof.
  intros [(s & Hlast & Hdisc) Hno]. unfold bfs_advance.
  destruct (bfs_queue st) as [|next q] eqn:Hq.
  - split; [|done]. exists s. split_and!; [done| |by rewrite Hq].
    intros Hs. by apply Hdisc.
  - split; simpl.
    + eexists. split_and!; [apply last_snoc| |done].
      intros (c & n & Hd). by apply moving_not_discovery in Hd.
    + intros s' [Hs| ->]%elem_of_snoc; [auto|done].
Qed.

Lemma bfs_head_init t start : bfs_head t (bfs_init start).
Proof.
  unfold bfs_init. split; simpl.
  - eexists. split_and!; [done| |done].
    intros (c & n & Hd). by apply starting_not_discovery in Hd.
  - by intros s ->%list_elem_of_singleton.
Qed.

Lemma bfs_loop_reports adj t fuel st st' :
  bfs_head t st → bfs_loop fuel adj (Some t) st = Return st' →
  bfs_reports_on_dequeue t (tr_steps (bfs_trace st')).
Proof.
  apply (bfs_loop_inv adj (Some t) (bfs_head t)
           (λ st, bfs_reports_on_dequeue t (tr_steps (bfs_trace st)))).
  - intros st0 c q nbrs [(s & Hlast & Hnd & _) Hno] Hq _ _.
    apply bfs_advance_head.
    apply (foldl_preserves (bfs_body t)).
    + intros. by apply bfs_discover_body.
    + split; [|done]. exists s. split; [done|]. by intros ?.
  - intros st0 c q [(s0 & Hlast & Hnd & Hshow) Hno] Hq [_ ->]%is_target_true.
    destruct Hshow as [Hqueue Hvis]; [by rewrite Hq|].
    split; simpl.
    + intros i s [Hi|[Hlen Hi]]%lookup_app_Some Hdesc.
      * exfalso. eapply Hno; [|done]. by eapply list_elem_of_lookup_2.
      * apply list_lookup_singleton_Some in Hi as [Hi <-]. simpl.
        rewrite length_app. simpl. split; [lia|]. split; [done|].
        rewrite last_lookup in Hlast.
        assert (0 < length (tr_steps (bfs_trace st0))) as Hpos.
        { destruct (tr_steps (bfs_trace st0)); simpl in *; [done|lia]. }
        exists (pred (length (tr_steps (bfs_trace st0)))), s0, q.
        split_and!; try done.
        -- lia.
        -- rewrite lookup_app_l by lia. done.
        -- by rewrite Hqueue, Hq.
    + intros s. rewrite last_snoc. intros [= <-] (c & n & Hd).
      by apply reached_not_discovery in Hd.
  - intros st0 [(s & Hlast & Hnd & _) Hno] _. split.
    + intros i s0 Hi Hdesc. exfalso. eapply Hno; [|done].
      by eapply list_elem_of_lookup_2.
    + intros s0 Hs0. rewrite Hlast in Hs0. by injection Hs0 as <-.
Qed.

(** A target connected to the start node is dequeued: the run ends on the
    step that reports it. *)
Lemma bfs_loop_reaches nodes edges adj start t :
  wf_edges nodes edges →
  (∀ k, adj !! k
        = if decide (k ∈ node_ids nodes) then Some (incident k edges)
          else None) →
  start ∈ node_ids nodes → t ≠ "" → connected edges start t →
  ∃ st s, bfs_loop (S (length nodes)) adj (Some t) (bfs_init start) = Return st
    ∧ last (tr_steps (bfs_trace st)) = Some s
    ∧ description s = reached_description t.
Proof.
  intros Hwf Hadj Hs Ht Hconn.
  cut (∃ st, bfs_loop (S (length nodes)) adj (Some t) (bfs_init start)
             = Return st
         ∧ ∃ s, last (tr_steps (bfs_trace st)) = Some s
             ∧ description s = reached_description t).
  { intros (st & ? & s & ? & ?). eauto. }
  apply (bfs_loop_total adj (Some t)
           (λ st, bfs_inv nodes edges start st
                  ∧ (t ∈ bfs_visited st → t ∈ bfs_queue st))
           _ (bfs_measure nodes)).
  - intros st _ Hne. unfold bfs_measure.
    destruct (bfs_queue st); [done|simpl; lia].
  - intros st c q [HI Hpending] Hq Hnot.
    apply is_target_false in Hnot; [|done].
    exists (incident c edges). split.
    + eapply adj_listed; [done|]. destruct HI as (_ & _ & HI & _).
      apply HI. rewrite Hq. left.
    + destruct (bfs_inv_step nodes edges start Hwf st c q HI Hq) as [HI2 Hm].
      split; [split; [done|]|done].
      pose proof (bfs_discover_all c (incident c edges)
        (mkBFS (bfs_visited st) q (bfs_trace st))) as (Hv1 & Hq1 & _).
      destruct (bfs_advance_fields (foldl (bfs_discover c)
        (mkBFS (bfs_visited st) q (bfs_trace st)) (incident c edges)))
        as [-> ->].
      simpl in *. intros [Hold|Hnew]%Hv1.
      * apply Hq1. left. specialize (Hpending Hold). rewrite Hq in Hpending.
        apply elem_of_cons in Hpending as [?|?]; done.
      * destruct (decide (t ∈ bfs_visited st)) as [Hold|Hfresh].
        -- apply Hq1. left. specialize (Hpending Hold). rewrite Hq in Hpending.
           apply elem_of_cons in Hpending as [?|?]; done.
        -- apply Hq1. by right.
  - intros st c q _ _ [_ ->]%is_target_true. simpl.
    eexists. split; [apply last_snoc|done].
  - intros st [(H1 & _ & _ & Hcl & _) Hpending] Hempty. exfalso.
    assert (t ∈ bfs_visited st) as Hin.
    { apply (connected_closed edges (λ x, x ∈ bfs_visited st) start);
        [done| |done].
      intros a b w Ha Hab. destruct (Hcl a Ha) as [Hin|Hall]; [|by eauto].
      rewrite Hempty in Hin. by apply elem_of_nil in Hin. }
    specialize (Hpending Hin). rewrite Hempty in Hpending.
    by apply elem_of_nil in Hpending.
  - split; [by eapply bfs_inv_init|]. simpl. rewrite elem_of_set_add.
    intros [->|?%elem_of_nil]; [left|done].
  - unfold bfs_measure, bfs_init; simpl.
    assert (start ∉ @nil string) as Hnil by (by intros ?%elem_of_nil).
    pose proof (unseen_set_add_lt (node_ids nodes) [] start Hs Hnil).
    pose proof (unseen_le_length (node_ids nodes) []).
    unfold node_ids in *. rewrite length_fmap in *. lia.
Qed.

(** An unlisted node is connected to itself only. *)
Lemma connected_unlisted nodes edges a b :
  wf_edges nodes edges → a ∉ node_ids nodes → connected edges a b → a = b.
Proof.
  intros Hwf Ha Hab. destruct Hab as [|a x b [w Hax] _]; [done|].
  by apply (adjacent_listed _ _ _ _ _ Hwf) in Hax as [? _].
Qed.

(** ** A declared weight of 0 *)

Lemma effective_weight_zero edge :
  edge_weight edge = Some 0%Z → effective_weight edge = 1%Z.
Proof. unfold effective_weight. by intros ->. Qed.

Lemma effective_weight_nonzero edge : effective_weight edge ≠ 0%Z.
Proof.
  unfold effective_weight, truthy_number.
  destruct (edge_weight edge) as [w|]; [|done].
  by case_bool_decide.
Qed.

Lemma adjacent_positive edges a b w :
  nonneg_weights edges → adjacent edges a b w → (1 ≤ w)%Z.
Proof.
  intros Hnn Hab. pose proof (adjacent_nonneg _ _ _ _ Hnn Hab).
  destruct Hab as (e & _ & -> & _).
  pose proof (effective_weight_nonzero e). lia.
Qed.

Lemma walk_positive edges s v w :
  nonneg_weights edges → walk edges s v w →
  (0 ≤ w)%Z ∧ (v ≠ s → (1 ≤ w)%Z).
Proof.
  intros Hnn. induction 1 as [|u v w c _ [IH _] Hc]; [done|].
  pose proof (adjacent_positive _ _ _ _ Hnn Hc). lia.
Qed.

Lemma dj_final_distances nodes target st st' :
  dj_final nodes target st = Return st' →
  dj_distances st' = dj_distances st
  ∧ (last_distances (dj_trace st) (dj_distances st) →
     last_distances (dj_trace st') (dj_distances st')).
Proof.
  unfold dj_final. intros H.
  destruct target as [t|]; [|by injection H as <-].
  destruct (truthy (Some t) && bool_decide (is_Some (dj_previous st !! t)));
    [|by injection H as <-].
  apply bind_Return in H as (route & _ & H).
  destruct (last (tr_steps (dj_trace st))) as [s|]; [|done].
  destruct (path s); injection H as <-; [done|].
  split; [done|]. intros _. apply last_distances_emit.
Qed.

Section zero_edge.
Context (nodes : list Node) (edges : list Edge) (adj : AdjacencyList).
Context (a b : string) (target : option string).
Hypothesis Hwf : wf_edges nodes edges.
Hypothesis Hnn : nonneg_weights edges.
Hypothesis Hadj : ∀ k, adj !! k
  = if decide (k ∈ node_ids nodes) then Some (incident k edges) else None.
Hypothesis Hab : adjacent edges a b 1.
Hypothesis Hne : a ≠ b.
Hypothesis Ha : a ≠ "".
Hypothesis Htarget : target ≠ Some a.

(** While the start node is unvisited nothing else can be selected. *)
Lemma dj_selects_start_first st u d :
  dj_inv nodes edges a st →
  scan_min (dj_distances st) (dj_unvisited st) = (Some u, d) →
  a ∈ dj_unvisited st → u = a.
Proof.
  intros (H0 & _ & _ & HS & _) Hscan HaU.
  apply scan_min_Some in Hscan as (_ & z & _ & Hz & Hmin).
  destruct (decide (u = a)) as [|Hua]; [done|]. exfalso.
  specialize (Hmin a 0%Z HaU H0).
  destruct (HS u z Hz) as [_ Hwalk].
  apply (walk_positive _ _ _ _ Hnn) in Hwalk as [_ Hpos].
  specialize (Hpos Hua). lia.
Qed.

Lemma dj_zero_edge_step st u d :
  dj_inv nodes edges a st →
  (a ∉ dj_unvisited st → dj_distances st !! b = Some (Fin 1)) →
  scan_min (dj_distances st) (dj_unvisited st) = (Some u, d) →
  let st2 := dj_advance nodes (foldl (dj_relax nodes u)
               (mkDijkstra (dj_distances st) (dj_previous st)
                  (set_delete u (dj_unvisited st)) (dj_trace st))
               (incident u edges)) in
  a ∉ dj_unvisited st2 → dj_distances st2 !! b = Some (Fin 1).
Proof.
  intros HI Hone Hscan st2 _.
  pose proof (dj_inv_step nodes edges a Hwf Hnn st u d HI Hscan) as HI2.
  fold st2 in HI2.
  assert (Hle : ∃ z, dj_distances st2 !! b = Some (Fin z) ∧ (z ≤ 1)%Z).
  { destruct (decide (a ∈ dj_unvisited st)) as [HaU|HaU].
    - assert (u = a) as -> by exact (dj_selects_start_first st u d HI Hscan HaU).
      destruct HI2 as (H0 & _ & _ & _ & HV & _).
      destruct (adjacent_listed _ _ _ _ _ Hwf Hab) as [Hain _].
      destruct (HV a Hain) as (da & Hda & Hrel & _).
      { unfold st2.
        destruct (dj_advance_fields nodes (foldl (dj_relax nodes a)
          (mkDijkstra (dj_distances st) (dj_previous st)
             (set_delete a (dj_unvisited st)) (dj_trace st))
          (incident a edges))) as [-> _].
        rewrite dj_relax_all_unvisited. simpl.
        rewrite elem_of_set_delete. tauto. }
      rewrite H0 in Hda. injection Hda as <-.
      destruct (Hrel b 1%Z Hab) as (z & Hz & Hle). exists z. split; [done|lia].
    - specialize (Hone HaU).
      pose proof HI as (_ & HK & HU & HS & _ & Hlast).
      pose proof Hscan as (HuU & du & -> & Hdu & Hmin)%scan_min_Some.
      destruct (dj_relax_all_spec nodes edges a u du (incident u edges)
        (mkDijkstra (dj_distances st) (dj_previous st)
           (set_delete u (dj_unvisited st)) (dj_trace st)))
        as (_ & _ & _ & _ & _ & Hmono & _); try done.
      + simpl. rewrite elem_of_set_delete. tauto.
      + simpl. intros k z [_ Hk]%elem_of_set_delete Hz. eauto.
      + intros nb Hnb. pose proof Hnb as Hnb'%elem_of_incident. split_and!.
        * done.
        * by eapply incident_listed.
        * by eapply adjacent_nonneg.
      + destruct (Hmono b 1%Z Hone) as (z & Hz & Hle).
        exists z. split; [|done]. unfold st2.
        destruct (dj_advance_fields nodes (foldl (dj_relax nodes u)
          (mkDijkstra (dj_distances st) (dj_previous st)
             (set_delete u (dj_unvisited st)) (dj_trace st))
          (incident u edges))) as (_ & -> & _). done. }
  destruct Hle as (z & Hz & Hle). rewrite Hz. do 2 f_equal.
  destruct HI2 as (_ & _ & _ & HS & _). destruct (HS b z Hz) as [_ Hwalk].
  apply (walk_positive _ _ _ _ Hnn) in Hwalk as [_ Hpos].
  assert (b ≠ a) as Hba by done. specialize (Hpos Hba). lia.
Qed.

(** The run from [a] records the distance 1 for [b], whatever the target,
    unless the target is [a] itself. *)
Lemma dj_zero_edge_run :
  ∃ r s d, executeDijkstra nodes edges a target = Return r
    ∧ last (steps r) = Some s ∧ distances s = Some d
    ∧ d !! b = Some (Fin 1).
Proof.
  assert (Hloop : ∃ st,
    dj_loop (S (length nodes)) nodes adj target (dj_init nodes a) = Return st
    ∧ (∀ t path, is_Some (dj_previous st !! t) →
         ∃ r, reconstruct (S (length nodes)) (dj_previous st) (Some t) path
              = Return r)
    ∧ is_Some (last (tr_steps (dj_trace st)))
    ∧ last_distances (dj_trace st) (dj_distances st)
    ∧ dj_distances st !! b = Some (Fin 1)).
  { apply (dj_loop_total nodes adj target
      (λ st, dj_inv nodes edges a st ∧ dj_chain nodes st
             ∧ (a ∉ dj_unvisited st → dj_distances st !! b = Some (Fin 1)))).
    - intros st u d (HI & Hchain & Hone) Hscan _ _ _.
      exists (incident u edges). split_and!.
      + eapply adj_listed; [done|]. destruct HI as (_ & _ & HU & _).
        apply HU. by apply scan_min_Some in Hscan as [? _].
      + by eapply dj_inv_step.
      + by eapply dj_chain_step.
      + by eapply dj_zero_edge_step.
    - intros st u d (HI & Hchain & Hone) Hscan _ _ Ht.
      assert (u ∈ node_ids nodes) as Hu.
      { destruct HI as (_ & _ & HU & _).
        apply HU. by apply scan_min_Some in Hscan as [? _]. }
      destruct (dj_chain_reconstruct nodes st u [] Hchain Hu) as [route Hr].
      exists route. split; [done|]. simpl.
      pose proof Hchain as (rank & n & _ & _ & Hkeys & _).
      split_and!.
      + intros t path Hk%Hkeys. by apply dj_chain_reconstruct.
      + rewrite last_snoc. eauto.
      + apply last_distances_emit.
      + apply Hone. intros HaU.
        assert (u = a) as -> by exact (dj_selects_start_first st u d HI Hscan HaU).
        destruct target as [t|]; [|done].
        apply is_target_true in Ht as [_ ->]. done.
    - intros st (HI & Hchain & Hone) Hexit.
      pose proof Hchain as (rank & n & _ & _ & Hkeys & _ & _ & Hl).
      pose proof HI as (H0 & _ & _ & _ & _ & Hlast).
      split_and!; [|done|done|].
      + intros t path Hk%Hkeys. by apply dj_chain_reconstruct.
      + apply Hone. intros HaU.
        destruct Hexit as [Hnil|[[d Hnone]|(u & d & Hscan & Hor)]].
        * rewrite Hnil in HaU. by apply elem_of_nil in HaU.
        * by eapply scan_min_None in Hnone.
        * assert (u = a) as -> by exact (dj_selects_start_first st u d HI Hscan HaU).
          apply scan_min_Some in Hscan as (_ & z & -> & _).
          by destruct Hor.
    - split_and!; [by apply dj_inv_init|apply dj_chain_init|].
      intros Hnot. exfalso. apply Hnot. simpl. apply elem_of_init_unvisited.
      by eapply adjacent_listed in Hab as [? _].
    - simpl. pose proof (init_unvisited_length nodes). lia. }
  destruct Hloop as (st & Hloop & Hrec & Hl & Hlast & Hone).
  destruct (dj_final_total nodes target st Hrec Hl) as [st' Hfin].
  destruct (dj_final_distances nodes target st st' Hfin) as [Hsame Hlast'].
  destruct (Hlast' Hlast) as (s & Hs & Hd).
  exists (mkResult dijkstra a target (tr_steps (dj_trace st')) 0
            "O(VÂ² + E)" "O(V)"), s, (dj_distances st').
  split_and!; [|done|done|by rewrite Hsame].
  apply executeDijkstra_of_run. unfold dj_run.
  destruct (createAdjacencyList_wf nodes edges Hwf) as (adj' & Hc & Hadj').
  assert (adj' = adj) as ->.
  { apply map_eq. intros k. by rewrite Hadj, Hadj'. }
  rewrite Hc. cbn [mbind outcome_bind]. rewrite Hloop. exact Hfin.
Qed.
End zero_edge.

(** ** Every run ends *)

Lemma getHeuristic_ends nodeMap t k : getHeuristic nodeMap t k ≠ OutOfFuel.
Proof. unfold getHeuristic. by repeat case_match. Qed.

Lemma unseen_pos ids seen x : x ∈ ids → x ∉ seen → 0 < unseen ids seen.
Proof.
  intros Hx Hs. pose proof (unseen_app_lt ids seen x Hx Hs). lia.
Qed.

(** A relaxation of A* leaves the state alone or opens one neighbour that
    is not closed and makes the current node its predecessor. *)
Lemma as_relax_cases nodeMap t c st nb st' :
  as_relax nodeMap t c st nb = Return st' →
  st' = st
  ∨ (nodeId nb ∉ as_closedSet st)
    ∧ as_openSet st' = set_add (nodeId nb) (as_openSet st)
    ∧ as_closedSet st' = as_closedSet st
    ∧ as_previous st' = <[nodeId nb := Some c]> (as_previous st).
Proof.
  unfold as_relax, set_has. case_bool_decide as Hcl; [intros [= <-]; by left|].
  destruct (_ && _); [intros [= <-]; by left|].
  intros (h & _ & [= <-])%bind_Return. right. by split_and!.
Qed.

Lemma as_relax_ends nodeMap t c st nb :
  as_relax nodeMap t c st nb ≠ OutOfFuel.
Proof.
  unfold as_relax. destruct (set_has _ _); [done|].
  destruct (_ && _); [done|].
  pose proof (getHeuristic_ends nodeMap t (nodeId nb)).
  by destruct (getHeuristic nodeMap t (nodeId nb)).
Qed.

Lemma as_relax_inv nodes rank n nodeMap t c st nb st' :
  c ∈ node_ids nodes → c ∈ as_closedSet st → nodeId nb ∈ node_ids nodes →
  as_inv_at nodes rank n st →
  as_relax nodeMap t c st nb = Return st' →
  as_inv_at nodes rank n st' ∧ as_closedSet st' = as_closedSet st.
Proof.
  intros Hc Hcc Hnb (Hn & Hopen & Hrank & Hkeys & Hprev) Hr.
  apply as_relax_cases in Hr as [->|(Hncl & Ho & Hcl & Hp)]; [done|].
  split; [|done]. unfold as_inv_at. rewrite Ho, Hcl, Hp. split_and!.
  - done.
  - intros k [->|Hk]%elem_of_set_add; auto.
  - done.
  - intros k Hk. destruct (decide (nodeId nb = k)) as [<-|Hne].
    + rewrite lookup_insert_eq. eauto.
    + rewrite lookup_insert_ne by done. auto.
  - intros k p. destruct (decide (nodeId nb = k)) as [<-|Hne].
    + rewrite lookup_insert_eq. intros [= <-]. split_and!; [done..|].
      intros Hin. by destruct Hncl.
    + rewrite lookup_insert_ne by done. auto.
Qed.

Lemma as_relax_all_inv nodes rank n nodeMap t c nbrs : ∀ st,
  c ∈ node_ids nodes → c ∈ as_closedSet st →
  (∀ nb, nb ∈ nbrs → nodeId nb ∈ node_ids nodes) →
  as_inv_at nodes rank n st →
  match as_relax_all nodeMap t c st nbrs with
  | Return st' => as_inv_at nodes rank n st'
                  ∧ as_closedSet st' = as_closedSet st
  | Throw _ => True
  | OutOfFuel => False
  end.
Proof.
  induction nbrs as [|nb nbrs IH]; intros st Hc Hcc Hnbrs HI; simpl; [done|].
  pose proof (as_relax_ends nodeMap t c st nb) as Hends.
  destruct (as_relax nodeMap t c st nb) as [st1| |] eqn:Hr; [|done..].
  cbn [mbind outcome_bind].
  destruct (as_relax_inv nodes rank n nodeMap t c st nb st1) as [HI1 Hcl1];
    [done|done|apply Hnbrs; left|done|done|].
  specialize (IH st1 Hc). rewrite Hcl1 in IH.
  assert (∀ nb', nb' ∈ nbrs → nodeId nb' ∈ node_ids nodes) as Hnbrs'.
  { intros nb' Hin. apply Hnbrs. by right. }
  specialize (IH Hcc Hnbrs' HI1).
  by destruct (as_relax_all nodeMap t c st1 nbrs).
Qed.

Lemma as_advance_fields st :
  as_openSet (as_advance st) = as_openSet st
  ∧ as_closedSet (as_advance st) = as_closedSet st
  ∧ as_previous (as_advance st) = as_previous st.
Proof. unfold as_advance. by repeat case_match. Qed.

Lemma as_inv_reconstruct nodes st c path :
  as_inv nodes st → c ∈ as_openSet st →
  ∃ r, reconstruct (S (length nodes)) (as_previous st) (Some c) path = Return r.
Proof.
  intros (rank & n & Hn & Hopen & Hrank & Hkeys & Hprev) Hc.
  destruct (Hopen c Hc) as [Hcids _].
  rewrite reconstruct_S. destruct (Hkeys c Hcids) as [[p|] Hp]; rewrite Hp.
  - destruct (Hprev c p Hp) as (Hp1 & Hp2 & _).
    apply (reconstruct_ranked (as_previous st) rank
             (λ k, k ∈ node_ids nodes ∧ k ∈ as_closedSet st)).
    + intros k [Hk _]. auto.
    + intros k p' [Hk1 Hk2] Hkp. destruct (Hprev k p' Hkp) as (? & ? & Hr).
      auto.
    + done.
    + specialize (Hrank p Hp2). lia.
  - rewrite reconstruct_null. eauto.
Qed.

Lemma as_inv_close nodes rank n st c :
  as_inv_at nodes rank n st → c ∈ as_openSet st →
  as_inv_at nodes (λ x, if decide (x = c) then n else rank x) (S n)
    (mkAStar (set_delete c (as_openSet st)) (set_add c (as_closedSet st))
       (as_gScore st) (as_fScore st) (as_previous st) (as_trace st))
  ∧ unseen (node_ids nodes) (set_add c (as_closedSet st))
    < unseen (node_ids nodes) (as_closedSet st).
Proof.
  intros (Hn & Hopen & Hrank & Hkeys & Hprev) Hc.
  destruct (Hopen c Hc) as [Hcids Hcl].
  pose proof (unseen_set_add_lt (node_ids nodes) (as_closedSet st) c Hcids Hcl)
    as Hlt.
  split; [|done]. unfold as_inv_at; simpl. split_and!.
  - lia.
  - intros k [Hkc Hk]%elem_of_set_delete. destruct (Hopen k Hk) as [? ?].
    split; [done|]. rewrite elem_of_set_add. naive_solver.
  - intros x [->|Hx]%elem_of_set_add.
    + rewrite decide_True by done. lia.
    + case_decide; [lia|]. specialize (Hrank x Hx). lia.
  - done.
  - intros k p Hkp. destruct (Hprev k p Hkp) as (Hp1 & Hp2 & Hr).
    split_and!; [done| |].
    + apply elem_of_set_add. by right.
    + assert (p ≠ c) as Hpc by (by intros ->).
      intros [->|Hk]%elem_of_set_add.
      * rewrite (decide_True (P := c = c)) by done.
        rewrite (decide_False (P := p = c)) by done. by apply Hrank.
      * rewrite (decide_False (P := p = c)) by done.
        case_decide; [by apply Hrank|]. by apply Hr.
Qed.

Lemma node_map_lookup nodes k :
  is_Some (node_map nodes !! k) ↔ k ∈ node_ids nodes.
Proof.
  unfold node_map, node_ids. induction nodes as [|n nodes IH] using rev_ind.
  - simpl. rewrite lookup_empty. split; [by intros [? ?]|by intros ?%elem_of_nil].
  - rewrite foldl_app, fmap_app. simpl.
    destruct (decide (node_id n = k)) as [<-|Hne].
    + rewrite lookup_insert_eq. split; [set_solver|eauto].
    + rewrite lookup_insert_ne by done. rewrite IH. set_solver.
Qed.

Section astar_ends.
Context (nodes : list Node) (edges : list Edge) (adj : AdjacencyList).
Context (nodeMap : gmap string Node) (t : string).
Hypothesis Hwf : wf_edges nodes edges.
Hypothesis Hadj : ∀ k, adj !! k
  = if decide (k ∈ node_ids nodes) then Some (incident k edges) else None.

Lemma as_loop_ends fuel : ∀ st,
  as_inv nodes st → unseen (node_ids nodes) (as_closedSet st) ≤ fuel →
  as_loop fuel nodes adj nodeMap t st ≠ OutOfFuel.
Proof.
  induction fuel as [|fuel IH]; intros st HI Hfuel; simpl.
  - destruct (as_openSet st) as [|x O] eqn:HO; [done|]. exfalso.
    destruct HI as (rank & n & _ & Hopen & _).
    destruct (Hopen x) as [Hx1 Hx2]; [rewrite HO; left|].
    pose proof (unseen_pos _ _ _ Hx1 Hx2). lia.
  - destruct (as_openSet st) as [|x O] eqn:HO; [done|]. rewrite <- HO.
    destruct (scan_min (as_fScore st) (as_openSet st)) as [[c|] d] eqn:Hscan;
      simpl; [|done].
    apply scan_min_Some in Hscan as [Hc _].
    case_bool_decide; [done|]. case_bool_decide.
    + destruct (as_inv_reconstruct nodes st c [] HI Hc) as [route ->]. done.
    + destruct HI as (rank & n & HI).
      pose proof HI as (_ & Hopen & _). destruct (Hopen c Hc) as [Hcids _].
      rewrite (adj_listed nodes edges adj c Hadj Hcids).
      destruct (as_inv_close nodes rank n st c HI Hc) as [HI0 Hlt].
      pose proof (as_relax_all_inv nodes
        (λ x, if decide (x = c) then n else rank x) (S n) nodeMap t c
        (incident c edges)
        (mkAStar (set_delete c (as_openSet st)) (set_add c (as_closedSet st))
           (as_gScore st) (as_fScore st) (as_previous st) (as_trace st))
        Hcids) as Hall.
      simpl in Hall. specialize (Hall (proj2 (elem_of_set_add _ _ _) (or_introl eq_refl))).
      specialize (Hall (λ nb, incident_listed nodes edges c nb Hwf) HI0).
      destruct (as_relax_all _ _ _ _ _) as [st1| |]; [|done..].
      cbn [mbind outcome_bind]. destruct Hall as [HI1 Hcl1].
      destruct (as_advance_fields st1) as (Ho & Hcl & Hp).
      apply IH.
      * eexists _, (S n). unfold as_inv_at. rewrite Ho, Hcl, Hp. exact HI1.
      * rewrite Hcl, Hcl1. lia.
Qed.
End astar_ends.

Lemma executeAStar_ends nodes edges start target :
  executeAStar nodes edges start target ≠ OutOfFuel.
Proof.
  unfold executeAStar, as_run. destruct target as [t|]; [|done].
  destruct (truthy (Some t)); [|done].
  pose proof (createAdjacencyList_spec nodes edges) as Hspec.
  destruct (createAdjacencyList nodes edges) as [adj| |]; [|done..].
  destruct Hspec as [Hwf Hadj]. cbn [mbind outcome_bind].
  pose proof (getHeuristic_ends (node_map nodes) t start) as Hh.
  destruct (getHeuristic (node_map nodes) t start) as [h| |] eqn:Hheur;
    [|done..].
  cbn [mbind outcome_bind].
  assert (start ∈ node_ids nodes) as Hs.
  { apply node_map_lookup. unfold getHeuristic in Hheur.
    by destruct (node_map nodes !! start). }
  match goal with
  | |- context [as_loop ?f ?n ?a ?m ?t ?st] =>
      pose proof (as_loop_ends nodes edges adj (node_map nodes) t Hwf Hadj f st)
        as Hloop
  end.
  destruct (as_loop _ _ _ _ _ _) as [st1| |]; [done..|].
  exfalso. apply Hloop; [| |done].
  - exists (λ _, 0), 0. unfold as_inv_at; simpl. split_and!.
    + pose proof (unseen_le_length (node_ids nodes) []).
      unfold node_ids in *. rewrite length_fmap in *. lia.
    + intros k [->|?%elem_of_nil]%elem_of_set_add; [|done].
      split; [done|]. by intros ?%elem_of_nil.
    + by intros x ?%elem_of_nil.
    + intros k Hk. rewrite init_table_lookup. rewrite decide_True by done. eauto.
    + intros k p. rewrite init_table_lookup. by case_decide.
  - simpl. pose proof (unseen_le_length (node_ids nodes) []).
    unfold node_ids in *. rewrite length_fmap in *. lia.
Qed.

Lemma executeBFS_ends nodes edges start target :
  executeBFS nodes edges start target ≠ OutOfFuel.
Proof.
  unfold executeBFS, bfs_run.
  pose proof (createAdjacencyList_spec nodes edges) as Hspec.
  destruct (createAdjacencyList nodes edges) as [adj| |]; [|done..].
  destruct Hspec as [Hwf Hadj]. cbn [mbind outcome_bind].
  destruct (decide (start ∈ node_ids nodes)) as [Hs|Hs].
  - destruct (bfs_loop_total adj target (bfs_inv nodes edges start)
                (λ _, True) (bfs_measure nodes)) with
      (fuel := S (length nodes)) (st := bfs_init start) as (st & -> & _);
      try done.
    + intros st _ Hne. unfold bfs_measure.
      destruct (bfs_queue st); [done|simpl; lia].
    + intros st c q HI Hq _. exists (incident c edges). split.
      * eapply adj_listed; [done|]. destruct HI as (_ & _ & HI & _).
        apply HI. rewrite Hq. left.
      * by apply bfs_inv_step.
    + by eapply bfs_inv_init.
    + unfold bfs_measure, bfs_init; simpl.
      assert (start ∉ @nil string) as Hnil by (by intros ?%elem_of_nil).
      pose proof (unseen_set_add_lt (node_ids nodes) [] start Hs Hnil).
      pose proof (unseen_le_length (node_ids nodes) []).
      unfold node_ids in *. rewrite length_fmap in *. lia.
  - simpl. destruct (is_target target start); [done|].
    rewrite Hadj. by rewrite decide_False.
Qed.

Lemma executeDFS_ends nodes edges start target :
  executeDFS nodes edges start target ≠ OutOfFuel.
Proof.
  unfold executeDFS, dfs_run.
  pose proof (createAdjacencyList_spec nodes edges) as Hspec.
  destruct (createAdjacencyList nodes edges) as [adj| |]; [|done..].
  destruct Hspec as [Hwf Hadj]. cbn [mbind outcome_bind].
  destruct (decide (start ∈ node_ids nodes)) as [Hs|Hs].
  - destruct (dfs_loop_total adj target (dfs_inv nodes edges start)
                (λ _, True) (dfs_measure nodes edges)) with
      (fuel := length nodes + 2 * length edges + 2) (st := dfs_init start)
      as (st & -> & _); try done.
    + intros st _ Hne. unfold dfs_measure.
      destruct (dfs_stack st); [done|simpl; lia].
    + intros st c stack HI Hst Hc. by apply (dfs_inv_pop nodes edges start st c stack).
    + intros st c stack HI Hst Hc _. exists (incident c edges). split.
      * eapply adj_listed; [done|]. destruct HI as (_ & _ & HI & _).
        apply HI. rewrite Hst. left.
      * by apply (dfs_inv_visit nodes edges start Hwf st c stack).
    + by eapply dfs_inv_init.
    + unfold dfs_measure, dfs_init; simpl.
      pose proof (unseen_le_length (node_ids nodes) []).
      pose proof (unseen_le_length (endpoints edges) []).
      rewrite endpoints_length in *.
      unfold node_ids in *. rewrite length_fmap in *. lia.
  - replace (length nodes + 2 * length edges + 2)
      with (S (length nodes + 2 * length edges + 1)) by lia.
    simpl. destruct (is_target target start); [done|].
    rewrite Hadj. by rewrite decide_False.
Qed.

Lemma executeDijkstra_ends nodes edges start target :
  executeDijkstra nodes edges start target ≠ OutOfFuel.
Proof.
  pose proof (createAdjacencyList_spec nodes edges) as Hspec.
  destruct (createAdjacencyList nodes edges) as [adj| |] eqn:Hc; [| |done].
  - destruct Hspec as [Hwf _].
    by destruct (executeDijkstra_returns nodes edges start target Hwf) as [r ->].
  - unfold executeDijkstra, dj_run. by rewrite Hc.
Qed.

(** The fuel given to the four runners is enough: a run returns or
    throws. *)
Lemma runners_end nodes edges start target :
  executeBFS nodes edges start target ≠ OutOfFuel
  ∧ executeDFS nodes edges start target ≠ OutOfFuel
  ∧ executeDijkstra nodes edges start target ≠ OutOfFuel
  ∧ executeAStar nodes edges start target ≠ OutOfFuel.
Proof.
  split_and!; [apply executeBFS_ends|apply executeDFS_ends
              |apply executeDijkstra_ends|apply executeAStar_ends].
Qed.

(** ** The Dijkstra loop sweeps the component of the start node *)





(** * The claims *)

(** C2: for node and edge lists whose edges name listed nodes only, the
    adjacency list is built, and it lists [b] among the neighbours of [a]
    if and only if it lists [a] among the neighbours of [b]. *)
Theorem createAdjacencyList_symmetric nodes edges :
  wf_edges nodes edges →
  ∃ adj, createAdjacencyList nodes edges = Return adj
    ∧ ∀ a b, lists adj a b ↔ lists adj b a.
Proof.
  intros Hwf. destruct (createAdjacencyList_wf nodes edges Hwf) as (adj & Hc & Hadj).
  exists adj. split; [done|].
  assert (Hhalf : ∀ a b, lists adj a b → lists adj b a).
  { intros a b (l & Ha & Hb). rewrite Hadj in Ha.
    case_decide as Hin; [|done]. injection Ha as <-.
    apply elem_of_incident_ids in Hb as [w Hab].
    destruct (adjacent_listed _ _ _ _ _ Hwf Hab) as [_ Hbin].
    exists (incident b edges). split.
    - by eapply adj_listed.
    - apply elem_of_incident_ids. exists w. by apply adjacent_sym. }
  intros a b. split; apply Hhalf.
Qed.

Lemma cycle_wf : wf_edges cycle_nodes cycle_edges.
Proof. apply (bool_decide_unpack _). by vm_compute. Qed.

Lemma createAdjacencyList_symmetric_witness :
  ∃ adj, createAdjacencyList cycle_nodes cycle_edges = Return adj
    ∧ ∀ a b, lists adj a b ↔ lists adj b a.
Proof.
  apply (createAdjacencyList_symmetric cycle_nodes cycle_edges).
  apply (bool_decide_unpack _). by vm_compute.
Defined.

(** C3: when some edge names a node id that is not in the node list, the
    build of the adjacency list fails with the error the specification
    calls UnknownNodeReference, and so does every runner, before it has a
    trace to return (A* reports a missing target first, if it has none). *)
Theorem createAdjacencyList_unknown_node nodes edges :
  Exists (λ edge, edge_source edge ∉ node_ids nodes
                  ∨ edge_target edge ∉ node_ids nodes) edges →
  ∃ e, UnknownNodeReference e
    ∧ createAdjacencyList nodes edges = Throw e
    ∧ ∀ start target,
        executeBFS nodes edges start target = Throw e
        ∧ executeDFS nodes edges start target = Throw e
        ∧ executeDijkstra nodes edges start target = Throw e
        ∧ executeAStar nodes edges start target
          = Throw (if truthy target then e else MissingTarget).
Proof.
  intros Hex. pose proof (createAdjacencyList_spec nodes edges) as H.
  destruct (createAdjacencyList nodes edges) as [adj|e|] eqn:Hc; [| |done].
  - exfalso. destruct H as [Hwf _]. unfold wf_edges in Hwf.
    rewrite Forall_forall in Hwf.
    apply Exists_exists in Hex as (edge & Hin & Hor).
    destruct (Hwf edge Hin). tauto.
  - destruct H as (key & -> & _). eexists. split; [by exists key|].
    split; [done|]. intros start target.
    unfold executeBFS, bfs_run, executeDFS, dfs_run, executeDijkstra, dj_run,
      executeAStar, as_run. rewrite Hc. split_and!; try done.
    destruct target as [t|]; simpl; [|done]. by case_bool_decide.
Qed.

Lemma createAdjacencyList_unknown_node_witness :
  ∃ e, UnknownNodeReference e
    ∧ createAdjacencyList apart_nodes dangling_edges = Throw e
    ∧ ∀ start target,
        executeBFS apart_nodes dangling_edges start target = Throw e
        ∧ executeDFS apart_nodes dangling_edges start target = Throw e
        ∧ executeDijkstra apart_nodes dangling_edges start target = Throw e
        ∧ executeAStar apart_nodes dangling_edges start target
          = Throw (if truthy target then e else MissingTarget).
Proof.
  apply (createAdjacencyList_unknown_node apart_nodes dangling_edges).
  apply (bool_decide_unpack _). by vm_compute.
Defined.

(** C10: for each of the four runners, in the trace a run returns the
    [i]-th step carries the number [i]: the numbers start at 0 and have no
    gap and no repeat.  With plain ids for the listed nodes, the start node
    and the target, every run does return or throw. *)
Theorem step_indices_consecutive nodes edges start target run :
  run ∈ [executeBFS; executeDFS; executeDijkstra; executeAStar] →
  (plain_ids nodes → plain start → plain_target target →
   run nodes edges start target ≠ OutOfFuel)
  ∧ ∀ r, run nodes edges start target = Return r →
      ∀ i s, steps r !! i = Some s → step s = i.
Proof.
  intros Hrun. destruct (runners_end nodes edges start target)
    as (Hbfs & Hdfs & Hdj & Has).
  unfold executeBFS, executeDFS, executeDijkstra, executeAStar in *.
  repeat (apply elem_of_cons in Hrun as [->|Hrun]);
    [| | | |by apply elem_of_nil in Hrun];
    (split; [done|]);
    intros r (st & Hst & [= <-])%bind_Return; simpl.
  - by apply bfs_run_trace_ok in Hst as [_ ?].
  - by apply dfs_run_trace_ok in Hst as [_ ?].
  - by apply dj_run_trace_ok in Hst as [_ ?].
  - by apply as_run_trace_ok in Hst as [_ ?].
Qed.

Lemma step_indices_consecutive_witness :
  executeAStar cycle_nodes cycle_edges "A" (Some "D") ≠ OutOfFuel
  ∧ ∀ r, executeAStar cycle_nodes cycle_edges "A" (Some "D") = Return r →
      ∀ i s, steps r !! i = Some s → step s = i.
Proof.
  destruct (step_indices_consecutive cycle_nodes cycle_edges "A" (Some "D")
              executeAStar) as [Hends Hsteps].
  - do 3 right. left.
  - split; [|exact Hsteps].
    apply Hends; apply (bool_decide_unpack _); by vm_compute.
Defined.

(** On the cycle the A* run from A to D returns eleven steps, numbered
    0 to 10. *)
Example cycle_astar_steps :
  ∃ r, executeAStar cycle_nodes cycle_edges "A" (Some "D") = Return r
    ∧ step <$> steps r = seq 0 11.
Proof. eexists. split; by vm_compute. Qed.

Lemma component_size edges start (seen : list string) :
  NoDup seen → (∀ x, x ∈ seen ↔ connected edges start x) →
  ∀ component, NoDup component →
    (∀ x, x ∈ component ↔ connected edges start x) →
    length seen = length component.
Proof.
  intros Hnd Hseen component Hndc Hcomp.
  apply Permutation_length, NoDup_Permutation; [done..|].
  intros x. by rewrite Hseen, Hcomp.
Qed.

(** C8: on a graph whose edges name listed nodes, from a listed start node
    and with no target, the BFS runner and the DFS runner return a trace
    whose last step records, without repetition, exactly the nodes of the
    connected component of the start node: its visited set has the size of
    that component. *)
Theorem traversal_visits_component nodes edges start :
  wf_edges nodes edges → start ∈ node_ids nodes →
  ends_on_component edges start (executeBFS nodes edges start None)
  ∧ ends_on_component edges start (executeDFS nodes edges start None).
Proof.
  intros Hwf Hs.
  destruct (createAdjacencyList_wf nodes edges Hwf) as (adj & Hc & Hadj).
  split.
  - destruct (bfs_loop_component nodes edges adj start Hwf Hadj Hs)
      as (st & Hloop & _ & Hnd & Hcomp & s & Hlast & Hv).
    exists (mkResult bfs start None (tr_steps (bfs_trace st)) 0
              "O(V + E)" "O(V)"), s.
    unfold executeBFS, bfs_run. rewrite Hc. cbn [mbind outcome_bind].
    rewrite Hloop. rewrite Hv. split_and!; try done.
    by apply component_size.
  - destruct (dfs_loop_component nodes edges adj start Hwf Hadj Hs)
      as (st & Hloop & _ & Hnd & Hcomp & s & Hlast & Hv).
    exists (mkResult dfs start None (tr_steps (dfs_trace st)) 0
              "O(V + E)" "O(V)"), s.
    unfold executeDFS, dfs_run. rewrite Hc. cbn [mbind outcome_bind].
    rewrite Hloop. rewrite Hv. split_and!; try done.
    by apply component_size.
Qed.

Lemma traversal_visits_component_witness :
  ends_on_component cycle_edges "A" (executeBFS cycle_nodes cycle_edges "A" None)
  ∧ ends_on_component cycle_edges "A"
      (executeDFS cycle_nodes cycle_edges "A" None).
Proof.
  apply (traversal_visits_component cycle_nodes cycle_edges "A").
  - apply (bool_decide_unpack _). by vm_compute.
  - apply (bool_decide_unpack _). by vm_compute.
Defined.

(** The scenario of the specification: on the five-node cycle, BFS from A
    with no target ends with five visited nodes. *)
Example cycle_bfs_visits_five :
  ∃ r s, executeBFS cycle_nodes cycle_edges "A" None = Return r
    ∧ last (steps r) = Some s ∧ length (visited s) = 5.
Proof. do 2 eexists. split_and!; by vm_compute. Qed.

(** ** Dijkstra *)

(** C1, as amended: on a graph whose edges name listed nodes, with
    non-negative effective weights and no node id equal to the empty string,
    the Dijkstra runner called without a target returns, and the distance
    table of its last step gives every node connected to the start node the
    least weight sum of a walk from the start node to it.  The ids of the
    nodes and of the start node are plain and the weights are in the exact
    range, so that the tables and sums of the run are those of the code. *)
Theorem dijkstra_distances_shortest nodes edges start :
  wf_edges nodes edges → nonneg_weights edges → "" ∉ node_ids nodes →
  plain_ids nodes → plain start → exact_weights edges →
  records_shortest edges start (executeDijkstra nodes edges start None).
Proof.
  intros Hwf Hnn Hne _ _ _.
  destruct (createAdjacencyList_wf nodes edges Hwf) as (adj & Hc & Hadj).
  destruct (dj_loop_correct nodes edges adj start Hwf Hnn Hadj Hne)
    as (st & Hloop & (s & Hlast & Hd) & Hshort).
  exists (mkResult dijkstra start None (tr_steps (dj_trace st)) 0
            "O(VÂ² + E)" "O(V)"), s, (dj_distances st).
  split_and!; try done.
  - apply executeDijkstra_of_run. unfold dj_run. rewrite Hc.
    cbn [mbind outcome_bind]. by rewrite Hloop.
  - intros v [w Hw]%connected_walk.
    destruct (Hshort v w Hw) as (d & Hdv & _ & Hwalk).
    exists d. split; [done|]. split; [done|].
    intros w' Hw'. destruct (Hshort v w' Hw') as (d' & Hdv' & Hle & _).
    rewrite Hdv in Hdv'. injection Hdv' as <-. done.
Qed.


Lemma dijkstra_distances_shortest_witness :
  records_shortest cycle_edges "A"
    (executeDijkstra cycle_nodes cycle_edges "A" None).
Proof.
  apply (dijkstra_distances_shortest cycle_nodes cycle_edges "A");
    apply (bool_decide_unpack _); by vm_compute.
Defined.

Lemma path_walk_A_C : walk path_edges "A" "C" 2.
Proof.
  change 2%Z with (0 + 1 + 1)%Z.
  eapply walk_step; [eapply walk_step; [apply walk_here|]|].
  - exists (sample_edge "A" "B" (Some 1%Z)).
    split_and!; [set_solver|done|by left].
  - exists (sample_edge "B" "C" (Some 1%Z)).
    split_and!; [set_solver|done|by left].
Qed.

(** C1 as stated fails when a target is requested: on the path A-B-C the
    run from A to B stops when B is selected, and its last step still
    records [Infinity] for C, which is connected to A. *)
Lemma dijkstra_target_counterexample :
  wf_edges path_nodes path_edges ∧ nonneg_weights path_edges
  ∧ ¬ records_shortest path_edges "A"
        (executeDijkstra path_nodes path_edges "A" (Some "B")).
Proof.
  split; [apply (bool_decide_unpack _); by vm_compute|].
  split; [apply (bool_decide_unpack _); by vm_compute|].
  intros (r & s & d & Hr & Hlast & Hd & Hall).
  assert (∃ r' s' d', executeDijkstra path_nodes path_edges "A" (Some "B")
                      = Return r'
            ∧ last (steps r') = Some s' ∧ distances s' = Some d'
            ∧ d' !! "C" = Some Infinity) as (r' & s' & d' & Hr' & Hl' & Hd' & HC).
  { do 3 eexists. split; [vm_compute; reflexivity|].
    split; [vm_compute; reflexivity|].
    split; [vm_compute; reflexivity|]. vm_compute. reflexivity. }
  rewrite Hr in Hr'. injection Hr' as <-.
  rewrite Hlast in Hl'. injection Hl' as <-.
  rewrite Hd in Hd'. injection Hd' as <-.
  destruct (Hall "C") as (z & Hz & _).
  - eapply walk_connected, path_walk_A_C.
  - rewrite HC in Hz. done.
Qed.

(** ** Missing target *)



(** ** The A* heuristic *)

(** C9, as amended: between two listed nodes whose four coordinates are
    present and different from 0 the heuristic is the Manhattan distance;
    it is the constant 1 as soon as one of the four coordinates is
    missing. *)
Theorem getHeuristic_manhattan nodeMap targetNodeId nodeId node target :
  nodeMap !! nodeId = Some node → nodeMap !! targetNodeId = Some target →
  (∀ nx ny tx ty,
     node_x node = Some nx → node_y node = Some ny →
     node_x target = Some tx → node_y target = Some ty →
     nx ≠ 0%Z → ny ≠ 0%Z → tx ≠ 0%Z → ty ≠ 0%Z →
     getHeuristic nodeMap targetNodeId nodeId
     = Return (Z.abs (nx - tx) + Z.abs (ny - ty))%Z)
  ∧ (node_x node = None ∨ node_y node = None
     ∨ node_x target = None ∨ node_y target = None →
     getHeuristic nodeMap targetNodeId nodeId = Return 1%Z).
Proof.
  intros Hn Ht. unfold getHeuristic. rewrite Hn. split.
  - intros nx ny tx ty -> -> Htx Hty Hnx Hny Htx0 Hty0. simpl.
    rewrite !bool_decide_eq_false_2 by done. rewrite Ht, Htx, Hty. simpl.
    by rewrite !bool_decide_eq_false_2 by done.
  - intros Hmiss. unfold truthy_number.
    destruct (node_x node) as [nx|]; [|done].
    destruct (bool_decide (nx = 0%Z)); [done|].
    destruct (node_y node) as [ny|]; [|done].
    destruct (bool_decide (ny = 0%Z)); [done|].
    rewrite Ht.
    destruct (node_x target) as [tx|]; [|done].
    destruct (bool_decide (tx = 0%Z)); [done|].
    destruct (node_y target) as [ty|]; [|done].
    destruct (bool_decide (ty = 0%Z)); [done|].
    naive_solver.
Qed.

Lemma getHeuristic_manhattan_witness :
  getHeuristic (node_map placed_nodes) "T" "P"
  = Return (Z.abs (3 - 5) + Z.abs (4 - 1))%Z.
Proof.
  destruct (getHeuristic_manhattan (node_map placed_nodes) "T" "P"
              (mkNode "P" "P" (Some 3%Z) (Some 4%Z) None)
              (mkNode "T" "T" (Some 5%Z) (Some 1%Z) None)) as [Hmanhattan _].
  - vm_compute. reflexivity.
  - vm_compute. reflexivity.
  - apply Hmanhattan; simpl; (reflexivity || lia).
Defined.

(** C9 as stated fails: node Q has an [x] and no [y], so neither Q nor the
    target T lacks both coordinates, and the heuristic is the fallback 1
    all the same. *)
Lemma getHeuristic_fallback_counterexample :
  ∃ node target,
    node_map placed_nodes !! "Q" = Some node
    ∧ node_map placed_nodes !! "T" = Some target
    ∧ ¬ (node_x node = None ∧ node_y node = None)
    ∧ ¬ (node_x target = None ∧ node_y target = None)
    ∧ getHeuristic (node_map placed_nodes) "T" "Q" = Return 1%Z.
Proof.
  exists (mkNode "Q" "Q" (Some 7%Z) None None),
    (mkNode "T" "T" (Some 5%Z) (Some 1%Z) None).
  split; [by vm_compute|]. split; [by vm_compute|].
  split; [by intros [? _]|]. split; [by intros [? _]|]. by vm_compute.
Qed.

(** A coordinate equal to 0 reads as missing: from the origin O to T the
    heuristic is 1, where the Manhattan distance is 6. *)
Example getHeuristic_origin :
  getHeuristic (node_map placed_nodes) "T" "O" = Return 1%Z
  ∧ (Z.abs (0 - 5) + Z.abs (0 - 1) = 6)%Z.
Proof. split; by vm_compute. Qed.

(** ** Dijkstra with a target out of reach *)

(** What the runner does with a target out of reach, on a graph whose
    edges name listed nodes and for a plain target: it returns, the
    predecessor entry of the target is still the initial null, and the loop
    records no step with a path.  After the loop, a target that is a listed
    node gets one closing step, whose path is the target alone; a target
    that is not listed gets none, so no step carries a path. *)
Lemma unreachable_target_closing_step nodes edges start t :
  wf_edges nodes edges → t ≠ "" → plain t → ¬ connected edges start t →
  ∃ st, dj_run nodes edges start (Some t) = Return st
    ∧ executeDijkstra nodes edges start (Some t)
      = Return (mkResult dijkstra start (Some t) (tr_steps (dj_trace st)) 0
                  "O(VÂ² + E)" "O(V)")
    ∧ (t ∉ node_ids nodes →
       dj_previous st !! t = None
       ∧ ∀ s, s ∈ tr_steps (dj_trace st) → path s = None)
    ∧ (t ∈ node_ids nodes →
       dj_previous st !! t = Some None
       ∧ ∃ front final,
           tr_steps (dj_trace st) = front ++ [final]
           ∧ (∀ s, s ∈ front → path s = None)
           ∧ path final = Some [t] ∧ current final = Some t
           ∧ description final
             = "Final shortest path to " +:+ t +:+ ": " +:+ t).
Proof.
  intros Hwf Ht _ Hun.
  destruct (createAdjacencyList_wf nodes edges Hwf) as (adj & Hc & Hadj).
  destruct (dj_loop_unreachable nodes edges adj start t Hwf Hadj Hun)
    as (st & Hloop & Hchain & Hd & Hp & Hs).
  destruct Hchain as (rank & n & _ & _ & Hkeys & _ & _ & [s0 Hlast]).
  assert (Hrun : ∀ st', dj_final nodes (Some t) st = Return st' →
            dj_run nodes edges start (Some t) = Return st').
  { intros st' Hfin. unfold dj_run. rewrite Hc. cbn [mbind outcome_bind].
    rewrite Hloop. exact Hfin. }
  assert (Htruthy : truthy (Some t) = true).
  { unfold truthy. by rewrite bool_decide_eq_false_2. }
  destruct (decide (t ∈ node_ids nodes)) as [Hin|Hout].
  - assert (dj_previous st !! t = Some None) as Hnull.
    { destruct (proj2 (Hkeys t) Hin) as [[p|] Hpt]; [|done].
      exfalso. apply Hun. by eapply Hp. }
    assert (path s0 = None) as Hs0.
    { apply Hs. apply last_Some in Hlast as [l' ->]. set_solver. }
    eexists. split; [|split; [apply executeDijkstra_of_run|]].
    + apply Hrun. unfold dj_final. rewrite Htruthy.
      rewrite bool_decide_eq_true_2 by (by rewrite Hnull). cbn [andb].
      rewrite reconstruct_S, Hnull, reconstruct_null. cbn [mbind outcome_bind].
      rewrite Hlast, Hs0. reflexivity.
    + apply Hrun. unfold dj_final. rewrite Htruthy.
      rewrite bool_decide_eq_true_2 by (by rewrite Hnull). cbn [andb].
      rewrite reconstruct_S, Hnull, reconstruct_null. cbn [mbind outcome_bind].
      rewrite Hlast, Hs0. reflexivity.
    + simpl. split; [done|]. split; [done|].
      do 2 eexists. split; [reflexivity|]. done.
  - assert (dj_previous st !! t = None) as Hnone.
    { destruct (dj_previous st !! t) eqn:Hpt; [|done].
      exfalso. apply Hout, Hkeys. by rewrite Hpt. }
    assert (dj_final nodes (Some t) st = Return st) as Hfin.
    { unfold dj_final. rewrite Htruthy.
      rewrite bool_decide_eq_false_2; [done|]. rewrite Hnone. by intros [? ?]. }
    exists st. split; [by apply Hrun|].
    split; [by apply executeDijkstra_of_run, Hrun|]. by split.
Qed.

Lemma apart_not_connected : ¬ connected [] "A" "B".
Proof.
  intros H. apply rtc_inv in H as [?|(x & [w (e & ?%elem_of_nil & _)] & _)];
    done.
Qed.

(** C4: the code departs from the claim.  B is a listed node out of reach
    of A, and the Dijkstra run from A to B closes with a step that carries
    the path made of B alone: the test [previous[targetNodeId] !==
    undefined] after the loop lets the initial [null] of a listed node
    pass.  The A* run on the same input closes with "No path found" and no
    path. *)
Lemma dijkstra_unreachable_path_step :
  ¬ connected [] "A" "B"
  ∧ (∃ r s, executeDijkstra apart_nodes [] "A" (Some "B") = Return r
       ∧ last (steps r) = Some s ∧ path s = Some ["B"]
       ∧ description s = "Final shortest path to B: B")
  ∧ ∃ r s, executeAStar apart_nodes [] "A" (Some "B") = Return r
      ∧ last (steps r) = Some s ∧ path s = None
      ∧ description s = "No path found from A to B".
Proof.
  split; [apply apart_not_connected|]. split.
  - do 2 eexists. split; [vm_compute; reflexivity|].
    split; [vm_compute; reflexivity|]. split; by vm_compute.
  - do 2 eexists. split; [vm_compute; reflexivity|].
    split; [vm_compute; reflexivity|]. split; by vm_compute.
Qed.

(** ** A declared weight of 0 *)

(** C6, as amended: an edge declared with weight 0 gets the effective
    weight 1, and the adjacency list carries it with weight 1 in both
    directions.  On a graph with such an edge between two different nodes A
    and B, where every effective weight is at least 1 (edges on listed
    nodes, plain ids, A not the empty string), the last step of the
    Dijkstra run from A records the distance 1 for B, whether the run has
    no target or any plain target other than A. *)
Theorem zero_weight_counts_as_one nodes edges edge target :
  edge ∈ edges → edge_weight edge = Some 0%Z →
  effective_weight edge = 1%Z
  ∧ (wf_edges nodes edges →
     ∃ adj la lb, createAdjacencyList nodes edges = Return adj
       ∧ adj !! edge_source edge = Some la
       ∧ mkNeighbor (edge_target edge) 1 ∈ la
       ∧ adj !! edge_target edge = Some lb
       ∧ mkNeighbor (edge_source edge) 1 ∈ lb)
  ∧ (wf_edges nodes edges →
     Forall (λ e, (1 ≤ effective_weight e)%Z) edges →
     edge_source edge ≠ edge_target edge → edge_source edge ≠ "" →
     plain_ids nodes → plain_target target →
     target ≠ Some (edge_source edge) →
     ∃ r s d, executeDijkstra nodes edges (edge_source edge) target = Return r
       ∧ last (steps r) = Some s ∧ distances s = Some d
       ∧ d !! edge_target edge = Some (Fin 1)).
Proof.
  intros Hin Hzero. pose proof (effective_weight_zero edge Hzero) as Hw.
  assert (Hab : adjacent edges (edge_source edge) (edge_target edge) 1).
  { exists edge. split_and!; [done..|by left]. }
  split; [done|]. split.
  - intros Hwf.
    destruct (createAdjacencyList_wf nodes edges Hwf) as (adj & Hc & Hadj).
    destruct (adjacent_listed _ _ _ _ _ Hwf Hab) as [Hs Ht].
    exists adj, (incident (edge_source edge) edges),
      (incident (edge_target edge) edges).
    split_and!; [done|by eapply adj_listed| |by eapply adj_listed|].
    + by apply elem_of_incident.
    + by apply elem_of_incident, adjacent_sym.
  - intros Hwf Hone Hne Ha _ _ Htarget.
    assert (Hnn : nonneg_weights edges).
    { eapply Forall_impl; [exact Hone|]. intros e He. simpl in He. lia. }
    destruct (createAdjacencyList_wf nodes edges Hwf) as (adj & Hc & Hadj).
    by eapply dj_zero_edge_run.
Qed.

Lemma zero_weight_counts_as_one_witness :
  effective_weight (sample_edge "A" "B" (Some 0%Z)) = 1%Z
  ∧ (∃ adj la lb, createAdjacencyList zero_nodes zero_edges = Return adj
       ∧ adj !! "A" = Some la ∧ mkNeighbor "B" 1 ∈ la
       ∧ adj !! "B" = Some lb ∧ mkNeighbor "A" 1 ∈ lb)
  ∧ (∃ r s d, executeDijkstra zero_nodes zero_edges "A" (Some "B") = Return r
       ∧ last (steps r) = Some s ∧ distances s = Some d
       ∧ d !! "B" = Some (Fin 1)).
Proof.
  assert (Hwf : wf_edges zero_nodes zero_edges)
    by (apply (bool_decide_unpack _); by vm_compute).
  destruct (zero_weight_counts_as_one zero_nodes zero_edges
              (sample_edge "A" "B" (Some 0%Z)) (Some "B"))
    as (H1 & H2 & H3).
  - unfold zero_edges. constructor.
  - reflexivity.
  - split; [exact H1|]. split; [exact (H2 Hwf)|].
    apply H3; [exact Hwf| |done|done| | |done];
      apply (bool_decide_unpack _); by vm_compute.
Defined.

(** C6 as stated fails when another way to B is lighter than 1: with the
    edge A-B declared at 0, an edge A-C of weight -1 and an edge C-B of
    weight 1, the run from A ends with the distance 0 for B. *)
Lemma zero_weight_shortcut_counterexample :
  sample_edge "A" "B" (Some 0%Z) ∈ shortcut_edges
  ∧ wf_edges path_nodes shortcut_edges
  ∧ ∃ r s d, executeDijkstra path_nodes shortcut_edges "A" None = Return r
      ∧ last (steps r) = Some s ∧ distances s = Some d
      ∧ d !! "B" = Some (Fin 0).
Proof.
  split; [unfold shortcut_edges; constructor|].
  split; [apply (bool_decide_unpack _); by vm_compute|].
  do 3 eexists. split; [vm_compute; reflexivity|].
  split; [vm_compute; reflexivity|]. split; by vm_compute.
Qed.

(** ** BFS and its target *)

(** C7: with a target [t], a BFS iteration that dequeues [t] records the
    step that reports it and returns, without looking at the neighbours of
    [t]; in a returned trace a step that reports the target is the last one
    and comes right after a step that shows the target at the head of the
    queue, with the same visited set; a discovery step, of the target or of
    any other node, is never the last one; and a target connected to the
    start node does end the trace with the step that reports it. *)
Theorem bfs_target_checked_on_dequeue nodes edges start t r :
  t ≠ "" → executeBFS nodes edges start (Some t) = Return r →
  (∀ fuel adj st q, bfs_queue st = t :: q →
     bfs_loop (S fuel) adj (Some t) st
     = Return (mkBFS (bfs_visited st) q
         (emit (bfs_trace st) (bfs_visited st) (Some t) (Some q) None None
            None (reached_description t))))
  ∧ bfs_reports_on_dequeue t (steps r)
  ∧ (∀ i s, steps r !! i = Some s → is_discovery s → S i < length (steps r))
  ∧ (connected edges start t →
     ∃ s, last (steps r) = Some s ∧ description s = reached_description t).
Proof.
  intros Ht Hr.
  assert (HA : ∀ fuel adj st q, bfs_queue st = t :: q →
     bfs_loop (S fuel) adj (Some t) st
     = Return (mkBFS (bfs_visited st) q
         (emit (bfs_trace st) (bfs_visited st) (Some t) (Some q) None None
            None (reached_description t)))).
  { intros fuel adj st q Hq. simpl. rewrite Hq. by rewrite is_target_refl. }
  unfold executeBFS in Hr. apply bind_Return in Hr as (st & Hrun & [= <-]).
  unfold bfs_run in Hrun. apply bind_Return in Hrun as (adj & Hc & Hloop).
  pose proof (bfs_loop_reports adj t _ _ _ (bfs_head_init t start) Hloop)
    as Hrep.
  simpl. split_and!; [done..| |].
  - intros i s Hi Hdisc. pose proof (lookup_lt_Some _ _ _ Hi) as Hlt.
    destruct (decide (S i = length (tr_steps (bfs_trace st)))) as [Heq|]; [|lia].
    exfalso. destruct Hrep as [_ Hlast]. apply (Hlast s); [|done].
    rewrite last_lookup. by replace (pred _) with i by lia.
  - intros Hconn.
    pose proof (createAdjacencyList_spec nodes edges) as Hspec.
    rewrite Hc in Hspec. destruct Hspec as [Hwf Hadj].
    destruct (decide (start ∈ node_ids nodes)) as [Hs|Hs].
    + destruct (bfs_loop_reaches nodes edges adj start t Hwf Hadj Hs Ht Hconn)
        as (st' & s & Hloop' & Hlast & Hdesc).
      rewrite Hloop in Hloop'. injection Hloop' as <-. eauto.
    + apply (connected_unlisted nodes edges) in Hconn as <-; [|done..].
      rewrite (HA _ adj (bfs_init start) []) in Hloop by done.
      injection Hloop as <-. simpl. eexists. split; reflexivity.
Qed.

Lemma bfs_target_checked_on_dequeue_witness :
  ∃ r, executeBFS cycle_nodes cycle_edges "A" (Some "C") = Return r
    ∧ (∀ fuel adj st q, bfs_queue st = "C" :: q →
         bfs_loop (S fuel) adj (Some "C") st
         = Return (mkBFS (bfs_visited st) q
             (emit (bfs_trace st) (bfs_visited st) (Some "C") (Some q) None
                None None (reached_description "C"))))
    ∧ bfs_reports_on_dequeue "C" (steps r)
    ∧ (∀ i s, steps r !! i = Some s → is_discovery s →
         S i < length (steps r))
    ∧ (connected cycle_edges "A" "C" →
       ∃ s, last (steps r) = Some s
         ∧ description s = reached_description "C").
Proof.
  eexists. split; [vm_compute; reflexivity|].
  apply (bfs_target_checked_on_dequeue cycle_nodes cycle_edges "A" "C").
  - done.
  - vm_compute. reflexivity.
Defined.

(** On the cycle, from A with target C: C is discovered at step 4, as a
    neighbour of B, and reported at step 8, the last one, after E was
    expanded and C moved to the head of the queue. *)
Example cycle_bfs_target_C :
  ∃ r, executeBFS cycle_nodes cycle_edges "A" (Some "C") = Return r
    ∧ (description <$> steps r) !! 4
      = Some (discovered_description "B" "C")
    ∧ (description <$> steps r) !! 8 = Some (reached_description "C")
    ∧ length (steps r) = 9.
Proof.
  eexists. split; [vm_compute; reflexivity|]. split_and!; by vm_compute.
Qed.

(** ** Scenarios of the specification *)

(** On the five-node cycle, Dijkstra from A to D: distance 2, a path of
    three nodes. *)
Example cycle_dijkstra_A_D :
  ∃ r s d p, executeDijkstra cycle_nodes cycle_edges "A" (Some "D") = Return r
    ∧ last (steps r) = Some s ∧ distances s = Some d ∧ path s = Some p
    ∧ d !! "D" = Some (Fin 2) ∧ length p = 3.
Proof.
  do 4 eexists. split; [vm_compute; reflexivity|].
  split; [vm_compute; reflexivity|]. split; [vm_compute; reflexivity|].
  split; [vm_compute; reflexivity|]. split; by vm_compute.
Qed.

(** BFS from an isolated node: one step, one visited node. *)
Example isolated_bfs :
  ∃ r s, executeBFS apart_nodes [] "A" None = Return r
    ∧ steps r = [s] ∧ visited s = ["A"].
Proof.
  do 2 eexists. split; [vm_compute; reflexivity|]. split; by vm_compute.
Qed.

(** Whether it reaches the target or not, the A* trace closes with the
    step that reports no path: the target is never moved to the closed
    set. *)
Example cycle_astar_last_step :
  ∃ r s, executeAStar cycle_nodes cycle_edges "A" (Some "D") = Return r
    ∧ last (steps r) = Some s
    ∧ description s = "No path found from A to D".
Proof.
  do 2 eexists. split; [vm_compute; reflexivity|]. split; by vm_compute.
Qed.

(** * Further properties of the runners *)

(** ** A start node that is not listed *)

(** X1: On a graph whose edges name listed nodes, a start node that is not in
    the node list has no adjacency entry: BFS and DFS throw when they
    iterate over its neighbours, unless the start node is itself the
    requested target.  A*, with a target, which may be the start node
    itself, and with plain ids for the listed nodes and the start node,
    throws when it reads the coordinates of the start node.  In each case
    no result exists. *)
Theorem unlisted_start_throws nodes edges start target :
  wf_edges nodes edges → start ∉ node_ids nodes →
  (is_target target start = false →
   executeBFS nodes edges start target
   = Throw (TypeError (AdjacencyIterate start))
   ∧ executeDFS nodes edges start target
     = Throw (TypeError (AdjacencyIterate start)))
  ∧ (truthy target = true → plain_ids nodes → plain start →
     executeAStar nodes edges start target
     = Throw (TypeError (NodeCoordinate start))).
Proof.
  intros Hwf Hs.
  destruct (createAdjacencyList_wf nodes edges Hwf) as (adj & Hc & Hadj).
  assert (adj !! start = None) as Hnone.
  { rewrite Hadj. by rewrite decide_False. }
  split; [intros Ht; split|].
  - unfold executeBFS, bfs_run. rewrite Hc. cbn [mbind outcome_bind].
    simpl. by rewrite Ht, Hnone.
  - unfold executeDFS, dfs_run. rewrite Hc. cbn [mbind outcome_bind].
    replace (length nodes + 2 * length edges + 2)
      with (S (length nodes + 2 * length edges + 1)) by lia.
    simpl. by rewrite Ht, Hnone.
  - intros Htruthy _ _. unfold executeAStar, as_run.
    destruct target as [t|]; [|done]. rewrite Htruthy, Hc.
    cbn [mbind outcome_bind]. unfold getHeuristic.
    destruct (node_map nodes !! start) as [node|] eqn:Hnode; [|done].
    exfalso. apply Hs, node_map_lookup. eauto.
Qed.

Lemma unlisted_start_throws_witness :
  executeBFS cycle_nodes cycle_edges "Z" (Some "C")
  = Throw (TypeError (AdjacencyIterate "Z"))
  ∧ executeDFS cycle_nodes cycle_edges "Z" (Some "C")
    = Throw (TypeError (AdjacencyIterate "Z"))
  ∧ executeAStar cycle_nodes cycle_edges "Z" (Some "Z")
    = Throw (TypeError (NodeCoordinate "Z")).
Proof.
  destruct (unlisted_start_throws cycle_nodes cycle_edges "Z" (Some "C"))
    as [Htraversals _];
    [apply (bool_decide_unpack _); by vm_compute..|].
  destruct (unlisted_start_throws cycle_nodes cycle_edges "Z" (Some "Z"))
    as [_ Hastar];
    [apply (bool_decide_unpack _); by vm_compute..|].
  destruct (Htraversals eq_refl) as [Hbfs Hdfs].
  split; [exact Hbfs|]. split; [exact Hdfs|].
  apply Hastar; [reflexivity|apply (bool_decide_unpack _); by vm_compute..].
Defined.

(** X2: The Dijkstra runner does not throw on a start node that is not listed:
    with plain ids for the listed nodes and the start node, the start node
    gets the distance 0 but is never selected, the loop leaves at once, and
    without a target the trace is the initial step alone, every listed node
    at [Infinity]. *)
Theorem dijkstra_unlisted_start nodes edges start :
  wf_edges nodes edges → start ∉ node_ids nodes →
  plain_ids nodes → plain start →
  ∃ r s d, executeDijkstra nodes edges start None = Return r
    ∧ steps r = [s] ∧ visited s = [] ∧ distances s = Some d
    ∧ d !! start = Some (Fin 0)
    ∧ ∀ k, k ∈ node_ids nodes → d !! k = Some Infinity.
Proof.
  intros Hwf Hs _ _.
  destruct (createAdjacencyList_wf nodes edges Hwf) as (adj & Hc & Hadj).
  assert (Hscan : ∃ d, scan_min (dj_distances (dj_init nodes start))
                         (dj_unvisited (dj_init nodes start)) = (None, d)).
  { pose proof (scan_min_spec (dj_distances (dj_init nodes start))
                  (dj_unvisited (dj_init nodes start))) as Hspec.
    destruct (scan_min _ _) as [[u|] d]; [|by eauto]. exfalso.
    destruct Hspec as (Hu & z & _ & Hz & _). simpl in Hu, Hz.
    apply elem_of_init_unvisited in Hu.
    rewrite lookup_insert_ne in Hz by (by intros ->).
    rewrite init_table_lookup in Hz. by case_decide. }
  destruct Hscan as [d0 Hscan].
  assert (dj_loop (S (length nodes)) nodes adj None (dj_init nodes start)
          = Return (dj_init nodes start)) as Hloop.
  { cbn [dj_loop]. destruct (dj_unvisited (dj_init nodes start)); [done|].
    by rewrite Hscan. }
  do 3 eexists. split.
  - apply executeDijkstra_of_run. unfold dj_run. rewrite Hc.
    cbn [mbind outcome_bind]. rewrite Hloop. reflexivity.
  - simpl. split_and!; try done.
    + by rewrite lookup_insert_eq.
    + intros k Hk. rewrite lookup_insert_ne by (by intros ->).
      rewrite init_table_lookup. by rewrite decide_True.
Qed.

Lemma dijkstra_unlisted_start_witness :
  ∃ r s d, executeDijkstra cycle_nodes cycle_edges "Z" None = Return r
    ∧ steps r = [s] ∧ visited s = [] ∧ distances s = Some d
    ∧ d !! "Z" = Some (Fin 0)
    ∧ ∀ k, k ∈ node_ids cycle_nodes → d !! k = Some Infinity.
Proof.
  apply (dijkstra_unlisted_start cycle_nodes cycle_edges "Z");
    apply (bool_decide_unpack _); by vm_compute.
Defined.

(** ** Loop rules for A* *)

(** Partial correctness of the A* loop: [P] holds at the loop head, [Q]
    where the loop is left. *)
Lemma as_loop_inv nodes adj nodeMap t (P Q : AStarState → Prop) :
  (∀ st c nbrs st1, P st →
     (scan_min (as_fScore st) (as_openSet st)).1 = Some c →
     c ≠ "" → c ≠ t → adj !! c = Some nbrs →
     as_relax_all nodeMap t c
       (mkAStar (set_delete c (as_openSet st)) (set_add c (as_closedSet st))
          (as_gScore st) (as_fScore st) (as_previous st) (as_trace st))
       nbrs = Return st1 →
     P (as_advance st1)) →
  (∀ st route, P st →
     (scan_min (as_fScore st) (as_openSet st)).1 = Some t → t ≠ "" →
     reconstruct (S (length nodes)) (as_previous st) (Some t) [] = Return route →
     Q (mkAStar (as_openSet st) (as_closedSet st) (as_gScore st)
          (as_fScore st) (as_previous st)
          (emit (as_trace st) (as_closedSet st) (Some t) None None
             (Some (as_gScore st)) (Some route)
             ("Target node " +:+ t +:+ " reached! Path found with cost "
                +:+ show_num (as_gScore st !! t))))) →
  (∀ st, P st →
     as_openSet st = []
     ∨ (scan_min (as_fScore st) (as_openSet st)).1 = None
     ∨ (scan_min (as_fScore st) (as_openSet st)).1 = Some "" →
     Q st) →
  ∀ fuel st st', P st →
    as_loop fuel nodes adj nodeMap t st = Return st' → Q st'.
Proof.
  intros Hstep Hhit Hdone.
  induction fuel as [|fuel IH]; intros st st' HP; simpl.
  - destruct (as_openSet st) eqn:HO; [|done]. intros [= <-]. auto.
  - destruct (as_openSet st) as [|x O] eqn:HO; [intros [= <-]; auto|].
    rewrite <- HO.
    destruct (scan_min (as_fScore st) (as_openSet st)).1 as [c|] eqn:Hscan;
      [|intros [= <-]; auto].
    case_bool_decide as Hc; [intros [= <-]; subst c; auto|].
    case_bool_decide as Hct.
    + subst c. intros (route & Hr & [= <-])%bind_Return. by apply Hhit.
    + destruct (adj !! c) as [nbrs|] eqn:Hadj; [|done].
      intros (st1 & H1 & H2)%bind_Return. eapply IH; [|done]. eauto.
Qed.

(** Total correctness of the A* loop, on a measure that the fuel covers. *)
Lemma as_loop_total nodes adj nodeMap t (P Q : AStarState → Prop)
    (measure : AStarState → nat) :
  (∀ st, P st → as_openSet st ≠ [] → 0 < measure st) →
  (∀ st c, P st →
     (scan_min (as_fScore st) (as_openSet st)).1 = Some c →
     c ≠ "" → c ≠ t →
     ∃ nbrs st1, adj !! c = Some nbrs
       ∧ as_relax_all nodeMap t c
           (mkAStar (set_delete c (as_openSet st))
              (set_add c (as_closedSet st)) (as_gScore st) (as_fScore st)
              (as_previous st) (as_trace st))
           nbrs = Return st1
       ∧ P (as_advance st1) ∧ measure (as_advance st1) < measure st) →
  (∀ st, P st →
     (scan_min (as_fScore st) (as_openSet st)).1 = Some t → t ≠ "" →
     ∃ route,
       reconstruct (S (length nodes)) (as_previous st) (Some t) [] = Return route
       ∧ Q (mkAStar (as_openSet st) (as_closedSet st) (as_gScore st)
              (as_fScore st) (as_previous st)
              (emit (as_trace st) (as_closedSet st) (Some t) None None
                 (Some (as_gScore st)) (Some route)
                 ("Target node " +:+ t +:+ " reached! Path found with cost "
                    +:+ show_num (as_gScore st !! t))))) →
  (∀ st, P st →
     as_openSet st = []
     ∨ (scan_min (as_fScore st) (as_openSet st)).1 = None
     ∨ (scan_min (as_fScore st) (as_openSet st)).1 = Some "" →
     Q st) →
  ∀ fuel st, P st → measure st ≤ fuel →
    ∃ st', as_loop fuel nodes adj nodeMap t st = Return st' ∧ Q st'.
Proof.
  intros Hpos Hstep Hhit Hdone.
  induction fuel as [|fuel IH]; intros st HP Hm; simpl.
  - destruct (as_openSet st) as [|x O] eqn:HO; [by eauto|].
    assert (0 < measure st) by (apply Hpos; [done|by rewrite HO]). lia.
  - destruct (as_openSet st) as [|x O] eqn:HO; [by eauto|].
    rewrite <- HO.
    destruct (scan_min (as_fScore st) (as_openSet st)).1 as [c|] eqn:Hscan;
      [|exists st; split; [done|]; apply Hdone; auto].
    case_bool_decide as Hc;
      [subst c; exists st; split; [done|]; apply Hdone; auto|].
    case_bool_decide as Hct.
    + subst c. destruct (Hhit st HP Hscan Hc) as (route & -> & HQ).
      cbn [mbind outcome_bind]. eauto.
    + destruct (Hstep st c HP Hscan Hc Hct) as (nbrs & st1 & -> & -> & HP1 & Hlt).
      cbn [mbind outcome_bind]. apply IH; [done|lia].
Qed.

Lemma as_relax_all_closed nodeMap t c nbrs : ∀ st st',
  as_relax_all nodeMap t c st nbrs = Return st' →
  as_closedSet st' = as_closedSet st.
Proof.
  induction nbrs as [|nb nbrs IH]; intros st st'; simpl.
  - by intros [= <-].
  - intros (st1 & H1 & H2)%bind_Return. rewrite (IH _ _ H2).
    apply as_relax_cases in H1 as [->|(_ & _ & Hcl & _)]; done.
Qed.

Lemma as_run_search nodes edges start target :
  as_run nodes edges start target
  = if truthy target then
      adjacencyList ← createAdjacencyList nodes edges;
      as_search nodes adjacencyList start target
    else Throw MissingTarget.
Proof.
  unfold as_run, as_search. destruct target as [t|]; [|done].
  destruct (truthy (Some t)); [|done]. reflexivity.
Qed.

(** ** The last step of A* *)

(** X3: The target is never moved to the closed set: the loop leaves as soon
    as it selects it.  So the test after the loop always finds the target
    missing from the closed set, and every trace that A* returns ends with
    the step "No path found", with no current node and no path, also when
    the step before it reports the target with its path. *)
Theorem astar_last_step_no_path nodes edges start target r :
  executeAStar nodes edges start target = Return r →
  ∃ t s, target = Some t ∧ last (steps r) = Some s
    ∧ description s = "No path found from " +:+ start +:+ " to " +:+ t
    ∧ current s = None ∧ path s = None.
Proof.
  unfold executeAStar. intros (st & Hrun & [= <-])%bind_Return.
  unfold as_run in Hrun. destruct target as [t|]; [|done].
  destruct (truthy (Some t)); [|done].
  apply bind_Return in Hrun as (adj & _ & Hrun).
  apply bind_Return in Hrun as (h & _ & Hrun).
  apply bind_Return in Hrun as (st1 & Hloop & [= <-]).
  assert (t ∉ as_closedSet st1) as Hopen.
  { revert Hloop.
    apply (as_loop_inv nodes adj (node_map nodes) t
             (λ st, t ∉ as_closedSet st) (λ st, t ∉ as_closedSet st)).
    - intros st c nbrs st2 HP _ _ Hct _ Hall.
      destruct (as_advance_fields st2) as (_ & -> & _).
      rewrite (as_relax_all_closed _ _ _ _ _ _ Hall). simpl.
      rewrite elem_of_set_add. naive_solver.
    - done.
    - done.
    - simpl. by intros ?%elem_of_nil. }
  exists t. unfold as_final, set_has. rewrite bool_decide_eq_false_2 by done.
  simpl. rewrite last_snoc. eexists. split_and!; done.
Qed.

Lemma astar_last_step_no_path_witness :
  ∃ r t s, executeAStar cycle_nodes cycle_edges "A" (Some "D") = Return r
    ∧ Some "D" = Some t ∧ last (steps r) = Some s
    ∧ description s = "No path found from " +:+ "A" +:+ " to " +:+ t
    ∧ current s = None ∧ path s = None.
Proof.
  assert (∃ r, executeAStar cycle_nodes cycle_edges "A" (Some "D") = Return r)
    as [r Hr] by (eexists; vm_compute; reflexivity).
  exists r.
  destruct (astar_last_step_no_path cycle_nodes cycle_edges "A" (Some "D") r Hr)
    as (t & s & H).
  exists t, s. split; [exact Hr|exact H].
Defined.

(** ** The visited list never shrinks *)

Lemma trace_grows_empty seen : trace_grows empty_trace seen.
Proof. split; [by intros [|i] s s'|done]. Qed.

Lemma trace_grows_emit tr seen v c q st d p msg :
  trace_grows tr seen → seen `sublist_of` v →
  trace_grows (emit tr v c q st d p msg) v.
Proof.
  intros [Hsteps Hlast] Hsub. split; simpl.
  - intros i s s' Hi HSi.
    apply lookup_app_Some in HSi as [HSi|[Hge HSi]].
    + rewrite lookup_app_l in Hi by (apply lookup_lt_Some in HSi; lia).
      by eapply Hsteps.
    + apply list_lookup_singleton_Some in HSi as [Heq <-]. simpl.
      assert (S i = length (tr_steps tr)) as Hlen by lia.
      rewrite lookup_app_l in Hi by lia.
      etrans; [|exact Hsub]. apply Hlast.
      rewrite last_lookup. rewrite <- Hlen. simpl. done.
  - intros s. rewrite last_snoc. by intros [= <-].
Qed.

Lemma trace_grows_weaken tr seen seen' :
  trace_grows tr seen → seen `sublist_of` seen' → trace_grows tr seen'.
Proof.
  intros [Hsteps Hlast] Hsub. split; [done|].
  intros s Hs. etrans; [by apply Hlast|done].
Qed.

Lemma set_add_sublist x s : s `sublist_of` set_add x s.
Proof.
  unfold set_add. case_match; [done|]. by apply sublist_inserts_r.
Qed.

Lemma filter_sublist_impl {A} (P Q : A → Prop) `{!∀ x, Decision (P x)}
    `{!∀ x, Decision (Q x)} (l : list A) :
  (∀ x, P x → Q x) → filter P l `sublist_of` filter Q l.
Proof.
  intros HPQ. induction l as [|x l IH]; [done|].
  rewrite !filter_cons. destruct (decide (P x)) as [HP|HP].
  - rewrite decide_True by auto. by constructor.
  - case_decide; [by constructor|done].
Qed.

Lemma visited_of_delete nodes u unvisited :
  visited_of nodes unvisited
  `sublist_of` visited_of nodes (set_delete u unvisited).
Proof.
  apply filter_sublist_impl. intros x Hx [_ Hin]%elem_of_set_delete. done.
Qed.

Lemma bfs_loop_grows adj target fuel st st' :
  trace_grows (bfs_trace st) (bfs_visited st) →
  bfs_loop fuel adj target st = Return st' →
  trace_grows (bfs_trace st') (bfs_visited st').
Proof.
  apply (bfs_loop_inv adj target
           (λ st, trace_grows (bfs_trace st) (bfs_visited st))
           (λ st, trace_grows (bfs_trace st) (bfs_visited st))).
  - intros st0 c q nbrs HP _ _ _.
    assert (trace_grows
              (bfs_trace (foldl (bfs_discover c)
                 (mkBFS (bfs_visited st0) q (bfs_trace st0)) nbrs))
              (bfs_visited (foldl (bfs_discover c)
                 (mkBFS (bfs_visited st0) q (bfs_trace st0)) nbrs))) as H.
    { apply (foldl_preserves
               (λ st, trace_grows (bfs_trace st) (bfs_visited st))); [|done].
      intros st1 nb H1. unfold bfs_discover. case_match; [done|]. simpl.
      apply (trace_grows_emit _ (bfs_visited st1)); [done|].
      apply set_add_sublist. }
    revert H. generalize (foldl (bfs_discover c)
      (mkBFS (bfs_visited st0) q (bfs_trace st0)) nbrs). intros st1 H1.
    unfold bfs_advance. case_match; [done|]. simpl.
    by apply (trace_grows_emit _ (bfs_visited st1)).
  - intros st0 c q HP _ _. simpl.
    by apply (trace_grows_emit _ (bfs_visited st0)).
  - done.
Qed.

Lemma dfs_loop_grows adj target fuel st st' :
  trace_grows (dfs_trace st) (dfs_visited st) →
  dfs_loop fuel adj target st = Return st' →
  trace_grows (dfs_trace st') (dfs_visited st').
Proof.
  apply (dfs_loop_inv adj target
           (λ st, trace_grows (dfs_trace st) (dfs_visited st))
           (λ st, trace_grows (dfs_trace st) (dfs_visited st))).
  - done.
  - intros st0 c stack nbrs HP _ _ _ _ visited.
    apply (foldl_preserves
             (λ st, trace_grows (dfs_trace st) (dfs_visited st))).
    + intros st1 nb H1. unfold dfs_push. case_match; [done|]. simpl.
      by apply (trace_grows_emit _ (dfs_visited st1)).
    + simpl. apply (trace_grows_emit _ (dfs_visited st0)); [done|].
      apply set_add_sublist.
  - intros st0 c stack HP _ _ _ visited. simpl.
    apply (trace_grows_emit _ visited); [|done].
    apply (trace_grows_emit _ (dfs_visited st0)); [done|].
    apply set_add_sublist.
  - done.
Qed.

Lemma dj_loop_grows nodes adj target fuel st st' :
  trace_grows (dj_trace st) (visited_of nodes (dj_unvisited st)) →
  dj_loop fuel nodes adj target st = Return st' →
  trace_grows (dj_trace st') (visited_of nodes (dj_unvisited st')).
Proof.
  apply (dj_loop_inv nodes adj target
           (λ st, trace_grows (dj_trace st) (visited_of nodes (dj_unvisited st)))
           (λ st, trace_grows (dj_trace st) (visited_of nodes (dj_unvisited st)))).
  - intros st0 u d nbrs HP _ _ _ _ _.
    assert (trace_grows
              (dj_trace (foldl (dj_relax nodes u)
                 (mkDijkstra (dj_distances st0) (dj_previous st0)
                    (set_delete u (dj_unvisited st0)) (dj_trace st0)) nbrs))
              (visited_of nodes (dj_unvisited (foldl (dj_relax nodes u)
                 (mkDijkstra (dj_distances st0) (dj_previous st0)
                    (set_delete u (dj_unvisited st0)) (dj_trace st0)) nbrs))))
      as H.
    { apply (foldl_preserves
               (λ st, trace_grows (dj_trace st)
                        (visited_of nodes (dj_unvisited st)))).
      - intros st1 nb H1. unfold dj_relax. repeat case_match; try done.
        simpl. by apply (trace_grows_emit _ (visited_of nodes (dj_unvisited st1))).
      - simpl. eapply trace_grows_weaken; [exact HP|].
        apply visited_of_delete. }
    revert H. generalize (foldl (dj_relax nodes u)
      (mkDijkstra (dj_distances st0) (dj_previous st0)
         (set_delete u (dj_unvisited st0)) (dj_trace st0)) nbrs). intros st1 H1.
    unfold dj_advance. repeat case_match; try done. simpl.
    by apply (trace_grows_emit _ (visited_of nodes (dj_unvisited st1))).
  - intros st0 u d route HP _ _ _ _ _ unvisited. simpl.
    apply (trace_grows_emit _ (visited_of nodes (dj_unvisited st0))); [done|].
    apply visited_of_delete.
  - done.
Qed.

Lemma as_relax_all_grows nodeMap t c nbrs : ∀ st st',
  trace_grows (as_trace st) (as_closedSet st) →
  as_relax_all nodeMap t c st nbrs = Return st' →
  trace_grows (as_trace st') (as_closedSet st').
Proof.
  induction nbrs as [|nb nbrs IH]; intros st st' HP; simpl.
  - by intros [= <-].
  - intros (st1 & H1 & H2)%bind_Return. eapply IH; [|done].
    revert H1. unfold as_relax. case_match; [by intros [= <-]|].
    case_match; [by intros [= <-]|].
    intros (h & _ & [= <-])%bind_Return. simpl.
    by apply (trace_grows_emit _ (as_closedSet st)).
Qed.

Lemma as_loop_grows nodes adj nodeMap t fuel st st' :
  trace_grows (as_trace st) (as_closedSet st) →
  as_loop fuel nodes adj nodeMap t st = Return st' →
  trace_grows (as_trace st') (as_closedSet st').
Proof.
  apply (as_loop_inv nodes adj nodeMap t
           (λ st, trace_grows (as_trace st) (as_closedSet st))
           (λ st, trace_grows (as_trace st) (as_closedSet st))).
  - intros st0 c nbrs st1 HP _ _ _ _ Hall.
    apply as_relax_all_grows in Hall.
    + revert Hall. unfold as_advance. repeat case_match; try done. simpl.
      intros H1. by apply (trace_grows_emit _ (as_closedSet st1)).
    + simpl. eapply trace_grows_weaken; [exact HP|]. apply set_add_sublist.
  - intros st0 route HP _ _ _. simpl.
    by apply (trace_grows_emit _ (as_closedSet st0)).
  - done.
Qed.

(** X4: In the trace any of the four runners returns, the visited list of a
    step is a sublist of the visited list of the next step: the play-back
    of a trace never shows a visited node as unvisited again. *)
Theorem visited_never_shrinks nodes edges start target run r :
  run ∈ [executeBFS; executeDFS; executeDijkstra; executeAStar] →
  run nodes edges start target = Return r →
  ∀ i s s', steps r !! i = Some s → steps r !! S i = Some s' →
    visited s `sublist_of` visited s'.
Proof.
  intros Hrun Hr.
  repeat (apply elem_of_cons in Hrun as [->|Hrun]);
    [| | | |by apply elem_of_nil in Hrun].
  - unfold executeBFS in Hr. apply bind_Return in Hr as (st & Hst & [= <-]).
    unfold bfs_run in Hst. apply bind_Return in Hst as (adj & _ & Hloop).
    apply bfs_loop_grows in Hloop as [H _]; [exact H|].
    unfold bfs_init; simpl.
    apply (trace_grows_emit _ []); [apply trace_grows_empty|].
    apply sublist_nil_l.
  - unfold executeDFS in Hr. apply bind_Return in Hr as (st & Hst & [= <-]).
    unfold dfs_run in Hst. apply bind_Return in Hst as (adj & _ & Hloop).
    apply dfs_loop_grows in Hloop as [H _]; [exact H|].
    unfold dfs_init; simpl.
    by apply (trace_grows_emit _ []); [apply trace_grows_empty|].
  - unfold executeDijkstra in Hr.
    apply bind_Return in Hr as (st & Hst & [= <-]).
    unfold dj_run in Hst. apply bind_Return in Hst as (adj & _ & Hst).
    apply bind_Return in Hst as (st1 & Hloop & Hfinal).
    apply dj_loop_grows in Hloop.
    + assert (trace_grows (dj_trace st)
                (visited_of nodes (dj_unvisited st))) as [H _]; [|exact H].
      revert Hfinal. unfold dj_final. destruct target as [t|];
        [|by intros [= <-]].
      case_match; [|by intros [= <-]].
      intros (route & _ & Hlast)%bind_Return.
      destruct (last (tr_steps (dj_trace st1))) as [s0|]; [|done].
      destruct (path s0); injection Hlast as <-; [done|]. simpl.
      by apply (trace_grows_emit _ (visited_of nodes (dj_unvisited st1))).
    + unfold dj_init; simpl.
      eapply trace_grows_weaken; [|apply sublist_nil_l].
      by apply (trace_grows_emit _ []); [apply trace_grows_empty|].
  - unfold executeAStar in Hr.
    apply bind_Return in Hr as (st & Hst & [= <-]).
    rewrite as_run_search in Hst. destruct (truthy target); [|done].
    apply bind_Return in Hst as (adj & _ & Hst).
    unfold as_search in Hst. destruct target as [t|]; [|done].
    destruct (truthy (Some t)); [|done].
    apply bind_Return in Hst as (h & _ & Hst).
    apply bind_Return in Hst as (st1 & Hloop & [= <-]).
    apply as_loop_grows in Hloop.
    + assert (trace_grows (as_trace (as_final start t st1))
                (as_closedSet st1)) as [H _]; [|exact H].
      unfold as_final. case_match; [done|]. simpl.
      by apply (trace_grows_emit _ (as_closedSet st1)).
    + simpl. by apply (trace_grows_emit _ []); [apply trace_grows_empty|].
Qed.

Lemma visited_never_shrinks_witness :
  ∃ r, executeDijkstra cycle_nodes cycle_edges "A" (Some "D") = Return r
    ∧ ∀ i s s', steps r !! i = Some s → steps r !! S i = Some s' →
        visited s `sublist_of` visited s'.
Proof.
  assert (∃ r, executeDijkstra cycle_nodes cycle_edges "A" (Some "D")
               = Return r) as [r Hr] by (eexists; vm_compute; reflexivity).
  exists r. split; [exact Hr|].
  apply (visited_never_shrinks cycle_nodes cycle_edges "A" (Some "D")
           executeDijkstra r); [|exact Hr].
  do 2 right. left.
Defined.

(** ** The size of a traversal trace *)

Lemma bfs_loop_bounded nodes edges adj target fuel st st' :
  (∀ k, adj !! k
        = if decide (k ∈ node_ids nodes) then Some (incident k edges)
          else None) →
  wf_edges nodes edges →
  length (tr_steps (bfs_trace st)) + length (bfs_queue st)
    + 2 * unseen (node_ids nodes) (bfs_visited st) ≤ 2 * length nodes →
  bfs_loop fuel adj target st = Return st' →
  length (tr_steps (bfs_trace st')) ≤ 2 * length nodes.
Proof.
  intros Hadj Hwf.
  apply (bfs_loop_inv adj target
           (λ st, length (tr_steps (bfs_trace st)) + length (bfs_queue st)
                  + 2 * unseen (node_ids nodes) (bfs_visited st)
                  ≤ 2 * length nodes)
           (λ st, length (tr_steps (bfs_trace st)) ≤ 2 * length nodes)).
  - intros st0 c q nbrs HP Hq _ Hc. rewrite Hq in HP. simpl in HP.
    rewrite Hadj in Hc. case_decide as Hcin; [|done]. injection Hc as <-.
    assert (length (tr_steps (bfs_trace (foldl (bfs_discover c)
              (mkBFS (bfs_visited st0) q (bfs_trace st0)) (incident c edges))))
            + length (bfs_queue (foldl (bfs_discover c)
                (mkBFS (bfs_visited st0) q (bfs_trace st0)) (incident c edges)))
            + 2 * unseen (node_ids nodes) (bfs_visited (foldl (bfs_discover c)
                (mkBFS (bfs_visited st0) q (bfs_trace st0)) (incident c edges)))
            + 1 ≤ 2 * length nodes) as H.
    { apply (foldl_preserves_elem
               (λ st, length (tr_steps (bfs_trace st)) + length (bfs_queue st)
                      + 2 * unseen (node_ids nodes) (bfs_visited st) + 1
                      ≤ 2 * length nodes)).
      - intros st1 nb Hnb H1. unfold bfs_discover, set_has.
        case_bool_decide as Hseen; [done|]. simpl. rewrite !length_app. simpl.
        pose proof (unseen_set_add_lt (node_ids nodes) (bfs_visited st1)
                      (nodeId nb) (incident_listed _ _ _ _ Hwf Hnb) Hseen).
        lia.
      - simpl. lia. }
    revert H. generalize (foldl (bfs_discover c)
      (mkBFS (bfs_visited st0) q (bfs_trace st0)) (incident c edges)).
    intros st1 H1. unfold bfs_advance.
    destruct (bfs_queue st1) as [|next rest] eqn:Hq1.
    + rewrite Hq1. simpl in *. lia.
    + simpl. rewrite ?Hq1, length_app. simpl in *. lia.
  - intros st0 c q HP Hq _. rewrite Hq in HP. simpl in *.
    rewrite length_app. simpl. lia.
  - intros st0 HP _. lia.
Qed.

Lemma dfs_push_all_steps c l : ∀ st,
  length (tr_steps (dfs_trace (foldl (dfs_push c) st l)))
  ≤ length (tr_steps (dfs_trace st)) + length l.
Proof.
  induction l as [|nb l IH]; intros st; simpl; [lia|].
  etrans; [apply IH|]. unfold dfs_push. case_match; simpl; [lia|].
  rewrite length_app. simpl. lia.
Qed.

Lemma dfs_loop_bounded nodes edges adj target fuel st st' :
  (∀ k, adj !! k
        = if decide (k ∈ node_ids nodes) then Some (incident k edges)
          else None) →
  wf_edges nodes edges →
  (∀ x, x ∈ dfs_stack st → x ∈ node_ids nodes)
  ∧ length (tr_steps (dfs_trace st)) + unseen (node_ids nodes) (dfs_visited st)
      + unseen (endpoints edges) (dfs_visited st)
      ≤ length nodes + 2 * length edges + 1 →
  dfs_loop fuel adj target st = Return st' →
  length (tr_steps (dfs_trace st')) ≤ length nodes + 2 * length edges + 2.
Proof.
  intros Hadj Hwf.
  apply (dfs_loop_inv adj target
           (λ st, (∀ x, x ∈ dfs_stack st → x ∈ node_ids nodes)
                  ∧ length (tr_steps (dfs_trace st))
                    + unseen (node_ids nodes) (dfs_visited st)
                    + unseen (endpoints edges) (dfs_visited st)
                    ≤ length nodes + 2 * length edges + 1)
           (λ st, length (tr_steps (dfs_trace st))
                  ≤ length nodes + 2 * length edges + 2)).
  - intros st0 c stack [Hst HP] Hstack _. split; [|done]. simpl.
    intros x Hx. apply Hst. rewrite Hstack. by right.
  - intros st0 c stack nbrs [Hst HP] Hstack Hc _ Hadjc visited.
    rewrite Hadj in Hadjc. case_decide as Hcin; [|done]. injection Hadjc as <-.
    subst visited. unfold set_add, set_has.
    rewrite bool_decide_eq_false_2 by done.
    pose proof (dfs_push_all c (reverse (incident c edges))
      (mkDFS (dfs_visited st0 ++ [c]) stack
         (emit (dfs_trace st0) (dfs_visited st0 ++ [c]) (Some c) None
            (Some (reverse stack)) None None ("Visiting node " +:+ c))))
      as (Hv1 & Hs1 & _).
    pose proof (dfs_push_all_steps c (reverse (incident c edges))
      (mkDFS (dfs_visited st0 ++ [c]) stack
         (emit (dfs_trace st0) (dfs_visited st0 ++ [c]) (Some c) None
            (Some (reverse stack)) None None ("Visiting node " +:+ c))))
      as Hlen.
    split.
    + intros x [Hx|[Hx _]]%Hs1; simpl in Hx.
      * apply Hst. rewrite Hstack. by right.
      * rewrite fmap_reverse, elem_of_reverse in Hx.
        apply list_elem_of_fmap in Hx as (nb & -> & Hnb).
        by eapply incident_listed.
    + rewrite Hv1. simpl in *.
      rewrite length_reverse, incident_length, length_app in Hlen.
      simpl in Hlen.
      pose proof (unseen_app_lt (node_ids nodes) (dfs_visited st0) c Hcin Hc).
      pose proof (unseen_split (endpoints edges) (dfs_visited st0) c Hc).
      lia.
  - intros st0 c stack [Hst HP] Hstack Hc _ visited. simpl.
    rewrite !length_app. simpl.
    assert (c ∈ node_ids nodes) as Hcin by (apply Hst; rewrite Hstack; left).
    pose proof (unseen_pos (node_ids nodes) (dfs_visited st0) c Hcin Hc). lia.
  - intros st0 [_ HP] _. lia.
Qed.

(** X5: From a listed start node the trace of a BFS run has at most two steps
    per listed node, and the trace of a DFS run at most one step per listed
    node and two per edge, and two more. *)
Theorem traversal_trace_bounded nodes edges start target r :
  start ∈ node_ids nodes →
  (executeBFS nodes edges start target = Return r →
   length (steps r) ≤ 2 * length nodes)
  ∧ (executeDFS nodes edges start target = Return r →
     length (steps r) ≤ length nodes + 2 * length edges + 2).
Proof.
  intros Hs. split.
  - unfold executeBFS. intros (st & Hst & [= <-])%bind_Return. simpl.
    unfold bfs_run in Hst. apply bind_Return in Hst as (adj & Hc & Hloop).
    pose proof (createAdjacencyList_spec nodes edges) as Hspec.
    rewrite Hc in Hspec. destruct Hspec as [Hwf Hadj].
    apply (bfs_loop_bounded nodes edges adj target _ _ _ Hadj Hwf) in Hloop;
      [done|].
    unfold bfs_init; simpl.
    assert (start ∉ @nil string) as Hnil by (by intros ?%elem_of_nil).
    pose proof (unseen_set_add_lt (node_ids nodes) [] start Hs Hnil).
    pose proof (unseen_le_length (node_ids nodes) []).
    unfold node_ids in *. rewrite length_fmap in *. lia.
  - unfold executeDFS. intros (st & Hst & [= <-])%bind_Return. simpl.
    unfold dfs_run in Hst. apply bind_Return in Hst as (adj & Hc & Hloop).
    pose proof (createAdjacencyList_spec nodes edges) as Hspec.
    rewrite Hc in Hspec. destruct Hspec as [Hwf Hadj].
    apply (dfs_loop_bounded nodes edges adj target _ _ _ Hadj Hwf) in Hloop;
      [done|].
    unfold dfs_init; simpl. split; [by intros x ->%list_elem_of_singleton|].
    pose proof (unseen_le_length (node_ids nodes) []).
    pose proof (unseen_le_length (endpoints edges) []).
    rewrite endpoints_length in *.
    unfold node_ids in *. rewrite length_fmap in *. lia.
Qed.

Lemma traversal_trace_bounded_witness :
  ∃ r1 r2, executeBFS cycle_nodes cycle_edges "A" None = Return r1
    ∧ executeDFS cycle_nodes cycle_edges "A" None = Return r2
    ∧ length (steps r1) ≤ 2 * length cycle_nodes
    ∧ length (steps r2) ≤ length cycle_nodes + 2 * length cycle_edges + 2.
Proof.
  assert ("A" ∈ node_ids cycle_nodes) as Hs
    by (apply (bool_decide_unpack _); by vm_compute).
  assert (∃ r, executeBFS cycle_nodes cycle_edges "A" None = Return r)
    as [r1 Hr1] by (eexists; vm_compute; reflexivity).
  assert (∃ r, executeDFS cycle_nodes cycle_edges "A" None = Return r)
    as [r2 Hr2] by (eexists; vm_compute; reflexivity).
  exists r1, r2. split; [exact Hr1|]. split; [exact Hr2|]. split.
  - by apply (traversal_trace_bounded cycle_nodes cycle_edges "A" None r1 Hs).
  - by apply (traversal_trace_bounded cycle_nodes cycle_edges "A" None r2 Hs).
Defined.

(** ** Dijkstra: the path reported for a target *)

Lemma dj_tree_init nodes edges start : dj_tree edges start (dj_init nodes start).
Proof.
  unfold dj_tree, dj_init; simpl. split.
  - intros k p. rewrite init_table_lookup. by case_decide.
  - intros k z _. destruct (decide (start = k)) as [<-|Hne]; [done|].
    rewrite lookup_insert_ne by done. rewrite init_table_lookup.
    by case_decide.
Qed.

Lemma dj_tree_relax nodes edges start u du st nb :
  adjacent edges u (nodeId nb) (weight nb) →
  (u ∉ dj_unvisited st) → dj_distances st !! u = Some (Fin du) →
  dj_tree edges start st →
  dj_tree edges start (dj_relax nodes u st nb)
  ∧ (u ∉ dj_unvisited (dj_relax nodes u st nb))
  ∧ dj_distances (dj_relax nodes u st nb) !! u = Some (Fin du).
Proof.
  intros Hadj Hu Hdu [Hprev Hroot].
  destruct (dj_relax_cases nodes u st nb)
    as [->|(Hin & d & msg & _ & Hd & ->)]; [done|].
  rewrite Hdu in Hd. cbn [num_add] in Hd. subst d.
  assert (nodeId nb ≠ u) as Hne by (by intros <-).
  unfold dj_tree; simpl. split_and!.
  - intros k p. destruct (decide (nodeId nb = k)) as [<-|Hk].
    + rewrite lookup_insert_eq. intros [= <-]. split; [done|].
      exists du, (weight nb). rewrite lookup_insert_ne by done.
      rewrite lookup_insert_eq. done.
    + rewrite lookup_insert_ne by done. intros Hkp.
      destruct (Hprev k p Hkp) as (HpU & dp & c & Hdp & Hpk & Hdk).
      split; [done|]. exists dp, c.
      rewrite !lookup_insert_ne; [done..|by intros <-].
  - intros k z. destruct (decide (nodeId nb = k)) as [<-|Hk].
    + by rewrite lookup_insert_eq.
    + rewrite !lookup_insert_ne by done. apply Hroot.
  - done.
  - by rewrite lookup_insert_ne.
Qed.

Lemma dj_tree_step nodes edges start st u du :
  dj_tree edges start st → dj_distances st !! u = Some (Fin du) →
  dj_tree edges start
    (dj_advance nodes (foldl (dj_relax nodes u)
       (mkDijkstra (dj_distances st) (dj_previous st)
          (set_delete u (dj_unvisited st)) (dj_trace st))
       (incident u edges))).
Proof.
  intros [Hprev Hroot] Hdu.
  assert (dj_tree edges start
            (foldl (dj_relax nodes u)
               (mkDijkstra (dj_distances st) (dj_previous st)
                  (set_delete u (dj_unvisited st)) (dj_trace st))
               (incident u edges))) as H.
  { apply (foldl_preserves_elem
             (λ st, dj_tree edges start st ∧ (u ∉ dj_unvisited st)
                    ∧ dj_distances st !! u = Some (Fin du))).
    - intros st1 nb Hnb (Ht & HuU & Hd).
      apply dj_tree_relax; [by apply elem_of_incident|done..].
    - simpl. split_and!; [|rewrite elem_of_set_delete; tauto|done].
      split; [|done]. simpl. intros k p Hkp.
      destruct (Hprev k p Hkp) as [HpU H]. split; [|done].
      rewrite elem_of_set_delete. tauto. }
  revert H. generalize (foldl (dj_relax nodes u)
    (mkDijkstra (dj_distances st) (dj_previous st)
       (set_delete u (dj_unvisited st)) (dj_trace st)) (incident u edges)).
  intros st1 H1. unfold dj_advance. by repeat case_match.
Qed.

(** The path rebuilt along the predecessors is a route of the graph from
    the start node, and its weight is the distance of the node it was
    rebuilt from. *)
Lemma reconstruct_routed edges start (previous : gmap string (option string))
    (distances : gmap string num) :
  distances !! start = Some (Fin 0) →
  (∀ k p, previous !! k = Some (Some p) →
     ∃ dp c, distances !! p = Some (Fin dp) ∧ adjacent edges p k c
       ∧ distances !! k = Some (Fin (dp + c))) →
  (∀ k z, previous !! k = Some None → distances !! k = Some (Fin z) →
     k = start) →
  ∀ fuel k rest w dk route,
    reconstruct fuel previous (Some k) rest = Return route →
    routed edges (k :: rest) w → distances !! k = Some (Fin dk) →
    routed edges route (dk + w) ∧ head route = Some start
    ∧ last route = last (k :: rest).
Proof.
  intros H0 Hprev Hroot.
  induction fuel as [|fuel IH]; intros k rest w dk route; [done|].
  rewrite reconstruct_S. destruct (previous !! k) as [[p|]|] eqn:Hk; [| |done].
  - intros Hrec Hrouted Hdk.
    destruct (Hprev k p Hk) as (dp & c & Hdp & Hpk & Hdk').
    rewrite Hdk in Hdk'. injection Hdk' as ->.
    destruct (IH p (k :: rest) (c + w)%Z dp route Hrec) as (Hr & Hhead & Hlast).
    + by constructor.
    + done.
    + split_and!; [|done..]. by replace (dp + c + w)%Z with (dp + (c + w))%Z by lia.
  - rewrite reconstruct_null. intros [= <-] Hrouted Hdk.
    assert (k = start) as -> by (by eapply Hroot).
    rewrite H0 in Hdk. injection Hdk as <-. done.
Qed.

(** A walk from the start node ends on a node whose recorded distance is
    at most the weight of the walk, or passes through an unvisited node
    with such a distance. *)
Lemma dj_walk_bound nodes edges start st :
  wf_edges nodes edges → nonneg_weights edges → dj_inv nodes edges start st →
  ∀ v w, walk edges start v w →
    ∃ y dy, dj_distances st !! y = Some (Fin dy) ∧ (dy ≤ w)%Z
      ∧ (y = v ∨ y ∈ dj_unvisited st).
Proof.
  intros Hwf Hnn (H0 & HK & HU & HS & HV & Hlast).
  induction 1 as [|u v w c Hwalk IH Hadjc].
  - exists start, 0%Z. split_and!; [done|lia|by left].
  - pose proof (adjacent_nonneg _ _ _ _ Hnn Hadjc) as Hc.
    destruct IH as (y & dy & Hdy & Hle & [->|Hy]).
    + destruct (decide (u ∈ dj_unvisited st)) as [HuU|HuU].
      * exists u, dy. split_and!; [done|lia|by right].
      * destruct (adjacent_listed _ _ _ _ _ Hwf Hadjc) as [Huids _].
        destruct (HV u Huids HuU) as (du & Hdu & Hrel & _).
        rewrite Hdy in Hdu. injection Hdu as <-.
        destruct (Hrel v c Hadjc) as (dv & Hdv & Hle').
        exists v, dv. split_and!; [done|lia|by left].
    + exists y, dy. split_and!; [done|lia|by right].
Qed.

(** The predicate the Dijkstra loop is left with when it selects the
    target. *)
Lemma dj_loop_reaches nodes edges adj start t :
  wf_edges nodes edges → nonneg_weights edges →
  (∀ k, adj !! k
        = if decide (k ∈ node_ids nodes) then Some (incident k edges)
          else None) →
  "" ∉ node_ids nodes → t ∈ node_ids nodes → connected edges start t →
  ∃ st s route z,
    dj_loop (S (length nodes)) nodes adj (Some t) (dj_init nodes start)
    = Return st
    ∧ reconstruct (S (length nodes)) (dj_previous st) (Some t) [] = Return route
    ∧ is_Some (dj_previous st !! t)
    ∧ last (tr_steps (dj_trace st)) = Some s
    ∧ current s = Some t ∧ path s = Some route
    ∧ distances s = Some (dj_distances st)
    ∧ dj_distances st !! t = Some (Fin z)
    ∧ routed edges route z ∧ head route = Some start ∧ last route = Some t
    ∧ shortest edges start t z.
Proof.
  intros Hwf Hnn Hadj Hne Ht Hconn.
  assert (t ≠ "") as Ht0 by (by intros ->).
  destruct (dj_loop_total nodes adj (Some t)
    (λ st, dj_inv nodes edges start st ∧ dj_chain nodes st
           ∧ dj_tree edges start st ∧ t ∈ dj_unvisited st)
    (λ st, ∃ s route z,
       reconstruct (S (length nodes)) (dj_previous st) (Some t) [] = Return route
       ∧ is_Some (dj_previous st !! t)
       ∧ last (tr_steps (dj_trace st)) = Some s
       ∧ current s = Some t ∧ path s = Some route
       ∧ distances s = Some (dj_distances st)
       ∧ dj_distances st !! t = Some (Fin z)
       ∧ routed edges route z ∧ head route = Some start ∧ last route = Some t
       ∧ shortest edges start t z))
    with (fuel := S (length nodes)) (st := dj_init nodes start)
    as (st & Hloop & s & route & z & HQ).
  - intros st u d (HI & Hchain & Htree & HtU) Hscan _ _ Hnot.
    exists (incident u edges).
    pose proof Hscan as (HuU & du & -> & Hdu & _)%scan_min_Some.
    assert (u ∈ node_ids nodes) as Hu.
    { destruct HI as (_ & _ & HU & _). by apply HU. }
    split; [by eapply adj_listed|]. split_and!.
    + by eapply dj_inv_step.
    + by eapply dj_chain_step.
    + by eapply dj_tree_step.
    + destruct (dj_advance_fields nodes
        (foldl (dj_relax nodes u)
           (mkDijkstra (dj_distances st) (dj_previous st)
              (set_delete u (dj_unvisited st)) (dj_trace st))
           (incident u edges))) as [-> _].
      rewrite dj_relax_all_unvisited. simpl. apply elem_of_set_delete.
      split; [|done]. intros ->. by apply is_target_false in Hnot.
  - intros st u d (HI & Hchain & Htree & HtU) Hscan _ _ Hhit.
    apply is_target_true in Hhit as [_ ->].
    destruct (dj_chain_reconstruct nodes st t [] Hchain Ht) as [route Hr].
    exists route. split; [done|]. simpl.
    pose proof Hscan as (_ & z & -> & Hz & Hmin)%scan_min_Some.
    pose proof HI as (H0 & _ & _ & HS & _).
    destruct Htree as [Hprev Hroot].
    destruct (reconstruct_routed edges start (dj_previous st) (dj_distances st)
                H0) with (fuel := S (length nodes)) (k := t) (rest := @nil string)
                         (w := 0%Z) (dk := z) (route := route)
      as (Hrouted & Hhead & Hlast); [| |done|constructor|done|].
    { intros k p Hkp. by destruct (Hprev k p Hkp) as [_ ?]. }
    { done. }
    eexists _, route, z. rewrite last_snoc. split_and!; try done.
    + destruct Hchain as (_ & _ & _ & _ & Hkeys & _). by apply Hkeys.
    + by rewrite Z.add_0_r in Hrouted.
    + split; [by apply HS|]. intros w Hw.
      destruct (dj_walk_bound nodes edges start st Hwf Hnn HI t w Hw)
        as (y & dy & Hdy & Hle & [->|Hy]).
      * rewrite Hz in Hdy. injection Hdy as <-. done.
      * specialize (Hmin y dy Hy Hdy). lia.
  - intros st (HI & Hchain & Htree & HtU) Hexit. exfalso.
    pose proof HI as (_ & _ & HU & _).
    assert (Hinf : ∀ k z, k ∈ dj_unvisited st →
              dj_distances st !! k ≠ Some (Fin z)).
    { destruct Hexit as [Hnil|[[d Hnone]|(u & d & Hscan & Hor)]].
      - rewrite Hnil. by intros k z ?%elem_of_nil.
      - intros k z. by eapply scan_min_None.
      - apply scan_min_Some in Hscan as (HuU & z & -> & _).
        destruct Hor as [->|?]; [|done]. exfalso. apply Hne. by apply HU. }
    apply connected_walk in Hconn as [w Hw].
    destruct (dj_walk_bound nodes edges start st Hwf Hnn HI t w Hw)
      as (y & dy & Hdy & _ & [->|Hy]); by eapply Hinf.
  - split_and!.
    + by apply dj_inv_init.
    + apply dj_chain_init.
    + apply dj_tree_init.
    + simpl. by apply elem_of_init_unvisited.
  - simpl. pose proof (init_unvisited_length nodes). lia.
  - exists st, s, route, z. by split.
Qed.

(** X6: On a graph whose edges name listed nodes, with non-negative effective
    weights in the exact range, plain ids and no empty node id, the
    Dijkstra run towards a listed target that is connected to the start
    node ends on the step that reports the target.  The path of that step
    leads from the start node to the target along edges of the graph, its
    weight is the distance the step records for the target, and no walk
    from the start node to the target weighs less. *)
Theorem dijkstra_reports_shortest_path nodes edges start t :
  wf_edges nodes edges → nonneg_weights edges → "" ∉ node_ids nodes →
  plain_ids nodes → exact_weights edges →
  t ∈ node_ids nodes → connected edges start t →
  ∃ r s route z d, executeDijkstra nodes edges start (Some t) = Return r
    ∧ last (steps r) = Some s ∧ current s = Some t
    ∧ path s = Some route ∧ head route = Some start ∧ last route = Some t
    ∧ routed edges route z
    ∧ distances s = Some d ∧ d !! t = Some (Fin z)
    ∧ shortest edges start t z.
Proof.
  intros Hwf Hnn Hne _ _ Ht Hconn.
  destruct (createAdjacencyList_wf nodes edges Hwf) as (adj & Hc & Hadj).
  destruct (dj_loop_reaches nodes edges adj start t Hwf Hnn Hadj Hne Ht Hconn)
    as (st & s & route & z & Hloop & Hrec & Hkey & Hlast & Hcur & Hpath & Hd
        & Hz & Hrouted & Hhead & Hend & Hshort).
  assert (t ≠ "") as Ht0 by (by intros ->).
  exists (mkResult dijkstra start (Some t) (tr_steps (dj_trace st)) 0
            "O(VÂ² + E)" "O(V)"), s, route, z, (dj_distances st).
  split_and!; try done.
  apply executeDijkstra_of_run. unfold dj_run. rewrite Hc.
  cbn [mbind outcome_bind]. rewrite Hloop. cbn [mbind outcome_bind].
  unfold dj_final, truthy. rewrite bool_decide_eq_false_2 by done.
  rewrite bool_decide_eq_true_2 by done. cbn [negb andb].
  rewrite Hrec. cbn [mbind outcome_bind]. rewrite Hlast, Hpath. done.
Qed.

Lemma cycle_connected_A_D : connected cycle_edges "A" "D".
Proof.
  eapply rtc_l; [|eapply rtc_l; [|apply rtc_refl]].
  - exists 1%Z, (sample_edge "E" "A" None).
    split_and!; [set_solver|done|by right].
  - exists 1%Z, (sample_edge "D" "E" None).
    split_and!; [set_solver|done|by right].
Qed.

Lemma dijkstra_reports_shortest_path_witness :
  ∃ r s route z d, executeDijkstra cycle_nodes cycle_edges "A" (Some "D")
                   = Return r
    ∧ last (steps r) = Some s ∧ current s = Some "D"
    ∧ path s = Some route ∧ head route = Some "A" ∧ last route = Some "D"
    ∧ routed cycle_edges route z
    ∧ distances s = Some d ∧ d !! "D" = Some (Fin z)
    ∧ shortest cycle_edges "A" "D" z.
Proof.
  apply (dijkstra_reports_shortest_path cycle_nodes cycle_edges "A" "D");
    [apply (bool_decide_unpack _); by vm_compute..|].
  apply cycle_connected_A_D.
Defined.

(** ** A*: the path reported for a target *)

Lemma getHeuristic_listed nodes t k :
  k ∈ node_ids nodes → t ∈ node_ids nodes →
  ∃ h, getHeuristic (node_map nodes) t k = Return h.
Proof.
  intros [node Hk]%node_map_lookup [target Ht]%node_map_lookup.
  unfold getHeuristic. rewrite Hk, Ht. repeat case_match; eauto.
Qed.

Lemma connected_listed nodes edges a b :
  wf_edges nodes edges → a ∈ node_ids nodes → connected edges a b →
  b ∈ node_ids nodes.
Proof.
  intros Hwf Ha.
  apply (connected_closed edges (λ x, x ∈ node_ids nodes)); [done|].
  intros x y w _ Hxy. by eapply adjacent_listed in Hxy as [_ ?].
Qed.

(** A relaxation of A* leaves the state alone, the neighbour being closed
    or open, or it opens the neighbour with the score reached through the
    current node. *)
Lemma as_relax_spec nodeMap t c st nb st' gc :
  as_gScore st !! c = Some (Fin gc) →
  as_relax nodeMap t c st nb = Return st' →
  (st' = st ∧ (nodeId nb ∈ as_closedSet st ∨ nodeId nb ∈ as_openSet st))
  ∨ (nodeId nb ∉ as_closedSet st)
    ∧ ∃ h msg,
        st' = mkAStar (set_add (nodeId nb) (as_openSet st)) (as_closedSet st)
                (<[nodeId nb := Fin (gc + weight nb)]> (as_gScore st))
                (<[nodeId nb := Fin (gc + weight nb + h)]> (as_fScore st))
                (<[nodeId nb := Some c]> (as_previous st))
                (emit (as_trace st) (as_closedSet st) (Some c) None None
                   (Some (<[nodeId nb := Fin (gc + weight nb)]> (as_gScore st)))
                   None msg).
Proof.
  intros Hgc. unfold as_relax, set_has. rewrite Hgc. cbn [num_add].
  case_bool_decide as Hcl; [intros [= <-]; left; by auto|].
  case_bool_decide as Hop; cbn [andb].
  - destruct (num_ge _ _); [intros [= <-]; left; by auto|].
    intros (h & _ & [= <-])%bind_Return. right. split; [done|].
    rewrite lookup_insert_eq. cbn [num_add]. eauto.
  - intros (h & _ & [= <-])%bind_Return. right. split; [done|].
    rewrite lookup_insert_eq. cbn [num_add]. eauto.
Qed.

Lemma as_relax_returns nodes t c st nb :
  nodeId nb ∈ node_ids nodes → t ∈ node_ids nodes →
  ∃ st', as_relax (node_map nodes) t c st nb = Return st'.
Proof.
  intros Hnb Ht. unfold as_relax. case_match; [by eauto|].
  case_match; [by eauto|].
  destruct (getHeuristic_listed nodes t (nodeId nb) Hnb Ht) as [h ->].
  cbn [mbind outcome_bind]. eauto.
Qed.

Lemma as_tree_relax edges start c gc st nb st' nodeMap t :
  adjacent edges c (nodeId nb) (weight nb) →
  c ∈ as_closedSet st → start ∈ as_closedSet st →
  as_gScore st !! c = Some (Fin gc) →
  as_tree edges start st →
  as_relax nodeMap t c st nb = Return st' →
  as_tree edges start st' ∧ as_closedSet st' = as_closedSet st
  ∧ as_gScore st' !! c = Some (Fin gc)
  ∧ (∀ k, k ∈ as_openSet st → k ∈ as_openSet st')
  ∧ (nodeId nb ∈ as_closedSet st' ∨ nodeId nb ∈ as_openSet st').
Proof.
  intros Hadj Hc Hs Hgc (H0 & Hprev & Hroot & Hopen & Hclosed) Hrelax.
  apply (as_relax_spec _ _ _ _ _ _ gc Hgc) in Hrelax
    as [[-> Hor]|(Hncl & h & msg & ->)].
  { split_and!; try done. }
  assert (nodeId nb ≠ c) as Hnc by (by intros <-).
  assert (nodeId nb ≠ start) as Hns by (by intros <-).
  simpl. split_and!.
  - unfold as_tree; simpl. split_and!.
    + by rewrite lookup_insert_ne.
    + intros k p. destruct (decide (nodeId nb = k)) as [<-|Hk].
      * rewrite lookup_insert_eq. intros [= <-]. split; [done|].
        exists gc, (weight nb). rewrite lookup_insert_ne by done.
        by rewrite lookup_insert_eq.
      * rewrite lookup_insert_ne by done. intros Hkp.
        destruct (Hprev k p Hkp) as (Hp & gp & w & Hgp & Hpk & Hgk).
        split; [done|]. exists gp, w.
        rewrite !lookup_insert_ne; [done..|by intros <-].
    + intros k z. destruct (decide (nodeId nb = k)) as [<-|Hk].
      * by rewrite lookup_insert_eq.
      * rewrite !lookup_insert_ne by done. apply Hroot.
    + intros k [->|Hk]%elem_of_set_add.
      * rewrite !lookup_insert_eq. eauto.
      * destruct (decide (nodeId nb = k)) as [<-|Hne].
        -- rewrite !lookup_insert_eq. eauto.
        -- rewrite !lookup_insert_ne by done. auto.
    + intros k Hk. rewrite lookup_insert_ne; [auto|by intros <-].
  - done.
  - by rewrite lookup_insert_ne.
  - intros k Hk. apply elem_of_set_add. by right.
  - right. apply elem_of_set_add. by left.
Qed.

Lemma as_relax_all_tree nodes edges start t c gc nbrs : ∀ st,
  t ∈ node_ids nodes →
  (∀ nb, nb ∈ nbrs →
     adjacent edges c (nodeId nb) (weight nb) ∧ nodeId nb ∈ node_ids nodes) →
  c ∈ as_closedSet st → start ∈ as_closedSet st →
  as_gScore st !! c = Some (Fin gc) →
  as_tree edges start st →
  ∃ st1, as_relax_all (node_map nodes) t c st nbrs = Return st1
    ∧ as_tree edges start st1 ∧ as_closedSet st1 = as_closedSet st
    ∧ (∀ k, k ∈ as_openSet st → k ∈ as_openSet st1)
    ∧ ∀ nb, nb ∈ nbrs →
        nodeId nb ∈ as_closedSet st1 ∨ nodeId nb ∈ as_openSet st1.
Proof.
  induction nbrs as [|nb nbrs IH]; intros st Ht Hnbrs Hc Hs Hgc Htree; simpl.
  - exists st. split_and!; try done. by intros nb ?%elem_of_nil.
  - destruct (Hnbrs nb) as [Hadj Hnb]; [left|].
    destruct (as_relax_returns nodes t c st nb Hnb Ht) as [st0 Hrelax].
    rewrite Hrelax. cbn [mbind outcome_bind].
    destruct (as_tree_relax edges start c gc st nb st0 _ _ Hadj Hc Hs Hgc
                Htree Hrelax) as (Htree0 & Hcl0 & Hgc0 & Hop0 & Hnb0).
    destruct (IH st0) as (st1 & Hall & Htree1 & Hcl1 & Hop1 & Hnbrs1);
      [done| |by rewrite Hcl0|by rewrite Hcl0|done|done|].
    { intros nb' Hin. apply Hnbrs. by right. }
    exists st1. split_and!; [done|done|by rewrite Hcl1| |].
    + auto.
    + intros nb' [->|Hin]%elem_of_cons; [|by auto].
      rewrite Hcl1. destruct Hnb0 as [?|?]; [by left|auto].
Qed.

Lemma as_tree_advance edges start st :
  as_tree edges start st → as_tree edges start (as_advance st).
Proof. unfold as_advance. by repeat case_match. Qed.

(** On a graph whose edges name listed nodes the A* loop towards a target
    connected to the start node selects the target, and the path it then
    rebuilds is a route from the start node whose weight is the score of
    the target. *)
Lemma as_loop_reaches nodes edges adj start t h :
  wf_edges nodes edges →
  (∀ k, adj !! k
        = if decide (k ∈ node_ids nodes) then Some (incident k edges)
          else None) →
  "" ∉ node_ids nodes → start ∈ node_ids nodes → connected edges start t →
  ∃ st s route z,
    as_loop (S (length nodes)) nodes adj (node_map nodes) t
      (mkAStar (set_add start []) []
         (<[start := Fin 0]>
            (foldl (λ m node, <[node_id node := Infinity]> m) ∅ nodes))
         (<[start := Fin h]>
            (foldl (λ m node, <[node_id node := Infinity]> m) ∅ nodes))
         (foldl (λ m node, <[node_id node := None]> m) ∅ nodes)
         (emit empty_trace [] (Some start) None None
            (Some (<[start := Fin 0]>
               (foldl (λ m node, <[node_id node := Infinity]> m) ∅ nodes)))
            None
            ("Starting A* search from node " +:+ start +:+ " to target "
               +:+ t)))
    = Return st
    ∧ (t ∉ as_closedSet st)
    ∧ last (tr_steps (as_trace st)) = Some s
    ∧ current s = Some t ∧ path s = Some route
    ∧ distances s = Some (as_gScore st)
    ∧ as_gScore st !! t = Some (Fin z)
    ∧ description s
      = "Target node " +:+ t +:+ " reached! Path found with cost "
          +:+ pretty z
    ∧ routed edges route z ∧ head route = Some start ∧ last route = Some t.
Proof.
  intros Hwf Hadj Hne Hs Hconn.
  assert (t ∈ node_ids nodes) as Ht by (by eapply connected_listed).
  assert (t ≠ "") as Ht0 by (by intros ->).
  destruct (as_loop_total nodes adj (node_map nodes) t
    (λ st, as_inv nodes st ∧ as_tree edges start st
           ∧ as_frontier edges start t st)
    (λ st, ∃ s route z,
       (t ∉ as_closedSet st)
       ∧ last (tr_steps (as_trace st)) = Some s
       ∧ current s = Some t ∧ path s = Some route
       ∧ distances s = Some (as_gScore st)
       ∧ as_gScore st !! t = Some (Fin z)
       ∧ description s
         = "Target node " +:+ t +:+ " reached! Path found with cost "
             +:+ pretty z
       ∧ routed edges route z ∧ head route = Some start ∧ last route = Some t)
    (λ st, unseen (node_ids nodes) (as_closedSet st)))
    with (fuel := S (length nodes))
         (st := mkAStar (set_add start []) []
            (<[start := Fin 0]>
               (foldl (λ m node, <[node_id node := Infinity]> m) ∅ nodes))
            (<[start := Fin h]>
               (foldl (λ m node, <[node_id node := Infinity]> m) ∅ nodes))
            (foldl (λ m node, <[node_id node := None]> m) ∅ nodes)
            (emit empty_trace [] (Some start) None None
               (Some (<[start := Fin 0]>
                  (foldl (λ m node, <[node_id node := Infinity]> m) ∅ nodes)))
               None
               ("Starting A* search from node " +:+ start +:+ " to target "
                  +:+ t)))
    as (st & Hloop & s & route & z & HQ).
  - intros st ((rank & n & _ & Hopen & _) & _ & _) Hnil.
    destruct (as_openSet st) as [|x O] eqn:HO; [done|].
    destruct (Hopen x) as [Hx1 Hx2]; [left|].
    by eapply unseen_pos.
  - intros st c ((rank & n & HI) & Htree & Hstart & Htc & Hclosure) Hscan Hc Hct.
    destruct (scan_min (as_fScore st) (as_openSet st)) as [[c'|] d] eqn:Hsc;
      [|done]. simpl in Hscan. injection Hscan as ->.
    apply scan_min_Some in Hsc as [Hcopen _].
    pose proof HI as (_ & Hopen & _). destruct (Hopen c Hcopen) as [Hcids Hccl].
    pose proof Htree as (H0 & Hprev & Hroot & Hfin & Hclfin).
    destruct (Hfin c Hcopen) as (gc & fc & Hgc & _).
    destruct (as_inv_close nodes rank n st c HI Hcopen) as [HI0 Hlt].
    set (st0 := mkAStar (set_delete c (as_openSet st))
                  (set_add c (as_closedSet st)) (as_gScore st) (as_fScore st)
                  (as_previous st) (as_trace st)) in *.
    assert (c ∈ as_closedSet st0) as Hc0
      by (simpl; apply elem_of_set_add; by left).
    assert (start ∈ as_closedSet st0) as Hs0.
    { simpl. apply elem_of_set_add. destruct Hstart as [?|Heq]; [by right|].
      rewrite Heq in Hcopen. apply list_elem_of_singleton in Hcopen. by left. }
    assert (as_tree edges start st0) as Htree0.
    { unfold as_tree; simpl. split_and!; [done| |done| |].
      - intros k p Hkp. destruct (Hprev k p Hkp) as [Hp H]. split; [|done].
        apply elem_of_set_add. by right.
      - intros k [_ Hk]%elem_of_set_delete. auto.
      - intros k [->|Hk]%elem_of_set_add; eauto. }
    destruct (as_relax_all_tree nodes edges start t c gc (incident c edges) st0)
      as (st1 & Hall & Htree1 & Hcl1 & Hop1 & Hnbrs1); try done.
    { intros nb Hnb. split; [by apply elem_of_incident|].
      by eapply incident_listed. }
    exists (incident c edges), st1. split; [by eapply adj_listed|].
    split; [done|].
    pose proof (as_relax_all_inv nodes
      (λ x, if decide (x = c) then n else rank x) (S n) (node_map nodes) t c
      (incident c edges) st0 Hcids Hc0
      (λ nb, incident_listed nodes edges c nb Hwf) HI0) as Hinv.
    rewrite Hall in Hinv. destruct Hinv as [HI1 _].
    destruct (as_advance_fields st1) as (Ho & Hcl & Hp).
    split_and!.
    + eexists _, (S n). unfold as_inv_at. rewrite Ho, Hcl, Hp. exact HI1.
    + by apply as_tree_advance.
    + unfold as_frontier. rewrite Ho, Hcl, Hcl1. simpl. split_and!.
      * by left.
      * rewrite elem_of_set_add. intros [->|?]; done.
      * intros x y w [->|Hx]%elem_of_set_add Hxy.
        -- destruct (Hnbrs1 (mkNeighbor y w)) as [Hy|Hy];
             [by apply elem_of_incident| |by right].
           left. by rewrite Hcl1 in Hy.
        -- destruct (Hclosure x y w Hx Hxy) as [Hy|Hy].
           ++ left. apply elem_of_set_add. by right.
           ++ destruct (decide (y = c)) as [->|Hyc].
              ** left. apply elem_of_set_add. by left.
              ** right. apply Hop1. simpl. by apply elem_of_set_delete.
    + rewrite Hcl, Hcl1. simpl. lia.
  - intros st (HI & Htree & Hstart & Htc & Hclosure) Hscan _.
    destruct (scan_min (as_fScore st) (as_openSet st)) as [[c'|] d] eqn:Hsc;
      [|done]. simpl in Hscan. injection Hscan as ->.
    apply scan_min_Some in Hsc as [Htopen _].
    destruct (as_inv_reconstruct nodes st t [] HI Htopen) as [route Hr].
    exists route. split; [done|].
    destruct Htree as (H0 & Hprev & Hroot & Hfin & Hclfin).
    destruct (Hfin t Htopen) as (z & _ & Hz & _).
    destruct (reconstruct_routed edges start (as_previous st) (as_gScore st) H0)
      with (fuel := S (length nodes)) (k := t) (rest := @nil string)
           (w := 0%Z) (dk := z) (route := route)
      as (Hrouted & Hhead & Hlast); [| |done|constructor|done|].
    { intros k p Hkp. by destruct (Hprev k p Hkp) as [_ ?]. }
    { done. }
    eexists _, route, z. simpl. rewrite last_snoc. split_and!; try done.
    + simpl. by rewrite Hz.
    + by rewrite Z.add_0_r in Hrouted.
  - intros st ((rank & n & _ & Hopen & _) & Htree & Hstart & Htc & Hclosure)
      Hexit. exfalso.
    destruct (as_openSet st) as [|x O] eqn:HO.
    + apply Htc. revert Hconn.
      apply (connected_closed edges (λ x, x ∈ as_closedSet st)).
      * by destruct Hstart as [?|?].
      * intros a b w Ha Hab.
        destruct (Hclosure a b w Ha Hab) as [?|?%elem_of_nil]; done.
    + destruct Hexit as [?|[Hnone|Hempty]]; [done| |].
      * destruct Htree as (_ & _ & _ & Hfin & _).
        destruct (Hfin x) as (_ & z' & _ & Hz'); [rewrite HO; left|].
        destruct (scan_min (as_fScore st) (x :: O)) as [[c'|] d] eqn:Hsc;
          [done|].
        eapply scan_min_None in Hsc; [by apply Hsc in Hz'|]. left.
      * destruct (scan_min (as_fScore st) (x :: O)) as [[c'|] d] eqn:Hsc;
          [|done].
        simpl in Hempty. injection Hempty as ->.
        apply scan_min_Some in Hsc as [Hin _].
        apply Hne. by apply Hopen.
  - split_and!.
    + exists (λ _, 0), 0. unfold as_inv_at; simpl. split_and!.
      * pose proof (unseen_le_length (node_ids nodes) []).
        unfold node_ids in *. rewrite length_fmap in *. lia.
      * intros k [->|?%elem_of_nil]%elem_of_set_add; [|done].
        split; [done|]. by intros ?%elem_of_nil.
      * by intros x ?%elem_of_nil.
      * intros k Hk. rewrite init_table_lookup. rewrite decide_True by done.
        eauto.
      * intros k p. rewrite init_table_lookup. by case_decide.
    + unfold as_tree; simpl. split_and!.
      * by rewrite lookup_insert_eq.
      * intros k p. rewrite init_table_lookup. by case_decide.
      * intros k z _. destruct (decide (start = k)) as [<-|Hk]; [done|].
        rewrite lookup_insert_ne by done. rewrite init_table_lookup.
        by case_decide.
      * intros k [->|?%elem_of_nil]%elem_of_set_add; [|done].
        rewrite !lookup_insert_eq. eauto.
      * by intros k ?%elem_of_nil.
    + unfold as_frontier; simpl. split_and!.
      * by right.
      * by intros ?%elem_of_nil.
      * by intros x y w ?%elem_of_nil.
  - simpl. pose proof (unseen_le_length (node_ids nodes) []).
    unfold node_ids in *. rewrite length_fmap in *. lia.
  - exists st, s, route, z. by split.
Qed.

(** X7: On a graph whose edges name listed nodes, with plain ids, no empty
    node id, and weights and coordinates in the exact range, the A* run
    from a listed start node towards a target connected to it returns, and
    the step before the closing "No path found" step reports the target:
    its path leads from the start node to the target along edges of the
    graph, and the cost it gives is the weight of that path. *)
Theorem astar_reports_route nodes edges start t :
  wf_edges nodes edges → "" ∉ node_ids nodes → start ∈ node_ids nodes →
  plain_ids nodes → exact_weights edges → exact_coordinates nodes →
  connected edges start t →
  ∃ r s route z g, executeAStar nodes edges start (Some t) = Return r
    ∧ steps r !! (length (steps r) - 2) = Some s
    ∧ current s = Some t
    ∧ path s = Some route ∧ head route = Some start ∧ last route = Some t
    ∧ routed edges route z
    ∧ distances s = Some g ∧ g !! t = Some (Fin z)
    ∧ description s
      = "Target node " +:+ t +:+ " reached! Path found with cost "
          +:+ pretty z.
Proof.
  intros Hwf Hne Hs _ _ _ Hconn.
  assert (t ∈ node_ids nodes) as Ht by (by eapply connected_listed).
  assert (t ≠ "") as Ht0 by (by intros ->).
  destruct (createAdjacencyList_wf nodes edges Hwf) as (adj & Hc & Hadj).
  destruct (getHeuristic_listed nodes t start Hs Ht) as [h Hh].
  destruct (as_loop_reaches nodes edges adj start t h Hwf Hadj Hne Hs Hconn)
    as (st & s & route & z & Hloop & Htc & Hlast & Hcur & Hpath & Hd & Hz
        & Hdesc & Hrouted & Hhead & Hend).
  eexists _, s, route, z, (as_gScore st). split.
  - unfold executeAStar, as_run, truthy.
    rewrite bool_decide_eq_false_2 by done. cbn [negb]. rewrite Hc.
    cbn [mbind outcome_bind]. rewrite Hh. cbn [mbind outcome_bind].
    rewrite Hloop. reflexivity.
  - simpl. split_and!; try done.
    unfold as_final, set_has. rewrite bool_decide_eq_false_2 by done. simpl.
    rewrite length_app. simpl.
    apply last_Some in Hlast as [l' Hl']. rewrite Hl', length_app. simpl.
    replace (length l' + 1 + 1 - 2) with (length l') by lia.
    rewrite <- app_assoc. simpl. by rewrite list_lookup_middle.
Qed.

Lemma astar_reports_route_witness :
  ∃ r s route z g, executeAStar cycle_nodes cycle_edges "A" (Some "D") = Return r
    ∧ steps r !! (length (steps r) - 2) = Some s
    ∧ current s = Some "D"
    ∧ path s = Some route ∧ head route = Some "A" ∧ last route = Some "D"
    ∧ routed cycle_edges route z
    ∧ distances s = Some g ∧ g !! "D" = Some (Fin z)
    ∧ description s
      = "Target node " +:+ "D" +:+ " reached! Path found with cost "
          +:+ pretty z.
Proof.
  apply (astar_reports_route cycle_nodes cycle_edges "A" "D");
    [apply (bool_decide_unpack _); by vm_compute..|].
  apply cycle_connected_A_D.
Defined.

(** ** DFS: the target *)

(** X8: On a graph whose edges name listed nodes, the DFS run from a listed
    start node towards a target connected to it stops when it pops the
    target: the trace ends with the step that visits the target, followed
    by the step that reports it.  Both record the same visited list, which
    has no repetition, ends with the target and holds only nodes connected
    to the start node. *)
Theorem dfs_stops_at_target nodes edges start t :
  wf_edges nodes edges → start ∈ node_ids nodes → t ≠ "" →
  connected edges start t →
  ∃ r s s', executeDFS nodes edges start (Some t) = Return r
    ∧ last (steps r) = Some s
    ∧ steps r !! (length (steps r) - 2) = Some s'
    ∧ description s' = "Visiting node " +:+ t
    ∧ description s = reached_description t
    ∧ current s = Some t ∧ visited s = visited s'
    ∧ last (visited s) = Some t ∧ NoDup (visited s)
    ∧ ∀ x, x ∈ visited s → connected edges start x.
Proof.
  intros Hwf Hs Ht0 Hconn.
  destruct (createAdjacencyList_wf nodes edges Hwf) as (adj & Hc & Hadj).
  destruct (dfs_loop_total adj (Some t)
    (λ st, dfs_inv nodes edges start st ∧ (t ∉ dfs_visited st))
    (λ st, ∃ l s s', tr_steps (dfs_trace st) = l ++ [s'; s]
       ∧ description s' = "Visiting node " +:+ t
       ∧ description s = reached_description t
       ∧ current s = Some t ∧ visited s = visited s'
       ∧ last (visited s) = Some t ∧ NoDup (visited s)
       ∧ ∀ x, x ∈ visited s → connected edges start x)
    (dfs_measure nodes edges))
    with (fuel := length nodes + 2 * length edges + 2) (st := dfs_init start)
    as (st & Hloop & l & s & s' & Hsteps & HQ).
  - intros st _ Hne. unfold dfs_measure.
    destruct (dfs_stack st); [done|simpl; lia].
  - intros st c stack [HI Ht] Hst Hcv.
    destruct (dfs_inv_pop nodes edges start st c stack HI Hst Hcv) as [HI2 Hlt].
    split; [|done]. by split.
  - intros st c stack [HI Ht] Hst Hcv Hnot. exists (incident c edges).
    assert (c ∈ node_ids nodes) as Hcin.
    { destruct HI as (_ & _ & HI & _). apply HI. rewrite Hst. left. }
    split; [by eapply adj_listed|].
    destruct (dfs_inv_visit nodes edges start Hwf st c stack HI Hst Hcv)
      as [HI2 Hlt].
    split; [|done]. split; [done|].
    pose proof (dfs_push_all c (reverse (incident c edges))
      (mkDFS (set_add c (dfs_visited st)) stack
         (emit (dfs_trace st) (set_add c (dfs_visited st)) (Some c) None
            (Some (reverse stack)) None None ("Visiting node " +:+ c))))
      as (Hv1 & _).
    rewrite Hv1. simpl. rewrite elem_of_set_add.
    apply is_target_false in Hnot; [|done]. intros [->|?]; done.
  - intros st c stack [HI Ht] Hst Hcv Hhit visited.
    apply is_target_true in Hhit as [_ ->].
    destruct HI as (_ & Hconnv & Hstk & _ & Hnd & _).
    eexists (tr_steps (dfs_trace st)), _, _. simpl.
    rewrite <- app_assoc. split; [reflexivity|]. simpl.
    subst visited. unfold set_add, set_has.
    rewrite bool_decide_eq_false_2 by done. split_and!; try done.
    + by rewrite last_snoc.
    + apply NoDup_app. split_and!; [done| |apply NoDup_singleton].
      intros x Hx ->%list_elem_of_singleton. done.
    + intros x [Hx| ->]%elem_of_snoc; [by auto|].
      apply Hstk. rewrite Hst. left.
  - intros st [(Hstart & Hconnv & _ & Hcl & _) Ht] Hempty. exfalso.
    apply Ht. revert Hconn. rewrite Hempty in *.
    apply (connected_closed edges (λ x, x ∈ dfs_visited st)).
    + destruct Hstart as [?|?%elem_of_nil]; done.
    + intros a b w Ha Hab.
      destruct (Hcl a Ha b w Hab) as [?|?%elem_of_nil]; done.
  - split; [by eapply dfs_inv_init|]. simpl. by intros ?%elem_of_nil.
  - unfold dfs_measure, dfs_init; simpl.
    pose proof (unseen_le_length (node_ids nodes) []).
    pose proof (unseen_le_length (endpoints edges) []).
    rewrite endpoints_length in *.
    unfold node_ids in *. rewrite length_fmap in *. lia.
  - exists (mkResult dfs start (Some t) (tr_steps (dfs_trace st)) 0
              "O(V + E)" "O(V)"), s, s'.
    split.
    + unfold executeDFS, dfs_run. rewrite Hc. cbn [mbind outcome_bind].
      by rewrite Hloop.
    + simpl. rewrite Hsteps. split_and!; try apply HQ.
      * change (l ++ [s'; s]) with (l ++ [s'] ++ [s]).
        by rewrite app_assoc, last_snoc.
      * rewrite length_app. simpl.
        replace (length l + 2 - 2) with (length l) by lia.
        by rewrite list_lookup_middle.
Qed.

Lemma dfs_stops_at_target_witness :
  ∃ r s s', executeDFS cycle_nodes cycle_edges "A" (Some "D") = Return r
    ∧ last (steps r) = Some s
    ∧ steps r !! (length (steps r) - 2) = Some s'
    ∧ description s' = "Visiting node " +:+ "D"
    ∧ description s = reached_description "D"
    ∧ current s = Some "D" ∧ visited s = visited s'
    ∧ last (visited s) = Some "D" ∧ NoDup (visited s)
    ∧ ∀ x, x ∈ visited s → connected cycle_edges "A" x.
Proof.
  apply (dfs_stops_at_target cycle_nodes cycle_edges "A" "D").
  - apply (bool_decide_unpack _). by vm_compute.
  - apply (bool_decide_unpack _). by vm_compute.
  - done.
  - apply cycle_connected_A_D.
Defined.

(** ** The size of the adjacency list *)

Lemma entry_count_insert (adj : AdjacencyList) k l :
  adj !! k = None → entry_count (<[k := l]> adj) = length l + entry_count adj.
Proof.
  intros Hk. unfold entry_count. rewrite map_fold_insert_L; [done| |done].
  intros. lia.
Qed.

Lemma entry_count_push (adj : AdjacencyList) k l e :
  adj !! k = Some l →
  entry_count (<[k := l ++ [e]]> adj) = S (entry_count adj).
Proof.
  intros Hk. rewrite <- (insert_delete_eq adj).
  rewrite entry_count_insert by apply lookup_delete_eq.
  rewrite <- (insert_delete_id adj k l Hk) at 2.
  rewrite entry_count_insert by apply lookup_delete_eq.
  rewrite length_app. simpl. lia.
Qed.

Lemma entry_count_init nodes : entry_count (init_adjacency nodes) = 0.
Proof.
  induction nodes as [|n nodes IH] using rev_ind; [done|].
  unfold init_adjacency in *. rewrite foldl_app. simpl.
  pose proof (init_adjacency_lookup nodes (node_id n)) as Hl.
  unfold init_adjacency in Hl. case_decide.
  - by rewrite insert_id.
  - rewrite entry_count_insert by done. simpl. done.
Qed.

Lemma add_edges_entry_count edges : ∀ adj adj',
  add_edges adj edges = Return adj' →
  entry_count adj' = entry_count adj + 2 * length edges.
Proof.
  induction edges as [|edge edges IH]; intros adj adj'; cbn [add_edges].
  - intros [= <-]. simpl. lia.
  - intros (adj1 & H1 & H2)%bind_Return. rewrite (IH _ _ H2).
    unfold add_edge in H1. apply bind_Return in H1 as (adj0 & H0 & H1).
    unfold push_neighbor in H0, H1.
    destruct (adj !! edge_source edge) as [ls|] eqn:Hs; [|done].
    injection H0 as <-.
    destruct (<[edge_source edge:=ls ++ _]> adj !! edge_target edge)
      as [lt|] eqn:Ht; [|done].
    injection H1 as <-.
    rewrite (entry_count_push _ _ _ _ Ht), (entry_count_push _ _ _ _ Hs).
    simpl. lia.
Qed.

(** X9: When the adjacency list of nodes with plain ids is built, its keys
    are the listed node ids and it holds two entries for every edge, one in
    the list of each end. *)
Theorem adjacency_holds_each_edge_twice nodes edges adj :
  plain_ids nodes →
  createAdjacencyList nodes edges = Return adj →
  (∀ k, is_Some (adj !! k) ↔ k ∈ node_ids nodes)
  ∧ entry_count adj = 2 * length edges.
Proof.
  intros _ Hc. split.
  - pose proof (createAdjacencyList_spec nodes edges) as Hspec.
    rewrite Hc in Hspec. destruct Hspec as [_ Hadj].
    intros k. rewrite Hadj. case_decide; [by eauto|].
    split; [by intros [? ?]|done].
  - unfold createAdjacencyList in Hc.
    rewrite (add_edges_entry_count _ _ _ Hc), entry_count_init. lia.
Qed.

Lemma adjacency_holds_each_edge_twice_witness :
  ∃ adj, createAdjacencyList cycle_nodes cycle_edges = Return adj
    ∧ (∀ k, is_Some (adj !! k) ↔ k ∈ node_ids cycle_nodes)
    ∧ entry_count adj = 2 * length cycle_edges.
Proof.
  assert (∃ adj, createAdjacencyList cycle_nodes cycle_edges = Return adj)
    as [adj Hadj] by (eexists; vm_compute; reflexivity).
  exists adj. split; [exact Hadj|].
  apply (adjacency_holds_each_edge_twice cycle_nodes cycle_edges adj);
    [|exact Hadj].
  apply (bool_decide_unpack _). by vm_compute.
Defined.

(** ** The order in which BFS visits *)

Lemma level_unique edges start x n m :
  level edges start x n → level edges start x m → n = m.
Proof.
  intros [Hn Hmin] [Hm Hmin']. apply Hmin in Hm. apply Hmin' in Hn. lia.
Qed.

Lemma level_start edges start : level edges start start 0.
Proof. split; [constructor|]. intros m _. lia. Qed.

Lemma level_ordered_prefix edges start l k :
  l `prefix_of` k → level_ordered edges start k → level_ordered edges start l.
Proof.
  intros Hpre [Hlev Hord]. split.
  - intros x Hx. apply Hlev. destruct Hpre as [l' ->]. set_solver.
  - intros i j x y n m Hij Hi Hj. apply (Hord i j); [done|..];
      by eapply prefix_lookup_Some.
Qed.

Lemma level_ordered_snoc edges start l y n :
  level_ordered edges start l → level edges start y n →
  (∀ x m, x ∈ l → level edges start x m → m ≤ n) →
  level_ordered edges start (l ++ [y]).
Proof.
  intros [Hlev Hord] Hy Hle. split.
  - intros x [Hx|Heq%list_elem_of_singleton]%elem_of_app;
      [by auto|subst; by eauto].
  - intros i j x z a b Hij Hi Hj Ha Hb.
    apply lookup_app_Some in Hj as [Hj|[Hjge Hj]].
    + apply (Hord i j x z); [done| |done..].
      apply lookup_app_Some in Hi as [Hi|[Hige Hi]]; [done|].
      apply lookup_lt_Some in Hj. lia.
    + apply list_lookup_singleton_Some in Hj as [_ <-].
      rewrite (level_unique _ _ _ _ _ Hb Hy).
      apply lookup_app_Some in Hi as [Hi|[Hige Hi]].
      * eapply Hle; [by eapply list_elem_of_lookup_2|done].
      * apply list_lookup_singleton_Some in Hi as [_ <-].
        by rewrite (level_unique _ _ _ _ _ Ha Hy).
Qed.

(** The discovery of one neighbour of [c]. *)
Lemma bfs_levels_discover edges start done_ c n st nb :
  bfs_levels_at edges start done_ c n st →
  adjacent edges c (nodeId nb) (weight nb) →
  bfs_levels_at edges start done_ c n (bfs_discover c st nb).
Proof.
  intros (Hs & HV & Hc & Hord & Htop & Hcl & Hnear & Htr) Hnb.
  unfold bfs_discover, set_has. case_bool_decide as Hseen; [done|].
  unfold set_add, set_has. rewrite bool_decide_eq_false_2 by done.
  assert (level edges start (nodeId nb) (S n)) as Hy.
  { split.
    - eapply nsteps_r; [apply Hc|]. by exists (weight nb).
    - intros m Hm. destruct (decide (S n ≤ m)) as [|Hlt]; [done|].
      exfalso. apply Hseen. destruct m as [|m].
      + inversion Hm; subst. done.
      + apply nsteps_inv_r in Hm as (p & Hp & [w Hw]).
        apply (Hcl p _ w); [|done]. apply (Hnear p m); [done|lia]. }
  unfold bfs_levels_at. simpl. split_and!.
  - set_solver.
  - rewrite HV. by rewrite <- !app_assoc.
  - done.
  - by apply (level_ordered_snoc _ _ _ _ (S n)).
  - intros y m [Hin|Heq%list_elem_of_singleton]%elem_of_app Hm; [by eauto|].
    subst. by rewrite (level_unique _ _ _ _ _ Hm Hy).
  - intros x y w Hx Hxy. apply elem_of_app. left. eauto.
  - done.
  - intros s [Hin|Heq%list_elem_of_singleton]%elem_of_app.
    + by apply prefix_app_r, Htr.
    + by subst.
Qed.

Lemma bfs_levels_discover_all edges start done_ c n l : ∀ st,
  bfs_levels_at edges start done_ c n st →
  (∀ nb, nb ∈ l → adjacent edges c (nodeId nb) (weight nb)) →
  bfs_levels_at edges start done_ c n (foldl (bfs_discover c) st l).
Proof.
  induction l as [|nb l IH]; intros st Hst Hl; [done|].
  simpl. apply IH; [|set_solver].
  apply bfs_levels_discover; [done|]. apply Hl. by left.
Qed.

Lemma bfs_levels_init edges start : bfs_levels edges start (bfs_init start).
Proof.
  exists []. unfold bfs_init, set_add, set_has. simpl.
  assert (∀ x, x ∈ [start] → x = start) as Hone by set_solver.
  split_and!.
  - set_solver.
  - done.
  - split.
    + intros x ->%Hone. exists 0. apply level_start.
    + intros i j x y n m _ Hi%list_elem_of_lookup_2 Hj%list_elem_of_lookup_2.
      apply Hone in Hi as ->. apply Hone in Hj as ->.
      intros Hn Hm. by rewrite (level_unique _ _ _ _ _ Hn Hm).
  - intros x n y m [= <-] Hn ->%Hone Hm.
    rewrite (level_unique _ _ _ _ _ Hm Hn). lia.
  - by intros x y w ?%elem_of_nil.
  - intros x n z k [= <-] Hn _ Hk.
    pose proof (level_unique _ _ _ _ _ Hn (level_start edges start)). lia.
  - intros s ->%list_elem_of_singleton. done.
Qed.

(** One iteration of the loop, on the node [c] with its neighbours. *)
Lemma bfs_levels_step edges start st c q :
  bfs_levels edges start st → bfs_queue st = c :: q →
  bfs_levels edges start
    (bfs_advance (foldl (bfs_discover c)
       (mkBFS (bfs_visited st) q (bfs_trace st)) (incident c edges))).
Proof.
  intros (done_ & Hs & HV & Hord & Htop & Hcl & Hnear & Htr) Hq.
  rewrite Hq in *. simpl in Htop, Hnear.
  destruct Hord as [Hlev Hsorted].
  destruct (Hlev c) as [n Hc]; [rewrite HV; set_solver|].
  pose proof (bfs_levels_discover_all edges start done_ c n (incident c edges)
                (mkBFS (bfs_visited st) q (bfs_trace st))) as H1.
  pose proof (bfs_discover_all c (incident c edges)
                (mkBFS (bfs_visited st) q (bfs_trace st))) as (Hv1 & _).
  set (st1 := foldl (bfs_discover c)
                (mkBFS (bfs_visited st) q (bfs_trace st)) (incident c edges))
    in *.
  destruct H1 as (Hs1 & HV1 & _ & Hord1 & Htop1 & Hcl1 & Hnear1 & Htr1).
  { unfold bfs_levels_at. simpl. split_and!; try done.
    - intros y m. by apply (Htop c n).
    - intros z k. by apply (Hnear c n). }
  { intros nb Hnb. by apply elem_of_incident. }
  simpl in Hv1.
  assert (Hcl' : ∀ x y w, x ∈ done_ ++ [c] → adjacent edges x y w →
            y ∈ bfs_visited st1).
  { intros x y w [Hx|Heq%list_elem_of_singleton]%elem_of_app Hxy;
      [by eauto|]. subst x.
    apply Hv1. right. apply elem_of_incident_ids. eauto. }
  destruct (bfs_advance_fields st1) as [Hav Haq].
  exists (done_ ++ [c]). rewrite Hav, Haq. split_and!.
  - done.
  - by rewrite HV1, <- app_assoc.
  - done.
  - intros x n' y m Hx Hn' Hy Hm.
    assert (n ≤ n') as Hnn'.
    { destruct Hord1 as [_ Hsorted1].
      destruct (bfs_queue st1) as [|x' q1] eqn:Hq1; [done|].
      injection Hx as ->.
      apply (Hsorted1 (length done_) (S (length done_)) c x); [lia|..|done|done].
      - rewrite HV1. simpl. by rewrite list_lookup_middle.
      - rewrite HV1. rewrite lookup_app_r by lia.
        by replace (S (length done_) - length done_) with 1 by lia. }
    specialize (Htop1 y m Hy Hm). lia.
  - done.
  - intros x n' z k Hx Hn' Hk Hlt.
    assert (z ∈ bfs_visited st1) as Hz.
    { destruct k as [|k].
      - inversion Hk; subst. done.
      - apply nsteps_inv_r in Hk as (p & Hp & [w Hw]).
        destruct (decide (k < n)) as [Hkn|Hkn].
        + apply (Hcl1 p _ w); [|done]. by apply (Hnear1 p k).
        + assert (n' ≤ S n) as Hle.
          { apply (Htop1 x n'); [|done]. rewrite HV1.
            destruct (bfs_queue st1); [done|]. injection Hx as ->.
            set_solver. }
          lia. }
    rewrite HV1, app_assoc in Hz. apply elem_of_app in Hz as [Hz|Hz]; [done|].
    exfalso.
    destruct Hord1 as [Hlev1 Hsorted1].
    destruct (Hlev1 z) as [lz Hlz]; [rewrite HV1, app_assoc; set_solver|].
    assert (lz ≤ k) as Hlzk by (by apply Hlz).
    apply list_elem_of_lookup_1 in Hz as [j Hj].
    destruct (bfs_queue st1) as [|x' q1] eqn:Hq1; [done|].
    injection Hx as ->.
    assert (n' ≤ lz); [|lia].
    apply (Hsorted1 (length (done_ ++ [c]) + 0) (length (done_ ++ [c]) + j)
             x z); [lia|..|done|done].
    + rewrite HV1, app_assoc. by rewrite lookup_app_r, Nat.add_comm, Nat.add_sub by lia.
    + rewrite HV1, app_assoc.
      rewrite lookup_app_r by lia.
      by replace (length (done_ ++ [c]) + j - length (done_ ++ [c])) with j
        by lia.
  - intros s Hin. unfold bfs_advance in Hin.
    destruct (bfs_queue st1) as [|x' q1]; [by auto|].
    simpl in Hin. apply elem_of_app in Hin as [Hin|Heq%list_elem_of_singleton];
      [by auto|by subst].
Qed.

(** X30: BFS visits the nodes level by level: in every step of a trace that
    [executeBFS] returns, each visited node has a level, the least number
    of edges of a walk to it from the start node, and no node comes in the
    visited list before a node of a smaller level. *)
Theorem bfs_visits_in_level_order nodes edges start target r :
  executeBFS nodes edges start target = Return r →
  ∀ s, s ∈ steps r → level_ordered edges start (visited s).
Proof.
  unfold executeBFS, bfs_run.
  intros (st & (adj & Hc & Hloop)%bind_Return & [= <-])%bind_Return. simpl.
  pose proof (createAdjacencyList_spec nodes edges) as Hspec.
  rewrite Hc in Hspec. destruct Hspec as [_ Hadj].
  revert Hloop.
  apply (bfs_loop_inv adj target (bfs_levels edges start)
           (λ st, ∀ s, s ∈ tr_steps (bfs_trace st) →
                    level_ordered edges start (visited s))).
  - intros st0 c q nbrs HI Hq _ Hnbrs. rewrite Hadj in Hnbrs.
    case_decide; [|done]. injection Hnbrs as <-. by apply bfs_levels_step.
  - intros st0 c q (done_ & _ & _ & Hord & _ & _ & _ & Htr) _ _ s. simpl.
    intros [Hin|Heq%list_elem_of_singleton]%elem_of_app.
    + eapply level_ordered_prefix; [by apply Htr|done].
    + by subst.
  - intros st0 (done_ & _ & _ & Hord & _ & _ & _ & Htr) _ s Hin.
    eapply level_ordered_prefix; [by apply Htr|done].
  - apply bfs_levels_init.
Qed.

Lemma bfs_visits_in_level_order_witness :
  ∃ r, executeBFS cycle_nodes cycle_edges "A" None = Return r
    ∧ ∀ s, s ∈ steps r → level_ordered cycle_edges "A" (visited s).
Proof.
  assert (∃ r, executeBFS cycle_nodes cycle_edges "A" None = Return r)
    as [r Hr] by (eexists; vm_compute; reflexivity).
  exists r. split; [exact Hr|].
  exact (bfs_visits_in_level_order cycle_nodes cycle_edges "A" None r Hr).
Defined.

(** * The adjacency matrix *)

(** ** Indices of the nodes *)

Lemma index_of_nodes_snoc nodes n :
  index_of_nodes (nodes ++ [n])
  = <[node_id n := length nodes]> (index_of_nodes nodes).
Proof.
  unfold index_of_nodes. rewrite imap_app, foldl_app. simpl.
  by rewrite Nat.add_0_r.
Qed.

Lemma index_of_nodes_Some nodes k i :
  index_of_nodes nodes !! k = Some i → node_ids nodes !! i = Some k.
Proof.
  unfold node_ids. revert i.
  induction nodes as [|n nodes IH] using rev_ind; intros i.
  - unfold index_of_nodes. simpl. by rewrite lookup_empty.
  - rewrite index_of_nodes_snoc, fmap_app. simpl.
    destruct (decide (node_id n = k)) as [<-|Hne].
    + rewrite lookup_insert_eq. intros [= <-].
      rewrite lookup_app_r by (by rewrite length_fmap).
      by rewrite length_fmap, Nat.sub_diag.
    + rewrite lookup_insert_ne by done. intros Hi%IH.
      rewrite lookup_app_l; [done|]. by eapply lookup_lt_Some.
Qed.

Lemma index_of_nodes_is_Some nodes k :
  is_Some (index_of_nodes nodes !! k) ↔ k ∈ node_ids nodes.
Proof.
  unfold node_ids. induction nodes as [|n nodes IH] using rev_ind.
  - unfold index_of_nodes. simpl. rewrite lookup_empty.
    split; [by intros [? ?]|by intros ?%elem_of_nil].
  - rewrite index_of_nodes_snoc, fmap_app. simpl.
    destruct (decide (node_id n = k)) as [<-|Hne].
    + rewrite lookup_insert_eq. split; [set_solver|eauto].
    + rewrite lookup_insert_ne by done. rewrite IH. set_solver.
Qed.

Lemma index_of_nodes_lt nodes k i :
  index_of_nodes nodes !! k = Some i → i < length nodes.
Proof.
  intros H%index_of_nodes_Some%lookup_lt_Some.
  unfold node_ids in H. by rewrite length_fmap in H.
Qed.

Lemma index_of_nodes_NoDup nodes k i :
  NoDup (node_ids nodes) → node_ids nodes !! i = Some k →
  index_of_nodes nodes !! k = Some i.
Proof.
  intros Hnd Hi.
  destruct (proj2 (index_of_nodes_is_Some nodes k)) as [j Hj].
  { by eapply list_elem_of_lookup_2. }
  pose proof (index_of_nodes_Some _ _ _ Hj) as Hj'.
  by rewrite (NoDup_lookup _ _ _ _ Hnd Hi Hj').
Qed.

(** ** Cells *)

Lemma square_zero n : square n (zero_matrix n).
Proof.
  unfold square, zero_matrix. rewrite length_fmap, length_replicate.
  split; [done|]. apply Forall_fmap, Forall_forall. intros x _. simpl.
  apply length_replicate.
Qed.

Lemma cell_zero n i j :
  i < n → j < n → cell (zero_matrix n) i j = Some 0%Z.
Proof.
  intros Hi Hj. unfold cell, zero_matrix. rewrite list_lookup_fmap.
  rewrite lookup_replicate_2 by done. simpl.
  by rewrite lookup_replicate_2.
Qed.

Lemma cell_zero_out n i j :
  n ≤ i ∨ n ≤ j → cell (zero_matrix n) i j = None.
Proof.
  intros Hor. unfold cell, zero_matrix. rewrite list_lookup_fmap.
  destruct (replicate n 0%Z !! i) as [x|] eqn:Hi; [|done]. simpl.
  apply lookup_replicate in Hi as [_ Hi].
  apply lookup_replicate_None. lia.
Qed.

Lemma cell_zero_sym n i j :
  cell (zero_matrix n) i j = cell (zero_matrix n) j i.
Proof.
  destruct (decide (i < n ∧ j < n)) as [[Hi Hj]|Hout].
  - by rewrite !cell_zero.
  - rewrite !cell_zero_out; [done|lia..].
Qed.

Lemma square_lookup n m i :
  square n m → i < n → ∃ row, m !! i = Some row ∧ length row = n.
Proof.
  intros [Hlen Hrows] Hi.
  destruct (lookup_lt_is_Some_2 m i) as [row Hrow]; [lia|].
  exists row. split; [done|].
  rewrite Forall_forall in Hrows. apply Hrows.
  by eapply list_elem_of_lookup_2.
Qed.

Lemma square_insert n m i j w row :
  square n m → m !! i = Some row →
  square n (<[i := <[j := w]> row]> m).
Proof.
  intros [Hlen Hrows] Hrow. split; [by rewrite length_insert|].
  apply Forall_insert; [done|]. rewrite length_insert.
  rewrite Forall_forall in Hrows. apply Hrows.
  by eapply list_elem_of_lookup_2.
Qed.

Lemma cell_insert m i j w row a b :
  m !! i = Some row → j < length row →
  cell (<[i := <[j := w]> row]> m) a b
  = if decide (a = i ∧ b = j) then Some w else cell m a b.
Proof.
  intros Hrow Hj. unfold cell.
  destruct (decide (a = i)) as [->|Hai].
  - rewrite list_lookup_insert_eq by (by eapply lookup_lt_Some). simpl.
    rewrite Hrow. simpl. destruct (decide (b = j)) as [->|Hbj].
    + rewrite list_lookup_insert_eq by done. by rewrite decide_True.
    + rewrite list_lookup_insert_ne by done. rewrite decide_False by tauto.
      done.
  - rewrite list_lookup_insert_ne by done. rewrite decide_False by tauto.
    done.
Qed.

(** ** One edge *)

Lemma fill_edge_spec idx n m edge :
  square n m → (∀ k i, idx !! k = Some i → i < n) →
  match fill_edge idx m edge with
  | Done m' =>
      ∃ i j, idx !! edge_source edge = Some i
        ∧ idx !! edge_target edge = Some j
        ∧ square n m'
        ∧ ∀ a b, cell m' a b
                 = if decide ((a = i ∧ b = j) ∨ (a = j ∧ b = i))
                   then Some (effective_weight edge) else cell m a b
  | Fails at_ =>
      ∃ k, at_ = MatrixRow k ∧ idx !! k = None
        ∧ (k = edge_source edge
           ∨ (k = edge_target edge ∧ is_Some (idx !! edge_source edge)))
  end.
Proof.
  intros Hsq Hidx. unfold fill_edge, write_cell.
  destruct (idx !! edge_source edge) as [i|] eqn:Hi;
    [|exists (edge_source edge); by auto].
  pose proof (Hidx _ _ Hi) as Hin.
  destruct (square_lookup n m i Hsq Hin) as (rowi & Hrowi & Hleni).
  rewrite Hrowi.
  destruct (idx !! edge_target edge) as [j|] eqn:Hj;
    cbn [mbind attempt_bind];
    [|exists (edge_target edge); split_and!; [done..|right; by eauto]].
  pose proof (Hidx _ _ Hj) as Hjn.
  pose proof (square_insert n m i j (effective_weight edge) rowi Hsq Hrowi)
    as Hsq1.
  destruct (square_lookup n _ j Hsq1 Hjn) as (rowj & Hrowj & Hlenj).
  rewrite Hrowj. exists i, j. split_and!; [done..| |].
  - by apply square_insert.
  - intros a b. rewrite (cell_insert _ _ _ _ _ _ _ Hrowj) by lia.
    rewrite (cell_insert _ _ _ _ _ _ _ Hrowi) by lia.
    repeat case_decide; try done; tauto.
Qed.

Lemma fill_edges_app idx edges1 edges2 : ∀ m,
  fill_edges idx m (edges1 ++ edges2)
  = fill_edges idx m edges1 ≫= λ m', fill_edges idx m' edges2.
Proof.
  induction edges1 as [|edge edges1 IH]; intros m; [done|].
  cbn [app fill_edges]. destruct (fill_edge idx m edge) as [m1|]; [|done].
  cbn [mbind attempt_bind]. apply IH.
Qed.

(** ** The matrix that is built *)

Lemma fill_edges_symmetric idx n edges : ∀ m m',
  square n m → (∀ k i, idx !! k = Some i → i < n) →
  (∀ a b, cell m a b = cell m b a) →
  fill_edges idx m edges = Done m' →
  square n m' ∧ ∀ a b, cell m' a b = cell m' b a.
Proof.
  induction edges as [|edge edges IH]; intros m m' Hsq Hidx Hsym;
    cbn [fill_edges].
  - by intros [= <-].
  - pose proof (fill_edge_spec idx n m edge Hsq Hidx) as Hspec.
    destruct (fill_edge idx m edge) as [m1|]; [|done].
    cbn [mbind attempt_bind].
    destruct Hspec as (i & j & _ & _ & Hsq1 & Hcell).
    apply IH; [done..|]. intros a b. rewrite !Hcell, Hsym.
    repeat case_decide; try done; tauto.
Qed.

(** X10: The matrix that [createAdjacencyMatrix] returns has one row and one
    column per listed node and is symmetric. *)
Theorem createAdjacencyMatrix_symmetric nodes edges matrix :
  createAdjacencyMatrix nodes edges = Done matrix →
  square (length nodes) matrix
  ∧ ∀ i j, cell matrix i j = cell matrix j i.
Proof.
  unfold createAdjacencyMatrix. intros H.
  eapply fill_edges_symmetric; [| | |exact H].
  - apply square_zero.
  - apply index_of_nodes_lt.
  - apply cell_zero_sym.
Qed.

Lemma createAdjacencyMatrix_symmetric_witness :
  ∃ matrix, createAdjacencyMatrix cycle_nodes cycle_edges = Done matrix
    ∧ square (length cycle_nodes) matrix
    ∧ ∀ i j, cell matrix i j = cell matrix j i.
Proof.
  assert (∃ matrix, createAdjacencyMatrix cycle_nodes cycle_edges = Done matrix)
    as [matrix Hm] by (eexists; vm_compute; reflexivity).
  exists matrix. split; [exact Hm|].
  exact (createAdjacencyMatrix_symmetric cycle_nodes cycle_edges matrix Hm).
Defined.

Lemma last_weight_snoc edges edge a b :
  last_weight (edges ++ [edge]) a b
  = if decide (joins a b edge) then effective_weight edge
    else last_weight edges a b.
Proof.
  unfold last_weight. rewrite filter_app, filter_cons, filter_nil.
  case_decide; [by rewrite last_snoc|by rewrite app_nil_r].
Qed.

Lemma fill_edges_last_weight nodes edges : ∀ m,
  NoDup (node_ids nodes) →
  fill_edges (index_of_nodes nodes) (zero_matrix (length nodes)) edges
  = Done m →
  square (length nodes) m
  ∧ ∀ i j a b, node_ids nodes !! i = Some a → node_ids nodes !! j = Some b →
      cell m i j = Some (last_weight edges a b).
Proof.
  intros m Hnd. revert m.
  induction edges as [|edge edges IH] using rev_ind; intros m.
  - intros [= <-]. split; [apply square_zero|].
    intros i j a b Hi%lookup_lt_Some Hj%lookup_lt_Some.
    unfold node_ids in *. rewrite length_fmap in *. by apply cell_zero.
  - rewrite fill_edges_app.
    destruct (fill_edges _ _ edges) as [m0|]; [|done].
    cbn [mbind attempt_bind fill_edges].
    destruct (IH m0 eq_refl) as [Hsq0 Hcell0].
    pose proof (fill_edge_spec (index_of_nodes nodes) (length nodes) m0 edge
                  Hsq0 (index_of_nodes_lt nodes)) as Hspec.
    destruct (fill_edge _ m0 edge) as [m1|]; [|done].
    cbn [mbind attempt_bind]. intros [= <-].
    destruct Hspec as (si & ti & Hsi & Hti & Hsq1 & Hcell1).
    split; [done|]. intros i j a b Hi Hj.
    rewrite Hcell1, last_weight_snoc.
    apply index_of_nodes_Some in Hsi, Hti. unfold joins.
    destruct (decide ((i = si ∧ j = ti) ∨ (i = ti ∧ j = si))) as [Hor|Hnor].
    + rewrite decide_True; [done|].
      destruct Hor as [[-> ->]|[-> ->]]; [left|right]; split; congruence.
    + rewrite decide_False; [by apply Hcell0|].
      intros [[Hs Ht]|[Hs Ht]]; apply Hnor.
      * left. rewrite Hs in Hsi. rewrite Ht in Hti.
        split; by eapply NoDup_lookup.
      * right. rewrite Hs in Hsi. rewrite Ht in Hti.
        split; by eapply NoDup_lookup.
Qed.

(** X11: With node ids that differ from one another, the cell of the matrix for
    two listed nodes holds the effective weight of the last edge of the
    list that joins them, in either direction, and [0] when no edge joins
    them: of several edges between the same two nodes only the last one
    counts. *)
Theorem createAdjacencyMatrix_last_weight nodes edges matrix :
  NoDup (node_ids nodes) →
  createAdjacencyMatrix nodes edges = Done matrix →
  ∀ i j a b, node_ids nodes !! i = Some a → node_ids nodes !! j = Some b →
    cell matrix i j = Some (last_weight edges a b).
Proof.
  intros Hnd Hm.
  destruct (fill_edges_last_weight nodes edges matrix Hnd Hm) as [_ Hcell].
  exact Hcell.
Qed.

Lemma createAdjacencyMatrix_last_weight_witness :
  ∃ matrix, createAdjacencyMatrix cycle_nodes cycle_edges = Done matrix
    ∧ cell matrix 0 4 = Some (last_weight cycle_edges "A" "E").
Proof.
  assert (∃ matrix, createAdjacencyMatrix cycle_nodes cycle_edges = Done matrix)
    as [matrix Hm] by (eexists; vm_compute; reflexivity).
  exists matrix. split; [exact Hm|].
  apply (createAdjacencyMatrix_last_weight cycle_nodes cycle_edges matrix).
  - apply (bool_decide_unpack _). by vm_compute.
  - exact Hm.
  - reflexivity.
  - reflexivity.
Defined.

Lemma last_weight_adjacent edges a b :
  last_weight edges a b ≠ 0%Z ↔ ∃ w, adjacent edges a b w.
Proof.
  unfold last_weight.
  destruct (last (filter (joins a b) edges)) as [edge|] eqn:Hlast.
  - split; [|intros _; apply effective_weight_nonzero].
    intros _. apply last_Some_elem_of, list_elem_of_filter in Hlast
      as [Hjoins Hin].
    exists (effective_weight edge), edge. split_and!; done.
  - split; [done|]. intros (w & edge & Hin & _ & Hjoins). exfalso.
    apply last_None in Hlast.
    assert (edge ∈ filter (joins a b) edges) as Hf
      by (by apply list_elem_of_filter).
    rewrite Hlast in Hf. by apply elem_of_nil in Hf.
Qed.

(** X12: With node ids that differ from one another, the matrix and the
    adjacency list built from the same nodes and edges show the same
    graph: the cell for two listed nodes is not [0] exactly when the list
    of the one holds the other. *)
Theorem matrix_agrees_with_list nodes edges matrix adj :
  NoDup (node_ids nodes) →
  createAdjacencyMatrix nodes edges = Done matrix →
  createAdjacencyList nodes edges = Return adj →
  ∀ i j a b, node_ids nodes !! i = Some a → node_ids nodes !! j = Some b →
    (∃ w, cell matrix i j = Some w ∧ w ≠ 0%Z) ↔ lists adj a b.
Proof.
  intros Hnd Hm Hc i j a b Hi Hj.
  destruct (fill_edges_last_weight nodes edges matrix Hnd Hm) as [_ Hcell].
  rewrite (Hcell i j a b Hi Hj).
  pose proof (createAdjacencyList_spec nodes edges) as Hspec.
  rewrite Hc in Hspec. destruct Hspec as [Hwf Hadj].
  assert (a ∈ node_ids nodes) as Ha by (by eapply list_elem_of_lookup_2).
  unfold lists. rewrite Hadj, decide_True by done. split.
  - intros (w & [= <-] & Hw). apply last_weight_adjacent in Hw.
    eexists. split; [done|]. by apply elem_of_incident_ids.
  - intros (l & [= <-] & Hb). apply elem_of_incident_ids in Hb.
    eexists. split; [done|]. by apply last_weight_adjacent.
Qed.

Lemma matrix_agrees_with_list_witness :
  ∃ matrix adj, createAdjacencyMatrix cycle_nodes cycle_edges = Done matrix
    ∧ createAdjacencyList cycle_nodes cycle_edges = Return adj
    ∧ ((∃ w, cell matrix 0 4 = Some w ∧ w ≠ 0%Z) ↔ lists adj "A" "E").
Proof.
  assert (∃ matrix, createAdjacencyMatrix cycle_nodes cycle_edges = Done matrix)
    as [matrix Hm] by (eexists; vm_compute; reflexivity).
  assert (∃ adj, createAdjacencyList cycle_nodes cycle_edges = Return adj)
    as [adj Hadj] by (eexists; vm_compute; reflexivity).
  exists matrix, adj. split; [exact Hm|]. split; [exact Hadj|].
  apply (matrix_agrees_with_list cycle_nodes cycle_edges matrix adj).
  - apply (bool_decide_unpack _). by vm_compute.
  - exact Hm.
  - exact Hadj.
  - reflexivity.
  - reflexivity.
Defined.

(** ** Failure *)

Lemma builders_fail_alike idx n edges : ∀ (adj : AdjacencyList) m,
  square n m → (∀ k i, idx !! k = Some i → i < n) →
  (∀ k, is_Some (idx !! k) ↔ is_Some (adj !! k)) →
  match add_edges adj edges, fill_edges idx m edges with
  | Return _, Done _ =>
      Forall (λ edge, is_Some (adj !! edge_source edge)
                      ∧ is_Some (adj !! edge_target edge)) edges
  | Throw e, Fails at_ =>
      ∃ k, e = TypeError (AdjacencyPush k) ∧ at_ = MatrixRow k
        ∧ adj !! k = None
  | _, _ => False
  end.
Proof.
  induction edges as [|edge edges IH]; intros adj m Hsq Hidx Hkeys;
    cbn [add_edges fill_edges]; [done|].
  pose proof (fill_edge_spec idx n m edge Hsq Hidx) as Hfill.
  pose proof (add_edge_spec adj edge) as Hadd.
  unfold add_edge, push_neighbor in *.
  destruct (adj !! edge_source edge) as [ls|] eqn:Hs.
  - cbn [mbind outcome_bind] in *.
    assert (is_Some (idx !! edge_source edge)) as [si Hsi]
      by (apply Hkeys; eauto).
    destruct (<[edge_source edge:=ls ++ _]> adj !! edge_target edge)
      as [lt|] eqn:Ht.
    + cbn [mbind outcome_bind] in *. destruct Hadd as (_ & Htk & Hadd).
      assert (is_Some (idx !! edge_target edge)) as [ti Hti]
        by (by apply Hkeys).
      destruct (fill_edge idx m edge) as [m1|at_].
      * cbn [mbind attempt_bind].
        destruct Hfill as (i & j & _ & _ & Hsq1 & _).
        match goal with
        | |- context [add_edges ?a edges] => specialize (IH a m1 Hsq1 Hidx)
        end.
        assert (Hkeys1 : ∀ k, is_Some (idx !! k)
                  ↔ is_Some (<[edge_target edge:=lt ++
                       [{| nodeId := edge_source edge;
                           weight := effective_weight edge |}]]>
                     (<[edge_source edge:=ls ++
                        [{| nodeId := edge_target edge;
                            weight := effective_weight edge |}]]> adj) !! k)).
        { intros k. rewrite Hkeys, Hadd, fmap_is_Some. done. }
        specialize (IH Hkeys1).
        destruct (add_edges _ edges) as [adj2|e|];
          destruct (fill_edges idx m1 edges) as [m2|at2]; try done.
        -- constructor; [by eauto|].
           eapply Forall_impl; [exact IH|]. intros e'. simpl.
           rewrite !Hadd, !fmap_is_Some. done.
        -- destruct IH as (k & -> & -> & Hk). exists k. split_and!; [done..|].
           rewrite Hadd in Hk. by destruct (adj !! k).
      * destruct Hfill as (k & _ & Hk & [->|[-> _]]); congruence.
    + cbn [mbind outcome_bind] in *.
      destruct Hadd as (key & [= <-] & Hnone & _).
      assert (idx !! edge_target edge = None) as Hti.
      { apply eq_None_not_Some. rewrite Hkeys. intros [? ?]. congruence. }
      destruct (fill_edge idx m edge) as [m1|at_].
      * destruct Hfill as (i & j & _ & Hj & _). congruence.
      * cbn [mbind attempt_bind].
        destruct Hfill as (k & -> & Hk & [->|[-> _]]); [congruence|].
        exists (edge_target edge). by split_and!.
  - cbn [mbind outcome_bind] in *.
    assert (idx !! edge_source edge = None) as Hsi.
    { apply eq_None_not_Some. rewrite Hkeys. intros [? ?]. congruence. }
    destruct (fill_edge idx m edge) as [m1|at_].
    + destruct Hfill as (i & j & Hi & _). congruence.
    + cbn [mbind attempt_bind].
      destruct Hfill as (k & -> & Hk & [->|[-> [? ?]]]); [|congruence].
      exists (edge_source edge). by split_and!.
Qed.

Lemma createAdjacencyMatrix_wf nodes edges :
  wf_edges nodes edges → ∃ matrix, createAdjacencyMatrix nodes edges = Done matrix.
Proof.
  intros Hwf. unfold createAdjacencyMatrix.
  pose proof (builders_fail_alike (index_of_nodes nodes) (length nodes) edges
                (init_adjacency nodes) (zero_matrix (length nodes))
                (square_zero _) (index_of_nodes_lt nodes)) as H.
  assert (Hkeys : ∀ k, is_Some (index_of_nodes nodes !! k)
                       ↔ is_Some (init_adjacency nodes !! k)).
  { intros k. rewrite index_of_nodes_is_Some, init_adjacency_lookup.
    case_decide; [by eauto|]. split; [done|by intros [? ?]]. }
  specialize (H Hkeys).
  destruct (createAdjacencyList_wf nodes edges Hwf) as (adj & Hc & _).
  unfold createAdjacencyList in Hc. rewrite Hc in H.
  destruct (fill_edges _ _ edges) as [m|at_]; [by exists m|done].
Qed.



(** ** The two matrix builders *)

Lemma foldl_snoc_const {A B} (r : A) (l : list B) : ∀ acc,
  foldl (λ matrix _, matrix ++ [r]) acc l = acc ++ replicate (length l) r.
Proof.
  induction l as [|x l IH]; intros acc; simpl; [by rewrite app_nil_r|].
  rewrite IH. by rewrite <- app_assoc.
Qed.

(** X14: [adjacencyListToMatrix] of the graph helpers and
    [createAdjacencyMatrix] of the algorithms module build the same matrix
    from the nodes and edges of a graph, and fail on the same graphs. *)
Theorem adjacencyListToMatrix_same graph :
  adjacencyListToMatrix graph
  = createAdjacencyMatrix (graph_nodes graph) (graph_edges graph).
Proof.
  unfold adjacencyListToMatrix, createAdjacencyMatrix, zero_matrix.
  rewrite foldl_snoc_const, length_seq. simpl.
  by rewrite fmap_replicate.
Qed.

(** ** From a matrix back to a list of edges *)

Lemma elem_of_matrix_cells m i j w :
  (i, j, w) ∈ matrix_cells m ↔ cell m i j = Some w.
Proof.
  unfold matrix_cells, cell. rewrite list_elem_of_join. split.
  - intros (l & Hin & Hl).
    apply elem_of_lookup_imap in Hl as (i' & row & -> & Hrow).
    apply elem_of_lookup_imap in Hin as (j' & w' & [= -> -> ->] & Hw).
    rewrite Hrow. done.
  - destruct (m !! i) as [row|] eqn:Hrow; [|done]. simpl. intros Hw.
    exists (imap (λ j w, (i, j, w)) row). split.
    + apply elem_of_lookup_imap. eauto.
    + apply elem_of_lookup_imap. eauto.
Qed.

Lemma cells_to_edges_spec supply nodes cells : ∀ acc,
  (∀ i j w, (i, j, w) ∈ cells → i < length nodes ∧ j < length nodes) →
  ∃ edges, cells_to_edges supply nodes cells acc = Done edges
    ∧ (∀ e, e ∈ acc → e ∈ edges)
    ∧ (∀ e, e ∈ edges →
         e ∈ acc
         ∨ ∃ i j w source target k,
             (i, j, w) ∈ cells ∧ (0 < w)%Z ∧ i < j
             ∧ nodes !! i = Some source ∧ nodes !! j = Some target
             ∧ e = createEdge (supply k) (node_id source) (node_id target)
                     (Some w))
    ∧ ∀ i j w source target,
        (i, j, w) ∈ cells → (0 < w)%Z → i < j →
        nodes !! i = Some source → nodes !! j = Some target →
        ∃ k, createEdge (supply k) (node_id source) (node_id target) (Some w)
             ∈ edges.
Proof.
  induction cells as [|[[i j] w] cells IH]; intros acc Hrange;
    cbn [cells_to_edges].
  - exists acc. split_and!; [done|done|by left|].
    by intros i j w source target ?%elem_of_nil.
  - assert (Hrest : ∀ i j w, (i, j, w) ∈ cells →
              i < length nodes ∧ j < length nodes).
    { intros i' j' w' Hin. apply (Hrange i' j' w'). by right. }
    destruct (bool_decide (0 < w)%Z && bool_decide (i < j)) eqn:Htest.
    + apply andb_prop in Htest as [Hw%bool_decide_eq_true Hij%bool_decide_eq_true].
      destruct (Hrange i j w) as [Hi Hj]; [left|].
      destruct (lookup_lt_is_Some_2 nodes i Hi) as [source Hsource].
      destruct (lookup_lt_is_Some_2 nodes j Hj) as [target Htarget].
      rewrite Hsource, Htarget.
      destruct (IH (acc ++ [createEdge (supply (length acc)) (node_id source)
                              (node_id target) (Some w)]) Hrest)
        as (edges & -> & Hacc & Hfrom & Hto).
      exists edges. split_and!; [done| | |].
      * intros e He. apply Hacc, elem_of_snoc. by left.
      * intros e [[?| ->]%elem_of_snoc|(i' & j' & w' & s' & t' & k & Hin & H)]
          %Hfrom.
        -- by left.
        -- right. exists i, j, w, source, target, (length acc).
           split_and!; [left|done..].
        -- right. exists i', j', w', s', t', k. split; [by right|done].
      * intros i' j' w' s' t' Hin Hw' Hij' Hs Ht.
        apply elem_of_cons in Hin as [[= -> -> ->]|Hin]; [|by eauto].
        rewrite Hsource in Hs. rewrite Htarget in Ht.
        injection Hs as <-. injection Ht as <-.
        exists (length acc). apply Hacc, elem_of_snoc. by right.
    + destruct (IH acc Hrest) as (edges & -> & Hacc & Hfrom & Hto).
      exists edges. split_and!; [done|done| |].
      * intros e [?|(i' & j' & w' & s' & t' & k & Hin & H)]%Hfrom; [by left|].
        right. exists i', j', w', s', t', k. split; [by right|done].
      * intros i' j' w' s' t' Hin Hw' Hij' Hs Ht.
        apply elem_of_cons in Hin as [[= -> -> ->]|Hin]; [|by eauto].
        apply andb_false_iff in Htest
          as [Hf%bool_decide_eq_false|Hf%bool_decide_eq_false]; done.
Qed.

Lemma cell_lt n m i j w :
  square n m → cell m i j = Some w → i < n ∧ j < n.
Proof.
  intros [Hlen Hrows]. unfold cell.
  destruct (m !! i) as [row|] eqn:Hrow; [|done]. simpl. intros Hw.
  split.
  - apply lookup_lt_Some in Hrow. lia.
  - apply lookup_lt_Some in Hw. rewrite Forall_forall in Hrows.
    rewrite <- (Hrows row); [done|]. by eapply list_elem_of_lookup_2.
Qed.

Lemma cell_is_Some n m i j :
  square n m → i < n → j < n → is_Some (cell m i j).
Proof.
  intros Hsq Hi Hj. destruct (square_lookup n m i Hsq Hi) as (row & Hrow & Hlen).
  unfold cell. rewrite Hrow. simpl. apply lookup_lt_is_Some_2. lia.
Qed.

Lemma square_ext n m1 m2 :
  square n m1 → square n m2 →
  (∀ i j, i < n → j < n → cell m1 i j = cell m2 i j) → m1 = m2.
Proof.
  intros Hsq1 Hsq2 Hcell. apply list_eq. intros i.
  destruct (decide (i < n)) as [Hi|Hi].
  - destruct (square_lookup n m1 i Hsq1 Hi) as (row1 & Hrow1 & Hlen1).
    destruct (square_lookup n m2 i Hsq2 Hi) as (row2 & Hrow2 & Hlen2).
    rewrite Hrow1, Hrow2. f_equal. apply list_eq. intros j.
    destruct (decide (j < n)) as [Hj|Hj].
    + specialize (Hcell i j Hi Hj). unfold cell in Hcell.
      by rewrite Hrow1, Hrow2 in Hcell.
    + rewrite !lookup_ge_None_2; [done|lia..].
  - destruct Hsq1 as [Hl1 _], Hsq2 as [Hl2 _].
    rewrite !lookup_ge_None_2; [done|lia..].
Qed.

Lemma joins_sym a b edge : joins a b edge ↔ joins b a edge.
Proof. unfold joins. tauto. Qed.

Lemma last_weight_sym edges a b : last_weight edges a b = last_weight edges b a.
Proof.
  unfold last_weight.
  rewrite (list_filter_iff (joins a b) (joins b a)); [done|].
  intros edge. apply joins_sym.
Qed.

Lemma effective_weight_createEdge id a b w :
  w ≠ 0%Z → effective_weight (createEdge id a b (Some w)) = w.
Proof.
  intros Hw. unfold effective_weight, createEdge, truthy_number. simpl.
  by rewrite bool_decide_eq_false_2.
Qed.

(** What the edge list read off a matrix holds for two listed nodes, the
    first before the second. *)
Lemma read_off_last_weight supply nodes matrix edges i j a b w :
  NoDup (node_ids nodes) → square (length nodes) matrix →
  matrixToAdjacencyList supply matrix nodes = Done edges →
  node_ids nodes !! i = Some a → node_ids nodes !! j = Some b →
  i ≤ j → cell matrix i j = Some w → (0 ≤ w)%Z → (i = j → w = 0%Z) →
  last_weight edges a b = w.
Proof.
  intros Hnd Hsq Hread Hi Hj Hij Hw Hpos Hdiag.
  unfold matrixToAdjacencyList in Hread.
  destruct (cells_to_edges_spec supply nodes (matrix_cells matrix) [])
    as (edges' & Hread' & _ & Hfrom & Hto).
  { intros i' j' w' Hin%elem_of_matrix_cells. by eapply cell_lt. }
  rewrite Hread in Hread'. injection Hread' as <-.
  assert (Hjoin : ∀ e, e ∈ edges → joins a b e →
            i < j ∧ effective_weight e = w ∧ (0 < w)%Z).
  { intros e [?%elem_of_nil|(i' & j' & w' & s' & t' & k & Hin & Hw' & Hij'
                             & Hs & Ht & ->)]%Hfrom; [done|].
    apply elem_of_matrix_cells in Hin.
    assert (node_ids nodes !! i' = Some (node_id s')) as Hi'
      by (unfold node_ids; by rewrite list_lookup_fmap, Hs).
    assert (node_ids nodes !! j' = Some (node_id t')) as Hj'
      by (unfold node_ids; by rewrite list_lookup_fmap, Ht).
    unfold joins, createEdge. simpl. intros [[Ha Hb]|[Hb Ha]].
    - rewrite Ha in Hi'. rewrite Hb in Hj'.
      pose proof (NoDup_lookup _ _ _ _ Hnd Hi Hi') as ->.
      pose proof (NoDup_lookup _ _ _ _ Hnd Hj Hj') as ->.
      rewrite Hw in Hin. injection Hin as <-.
      split; [done|]. split; [|done].
      apply (effective_weight_createEdge (supply k) a b w). lia.
    - rewrite Hb in Hi'. rewrite Ha in Hj'.
      pose proof (NoDup_lookup _ _ _ _ Hnd Hj Hi') as ->.
      pose proof (NoDup_lookup _ _ _ _ Hnd Hi Hj') as ->. lia. }
  unfold last_weight.
  destruct (last (filter (joins a b) edges)) as [e|] eqn:Hlast.
  - apply last_Some_elem_of, list_elem_of_filter in Hlast as [Hj1 Hin].
    by destruct (Hjoin e Hin Hj1) as (_ & ? & _).
  - destruct (decide (w = 0%Z)) as [->|Hw0]; [done|]. exfalso.
    assert (i < j) as Hlt.
    { destruct (decide (i = j)) as [Heq|?]; [by apply Hdiag in Heq|lia]. }
    apply list_lookup_fmap_Some in Hi as (s' & -> & Hs).
    apply list_lookup_fmap_Some in Hj as (t' & -> & Ht).
    destruct (Hto i j w s' t') as [k Hk]; [by apply elem_of_matrix_cells|lia|done..|].
    apply last_None in Hlast.
    assert (createEdge (supply k) (node_id s') (node_id t') (Some w)
            ∈ filter (joins (node_id s') (node_id t')) edges) as Hf.
    { apply list_elem_of_filter. split; [by left|done]. }
    rewrite Hlast in Hf. by apply elem_of_nil in Hf.
Qed.

Lemma read_off_wf supply nodes matrix edges :
  square (length nodes) matrix →
  matrixToAdjacencyList supply matrix nodes = Done edges →
  wf_edges nodes edges.
Proof.
  intros Hsq Hread. unfold matrixToAdjacencyList in Hread.
  destruct (cells_to_edges_spec supply nodes (matrix_cells matrix) [])
    as (edges' & Hread' & _ & Hfrom & _).
  { intros i' j' w' Hin%elem_of_matrix_cells. by eapply cell_lt. }
  rewrite Hread in Hread'. injection Hread' as <-.
  apply Forall_forall. intros e
    [?%elem_of_nil|(i & j & w & s & t & k & _ & _ & _ & Hs & Ht & ->)]%Hfrom;
    [done|].
  unfold createEdge, node_ids. simpl. split.
  - apply list_elem_of_fmap. exists s. split; [done|].
    by eapply list_elem_of_lookup_2.
  - apply list_elem_of_fmap. exists t. split; [done|].
    by eapply list_elem_of_lookup_2.
Qed.

(** X15: Round trip through the edge list: for nodes with plain ids that
    differ from one another, a square matrix over these nodes that is symmetric, has a
    zero diagonal and no negative cell is read off into an edge list by
    [matrixToAdjacencyList], whatever ids are drawn for the edges, and
    [createAdjacencyMatrix] builds the same matrix back from it. *)
Theorem matrix_round_trip supply nodes matrix :
  NoDup (node_ids nodes) → plain_ids nodes → square (length nodes) matrix →
  (∀ i j, cell matrix i j = cell matrix j i) →
  (∀ i w, cell matrix i i = Some w → w = 0%Z) →
  (∀ i j w, cell matrix i j = Some w → (0 ≤ w)%Z) →
  ∃ edges, matrixToAdjacencyList supply matrix nodes = Done edges
    ∧ createAdjacencyMatrix nodes edges = Done matrix.
Proof.
  intros Hnd _ Hsq Hsym Hdiag Hpos.
  destruct (cells_to_edges_spec supply nodes (matrix_cells matrix) [])
    as (edges & Hread & _).
  { intros i' j' w' Hin%elem_of_matrix_cells. by eapply cell_lt. }
  fold (matrixToAdjacencyList supply matrix nodes) in Hread.
  exists edges. split; [done|].
  pose proof (read_off_wf supply nodes matrix edges Hsq Hread) as Hwf.
  destruct (createAdjacencyMatrix_wf nodes edges Hwf) as [m' Hm'].
  rewrite Hm'. f_equal.
  destruct (fill_edges_last_weight nodes edges m' Hnd Hm') as [Hsq' Hcell'].
  apply (square_ext (length nodes)); [done..|]. intros i j Hi Hj.
  destruct (lookup_lt_is_Some_2 (node_ids nodes) i) as [a Ha];
    [unfold node_ids; by rewrite length_fmap|].
  destruct (lookup_lt_is_Some_2 (node_ids nodes) j) as [b Hb];
    [unfold node_ids; by rewrite length_fmap|].
  rewrite (Hcell' i j a b Ha Hb).
  destruct (cell_is_Some _ _ i j Hsq Hi Hj) as [w Hw]. rewrite Hw. f_equal.
  destruct (decide (i ≤ j)) as [Hij|Hij].
  - apply (read_off_last_weight supply nodes matrix edges i j a b w);
      try done; [by eapply Hpos|].
    intros ->. by eapply Hdiag.
  - rewrite last_weight_sym. rewrite Hsym in Hw.
    apply (read_off_last_weight supply nodes matrix edges j i b a w);
      try done; [lia|by eapply Hpos|lia].
Qed.

Lemma matrix_round_trip_witness :
  ∃ edges,
    matrixToAdjacencyList (λ n, pretty n) [[0; 2; 0]; [2; 0; 5]; [0; 5; 0]]%Z
      path_nodes = Done edges
    ∧ createAdjacencyMatrix path_nodes edges
      = Done [[0; 2; 0]; [2; 0; 5]; [0; 5; 0]]%Z.
Proof.
  apply (matrix_round_trip (λ n, pretty n) path_nodes
           [[0; 2; 0]; [2; 0; 5]; [0; 5; 0]]%Z).
  - apply (bool_decide_unpack _). by vm_compute.
  - apply (bool_decide_unpack _). by vm_compute.
  - split; [reflexivity|]. repeat constructor.
  - intros i j. destruct i as [|[|[|i]]], j as [|[|[|j]]]; reflexivity.
  - intros i w. destruct i as [|[|[|i]]]; unfold cell; simpl; congruence.
  - intros i j w. destruct i as [|[|[|i]]], j as [|[|[|j]]];
      unfold cell; simpl; intros [= <-]; lia.
Defined.

(** X16: Round trip through the matrix, for nodes with plain ids that differ
    from one another: the edge list read off the matrix of a graph joins
    two nodes, with the weight [w], exactly when the nodes
    differ and the last edge of the graph between them has the positive
    effective weight [w].  So the trip keeps one edge, the last, of every
    bundle of parallel edges, and drops the loops and the edges whose
    effective weight is negative. *)
Theorem list_round_trip supply nodes edges :
  NoDup (node_ids nodes) → plain_ids nodes → wf_edges nodes edges →
  ∃ matrix edges', createAdjacencyMatrix nodes edges = Done matrix
    ∧ matrixToAdjacencyList supply matrix nodes = Done edges'
    ∧ ∀ a b w, adjacent edges' a b w ↔
        a ≠ b ∧ w = last_weight edges a b ∧ (0 < w)%Z.
Proof.
  intros Hnd _ Hwf.
  destruct (createAdjacencyMatrix_wf nodes edges Hwf) as [matrix Hm].
  destruct (fill_edges_last_weight nodes edges matrix Hnd Hm) as [Hsq Hcell].
  destruct (cells_to_edges_spec supply nodes (matrix_cells matrix) [])
    as (edges' & Hread & _ & Hfrom & Hto).
  { intros i' j' w' Hin%elem_of_matrix_cells. by eapply cell_lt. }
  exists matrix, edges'. split; [done|]. split; [done|].
  intros a b w. split.
  - intros (e & [?%elem_of_nil|(i & j & w' & s & t & k & Hin & Hw' & Hij
                               & Hs & Ht & ->)]%Hfrom & -> & Hjoins); [done|].
    apply elem_of_matrix_cells in Hin.
    assert (node_ids nodes !! i = Some (node_id s)) as Hi
      by (unfold node_ids; by rewrite list_lookup_fmap, Hs).
    assert (node_ids nodes !! j = Some (node_id t)) as Hj
      by (unfold node_ids; by rewrite list_lookup_fmap, Ht).
    rewrite (Hcell i j _ _ Hi Hj) in Hin. injection Hin as Hw.
    rewrite effective_weight_createEdge by lia.
    assert (node_id s ≠ node_id t) as Hne.
    { intros Heq. rewrite <- Heq in Hj.
      pose proof (NoDup_lookup _ _ _ _ Hnd Hi Hj). lia. }
    unfold createEdge in Hjoins. simpl in Hjoins.
    destruct Hjoins as [[<- <-]|[<- <-]].
    + split_and!; [done|done|lia].
    + split_and!; [done|by rewrite last_weight_sym|lia].
  - intros (Hne & -> & Hw).
    assert (∃ w', adjacent edges a b w') as [w' Hab]
      by (apply last_weight_adjacent; lia).
    destruct (adjacent_listed _ _ _ _ _ Hwf Hab) as [Ha Hb].
    apply list_elem_of_lookup in Ha as [i Hi].
    apply list_elem_of_lookup in Hb as [j Hj].
    pose proof Hi as (s & -> & Hs)%list_lookup_fmap_Some.
    pose proof Hj as (t & -> & Ht)%list_lookup_fmap_Some.
    assert (i ≠ j) as Hij by (intros ->; congruence).
    destruct (decide (i < j)) as [Hlt|Hge].
    + destruct (Hto i j (last_weight edges (node_id s) (node_id t)) s t)
        as [k Hk]; [|done..|].
      { apply elem_of_matrix_cells. by apply Hcell. }
      eexists. split; [exact Hk|]. split.
      * symmetry. apply effective_weight_createEdge. lia.
      * left. done.
    + rewrite last_weight_sym in Hw |- *.
      destruct (Hto j i (last_weight edges (node_id t) (node_id s)) t s)
        as [k Hk]; [|done|lia|done..|].
      { apply elem_of_matrix_cells. by apply Hcell. }
      eexists. split; [exact Hk|]. split.
      * symmetry. apply effective_weight_createEdge. lia.
      * right. done.
Qed.

Lemma list_round_trip_witness :
  ∃ matrix edges', createAdjacencyMatrix cycle_nodes cycle_edges = Done matrix
    ∧ matrixToAdjacencyList (λ n, pretty n) matrix cycle_nodes = Done edges'
    ∧ ∀ a b w, adjacent edges' a b w ↔
        a ≠ b ∧ w = last_weight cycle_edges a b ∧ (0 < w)%Z.
Proof.
  apply (list_round_trip (λ n, pretty n) cycle_nodes cycle_edges);
    apply (bool_decide_unpack _); by vm_compute.
Defined.

(** * The graph helpers *)

Lemma hasEdge_true graph a b :
  hasEdge graph a b = true ↔ ∃ edge, edge ∈ graph_edges graph ∧ joins a b edge.
Proof.
  unfold hasEdge. rewrite bool_decide_eq_true, Exists_exists. done.
Qed.

Lemma simple_filter (P : Edge → Prop) `{!∀ e, Decision (P e)} edges :
  simple edges → simple (filter P edges).
Proof.
  unfold simple. induction edges as [|e0 edges IH]; intros Hs; [done|].
  rewrite filter_cons.
  assert (Htail : ∀ i j e e', i ≠ j → edges !! i = Some e →
            edges !! j = Some e' → ¬ joins (edge_source e) (edge_target e) e').
  { intros i j e e' Hij Hi Hj. apply (Hs (S i) (S j)); [lia|done..]. }
  assert (Hhead : ∀ e, e ∈ filter P edges →
            ¬ joins (edge_source e0) (edge_target e0) e
            ∧ ¬ joins (edge_source e) (edge_target e) e0).
  { intros e [_ [k Hk]%list_elem_of_lookup]%list_elem_of_filter. split.
    - apply (Hs 0 (S k)); [lia|done..].
    - apply (Hs (S k) 0); [lia|done..]. }
  case_decide; [|by apply IH].
  intros [|i] [|j] e e' Hij; simpl.
  - done.
  - intros [= <-] Hj. apply Hhead. by eapply list_elem_of_lookup_2.
  - intros Hi [= <-]. apply Hhead. by eapply list_elem_of_lookup_2.
  - apply IH; [done|lia].
Qed.

Lemma simple_snoc edges edge :
  simple edges →
  (∀ e, e ∈ edges → ¬ joins (edge_source edge) (edge_target edge) e) →
  simple (edges ++ [edge]).
Proof.
  intros Hs Hnew i j e e' Hij Hi Hj.
  apply lookup_app_Some in Hi as [Hi|[Hige Hi]];
    apply lookup_app_Some in Hj as [Hj|[Hjge Hj]].
  - by eapply Hs.
  - apply list_lookup_singleton_Some in Hj as [_ <-].
    intros Hjoin. eapply (Hnew e); [by eapply list_elem_of_lookup_2|].
    unfold joins in *. destruct Hjoin as [[-> ->]|[-> ->]]; tauto.
  - apply list_lookup_singleton_Some in Hi as [_ <-].
    apply Hnew. by eapply list_elem_of_lookup_2.
  - apply list_lookup_singleton_Some in Hi as [Hi _].
    apply list_lookup_singleton_Some in Hj as [Hj _]. lia.
Qed.

Lemma wf_edges_filter (P : Edge → Prop) `{!∀ e, Decision (P e)} nodes edges :
  wf_edges nodes edges → wf_edges nodes (filter P edges).
Proof.
  unfold wf_edges. rewrite !Forall_forall.
  intros Hall e [_ He]%list_elem_of_filter. auto.
Qed.

(** X17: The helpers that edit a graph keep it fit for the runners.  Starting
    from a graph whose edges name listed nodes and that has no two edges
    between the same two nodes, such as the empty graph, this also holds
    after [addNode], after [addEdge] of an edge between listed nodes,
    after [removeNode], after [removeEdge] and after an [updateNode] that
    gives no new id; [addEdge] leaves the graph as it is when the two nodes
    are joined already. *)
Theorem graph_edits_keep_ok graph :
  graph_ok graph →
  (∀ id name description, graph_ok (createEmptyGraph id name description))
  ∧ (∀ node, graph_ok (addNode graph node))
  ∧ (∀ edge, edge_source edge ∈ node_ids (graph_nodes graph) →
       edge_target edge ∈ node_ids (graph_nodes graph) →
       graph_ok (addEdge graph edge))
  ∧ (∀ edge, hasEdge graph (edge_source edge) (edge_target edge) = true →
       addEdge graph edge = graph)
  ∧ (∀ nodeId, graph_ok (removeNode graph nodeId))
  ∧ (∀ edgeId, graph_ok (removeEdge graph edgeId))
  ∧ (∀ nodeId updates, new_node_id updates = None →
       graph_ok (updateNode graph nodeId updates)).
Proof.
  intros [Hwf Hsimple]. split_and!.
  - intros id name description. split; simpl.
    + by apply Forall_nil.
    + by intros i j e e' _ ?.
  - intros node. split; simpl; [|done].
    eapply Forall_impl; [exact Hwf|]. intros e [Hs Ht]. simpl.
    unfold node_ids. rewrite fmap_app. set_solver.
  - intros edge Hs Ht. unfold addEdge.
    destruct (hasEdge graph (edge_source edge) (edge_target edge)) eqn:Hhas;
      [done|].
    split; simpl.
    + apply Forall_app. split; [done|]. by apply Forall_singleton.
    + apply simple_snoc; [done|]. intros e He Hjoin.
      assert (hasEdge graph (edge_source edge) (edge_target edge) = true)
        as Htrue by (apply hasEdge_true; eauto).
      congruence.
  - intros edge Hhas. unfold addEdge. by rewrite Hhas.
  - intros nodeId. split; simpl; [|by apply simple_filter].
    apply Forall_forall. intros e [[Hs Ht] He]%list_elem_of_filter.
    unfold wf_edges in Hwf. rewrite Forall_forall in Hwf.
    destruct (Hwf e He) as [Hs' Ht']. unfold node_ids in *.
    split; apply list_elem_of_fmap.
    + apply list_elem_of_fmap in Hs' as (n & Hn & Hin). exists n.
      split; [done|]. apply list_elem_of_filter. split; [congruence|done].
    + apply list_elem_of_fmap in Ht' as (n & Hn & Hin). exists n.
      split; [done|]. apply list_elem_of_filter. split; [congruence|done].
  - intros edgeId. split; simpl;
      [by apply wf_edges_filter|by apply simple_filter].
  - intros nodeId updates Hid. split; simpl; [|done].
    assert (node_ids ((λ node, if decide (node_id node = nodeId)
                               then merge_node node updates else node)
                      <$> graph_nodes graph)
            = node_ids (graph_nodes graph)) as Hids;
      [|unfold wf_edges; by rewrite Hids].
    unfold node_ids. rewrite <- list_fmap_compose. apply list_fmap_ext.
    intros i node _. simpl. case_decide; [|done].
    unfold merge_node. simpl. by rewrite Hid.
Qed.

Lemma path_graph_ok : graph_ok path_graph.
Proof.
  split.
  - apply (bool_decide_unpack _). by vm_compute.
  - intros i j e e' Hne Hi Hj.
    destruct i as [|[|i]], j as [|[|j]]; try done;
      injection Hi as <-; injection Hj as <-; by intros [[? ?]|[? ?]].
Qed.

Lemma graph_edits_keep_ok_witness :
  graph_ok (addNode path_graph (sample_node "D"))
  ∧ graph_ok (addEdge path_graph (sample_edge "A" "C" None))
  ∧ addEdge path_graph (sample_edge "B" "A" (Some 7%Z)) = path_graph
  ∧ graph_ok (removeNode path_graph "B")
  ∧ graph_ok (removeEdge path_graph "A-B")
  ∧ graph_ok
      (updateNode path_graph "B" (mkNodeUpdates None (Some "b") None None None)).
Proof.
  destruct (graph_edits_keep_ok path_graph path_graph_ok)
    as (_ & Haddn & Hadde & Hsame & Hrmn & Hrme & Hupd).
  split; [exact (Haddn (sample_node "D"))|].
  split.
  { apply (Hadde (sample_edge "A" "C" None));
      apply (bool_decide_unpack _); by vm_compute. }
  split; [apply (Hsame (sample_edge "B" "A" (Some 7%Z))); reflexivity|].
  split; [exact (Hrmn "B")|].
  split; [exact (Hrme "A-B")|].
  exact (Hupd "B" (mkNodeUpdates None (Some "b") None None None) eq_refl).
Defined.

(** ** removeNode *)

Lemma adjacent_filter (P : Edge → Prop) `{!∀ e, Decision (P e)} edges a b w :
  adjacent (filter P edges) a b w
  ↔ ∃ edge, edge ∈ edges ∧ P edge ∧ w = effective_weight edge
      ∧ ((edge_source edge = a ∧ edge_target edge = b)
         ∨ (edge_source edge = b ∧ edge_target edge = a)).
Proof.
  unfold adjacent. split.
  - intros (e & [HP He]%list_elem_of_filter & Hw & Hor). eauto.
  - intros (e & He & HP & Hw & Hor). exists e.
    split; [by apply list_elem_of_filter|done].
Qed.

(** X18: After [removeNode] of a node from a graph whose edges name listed
    nodes, nothing is left of the node: it is not found any more, no edge
    is connected to it, the adjacency list of the new graph is built and
    has no key and no entry for it; and two other nodes are joined, with
    the same weight, exactly when they were before. *)
Theorem removeNode_leaves_no_trace graph nodeId :
  wf_edges (graph_nodes graph) (graph_edges graph) →
  getNodeById (removeNode graph nodeId) nodeId = None
  ∧ getConnectedEdges (removeNode graph nodeId) nodeId = []
  ∧ (∃ adj, createAdjacencyList (graph_nodes (removeNode graph nodeId))
              (graph_edges (removeNode graph nodeId)) = Return adj
       ∧ adj !! nodeId = None ∧ ∀ k, ¬ lists adj k nodeId)
  ∧ ∀ a b w, a ≠ nodeId → b ≠ nodeId →
      (adjacent (graph_edges (removeNode graph nodeId)) a b w
       ↔ adjacent (graph_edges graph) a b w).
Proof.
  intros Hwf.
  assert (Hgone : nodeId ∉ node_ids (graph_nodes (removeNode graph nodeId))).
  { simpl. unfold node_ids.
    intros (n & Hn & [Hne _]%list_elem_of_filter)%list_elem_of_fmap. done. }
  assert (Hwf' : wf_edges (graph_nodes (removeNode graph nodeId))
                   (graph_edges (removeNode graph nodeId))).
  { simpl. apply Forall_forall. intros e [[Hs Ht] He]%list_elem_of_filter.
    unfold wf_edges in Hwf. rewrite Forall_forall in Hwf.
    destruct (Hwf e He) as [Hs' Ht']. unfold node_ids in *.
    split; apply list_elem_of_fmap.
    - apply list_elem_of_fmap in Hs' as (n & Hn & Hin). exists n.
      split; [done|]. apply list_elem_of_filter. split; [congruence|done].
    - apply list_elem_of_fmap in Ht' as (n & Hn & Hin). exists n.
      split; [done|]. apply list_elem_of_filter. split; [congruence|done]. }
  split_and!.
  - unfold getNodeById. simpl.
    destruct (list_find _ _) as [[i n]|] eqn:Hfind; [|done]. exfalso.
    apply list_find_Some in Hfind as (Hi & Hid & _).
    apply list_elem_of_lookup_2, list_elem_of_filter in Hi as [Hne _]. done.
  - unfold getConnectedEdges. simpl.
    destruct (filter _ (filter _ _)) as [|e l] eqn:Hf; [done|]. exfalso.
    assert (e ∈ e :: l) as He by left. rewrite <- Hf in He.
    apply list_elem_of_filter in He as [Hor [[Hs Ht] _]%list_elem_of_filter].
    tauto.
  - destruct (createAdjacencyList_wf _ _ Hwf') as (adj & Hc & Hadj).
    exists adj. split; [done|]. split.
    + rewrite Hadj. by rewrite decide_False.
    + intros k (l & Hk & Hin). rewrite Hadj in Hk.
      case_decide; [|done]. injection Hk as <-.
      apply elem_of_incident_ids in Hin as [w Hw].
      by apply (adjacent_listed _ _ _ _ _ Hwf') in Hw as [_ ?].
  - intros a b w Ha Hb. simpl. rewrite adjacent_filter. unfold adjacent.
    split.
    + intros (e & He & _ & Hw & Hor). eauto.
    + intros (e & He & Hw & Hor). exists e.
      split; [done|]. split; [|done].
      destruct Hor as [[Hs Ht]|[Hs Ht]]; rewrite Hs, Ht; done.
Qed.

Lemma removeNode_leaves_no_trace_witness :
  getNodeById
    (removeNode (mkGraph "g" "cycle" None cycle_nodes cycle_edges
                   AsAdjacencyList) "C") "C" = None
  ∧ ∃ adj, createAdjacencyList
             (graph_nodes (removeNode (mkGraph "g" "cycle" None cycle_nodes
                                         cycle_edges AsAdjacencyList) "C"))
             (graph_edges (removeNode (mkGraph "g" "cycle" None cycle_nodes
                                         cycle_edges AsAdjacencyList) "C"))
           = Return adj
      ∧ adj !! "C" = None ∧ ∀ k, ¬ lists adj k "C".
Proof.
  destruct (removeNode_leaves_no_trace
              (mkGraph "g" "cycle" None cycle_nodes cycle_edges AsAdjacencyList)
              "C") as (Hfind & _ & Hadj & _).
  - apply (bool_decide_unpack _). by vm_compute.
  - split; [exact Hfind|exact Hadj].
Defined.

(** ** getNeighbors *)

Lemma elem_of_neighbor_ids nodeId edges x : ∀ acc,
  x ∈ foldl (neighbor_step nodeId) acc edges
  ↔ x ∈ acc ∨ ∃ w, adjacent edges nodeId x w.
Proof.
  induction edges as [|e edges IH]; intros acc; simpl.
  - split; [by left|]. intros [?|(w & e & ?%elem_of_nil & _)]; done.
  - rewrite IH. unfold neighbor_step, adjacent. split.
    + intros [Hx|(w & e' & He' & Hw & Hor)].
      * repeat case_decide.
        -- apply elem_of_set_add in Hx as [->|Hx]; [|by left].
           right. exists (effective_weight e), e.
           split_and!; [left|done|by left].
        -- apply elem_of_set_add in Hx as [->|Hx]; [|by left].
           right. exists (effective_weight e), e.
           split_and!; [left|done|by right].
        -- by left.
      * right. exists w, e'. split_and!; [by right|done..].
    + intros [Hx|(w & e' & He' & Hw & Hor)].
      * left. repeat case_decide; rewrite ?elem_of_set_add; auto.
      * apply elem_of_cons in He' as [->|He'].
        -- left. destruct Hor as [[Hs Ht]|[Hs Ht]].
           ++ rewrite decide_True by done. apply elem_of_set_add. by left.
           ++ destruct (decide (edge_source e = nodeId)) as [Hsn|Hsn].
              ** apply elem_of_set_add. left. congruence.
              ** rewrite decide_True by done. apply elem_of_set_add. by left.
        -- right. eauto.
Qed.

(** X19: [getNeighbors] and the adjacency list the runners work on agree: when
    the adjacency list of a graph is built, the neighbours [getNeighbors]
    returns for a node are the listed nodes that the adjacency list holds
    for it. *)
Theorem getNeighbors_agrees_with_list graph nodeId adj :
  createAdjacencyList (graph_nodes graph) (graph_edges graph) = Return adj →
  ∀ node, node ∈ getNeighbors graph nodeId
    ↔ node ∈ graph_nodes graph ∧ lists adj nodeId (node_id node).
Proof.
  intros Hc node.
  pose proof (createAdjacencyList_spec (graph_nodes graph) (graph_edges graph))
    as Hspec.
  rewrite Hc in Hspec. destruct Hspec as [Hwf Hadj].
  unfold getNeighbors, set_has. rewrite list_elem_of_filter.
  rewrite bool_decide_eq_true, elem_of_neighbor_ids.
  assert ((∃ w, adjacent (graph_edges graph) nodeId (node_id node) w)
          ↔ lists adj nodeId (node_id node)) as Hiff.
  { unfold lists. rewrite Hadj. split.
    - intros [w Hw].
      destruct (adjacent_listed _ _ _ _ _ Hwf Hw) as [Hin _].
      rewrite decide_True by done. eexists. split; [done|].
      apply elem_of_incident_ids. eauto.
    - intros (l & Hl & Hin). case_decide; [|done]. injection Hl as <-.
      by apply elem_of_incident_ids in Hin. }
  rewrite <- Hiff. split.
  - intros [[?%elem_of_nil|?] ?]; done.
  - intros [? ?]. split; [by right|done].
Qed.

Lemma getNeighbors_agrees_with_list_witness :
  ∃ adj, createAdjacencyList cycle_nodes cycle_edges = Return adj
    ∧ ∀ node,
        node ∈ getNeighbors (mkGraph "g" "cycle" None cycle_nodes cycle_edges
                               AsAdjacencyList) "A"
        ↔ node ∈ cycle_nodes ∧ lists adj "A" (node_id node).
Proof.
  assert (∃ adj, createAdjacencyList cycle_nodes cycle_edges = Return adj)
    as [adj Hadj] by (eexists; vm_compute; reflexivity).
  exists adj. split; [exact Hadj|].
  exact (getNeighbors_agrees_with_list
           (mkGraph "g" "cycle" None cycle_nodes cycle_edges AsAdjacencyList)
           "A" adj Hadj).
Defined.

(** ** Looking up, adding and removing an edge *)

Lemma hasEdge_false graph a b :
  hasEdge graph a b = false ↔ ∀ edge, edge ∈ graph_edges graph → ¬ joins a b edge.
Proof.
  rewrite <- not_true_iff_false, hasEdge_true. naive_solver.
Qed.

Lemma getEdge_Some graph a b edge :
  getEdge graph a b = Some edge →
  edge ∈ graph_edges graph ∧ joins a b edge.
Proof.
  unfold getEdge. intros ([i e] & Hfind & ->)%fmap_Some.
  apply list_find_Some in Hfind as (Hi & HP & _). simpl.
  split; [by eapply list_elem_of_lookup_2|done].
Qed.

Lemma getEdge_flip graph a b : getEdge graph a b = getEdge graph b a.
Proof.
  unfold getEdge. f_equal. apply list_find_ext. intros e.
  unfold joins. tauto.
Qed.

Lemma getEdge_app_l edges edges' graph graph' a b found :
  graph_edges graph = edges → graph_edges graph' = edges ++ edges' →
  getEdge graph a b = Some found → getEdge graph' a b = Some found.
Proof.
  unfold getEdge. intros -> ->.
  intros ([i e] & Hfind & ->)%fmap_Some.
  by rewrite (list_find_app_l _ _ _ _ _ Hfind).
Qed.

(** X20: [getEdge] and [hasEdge] do not look at the direction of an edge.
    After [addEdge] the two ends of the edge are joined, in both
    directions, and [getEdge] answers the edge that joined them first: the
    new edge when there was none, the old one otherwise.  In a graph with
    no two edges between the same two nodes, [removeEdge] of the edge that
    [getEdge] answers leaves the two nodes without an edge. *)
Theorem edge_added_found_removed graph edge :
  let a := edge_source edge in
  let b := edge_target edge in
  (∀ x y, hasEdge graph x y = hasEdge graph y x
          ∧ getEdge graph x y = getEdge graph y x
          ∧ (hasEdge graph x y = true ↔ is_Some (getEdge graph x y)))
  ∧ hasEdge (addEdge graph edge) a b = true
  ∧ getEdge (addEdge graph edge) a b
    = match getEdge graph a b with
      | Some found => Some found
      | None => Some edge
      end
  ∧ (simple (graph_edges graph) →
     ∀ x y found, getEdge graph x y = Some found →
       hasEdge (removeEdge graph (edge_id found)) x y = false).
Proof.
  intros a b. subst a b. split_and!.
  - intros x y. split_and!.
    + unfold hasEdge. apply bool_decide_ext. rewrite !Exists_exists.
      unfold joins. naive_solver.
    + apply getEdge_flip.
    + rewrite hasEdge_true. unfold getEdge. rewrite fmap_is_Some. split.
      * intros (e & He & Hj). by eapply list_find_elem_of.
      * intros [[i e] (Hi & He & _)%list_find_Some].
        exists e. split; [by eapply list_elem_of_lookup_2|done].
  - unfold addEdge. destruct (hasEdge graph _ _) eqn:Hhas; [done|].
    apply hasEdge_true. exists edge. simpl.
    split; [set_solver|by left].
  - unfold addEdge. destruct (hasEdge graph _ _) eqn:Hhas.
    + apply hasEdge_true in Hhas as (e & He & Hj).
      destruct (list_find_elem_of (joins _ _) _ _ He Hj) as [[i f] Hf].
      unfold getEdge. by rewrite Hf.
    + assert (list_find (joins (edge_source edge) (edge_target edge))
                (graph_edges graph) = None) as Hnone.
      { apply list_find_None, Forall_forall. by apply hasEdge_false. }
      unfold getEdge. simpl. rewrite Hnone. simpl.
      rewrite list_find_app_r by done. simpl.
      rewrite decide_True by by left. done.
  - intros Hsimple x y found ([i e] & Hfind & [= ->])%fmap_Some.
    apply list_find_Some in Hfind as (Hi & Hj & _).
    apply hasEdge_false. simpl.
    intros e' [Hid [j Hj']%list_elem_of_lookup_1]%list_elem_of_filter Hj2.
    destruct (decide (i = j)) as [->|Hne]; [congruence|].
    apply (Hsimple i j e e' Hne Hi Hj').
    unfold joins in *. naive_solver.
Qed.

Lemma edge_added_found_removed_witness :
  hasEdge
    (removeEdge (mkGraph "g" "g" None path_nodes path_edges AsAdjacencyList)
       "A-B") "B" "A" = false.
Proof.
  destruct (edge_added_found_removed
              (mkGraph "g" "g" None path_nodes path_edges AsAdjacencyList)
              (sample_edge "A" "C" None)) as (_ & _ & _ & Hremove).
  apply (λ H, Hremove H "B" "A" (sample_edge "A" "B" (Some 1%Z)));
    [|reflexivity].
  intros i j e e' Hne Hi Hj.
  destruct i as [|[|i]], j as [|[|j]]; try done;
    injection Hi as <-; injection Hj as <-; by intros [[? ?]|[? ?]].
Defined.

(** ** The degree of a node *)

Lemma length_incident k edges :
  length (incident k edges)
  = length (filter (λ edge, edge_source edge = k ∨ edge_target edge = k) edges)
    + length (filter (λ edge, edge_source edge = k ∧ edge_target edge = k)
                edges).
Proof.
  induction edges as [|e edges IH]; [done|].
  cbn [incident]. rewrite !length_app, IH, !filter_cons.
  destruct (decide (edge_source e = k)) as [Hs|Hs],
    (decide (edge_target e = k)) as [Ht|Ht].
  - rewrite !decide_True by tauto. simpl. lia.
  - rewrite decide_True, decide_False by tauto. simpl. lia.
  - rewrite decide_True, decide_False by tauto. simpl. lia.
  - rewrite !decide_False by tauto. simpl. lia.
Qed.

(** X21: The adjacency list of a graph holds, for a listed node, one entry for
    each edge [getConnectedEdges] returns for it and one more for each of
    them that is a loop: an edge from a node to itself is listed twice
    among the neighbours of the node.  For a node that is not listed it
    holds nothing, whatever [getConnectedEdges] returns. *)
Theorem adjacency_counts_loops_twice graph adj nodeId :
  createAdjacencyList (graph_nodes graph) (graph_edges graph) = Return adj →
  match adj !! nodeId with
  | Some neighbors =>
      nodeId ∈ node_ids (graph_nodes graph)
      ∧ length neighbors
        = length (getConnectedEdges graph nodeId)
          + length (filter (λ edge, edge_source edge = nodeId
                                    ∧ edge_target edge = nodeId)
                      (getConnectedEdges graph nodeId))
  | None =>
      nodeId ∉ node_ids (graph_nodes graph)
      ∧ getConnectedEdges graph nodeId = []
  end.
Proof.
  intros Hc.
  pose proof (createAdjacencyList_spec (graph_nodes graph) (graph_edges graph))
    as Hspec.
  rewrite Hc in Hspec. destruct Hspec as [Hwf Hadj]. rewrite Hadj.
  case_decide as Hin.
  - split; [done|]. rewrite length_incident. unfold getConnectedEdges.
    f_equal. rewrite list_filter_filter. f_equal.
    apply list_filter_iff. intros e. tauto.
  - split; [done|]. unfold getConnectedEdges.
    destruct (filter _ (graph_edges graph)) as [|e l] eqn:Hf; [done|].
    exfalso. assert (e ∈ filter (λ edge, edge_source edge = nodeId
                                  ∨ edge_target edge = nodeId)
                           (graph_edges graph)) as He.
    { rewrite Hf. by left. }
    apply list_elem_of_filter in He as [Hor He].
    unfold wf_edges in Hwf. rewrite Forall_forall in Hwf.
    destruct (Hwf e He) as [? ?]. destruct Hor; congruence.
Qed.

Lemma adjacency_counts_loops_twice_witness :
  "A" ∈ node_ids [sample_node "A"]
  ∧ 2 = length (getConnectedEdges
                  (mkGraph "g" "g" None [sample_node "A"]
                     [sample_edge "A" "A" None] AsAdjacencyList) "A")
        + length (filter (λ edge, edge_source edge = "A"
                                  ∧ edge_target edge = "A")
                    (getConnectedEdges
                       (mkGraph "g" "g" None [sample_node "A"]
                          [sample_edge "A" "A" None] AsAdjacencyList) "A")).
Proof.
  exact (adjacency_counts_loops_twice
           (mkGraph "g" "g" None [sample_node "A"] [sample_edge "A" "A" None]
              AsAdjacencyList)
           (<["A" := [mkNeighbor "A" 1; mkNeighbor "A" 1]]> ∅) "A" eq_refl).
Defined.

(** * The in-memory storage *)

(** ** Maps in insertion order *)

Lemma map_get_Some {V} (key : Z) (entries : list (Z * V)) v :
  map_get key entries = Some v → (key, v) ∈ entries.
Proof.
  induction entries as [|[k v'] entries IH]; simpl; [done|].
  case_decide as Hk; [intros [= ->]; subst; left|].
  intros H. right. auto.
Qed.

Lemma map_get_None {V} (key : Z) (entries : list (Z * V)) :
  map_get key entries = None ↔ key ∉ entries.*1.
Proof.
  induction entries as [|[k v'] entries IH]; cbn [map_get].
  - split; [by intros _ ?%elem_of_nil|done].
  - rewrite fmap_cons. cbn [fst].
    case_decide as Hk; [subst; split; [done|set_solver]|].
    rewrite IH. set_solver.
Qed.

Lemma map_get_set_eq {V} (key : Z) (v : V) entries :
  map_get key (map_set key v entries) = Some v.
Proof.
  induction entries as [|[k v'] entries IH]; simpl.
  - by rewrite decide_True.
  - case_decide; simpl; [by rewrite decide_True|]. by rewrite decide_False.
Qed.

Lemma map_get_set_ne {V} (key key' : Z) (v : V) entries :
  key' ≠ key → map_get key' (map_set key v entries) = map_get key' entries.
Proof.
  intros Hne. induction entries as [|[k v'] entries IH]; simpl.
  - by rewrite decide_False.
  - case_decide; simpl; [subst; by rewrite !decide_False|]. by rewrite IH.
Qed.

Lemma map_set_new {V} (key : Z) (v : V) entries :
  key ∉ entries.*1 → map_set key v entries = entries ++ [(key, v)].
Proof.
  induction entries as [|[k v'] entries IH]; cbn [map_set]; [done|].
  rewrite fmap_cons. cbn [fst]. intros Hk.
  rewrite decide_False by set_solver. rewrite IH; set_solver.
Qed.

Lemma map_set_keys {V} (key : Z) (v : V) entries :
  key ∈ entries.*1 → (map_set key v entries).*1 = entries.*1.
Proof.
  induction entries as [|[k v'] entries IH]; cbn [map_set];
    [by intros ?%elem_of_nil|].
  rewrite !fmap_cons. cbn [fst].
  case_decide as Hk; [by subst|]. intros Hin.
  rewrite fmap_cons, IH; set_solver.
Qed.

Lemma map_set_Forall {V} (P : Z * V → Prop) (key : Z) (v : V) entries :
  Forall P entries → P (key, v) → Forall P (map_set key v entries).
Proof.
  intros Hall Hv. induction entries as [|[k v'] entries IH]; simpl.
  - by constructor.
  - apply Forall_cons in Hall as [Hh Ht].
    case_decide; constructor; auto.
Qed.

Lemma map_get_filter_ne {V} (key key' : Z) (entries : list (Z * V)) :
  key' ≠ key →
  map_get key' (filter (λ entry, entry.1 ≠ key) entries) = map_get key' entries.
Proof.
  intros Hne. induction entries as [|[k v'] entries IH]; [done|].
  rewrite filter_cons. simpl. case_decide as Hk; simpl.
  - case_decide; [done|]. apply IH.
  - subst. rewrite decide_False by done. apply IH.
Qed.

Lemma map_get_filter_eq {V} (key : Z) (entries : list (Z * V)) :
  map_get key (filter (λ entry, entry.1 ≠ key) entries) = None.
Proof.
  apply map_get_None.
  intros ([k v] & Hk & [Hne _]%list_elem_of_filter)%list_elem_of_fmap.
  simpl in *. by subst.
Qed.

Lemma filter_keys {V} (key : Z) (entries : list (Z * V)) :
  (filter (λ entry, entry.1 ≠ key) entries).*1
  = filter (λ k, k ≠ key) (entries.*1).
Proof.
  induction entries as [|[k v] entries IH]; [done|].
  rewrite fmap_cons, !filter_cons. cbn [fst].
  case_decide; [by rewrite fmap_cons, IH|done].
Qed.

(** ** The invariant of the storage *)

Lemma ids_are_keys (entries : list (Z * GraphRecord)) :
  Forall (λ entry, record_id entry.2 = entry.1) entries →
  record_id <$> entries.*2 = entries.*1.
Proof.
  induction 1 as [|[k g] l Hk _ IH]; [done|].
  rewrite !fmap_cons. simpl in *. by rewrite Hk, IH.
Qed.

Lemma storage_ok_kept this :
  storage_ok this →
  storage_ok newMemStorage
  ∧ (∀ now insertGraph, storage_ok (createGraph this now insertGraph).2)
  ∧ (∀ id updateData, storage_ok (updateGraph this id updateData).2)
  ∧ (∀ id, storage_ok (deleteGraph this id).2)
  ∧ (∀ insertUser, storage_ok (createUser this insertUser).2).
Proof.
  intros [Hnd Hall]. split_and!.
  - split; simpl; [apply NoDup_nil_2|by apply Forall_nil].
  - intros now insertGraph. unfold createGraph, storage_ok. simpl.
    assert (graphIdCounter this ∉ (graphs this).*1) as Hfresh.
    { intros ([k g] & Hk & Hin)%list_elem_of_fmap. simpl in Hk.
      rewrite Forall_forall in Hall. destruct (Hall _ Hin) as [Hlt _].
      simpl in Hlt. lia. }
    rewrite map_set_new by done. rewrite fmap_app. simpl. split.
    + apply NoDup_app. split_and!; [done| |apply NoDup_singleton].
      intros k Hk ->%list_elem_of_singleton. done.
    + apply Forall_app. split.
      * eapply Forall_impl; [exact Hall|]. intros [k g] [Hlt Hid]. simpl in *.
        split; [lia|done].
      * apply Forall_singleton. simpl. split; [lia|done].
  - intros id updateData. unfold updateGraph.
    destruct (map_get id (graphs this)) as [g|] eqn:Hg; [|done].
    unfold storage_ok. simpl.
    pose proof (map_get_Some _ _ _ Hg) as Hin.
    rewrite map_set_keys
      by (apply list_elem_of_fmap; exists (id, g); by split).
    split; [done|]. apply map_set_Forall; [done|]. simpl.
    rewrite Forall_forall in Hall. apply (Hall _ Hin).
  - intros id. unfold deleteGraph, map_delete, storage_ok. simpl. split.
    + rewrite filter_keys. by apply NoDup_filter.
    + rewrite Forall_forall in Hall. apply Forall_forall.
      intros entry [_ Hin]%list_elem_of_filter. by apply Hall.
  - intros insertUser. by split.
Qed.

Lemma after_calls_ok calls : ∀ this,
  storage_ok this → storage_ok (foldl after_call this calls).
Proof.
  induction calls as [|call calls IH]; intros this Hok; [done|].
  simpl. apply IH.
  destruct (storage_ok_kept this Hok) as (_ & Hc & Hu & Hd & Hcu).
  destruct call as [insertUser|now insertGraph|id updateData|id];
    cbn [after_call]; auto.
Qed.

(** X22: Whatever calls a new storage has gone through, the graphs it holds
    have ids different from one another, [getGraph] of an id answers a
    record with that id or nothing, and every id in use is smaller than the
    id the next [createGraph] gives. *)
Theorem storage_ids_distinct calls :
  let this := foldl after_call newMemStorage calls in
  NoDup (record_id <$> getAllGraphs this)
  ∧ (∀ id graph, getGraph this id = Some graph → record_id graph = id)
  ∧ ∀ graph now insertGraph, graph ∈ getAllGraphs this →
      (record_id graph < record_id (createGraph this now insertGraph).1)%Z.
Proof.
  intros this.
  assert (storage_ok this) as [Hnd Hall].
  { apply after_calls_ok. by destruct (storage_ok_kept newMemStorage) as [? _];
      [split; simpl; [apply NoDup_nil_2|apply Forall_nil]|]. }
  assert (Forall (λ entry : Z * GraphRecord, record_id entry.2 = entry.1)
            (graphs this)) as Hids.
  { eapply Forall_impl; [exact Hall|]. by intros ? [_ ?]. }
  rewrite Forall_forall in Hall. unfold getAllGraphs, getGraph. split_and!.
  - by rewrite ids_are_keys.
  - intros id graph Hin%map_get_Some. by destruct (Hall _ Hin) as [_ ?].
  - intros graph now insertGraph ([k g] & -> & Hin)%list_elem_of_fmap.
    destruct (Hall _ Hin) as [Hlt Hid]. simpl in *. lia.
Qed.

Lemma counter_grows calls : ∀ this,
  (graphIdCounter this ≤ graphIdCounter (foldl after_call this calls))%Z.
Proof.
  induction calls as [|call calls IH]; intros this; [done|].
  simpl. etrans; [|apply IH].
  destruct call as [insertUser|now insertGraph|id updateData|id]; simpl;
    [lia|lia| |].
  - unfold updateGraph. destruct (map_get id (graphs this)); simpl; lia.
  - unfold deleteGraph, map_delete. simpl. lia.
Qed.

(** X23: An id is given once: a graph created later, whatever calls lie in
    between (deletions too), has a larger id than a graph created before.
    The id of a deleted graph is not given again. *)
Theorem graph_ids_never_reused this now insertGraph calls now' insertGraph' :
  let first := createGraph this now insertGraph in
  let later :=
    createGraph (foldl after_call first.2 calls) now' insertGraph' in
  (record_id first.1 < record_id later.1)%Z.
Proof.
  intros first later. unfold later. simpl.
  pose proof (counter_grows calls first.2) as Hle.
  simpl in Hle. lia.
Qed.

(** ** Graphs in the storage *)

(** X24: [createGraph] stores the new record under an id that no stored graph
    has, and returns it: the record is found under its id, every other id
    gives what it gave before, and the new record comes last in
    [getAllGraphs].  Its creation time is the reading of the clock, not the
    time the caller passed. *)
Theorem createGraph_stores this now insertGraph :
  storage_ok this →
  ∃ created this',
    createGraph this now insertGraph = (created, this')
    ∧ getGraph this (record_id created) = None
    ∧ getGraph this' (record_id created) = Some created
    ∧ (∀ id, id ≠ record_id created → getGraph this' id = getGraph this id)
    ∧ getAllGraphs this' = getAllGraphs this ++ [created]
    ∧ record_createdAt created = now
    ∧ record_name created = insert_name insertGraph
    ∧ record_data created = insert_data insertGraph.
Proof.
  intros [Hnd Hall]. eexists _, _. split; [reflexivity|].
  assert (graphIdCounter this ∉ (graphs this).*1) as Hfresh.
  { intros ([k g] & Hk & Hin)%list_elem_of_fmap. simpl in Hk.
    rewrite Forall_forall in Hall. destruct (Hall _ Hin) as [Hlt _].
    simpl in Hlt. lia. }
  unfold getGraph, getAllGraphs. simpl. split_and!; try done.
  - by apply map_get_None.
  - apply map_get_set_eq.
  - intros id Hid. by apply map_get_set_ne.
  - rewrite map_set_new by done. by rewrite fmap_app.
Qed.

Lemma createGraph_stores_witness :
  ∃ created this',
    createGraph newMemStorage "2024-01-01T00:00:00.000Z"
      (mkInsertGraph "g" None (createEmptyGraph "g" "g" None) None "1999")
    = (created, this')
    ∧ getGraph this' (record_id created) = Some created
    ∧ record_createdAt created = "2024-01-01T00:00:00.000Z".
Proof.
  destruct (createGraph_stores newMemStorage "2024-01-01T00:00:00.000Z"
              (mkInsertGraph "g" None (createEmptyGraph "g" "g" None) None
                 "1999"))
    as (created & this' & Hc & _ & Hget & _ & _ & Hnow & _).
  - split; simpl; [apply NoDup_nil_2|by apply Forall_nil].
  - exists created, this'. split; [exact Hc|]. split; [exact Hget|exact Hnow].
Defined.

(** X25: [deleteGraph] answers whether the graph was there; afterwards the id
    gives nothing, every other id gives what it gave before, and the
    counter of ids is as it was. *)
Theorem deleteGraph_removes this id :
  ∃ existed this',
    deleteGraph this id = (existed, this')
    ∧ (existed = true ↔ is_Some (getGraph this id))
    ∧ getGraph this' id = None
    ∧ (∀ id', id' ≠ id → getGraph this' id' = getGraph this id')
    ∧ graphIdCounter this' = graphIdCounter this
    ∧ getAllGraphs this' `sublist_of` getAllGraphs this.
Proof.
  eexists _, _. split; [reflexivity|].
  unfold getGraph, getAllGraphs. simpl. split_and!.
  - apply bool_decide_eq_true.
  - apply map_get_filter_eq.
  - intros id' Hne. by apply map_get_filter_ne.
  - done.
  - apply fmap_sublist, sublist_filter.
Qed.


(** X26: [updateGraph] of an id that is not stored answers [undefined] and
    leaves the storage as it is.  For a stored id it answers the stored
    record with the properties of [updateData] written over it, and stores
    it under the same id, at the same place: the id of the record is kept,
    every other id gives what it gave before, and the ids of
    [getAllGraphs] are in the order they were. *)
Theorem updateGraph_merges this id updateData :
  storage_ok this →
  match getGraph this id with
  | None => updateGraph this id updateData = (None, this)
  | Some graph =>
      ∃ this',
        updateGraph this id updateData
        = (Some (merge_record graph updateData), this')
        ∧ getGraph this' id = Some (merge_record graph updateData)
        ∧ record_id (merge_record graph updateData) = id
        ∧ (∀ id', id' ≠ id → getGraph this' id' = getGraph this id')
        ∧ record_id <$> getAllGraphs this' = record_id <$> getAllGraphs this
  end.
Proof.
  intros [Hnd Hall]. unfold getGraph, updateGraph, getAllGraphs.
  destruct (map_get id (graphs this)) as [graph|] eqn:Hget; [|done].
  eexists. split; [reflexivity|]. simpl.
  apply map_get_Some in Hget as Hin.
  assert (Forall (λ entry : Z * GraphRecord, record_id entry.2 = entry.1)
            (graphs this)) as Hids.
  { eapply Forall_impl; [exact Hall|]. by intros ? [_ ?]. }
  rewrite Forall_forall in Hall. destruct (Hall _ Hin) as [_ Hid].
  simpl in Hid.
  split_and!.
  - apply map_get_set_eq.
  - done.
  - intros id' Hne. by apply map_get_set_ne.
  - rewrite !ids_are_keys; [|done|by apply map_set_Forall].
    apply map_set_keys. apply list_elem_of_fmap. by exists (id, graph).
Qed.

Lemma updateGraph_merges_witness :
  ∃ this',
    updateGraph
      (createGraph newMemStorage "2024-01-01T00:00:00.000Z"
         (mkInsertGraph "g" None (createEmptyGraph "g" "g" None) None "")).2
      1 (mkGraphUpdates (Some "h") None None None None)
    = (Some
         (mkGraphRecord 1 "h" None (createEmptyGraph "g" "g" None) None
            "2024-01-01T00:00:00.000Z"), this')
    ∧ getGraph this' 1
      = Some
          (mkGraphRecord 1 "h" None (createEmptyGraph "g" "g" None) None
             "2024-01-01T00:00:00.000Z")
    ∧ 1%Z = 1%Z
    ∧ (∀ id', id' ≠ 1%Z →
         getGraph this' id'
         = getGraph
             (createGraph newMemStorage "2024-01-01T00:00:00.000Z"
                (mkInsertGraph "g" None (createEmptyGraph "g" "g" None) None
                   "")).2 id')
    ∧ record_id <$> getAllGraphs this' = [1%Z].
Proof.
  apply (updateGraph_merges
           (createGraph newMemStorage "2024-01-01T00:00:00.000Z"
              (mkInsertGraph "g" None (createEmptyGraph "g" "g" None) None
                 "")).2
           1 (mkGraphUpdates (Some "h") None None None None)).
  split; simpl.
  - apply NoDup_singleton.
  - apply Forall_singleton. simpl. split; [lia|reflexivity].
Defined.

(** ** Users *)

(** X27: [createUser] does not look at the names in use: the new user is found
    under its id, but under its name only when no earlier user has that
    name; otherwise [getUserByUsername] keeps answering the earlier
    user. *)
Theorem createUser_lookup this insertUser :
  users_ok this →
  ∃ user this',
    createUser this insertUser = (user, this')
    ∧ users_ok this'
    ∧ getUser this (user_id user) = None
    ∧ getUser this' (user_id user) = Some user
    ∧ username user = insert_username insertUser
    ∧ getUserByUsername this' (insert_username insertUser)
      = match getUserByUsername this (insert_username insertUser) with
        | Some earlier => Some earlier
        | None => Some user
        end.
Proof.
  intros Hok. eexists _, _. split; [reflexivity|].
  assert (userIdCounter this ∉ (users this).*1) as Hfresh.
  { intros ([k g] & Hk & Hin)%list_elem_of_fmap. simpl in Hk.
    unfold users_ok in Hok. rewrite Forall_forall in Hok.
    specialize (Hok _ Hin). simpl in Hok. lia. }
  unfold users_ok, getUser, getUserByUsername. simpl.
  rewrite map_set_new by done. split_and!.
  - apply Forall_app. split.
    + eapply Forall_impl; [exact Hok|]. intros [k u] Hlt. simpl in *. lia.
    + apply Forall_singleton. simpl. lia.
  - by apply map_get_None.
  - rewrite <- (map_set_new _ _ _ Hfresh). apply map_get_set_eq.
  - done.
  - rewrite fmap_app. simpl.
    generalize ((users this).*2). intros l.
    induction l as [|u l IH]; simpl.
    + by rewrite decide_True.
    + case_decide; [done|].
      destruct (list_find _ (l ++ _)) as [[i u1]|],
        (list_find _ l) as [[j u2]|]; simpl in *; congruence.
Qed.

Lemma createUser_lookup_witness :
  ∃ user this',
    createUser (createUser newMemStorage (mkInsertUser "ada" "x")).2
      (mkInsertUser "ada" "y") = (user, this')
    ∧ user_id user = 2%Z
    ∧ getUserByUsername this' "ada" = Some (mkUser 1 "ada" "x").
Proof.
  destruct (createUser_lookup
              (createUser newMemStorage (mkInsertUser "ada" "x")).2
              (mkInsertUser "ada" "y"))
    as (user & this' & Hc & _ & _ & _ & _ & Hname).
  - apply Forall_singleton. simpl. lia.
  - exists user, this'. split; [exact Hc|].
    split; [by injection Hc as <- _|exact Hname].
Defined.

(** ** executeAlgorithm *)

Lemma createAdjacencyList_not_wf nodes edges :
  ¬ wf_edges nodes edges →
  ∃ key, key ∉ node_ids nodes
    ∧ createAdjacencyList nodes edges = Throw (TypeError (AdjacencyPush key)).
Proof.
  intros Hwf. pose proof (createAdjacencyList_spec nodes edges) as H.
  destruct (createAdjacencyList nodes edges) as [adj|e|]; [| |done].
  - by destruct H as [? _].
  - destruct H as (key & -> & Hkey & _). by exists key.
Qed.

(** X28: The order in which [executeAlgorithm] fails: a graph id that is not
    stored gives "Graph not found", whatever the algorithm; for a stored
    graph one of whose edges names a node that is not listed, the build of
    the adjacency list fails before the name of the algorithm is looked
    at; only on a graph that passes the build is a name other than the
    four reported as unsupported. *)
Theorem executeAlgorithm_failure_order this startTime endTime graphId
    algorithm startNodeId targetNodeId :
  match getGraph this graphId with
  | None =>
      executeAlgorithm this startTime endTime graphId algorithm startNodeId
        targetNodeId
      = Throw (Error "Graph not found")
  | Some graphRecord =>
      let nodes := graph_nodes (record_data graphRecord) in
      let edges := graph_edges (record_data graphRecord) in
      (¬ wf_edges nodes edges →
       ∃ key, key ∉ node_ids nodes
         ∧ executeAlgorithm this startTime endTime graphId algorithm
             startNodeId targetNodeId
           = Throw (TypeError (AdjacencyPush key)))
      ∧ (wf_edges nodes edges →
         algorithm ∉ ["bfs"; "dfs"; "dijkstra"; "astar"] →
         executeAlgorithm this startTime endTime graphId algorithm
           startNodeId targetNodeId
         = Throw (Error ("Unsupported algorithm: " +:+ algorithm)))
  end.
Proof.
  unfold executeAlgorithm.
  destruct (getGraph this graphId) as [graphRecord|]; [|done].
  cbv zeta. split.
  - intros (key & Hkey & Hc)%createAdjacencyList_not_wf.
    exists key. split; [done|]. by rewrite Hc.
  - intros (adj & Hc & _)%createAdjacencyList_wf Hname.
    rewrite Hc. cbn [mbind outcome_bind].
    rewrite !not_elem_of_cons in Hname.
    destruct Hname as (? & ? & ? & ? & _).
    unfold run_selected. by rewrite !decide_False by done.
Qed.

Lemma executeAlgorithm_failure_order_witness :
  ∃ key,
    executeAlgorithm (sample_storage apart_nodes dangling_edges) 0 5 1 "prim"
      "A" None
    = Throw (TypeError (AdjacencyPush key)).
Proof.
  pose proof (executeAlgorithm_failure_order
                (sample_storage apart_nodes dangling_edges) 0 5 1 "prim" "A"
                None) as H.
  hnf in H. cbv zeta in H. destruct H as [H _].
  destruct H as (key & _ & H).
  - intros Hwf. apply (bool_decide_pack _) in Hwf. by vm_compute in Hwf.
  - by exists key.
Defined.

(** X29: On a stored graph [executeAlgorithm] agrees with the runner of the
    client of the same name: the same error, or the same trace, with the
    measured time in place of the 0 of the client.  The one exception is
    A* without a target on a graph one of whose edges names a node that is
    not listed: the server fails in the build of the adjacency list, the
    client reports the missing target. *)
Theorem executeAlgorithm_agrees_with_client this startTime endTime graphId
    graphRecord startNodeId targetNodeId :
  getGraph this graphId = Some graphRecord →
  let nodes := graph_nodes (record_data graphRecord) in
  let edges := graph_edges (record_data graphRecord) in
  let server algorithm :=
    executeAlgorithm this startTime endTime graphId algorithm startNodeId
      targetNodeId in
  agrees startTime endTime (server "bfs")
    (executeBFS nodes edges startNodeId targetNodeId)
  ∧ agrees startTime endTime (server "dfs")
      (executeDFS nodes edges startNodeId targetNodeId)
  ∧ agrees startTime endTime (server "dijkstra")
      (executeDijkstra nodes edges startNodeId targetNodeId)
  ∧ (truthy targetNodeId = true ∨ wf_edges nodes edges →
     agrees startTime endTime (server "astar")
       (executeAStar nodes edges startNodeId targetNodeId))
  ∧ (truthy targetNodeId = false → ¬ wf_edges nodes edges →
     executeAStar nodes edges startNodeId targetNodeId = Throw MissingTarget
     ∧ ∃ key, server "astar" = Throw (TypeError (AdjacencyPush key))).
Proof.
  intros Hget nodes edges server. unfold server, executeAlgorithm.
  rewrite Hget. fold nodes edges.
  split_and!.
  - unfold executeBFS, bfs_run.
    destruct (createAdjacencyList nodes edges) as [adj|e|];
      cbn [mbind outcome_bind]; [|done|done].
    unfold run_selected. rewrite decide_True by done.
    destruct (bfs_loop _ _ _ _) as [st|e|]; by cbn.
  - unfold executeDFS, dfs_run.
    destruct (createAdjacencyList nodes edges) as [adj|e|];
      cbn [mbind outcome_bind]; [|done|done].
    unfold run_selected. rewrite decide_False, decide_True by done.
    destruct (dfs_loop _ _ _ _) as [st|e|]; by cbn.
  - unfold executeDijkstra, dj_run.
    destruct (createAdjacencyList nodes edges) as [adj|e|];
      cbn [mbind outcome_bind]; [|done|done].
    unfold run_selected. rewrite !decide_False, decide_True by done.
    destruct (dj_loop _ _ _ _ _) as [st|e|]; cbn [mbind outcome_bind];
      [|done|done].
    destruct (dj_final _ _ _) as [st'|e|]; by cbn.
  - intros Hor. unfold executeAStar. rewrite as_run_search.
    destruct (truthy targetNodeId) eqn:Ht.
    + destruct (createAdjacencyList nodes edges) as [adj|e|];
        cbn [mbind outcome_bind]; [|done|done].
      unfold run_selected. rewrite !decide_False, decide_True by done.
      destruct (as_search _ _ _ _) as [st|e|]; by cbn.
    + destruct Hor as [?|Hwf]; [done|].
      destruct (createAdjacencyList_wf _ _ Hwf) as (adj & -> & _).
      cbn [mbind outcome_bind].
      unfold run_selected. rewrite !decide_False, decide_True by done.
      unfold as_search. destruct targetNodeId as [t|]; [|done].
      by rewrite Ht.
  - intros Ht (key & _ & Hc)%createAdjacencyList_not_wf. split.
    + unfold executeAStar. rewrite as_run_search, Ht. done.
    + exists key. by rewrite Hc.
Qed.

Lemma executeAlgorithm_agrees_with_client_witness :
  agrees 0 5
    (executeAlgorithm (sample_storage cycle_nodes cycle_edges) 0 5 1 "dfs"
       "A" (Some "C"))
    (executeDFS cycle_nodes cycle_edges "A" (Some "C")).
Proof.
  pose proof (executeAlgorithm_agrees_with_client
                (sample_storage cycle_nodes cycle_edges) 0 5 1
                (mkGraphRecord 1 "sample" None
                   (mkGraph "g" "sample" None cycle_nodes cycle_edges
                      AsAdjacencyList) None "2024-01-01T00:00:00.000Z")
                "A" (Some "C") eq_refl) as H.
  cbv zeta in H. destruct H as (_ & H & _). exact H.
Defined.
